(** * Agent Trace: the trace store, the diff matcher and the report fold

    A shallow embedding of the TypeScript sources of agent-trace:

    - [lib/schemas.ts]: the zod schemas of a trace record;
    - [lib/git-notes.ts]: [consolidateTraces], [readTracesFromNotes],
      [writeTracesToNotes], [ensureNotesRef];
    - [lib/git-hooks.ts]: [attachStagingTraces];
    - [analyze/git-utils.ts]: the unified-diff loop of [getCommitInfo];
    - [analyze/analyzer.ts]: [analyzeCommit];
    - [analyze/report-generator.ts]: [generateReport].

    Pure code is written as Rocq functions.  Code that talks to the git
    binary, the file system or the console is written as a program tree
    ([Prog]) whose nodes are the calls the source makes, in the order it
    makes them; a handler gives the tree a meaning on a model repository. *)

From Stdlib Require Import ZArith QArith_base Qreduction Ascii String List Bool Lia.
From Stdlib Require Import DecimalString DecimalNat DecimalZ DecimalPos Decimal.
From stdpp Require Import base option list strings gmap.

#[global] Set Warnings "-clear-no-such-hyp".

Close Scope Q_scope.
Open Scope string_scope.
Open Scope list_scope.
Open Scope Z_scope.

(* ===================================================================== *)
(** ** JSON values *)
(* ===================================================================== *)

#[local] Set Warnings "-register-all".

(** What [JSON.parse] returns.  An object is kept as its list of members in
    source order; a parsed object has no repeated member name. *)
Inductive json : Type :=
| JNull
| JBool (b : bool)
| JNum (q : Q)
| JStr (s : string)
| JArr (items : list json)
| JObj (members : list (string * json)).

(** [o.k] on a parsed object: [None] stands for [undefined]. *)
Fixpoint member (k : string) (members : list (string * json)) : option json :=
  match members with
  | [] => None
  | (k', v) :: rest => if String.eqb k' k then Some v else member k rest
  end.

(** JavaScript truthiness of a JSON value. *)
Definition truthy (v : json) : bool :=
  match v with
  | JNull => false
  | JBool b => b
  | JNum q => negb (Qeq_bool q (0 # 1))
  | JStr s => negb (String.eqb s "")
  | JArr _ | JObj _ => true
  end.

(** SameValueZero, the equality a JavaScript [Map] uses on its keys.
    Primitives are compared by value.  Arrays and objects are compared by
    reference: two values that come out of [JSON.parse] are never the same
    object, so they are never the same key. *)
Definition sameValueZero (a b : json) : bool :=
  match a, b with
  | JNull, JNull => true
  | JBool x, JBool y => Bool.eqb x y
  | JNum x, JNum y => Qeq_bool x y
  | JStr x, JStr y => String.eqb x y
  | _, _ => false
  end.

(* ===================================================================== *)
(** ** The record model (lib/schemas.ts) *)
(* ===================================================================== *)

Inductive ContributorType := human | ai | mixed | unknown.

Inductive VcsType := git | jj | hg | svn.

Record Tool := mkTool {
  tool_name : string;
  tool_version : option string
}.

Record Contributor := mkContributor {
  type : ContributorType;
  model_id : option string
}.

Record RelatedResource := mkRelated {
  related_type : string;
  related_url : string
}.

Record Range := mkRange {
  start_line : Z;
  end_line : Z;
  content_hash : option string;
  range_contributor : option Contributor
}.

Record Conversation := mkConversation {
  url : option string;
  contributor : option Contributor;
  ranges : list Range;
  related : option (list RelatedResource)
}.

Record File := mkFile {
  path : string;
  conversations : list Conversation
}.

Record Vcs := mkVcs {
  vcs_type : VcsType;
  revision : string
}.

Record TraceRecord := mkTrace {
  version : string;
  id : string;
  timestamp : string;
  vcs : option Vcs;
  tool : option Tool;
  files : list File;
  metadata : option (list (string * json))
}.

#[global] Instance ContributorType_eq_dec : EqDecision ContributorType.
Proof. solve_decision. Defined.

(* ===================================================================== *)
(** ** Consolidation (lib/git-notes.ts, consolidateTraces) *)
(* ===================================================================== *)

Module Consolidate.

(** A number inside a template literal: the decimal digits of an integer. *)
Definition show_Z (z : Z) : string := NilZero.string_of_int (Z.to_int z).

(** [`${r.start_line}-${r.end_line}`] *)
Definition rangeKey (r : Range) : string :=
  show_Z (start_line r) ++ "-" ++ show_Z (end_line r).

(** The inner loop over [conv.ranges]: a range is pushed onto
    [existing.ranges] when its key is not in [existingRanges], and its key
    is then added to the set. *)
Fixpoint pushNewRanges (existing : list Range) (existingRanges : gset string)
    (incoming : list Range) : list Range :=
  match incoming with
  | [] => existing
  | range :: rest =>
      let rangeKey := rangeKey range in
      if decide (rangeKey ∈ existingRanges)
      then pushNewRanges existing existingRanges rest
      else pushNewRanges (existing ++ [range]) ({[rangeKey]} ∪ existingRanges) rest
  end.

(** The [if (existing)] branch: the set is built from [existing.ranges]. *)
Definition mergeRanges (existing incoming : list Range) : list Range :=
  pushNewRanges existing (list_to_set (map rangeKey existing)) incoming.

(** [c.contributor?.type]: [None] is [undefined]. *)
Definition contributor_type (c : Conversation) : option ContributorType :=
  type <$> contributor c.

(** [c.contributor?.model_id] *)
Definition contributor_model (c : Conversation) : option string :=
  contributor c ≫= model_id.

(** The predicate handed to [fileEntry.conversations.find]. *)
Definition sameContributor (c conv : Conversation) : bool :=
  bool_decide (contributor_type c = contributor_type conv) &&
  bool_decide (contributor_model c = contributor_model conv).

Definition with_ranges (c : Conversation) (rs : list Range) : Conversation :=
  {| url := url c; contributor := contributor c;
     ranges := rs; related := related c |}.

(** One turn of [for (const conv of file.conversations)]: the first
    conversation of the entry with the same contributor takes the new ranges
    in place; without one, [conv] is pushed at the end. *)
Fixpoint mergeConversation (entry : list Conversation) (conv : Conversation)
    : list Conversation :=
  match entry with
  | [] => [conv]
  | c :: rest =>
      if sameContributor c conv
      then with_ranges c (mergeRanges (ranges c) (ranges conv)) :: rest
      else c :: mergeConversation rest conv
  end.

(** One turn of [for (const file of trace.files)].  [fileMap] is the
    JavaScript [Map] in insertion order; its key is the entry's path. *)
Fixpoint mergeFile (fileMap : list File) (file : File) : list File :=
  match fileMap with
  | [] =>
      [ {| path := path file;
           conversations := fold_left mergeConversation (conversations file) [] |} ]
  | fileEntry :: rest =>
      if String.eqb (path fileEntry) (path file)
      then {| path := path fileEntry;
              conversations :=
                fold_left mergeConversation (conversations file)
                          (conversations fileEntry) |} :: rest
      else fileEntry :: mergeFile rest file
  end.

(** Both loops over a group: every file of every trace, in order. *)
Definition mergeFiles (groupTraces : list TraceRecord) : list File :=
  fold_left (fun fileMap trace => fold_left mergeFile (files trace) fileMap)
            groupTraces [].

(** [trace.files[0]?.conversations[0]?.url] *)
Definition first_url (trace : TraceRecord) : option string :=
  match files trace with
  | [] => None
  | f :: _ => match conversations f with
              | [] => None
              | c :: _ => url c
              end
  end.

(** [trace.metadata?.conversation_id] *)
Definition metadata_conversation_id (trace : TraceRecord) : option json :=
  metadata trace ≫= member "conversation_id".

(** The key of a trace in [groups]:
    [url || metadata.conversation_id || "no-conversation"]. *)
Definition conversationId (trace : TraceRecord) : json :=
  match first_url trace with
  | Some u =>
      if negb (String.eqb u "") then JStr u
      else match metadata_conversation_id trace with
           | Some v => if truthy v then v else JStr "no-conversation"
           | None => JStr "no-conversation"
           end
  | None =>
      match metadata_conversation_id trace with
      | Some v => if truthy v then v else JStr "no-conversation"
      | None => JStr "no-conversation"
      end
  end.

(** [groups.get(conversationId)!.push(trace)], creating the group when the
    key is new.  The list keeps the insertion order of the [Map]. *)
Fixpoint pushToGroup (groups : list (json * list TraceRecord))
    (conversationId : json) (trace : TraceRecord)
    : list (json * list TraceRecord) :=
  match groups with
  | [] => [(conversationId, [trace])]
  | (k, g) :: rest =>
      if sameValueZero k conversationId
      then (k, g ++ [trace]) :: rest
      else (k, g) :: pushToGroup rest conversationId trace
  end.

Definition groupByConversation (traces : list TraceRecord)
    : list (json * list TraceRecord) :=
  fold_left (fun groups trace => pushToGroup groups (conversationId trace) trace)
            traces [].

(** [{ ...baseTrace, id: baseTrace.id, timestamp: baseTrace.timestamp,
       files: Array.from(fileMap.values()) }] *)
Definition consolidatedTrace (baseTrace : TraceRecord) (fileMap : list File)
    : TraceRecord :=
  {| version := version baseTrace;
     id := id baseTrace;
     timestamp := timestamp baseTrace;
     vcs := vcs baseTrace;
     tool := tool baseTrace;
     files := fileMap;
     metadata := metadata baseTrace |}.

(** The body of [for (const [conversationId, groupTraces] of groups)].  A
    group is never empty; the first case is there for totality. *)
Definition mergeGroup (groupTraces : list TraceRecord) : list TraceRecord :=
  match groupTraces with
  | [] => []
  | [only] => [only]
  | baseTrace :: _ => [consolidatedTrace baseTrace (mergeFiles groupTraces)]
  end.

Definition consolidateTraces (traces : list TraceRecord) : list TraceRecord :=
  if (length traces <=? 1)%nat then traces
  else concat (map (fun g => mergeGroup (snd g)) (groupByConversation traces)).

End Consolidate.

(* ===================================================================== *)
(** ** The string methods the sources use *)
(* ===================================================================== *)

Module Str.

Definition newline : ascii := ascii_of_nat 10.

(** White space for [trim]: tab, line feed, vertical tab, form feed,
    carriage return and space. *)
Definition is_space (a : ascii) : bool :=
  let n := nat_of_ascii a in
  ((9 <=? n) && (n <=? 13) || (n =? 32))%nat.

Definition is_digit (a : ascii) : bool :=
  let n := nat_of_ascii a in ((48 <=? n) && (n <=? 57))%nat.

Fixpoint trimStart (s : string) : string :=
  match s with
  | String a rest => if is_space a then trimStart rest else s
  | EmptyString => EmptyString
  end.

Definition reverse (s : string) : string :=
  string_of_list_ascii (rev (list_ascii_of_string s)).

Definition trim (s : string) : string :=
  reverse (trimStart (reverse (trimStart s))).

(** [s.startsWith(p)] *)
Definition startsWith (s p : string) : bool := String.prefix p s.

(** [s.includes(sub)] *)
Fixpoint includes (s sub : string) : bool :=
  String.prefix sub s ||
  match s with
  | String _ rest => includes rest sub
  | EmptyString => false
  end.

(** [s.substring(n)] *)
Fixpoint substring_from (n : nat) (s : string) : string :=
  match n, s with
  | O, _ => s
  | S n', String _ rest => substring_from n' rest
  | S _, EmptyString => EmptyString
  end.

(** [s.split(sep)] for a one-character separator: the pieces between the
    separators, so that the empty string gives one empty piece. *)
Fixpoint split (sep : ascii) (s : string) : list string :=
  match s with
  | EmptyString => [EmptyString]
  | String a rest =>
      if Ascii.eqb a sep then EmptyString :: split sep rest
      else match split sep rest with
           | piece :: pieces => String a piece :: pieces
           | [] => [String a EmptyString]
           end
  end.

(** [line.trim()] used as a condition: true on a line that is not blank. *)
Definition nonblank (line : string) : bool := negb (String.eqb (trim line) "").

End Str.

(* ===================================================================== *)
(** ** The zod schemas (lib/schemas.ts) *)
(* ===================================================================== *)

(** A schema's [parse] returns the parsed value or throws a [ZodError]; here
    it returns [None] for the throw.  An object schema reads the members it
    names and strips the others; [.optional()] accepts a missing member and
    nothing else in its place. *)
Module Schema.

Section WithFormats.

(** The string formats of zod ([.uuid()], [.datetime()], [.url()]) are
    checks of the zod library. *)
Variables is_uuid is_datetime is_url : string -> bool.

Definition z_object (v : json) : option (list (string * json)) :=
  match v with JObj m => Some m | _ => None end.

Definition z_string (v : json) : option string :=
  match v with JStr s => Some s | _ => None end.

(** [z.number().int().min(1)] *)
Definition z_int_min1 (v : json) : option Z :=
  match v with
  | JNum q =>
      let r := Qred q in
      if Pos.eqb (Qden r) 1 && (1 <=? Qnum r) then Some (Qnum r) else None
  | _ => None
  end.

Definition required {A} (p : json -> option A) (m : option json) : option A :=
  m ≫= p.

Definition optional {A} (p : json -> option A) (m : option json)
    : option (option A) :=
  match m with
  | None => Some None
  | Some v => Some <$> p v
  end.

Definition z_array {A} (p : json -> option A) (v : json) : option (list A) :=
  match v with
  | JArr items => mapM p items
  | _ => None
  end.

Definition ContributorTypeSchema (v : json) : option ContributorType :=
  match v with
  | JStr "human" => Some human
  | JStr "ai" => Some ai
  | JStr "mixed" => Some mixed
  | JStr "unknown" => Some unknown
  | _ => None
  end.

Definition ToolSchema (v : json) : option Tool :=
  m ← z_object v;
  name ← required z_string (member "name" m);
  ver ← optional z_string (member "version" m);
  Some (mkTool name ver).

Definition z_string_max250 (v : json) : option string :=
  s ← z_string v;
  if (String.length s <=? 250)%nat then Some s else None.

Definition ContributorSchema (v : json) : option Contributor :=
  m ← z_object v;
  ty ← required ContributorTypeSchema (member "type" m);
  model ← optional z_string_max250 (member "model_id" m);
  Some (mkContributor ty model).

Definition z_string_url (v : json) : option string :=
  s ← z_string v; if is_url s then Some s else None.

Definition RelatedResourceSchema (v : json) : option RelatedResource :=
  m ← z_object v;
  ty ← required z_string (member "type" m);
  u ← required z_string_url (member "url" m);
  Some (mkRelated ty u).

Definition RangeSchema (v : json) : option Range :=
  m ← z_object v;
  s ← required z_int_min1 (member "start_line" m);
  e ← required z_int_min1 (member "end_line" m);
  h ← optional z_string (member "content_hash" m);
  c ← optional ContributorSchema (member "contributor" m);
  Some (mkRange s e h c).

Definition ConversationSchema (v : json) : option Conversation :=
  m ← z_object v;
  u ← optional z_string_url (member "url" m);
  c ← optional ContributorSchema (member "contributor" m);
  rs ← required (z_array RangeSchema) (member "ranges" m);
  rel ← optional (z_array RelatedResourceSchema) (member "related" m);
  Some (mkConversation u c rs rel).

Definition FileSchema (v : json) : option File :=
  m ← z_object v;
  p ← required z_string (member "path" m);
  cs ← required (z_array ConversationSchema) (member "conversations" m);
  Some (mkFile p cs).

Definition VcsTypeSchema (v : json) : option VcsType :=
  match v with
  | JStr "git" => Some git
  | JStr "jj" => Some jj
  | JStr "hg" => Some hg
  | JStr "svn" => Some svn
  | _ => None
  end.

Definition VcsSchema (v : json) : option Vcs :=
  m ← z_object v;
  ty ← required VcsTypeSchema (member "type" m);
  rev ← required z_string (member "revision" m);
  Some (mkVcs ty rev).

(** [/^[0-9]+\.[0-9]+\.[0-9]+$/]: [digits s] eats a non-empty run of digits
    and returns what follows it. *)
Fixpoint skip_digits (s : string) : string :=
  match s with
  | String a rest => if Str.is_digit a then skip_digits rest else s
  | EmptyString => EmptyString
  end.

Definition digits (s : string) : option string :=
  match s with
  | String a rest => if Str.is_digit a then Some (skip_digits rest) else None
  | EmptyString => None
  end.

Definition dot (s : string) : option string :=
  match s with
  | String "."%char rest => Some rest
  | _ => None
  end.

Definition is_version (s : string) : bool :=
  match (a ← digits s; b ← dot a; c ← digits b; d ← dot c; digits d) with
  | Some EmptyString => true
  | _ => false
  end.

Definition z_version (v : json) : option string :=
  s ← z_string v; if is_version s then Some s else None.

Definition z_uuid (v : json) : option string :=
  s ← z_string v; if is_uuid s then Some s else None.

Definition z_datetime (v : json) : option string :=
  s ← z_string v; if is_datetime s then Some s else None.

(** [z.record(z.string(), z.unknown())] *)
Definition z_record (v : json) : option (list (string * json)) := z_object v.

Definition TraceRecordSchema (v : json) : option TraceRecord :=
  m ← z_object v;
  ver ← required z_version (member "version" m);
  i ← required z_uuid (member "id" m);
  ts ← required z_datetime (member "timestamp" m);
  vc ← optional VcsSchema (member "vcs" m);
  tl ← optional ToolSchema (member "tool" m);
  fs ← required (z_array FileSchema) (member "files" m);
  md ← optional z_record (member "metadata" m);
  Some (mkTrace ver i ts vc tl fs md).

End WithFormats.

End Schema.

(* ===================================================================== *)
(** ** Records as JSON values *)
(* ===================================================================== *)

(** The value [JSON.stringify] walks when it is handed a record: members in
    the order of the schema, a member that is [undefined] left out. *)
Module Encode.

Definition opt_member {A} (k : string) (enc : A -> json) (o : option A)
    : list (string * json) :=
  match o with
  | Some a => [(k, enc a)]
  | None => []
  end.

Definition of_Z (z : Z) : json := JNum (inject_Z z).

Definition of_ContributorType (t : ContributorType) : json :=
  JStr match t with
       | human => "human" | ai => "ai" | mixed => "mixed" | unknown => "unknown"
       end.

Definition of_VcsType (t : VcsType) : json :=
  JStr match t with git => "git" | jj => "jj" | hg => "hg" | svn => "svn" end.

Definition of_Tool (t : Tool) : json :=
  JObj (("name", JStr (tool_name t)) :: opt_member "version" JStr (tool_version t)).

Definition of_Contributor (c : Contributor) : json :=
  JObj (("type", of_ContributorType (type c)) :: opt_member "model_id" JStr (model_id c)).

Definition of_Related (r : RelatedResource) : json :=
  JObj [("type", JStr (related_type r)); ("url", JStr (related_url r))].

Definition of_Range (r : Range) : json :=
  JObj ([("start_line", of_Z (start_line r)); ("end_line", of_Z (end_line r))]
        ++ opt_member "content_hash" JStr (content_hash r)
        ++ opt_member "contributor" of_Contributor (range_contributor r)).

Definition of_Conversation (c : Conversation) : json :=
  JObj (opt_member "url" JStr (url c)
        ++ opt_member "contributor" of_Contributor (contributor c)
        ++ [("ranges", JArr (map of_Range (ranges c)))]
        ++ opt_member "related" (fun l => JArr (map of_Related l)) (related c)).

Definition of_File (f : File) : json :=
  JObj [("path", JStr (path f));
        ("conversations", JArr (map of_Conversation (conversations f)))].

Definition of_Vcs (v : Vcs) : json :=
  JObj [("type", of_VcsType (vcs_type v)); ("revision", JStr (revision v))].

Definition of_TraceRecord (t : TraceRecord) : json :=
  JObj ([("version", JStr (version t)); ("id", JStr (id t));
         ("timestamp", JStr (timestamp t))]
        ++ opt_member "vcs" of_Vcs (vcs t)
        ++ opt_member "tool" of_Tool (tool t)
        ++ [("files", JArr (map of_File (files t)))]
        ++ opt_member "metadata" JObj (metadata t)).

Definition of_records (ts : list TraceRecord) : json :=
  JArr (map of_TraceRecord ts).

End Encode.

(* ===================================================================== *)
(** ** Programs: the calls the sources make to the outside *)
(* ===================================================================== *)

Module Effects.

(** [error.code] is a number or a name such as [ENOENT]. *)
Inductive ErrCode := CodeNum (n : Z) | CodeStr (s : string).

(** What the sources read off an error thrown by [execFileSync]. *)
Record ExecError := mkExecError {
  err_status : option Z;
  err_code : option ErrCode
}.

(** What the sources read off the result of [spawnSync]. *)
Record SpawnResult := mkSpawnResult {
  sp_status : option Z;
  sp_stdout : option string;
  sp_stderr : option string
}.

(** Thrown values. *)
Inductive Exn :=
| ExecFailed (e : ExecError)
| SyntaxError
| FsError (code : string)
| Error (message : string).

(** One call to the outside, indexed by the type of its answer.  Every
    subprocess is the git binary; [args] are its arguments, [input] its
    standard input and [cwd] the working directory option. *)
Inductive Cmd : Type -> Type :=
| ExecFileSync (args : list string) (input : option string) (cwd : option string)
    : Cmd (ExecError + string)
| SpawnSync (args : list string) (input : string) (cwd : option string)
    : Cmd SpawnResult
| GetEnv (name : string) : Cmd (option string)
| ProcessCwd : Cmd string
| ExistsSync (p : string) : Cmd bool
| ReadFileSync (p : string) : Cmd (Exn + string)
| UnlinkSync (p : string) : Cmd (Exn + unit)
| ConsoleWarn (message : string) : Cmd unit.

Inductive Prog (A : Type) : Type :=
| Ret (a : A)
| Throw (e : Exn)
| Vis {R : Type} (c : Cmd R) (k : R -> Prog A).

Arguments Ret {A} a.
Arguments Throw {A} e.
Arguments Vis {A R} c k.

Fixpoint bind {A B} (p : Prog A) (f : A -> Prog B) : Prog B :=
  match p with
  | Ret a => f a
  | Throw e => Throw e
  | Vis c k => Vis c (fun r => bind (k r) f)
  end.

(** [try { p } catch (error) { h error }] *)
Fixpoint catch {A} (p : Prog A) (h : Exn -> Prog A) : Prog A :=
  match p with
  | Ret a => Ret a
  | Throw e => h e
  | Vis c k => Vis c (fun r => catch (k r) h)
  end.

#[global] Instance Prog_ret : MRet Prog := @Ret.
#[global] Instance Prog_bind : MBind Prog := fun A B f p => bind p f.

Definition call {R} (c : Cmd R) : Prog R := Vis c Ret.

(** [execFileSync("git", args, ...)] throws on a failed run. *)
Definition execFileSync (args : list string) (input : option string)
    (cwd : option string) : Prog string :=
  r ← call (ExecFileSync args input cwd);
  match r with
  | inl e => Throw (ExecFailed e)
  | inr stdout => Ret stdout
  end.

Definition spawnSync (args : list string) (input : string) (cwd : option string)
    : Prog SpawnResult :=
  call (SpawnSync args input cwd).

Definition readFileSync (p : string) : Prog string :=
  r ← call (ReadFileSync p);
  match r with inl e => Throw e | inr s => Ret s end.

Definition unlinkSync (p : string) : Prog unit :=
  r ← call (UnlinkSync p);
  match r with inl e => Throw e | inr u => Ret u end.

(** [try { p } catch { }] *)
Definition ignoring (p : Prog unit) : Prog unit := catch p (fun _ => Ret tt).

(** A handler answers every call on a world [W]; [run] plays a program
    against it. *)
Definition Handler (W : Type) : Type := forall R, Cmd R -> W -> R * W.

Fixpoint run {W A} (h : Handler W) (p : Prog A) (w : W) : (Exn + A) * W :=
  match p with
  | Ret a => (inr a, w)
  | Throw e => (inl e, w)
  | Vis c k => let '(r, w') := h _ c w in run h (k r) w'
  end.

End Effects.

(* ===================================================================== *)
(** ** The notes store (lib/git-notes.ts) *)
(* ===================================================================== *)

Module GitNotes.
Import Effects.

Definition NOTES_REF : string := "refs/notes/agent-trace".

Definition notes_args (rest : list string) : list string :=
  ["notes"; "--ref"; NOTES_REF] ++ rest.

Definition show_args (commitSha : string) : list string :=
  notes_args ["show"; commitSha].

Definition add_args (commitSha : string) : list string :=
  notes_args ["add"; "-f"; "-F"; "-"; commitSha].

(** [error.status === 1 || error.status === 128 || error.code === 1 ||
     error.code === 128] on a caught value. *)
Definition is_1_or_128 (n : Z) : bool := (n =? 1) || (n =? 128).

Definition note_not_found (error : Exn) : bool :=
  match error with
  | ExecFailed e =>
      match err_status e with Some n => is_1_or_128 n | None => false end
      || match err_code e with Some (CodeNum n) => is_1_or_128 n | _ => false end
  | _ => false
  end.

(** [ensureNotesRef(cwd)] *)
Definition ensureNotesRef (cwd : option string) : Prog unit :=
  ignoring
    (_ ← execFileSync ["show-ref"; "--verify"; "--quiet"; NOTES_REF] None cwd;
     catch
       (_ ← execFileSync (notes_args ["list"]) None cwd; Ret tt)
       (fun _ =>
          ignoring (_ ← execFileSync ["update-ref"; "-d"; NOTES_REF] None cwd; Ret tt)));;
  catch
    (_ ← execFileSync ["show-ref"; "--verify"; "--quiet"; NOTES_REF] None cwd; Ret tt)
    (fun _ =>
       catch
         (_ ← execFileSync ["rev-parse"; "HEAD"] None cwd;
          _ ← execFileSync (notes_args ["add"; "-m"; "init"; "HEAD"]) None cwd;
          _ ← execFileSync (notes_args ["remove"; "HEAD"]) None cwd;
          Ret tt)
         (fun _ =>
            emptyTree ← execFileSync ["mktree"] (Some "") cwd;
            let emptyTree := Str.trim emptyTree in
            if negb (String.eqb emptyTree "")
            then _ ← execFileSync ["update-ref"; NOTES_REF; emptyTree] None cwd; Ret tt
            else Ret tt)).

Section WithJson.

Variables is_uuid is_datetime is_url : string -> bool.

(** [JSON.parse]; [None] is the thrown [SyntaxError]. *)
Variable JSON_parse : string -> option json.

(** [JSON.stringify(value, null, 2)] *)
Variable JSON_stringify : json -> string.

Definition TraceRecordSchema : json -> option TraceRecord :=
  Schema.TraceRecordSchema is_uuid is_datetime is_url.

(** [records.map(...).filter(...)]: a record that fails the schema is
    reported on the console and left out. *)
Fixpoint parseRecords (records : list json) : Prog (list TraceRecord) :=
  match records with
  | [] => Ret []
  | record :: rest =>
      match TraceRecordSchema record with
      | Some trace => traces ← parseRecords rest; Ret (trace :: traces)
      | None =>
          _ ← call (ConsoleWarn "Failed to parse trace record");
          parseRecords rest
      end
  end.

(** [Array.isArray(parsed) ? parsed : [parsed]] *)
Definition asRecords (parsed : json) : list json :=
  match parsed with
  | JArr items => items
  | _ => [parsed]
  end.

(** [readTracesFromNotes(commitSha, cwd)] *)
Definition readTracesFromNotes (commitSha : string) (cwd : option string)
    : Prog (list TraceRecord) :=
  catch
    (stdout ← execFileSync (show_args commitSha) None cwd;
     let noteContent := Str.trim stdout in
     if String.eqb noteContent "" then Ret []
     else match JSON_parse noteContent with
          | None => Throw SyntaxError
          | Some parsed => parseRecords (asRecords parsed)
          end)
    (fun error => if note_not_found error then Ret [] else Throw error).

(** The records handed to [JSON.stringify] by a write that found
    [existing] on the commit. *)
Definition mergeWithExisting (existing traces : list TraceRecord)
    : list TraceRecord :=
  let existingIds : gset string := list_to_set (map id existing) in
  let newTraces := List.filter (fun t => bool_decide (id t ∉ existingIds)) traces in
  let allTraces := existing ++ newTraces in
  Consolidate.consolidateTraces allTraces.

(** [proc.stderr?.toString() || proc.stdout?.toString() || "unknown error"] *)
Definition nonempty (o : option string) : option string :=
  match o with
  | Some s => if String.eqb s "" then None else Some s
  | None => None
  end.

Definition errorMsg_of (proc : SpawnResult) : string :=
  match nonempty (sp_stderr proc) with
  | Some s => s
  | None => match nonempty (sp_stdout proc) with
            | Some s => s
            | None => "unknown error"
            end
  end.

Definition status_ok (proc : SpawnResult) : bool :=
  match sp_status proc with Some 0 => true | _ => false end.

(** [writeTracesToNotes(commitSha, traces, cwd)] *)
Definition writeTracesToNotes (commitSha : string) (traces : list TraceRecord)
    (cwd : option string) : Prog unit :=
  if (length traces =? 0)%nat then Ret tt
  else
    existing ← catch (readTracesFromNotes commitSha cwd) (fun _ => Ret []);
    let consolidated := mergeWithExisting existing traces in
    let content := JSON_stringify (Encode.of_records consolidated) in
    catch (ensureNotesRef cwd)
      (fun _ =>
         ignoring
           (_ ← execFileSync ["update-ref"; "-d"; NOTES_REF] None cwd;
            ensureNotesRef cwd));;
    proc ← spawnSync (add_args commitSha) content cwd;
    if status_ok proc then Ret tt
    else
      let errorMsg := errorMsg_of proc in
      succeeded ←
        (if Str.includes errorMsg "Failed to read notes tree"
         then catch
                (_ ← execFileSync ["update-ref"; "-d"; NOTES_REF] None cwd;
                 ensureNotesRef cwd;;
                 retryProc ← spawnSync (add_args commitSha) content cwd;
                 Ret (status_ok retryProc))
                (fun _ => Ret false)
         else Ret false);
      if (succeeded : bool) then Ret tt
      else Throw (Error ("Failed to write git note: " ++ Str.trim errorMsg)).

End WithJson.

End GitNotes.

(* ===================================================================== *)
(** ** The staging buffer (lib/git-hooks.ts, lib/trace-store.ts) *)
(* ===================================================================== *)

Module GitHooks.
Import Effects GitNotes.

Definition STAGING_PATH : string := ".agent-trace/staging.jsonl".

(** [join(root, STAGING_PATH)], for a root that does not end in a slash. *)
Definition join (root rel : string) : string := root ++ "/" ++ rel.

(** [getWorkspaceRoot()] of lib/trace-store.ts. *)
Definition getWorkspaceRoot : Prog string :=
  cursor ← call (GetEnv "CURSOR_PROJECT_DIR");
  match nonempty cursor with
  | Some dir => Ret dir
  | None =>
      claude ← call (GetEnv "CLAUDE_PROJECT_DIR");
      match nonempty claude with
      | Some dir => Ret dir
      | None =>
          catch
            (stdout ← execFileSync ["rev-parse"; "--show-toplevel"] None None;
             Ret (Str.trim stdout))
            (fun _ => call ProcessCwd)
      end
  end.

Section WithJson.

Variables is_uuid is_datetime is_url : string -> bool.
Variable JSON_parse : string -> option json.
Variable JSON_stringify : json -> string.

(** [if (trace.vcs) { trace.vcs.revision = commitSha; }] *)
Definition setRevision (commitSha : string) (trace : TraceRecord) : TraceRecord :=
  match vcs trace with
  | Some v =>
      {| version := version trace; id := id trace; timestamp := timestamp trace;
         vcs := Some {| vcs_type := vcs_type v; revision := commitSha |};
         tool := tool trace; files := files trace; metadata := metadata trace |}
  | None => trace
  end.

(** The body of the [try] inside the loop over the lines: [None] when
    [JSON.parse] or the schema throws. *)
Definition parseStagingLine (commitSha line : string) : option TraceRecord :=
  parsed ← JSON_parse line;
  trace ← TraceRecordSchema is_uuid is_datetime is_url parsed;
  Some (setRevision commitSha trace).

(** [for (const line of lines)], with its [catch] that warns. *)
Fixpoint parseStagingLines (commitSha : string) (lines : list string)
    : Prog (list TraceRecord) :=
  match lines with
  | [] => Ret []
  | line :: rest =>
      match parseStagingLine commitSha line with
      | Some trace =>
          traces ← parseStagingLines commitSha rest; Ret (trace :: traces)
      | None =>
          _ ← call (ConsoleWarn "Failed to parse staging trace");
          parseStagingLines commitSha rest
      end
  end.

(** [content.trim().split("\n").filter((line) => line.trim())] *)
Definition stagingLines (content : string) : list string :=
  List.filter Str.nonblank (Str.split Str.newline (Str.trim content)).

(** [attachStagingTraces()] *)
Definition attachStagingTraces : Prog unit :=
  root ← getWorkspaceRoot;
  let stagingPath := join root STAGING_PATH in
  present ← call (ExistsSync stagingPath);
  if negb present then Ret tt
  else
    ensureNotesRef (Some root);;
    head ← call (ExecFileSync ["rev-parse"; "HEAD"] None (Some root));
    match head with
    | inl _ => Ret tt
    | inr stdout =>
        let commitSha := Str.trim stdout in
        content ← readFileSync stagingPath;
        traces ← parseStagingLines commitSha (stagingLines content);
        if (0 <? length traces)%nat
        then
          root' ← getWorkspaceRoot;
          writeTracesToNotes is_uuid is_datetime is_url JSON_parse JSON_stringify
                             commitSha traces (Some root');;
          unlinkSync stagingPath
        else Ret tt
    end.

End WithJson.

End GitHooks.

(* ===================================================================== *)
(** ** The unified-diff loop (analyze/git-utils.ts, getCommitInfo) *)
(* ===================================================================== *)

Module GitUtils.

Inductive ChangeType := added | removed | modified.

Record Change := mkChange {
  line : Z;
  change_type : ChangeType
}.

Record FileChange := mkFileChange {
  fc_path : string;
  additions : Z;
  deletions : Z;
  changes : list Change
}.

#[global] Instance ChangeType_eq_dec : EqDecision ChangeType.
Proof. solve_decision. Defined.
#[global] Instance Change_eq_dec : EqDecision Change.
Proof. solve_decision. Defined.

(** The value of a run of decimal digits. *)
Definition digit_value (a : ascii) : Z := Z.of_nat (nat_of_ascii a) - 48.

Fixpoint digits_value (acc : Z) (s : string) : Z :=
  match s with
  | String a rest => digits_value (10 * acc + digit_value a) rest
  | EmptyString => acc
  end.

(** The longest run of digits at the head of [s], and the rest. *)
Fixpoint span_digits (s : string) : string * string :=
  match s with
  | String a rest =>
      if Str.is_digit a
      then let '(ds, tl) := span_digits rest in (String a ds, tl)
      else (EmptyString, s)
  | EmptyString => (EmptyString, EmptyString)
  end.

(** [\d+] *)
Definition digits1 (s : string) : option (string * string) :=
  match span_digits s with
  | (EmptyString, _) => None
  | r => Some r
  end.

(** A literal of the pattern. *)
Definition lit (p s : string) : option string :=
  if String.prefix p s then Some (Str.substring_from (String.length p) s) else None.

(** [(?:,\d+)?] *)
Definition opt_count (s : string) : string :=
  match s with
  | String ","%char rest =>
      match digits1 rest with
      | Some (_, tl) => tl
      | None => s
      end
  | _ => s
  end.

(** [@@ -\d+(?:,\d+)? \+(\d+)(?:,(\d+))? @@] matched at the head of [s];
    the answer is the first group. *)
Definition hunk_at (s : string) : option string :=
  s1 ← lit "@@ -" s;
  '(_, s2) ← digits1 s1;
  s3 ← lit " +" (opt_count s2);
  '(start, s4) ← digits1 s3;
  _ ← lit " @@" (opt_count s4);
  Some start.

(** [line.match(/.../)]: the leftmost match anywhere in the line. *)
Fixpoint hunk_match (s : string) : option string :=
  match hunk_at s with
  | Some start => Some start
  | None => match s with
            | String _ rest => hunk_match rest
            | EmptyString => None
            end
  end.

(** [parseInt(text, 10)]; [None] is [NaN]. *)
Definition parseInt (text : string) : option Z :=
  match Str.trimStart text with
  | String "-"%char rest =>
      match digits1 rest with Some (ds, _) => Some (- digits_value 0 ds) | None => None end
  | String "+"%char rest =>
      match digits1 rest with Some (ds, _) => Some (digits_value 0 ds) | None => None end
  | s => match digits1 s with Some (ds, _) => Some (digits_value 0 ds) | None => None end
  end.

(** [parseInt(text, 10) || 0] *)
Definition parseInt_or_0 (text : string) : Z := default 0 (parseInt text).

Definition tab : ascii := ascii_of_nat 9.

Fixpoint join_tab (parts : list string) : string :=
  match parts with
  | [] => EmptyString
  | [p] => p
  | p :: rest => p ++ String tab (join_tab rest)
  end.

(** One line of [git diff --numstat]. *)
Definition numstatLine (line : string) : list FileChange :=
  match Str.split tab line with
  | a :: d :: p :: more =>
      let path := join_tab (p :: more) in
      if negb (String.eqb path "") && negb (String.eqb path "/dev/null")
      then [ {| fc_path := path; additions := parseInt_or_0 a;
                deletions := parseInt_or_0 d; changes := [] |} ]
      else []
  | _ => []
  end.

Definition numstatFiles (diff : string) : list FileChange :=
  concat (map numstatLine (List.filter Str.nonblank (Str.split Str.newline diff))).

(** [files.find((f) => f.path === currentFile)] followed by
    [file.changes.push(change)]: [None] when no entry has the path. *)
Fixpoint pushChange (files : list FileChange) (currentFile : string)
    (change : Change) : option (list FileChange) :=
  match files with
  | [] => None
  | f :: rest =>
      if String.eqb (fc_path f) currentFile
      then Some ({| fc_path := fc_path f; additions := additions f;
                    deletions := deletions f;
                    changes := changes f ++ [change] |} :: rest)
      else cons f <$> pushChange rest currentFile change
  end.

(** The variables of the loop. *)
Record Cursor := mkCursor {
  files : list FileChange;
  currentFile : string;
  lineNumber : Z
}.

(** The body of [for (const line of detailedDiff.split("\n"))]. *)
Definition step (st : Cursor) (line : string) : Cursor :=
  if Str.startsWith line "+++ b/" || Str.startsWith line "--- a/" then
    let filePath := Str.trim (Str.substring_from 6 line) in
    if negb (String.eqb filePath "") && negb (String.eqb filePath "/dev/null")
    then {| files := files st; currentFile := filePath; lineNumber := 0 |}
    else st
  else if Str.startsWith line "@@" then
    match hunk_match line with
    | Some start =>
        {| files := files st; currentFile := currentFile st;
           lineNumber := digits_value 0 start |}
    | None => st
    end
  else if Str.startsWith line "+" && negb (Str.startsWith line "+++") then
    match pushChange (files st) (currentFile st) (mkChange (lineNumber st) added) with
    | Some files' =>
        {| files := files'; currentFile := currentFile st;
           lineNumber := lineNumber st + 1 |}
    | None => st
    end
  else if Str.startsWith line "-" && negb (Str.startsWith line "---") then
    match pushChange (files st) (currentFile st) (mkChange (lineNumber st) removed) with
    | Some files' =>
        {| files := files'; currentFile := currentFile st;
           lineNumber := lineNumber st |}
    | None => st
    end
  else if negb (Str.startsWith line "@") && Str.nonblank line then
    {| files := files st; currentFile := currentFile st;
       lineNumber := lineNumber st + 1 |}
  else st.

(** The whole loop, from [currentFile = ""] and [lineNumber = 0]. *)
Definition parseDetailedDiff (files0 : list FileChange) (detailedDiff : string)
    : Cursor :=
  fold_left step (Str.split Str.newline detailedDiff)
            {| files := files0; currentFile := ""; lineNumber := 0 |}.

(** The [files] of the [CommitInfo] that [getCommitInfo] returns, from the
    two texts git printed. *)
Definition commitFiles (numstat detailedDiff : string) : list FileChange :=
  files (parseDetailedDiff (numstatFiles numstat) detailedDiff).

End GitUtils.

(* ===================================================================== *)
(** ** The matcher (analyze/analyzer.ts, analyzeCommit) *)
(* ===================================================================== *)

Module Analyzer.

Record AttributedRange := mkAttributed {
  a_start_line : Z;
  a_end_line : Z;
  a_type : ContributorType;
  a_model_id : option string
}.

Record FileAnalysis := mkFileAnalysis {
  fa_path : string;
  fa_ranges : list AttributedRange;
  fa_models : list string
}.

(** [fileChange.changes.some(change => change.line >= range.start_line &&
     change.line <= range.end_line)] *)
Definition overlaps (fileChange : GitUtils.FileChange) (range : Range) : bool :=
  existsb (fun change => (start_line range <=? GitUtils.line change) &&
                         (GitUtils.line change <=? end_line range))
          (GitUtils.changes fileChange).

(** [overlaps || fileChange.changes.length === 0] *)
Definition retained (fileChange : GitUtils.FileChange) (range : Range) : bool :=
  overlaps fileChange range || (length (GitUtils.changes fileChange) =? 0)%nat.

(** [conversation.contributor?.type || "unknown"] *)
Definition contributorType (conversation : Conversation) : ContributorType :=
  match contributor conversation with
  | Some c => type c
  | None => unknown
  end.

(** [conversation.contributor?.model_id] *)
Definition modelId (conversation : Conversation) : option string :=
  contributor conversation ≫= model_id.

(** What one conversation pushes onto [ranges]. *)
Definition conversationRanges (fileChange : GitUtils.FileChange) (conversation : Conversation)
    : list AttributedRange :=
  map (fun range => {| a_start_line := start_line range;
                       a_end_line := end_line range;
                       a_type := contributorType conversation;
                       a_model_id := modelId conversation |})
      (List.filter (retained fileChange) (ranges conversation)).

(** The conversations the three nested loops visit for a changed file. *)
Definition conversationsFor (p : string) (fileTraces : list TraceRecord)
    : list Conversation :=
  concat (map (fun trace =>
                 concat (map conversations
                             (List.filter (fun f => String.eqb (path f) p)
                                          (files trace))))
              fileTraces).

(** [models.add(modelId)] under [if (modelId)], on a set that keeps the
    order of insertion. *)
Definition addModel (models : list string) (conversation : Conversation)
    : list string :=
  match modelId conversation with
  | Some m =>
      if String.eqb m "" then models
      else if bool_decide (m ∈ models) then models else models ++ [m]
  | None => models
  end.

(** [fileAnalyses.set(path, value)] on a [Map] in insertion order. *)
Fixpoint setAnalysis (fileAnalyses : list FileAnalysis) (value : FileAnalysis)
    : list FileAnalysis :=
  match fileAnalyses with
  | [] => [value]
  | fa :: rest =>
      if String.eqb (fa_path fa) (fa_path value) then value :: rest
      else fa :: setAnalysis rest value
  end.

(** The body of [for (const fileChange of commitInfo.files)]. *)
Definition analyzeFile (traces : list TraceRecord)
    (fileAnalyses : list FileAnalysis) (fileChange : GitUtils.FileChange)
    : list FileAnalysis :=
  let fileTraces :=
    List.filter (fun trace => existsb (fun f => String.eqb (path f) (GitUtils.fc_path fileChange))
                                      (files trace))
                traces in
  if (length fileTraces =? 0)%nat then fileAnalyses
  else
    let convs := conversationsFor (GitUtils.fc_path fileChange) fileTraces in
    let ranges := concat (map (conversationRanges fileChange) convs) in
    let models := fold_left addModel convs [] in
    if (0 <? length ranges)%nat
    then setAnalysis fileAnalyses
           {| fa_path := GitUtils.fc_path fileChange; fa_ranges := ranges; fa_models := models |}
    else fileAnalyses.

(** The [files] of the result of [analyzeCommit], from the traces read from
    the notes of the commit and the [files] of its [CommitInfo]. *)
Definition analyzeFiles (traces : list TraceRecord) (commitFiles : list GitUtils.FileChange)
    : list FileAnalysis :=
  fold_left (analyzeFile traces) commitFiles [].

End Analyzer.

(* ===================================================================== *)
(** ** The report fold (analyze/report-generator.ts, generateReport) *)
(* ===================================================================== *)

Module Report.

Record ReportStats := mkStats {
  totalTraces : nat;
  totalFiles : nat;
  aiContributions : nat;
  humanContributions : nat;
  mixedContributions : nat;
  models : gmap string nat;
  tools : gmap string nat
}.

(** [map.set(key, (map.get(key) || 0) + n)] *)
Definition bump (key : string) (n : nat) (m : gmap string nat) : gmap string nat :=
  <[key := (default 0 (m !! key) + n)%nat]> m.

(** The body of [for (const conversation of file.conversations)]. *)
Definition countConversation (stats : ReportStats) (conversation : Conversation)
    : ReportStats :=
  let contributorType := Analyzer.contributorType conversation in
  let rangeCount := length (ranges conversation) in
  let ai' := match contributorType with
             | ai => (aiContributions stats + rangeCount)%nat
             | _ => aiContributions stats end in
  let human' := match contributorType with
                | human => (humanContributions stats + rangeCount)%nat
                | _ => humanContributions stats end in
  let mixed' := match contributorType with
                | mixed => (mixedContributions stats + rangeCount)%nat
                | _ => mixedContributions stats end in
  let models' := match GitNotes.nonempty (Analyzer.modelId conversation) with
                 | Some m => bump m rangeCount (models stats)
                 | None => models stats end in
  {| totalTraces := totalTraces stats; totalFiles := totalFiles stats;
     aiContributions := ai'; humanContributions := human';
     mixedContributions := mixed'; models := models'; tools := tools stats |}.

(** The body of [for (const file of trace.files)]: the path goes into the
    set [files], the conversations into the counters. *)
Definition countFile (acc : ReportStats * gset string) (file : File)
    : ReportStats * gset string :=
  (fold_left countConversation (conversations file) acc.1, {[path file]} ∪ acc.2).

(** The body of [for (const trace of traces)]. *)
Definition countTrace (acc : ReportStats * gset string) (trace : TraceRecord)
    : ReportStats * gset string :=
  let '(stats, seen) := fold_left countFile (files trace) acc in
  let tools' := match GitNotes.nonempty (tool_name <$> tool trace) with
                | Some name => bump name 1 (tools stats)
                | None => tools stats end in
  ({| totalTraces := totalTraces stats; totalFiles := totalFiles stats;
      aiContributions := aiContributions stats;
      humanContributions := humanContributions stats;
      mixedContributions := mixedContributions stats;
      models := models stats; tools := tools' |}, seen).

Definition generateReport (traces : list TraceRecord) : ReportStats :=
  let stats0 := {| totalTraces := length traces; totalFiles := 0;
                   aiContributions := 0; humanContributions := 0;
                   mixedContributions := 0; models := ∅; tools := ∅ |} in
  let '(stats, files) := fold_left countTrace traces (stats0, ∅) in
  {| totalTraces := totalTraces stats; totalFiles := size files;
     aiContributions := aiContributions stats;
     humanContributions := humanContributions stats;
     mixedContributions := mixedContributions stats;
     models := models stats; tools := tools stats |}.

End Report.

(* ===================================================================== *)
(** ** A repository to run the programs on *)
(* ===================================================================== *)

(** The git binary, the file system, the environment and the console are
    outside the sources.  This module is a small world that answers the
    calls of [Effects.Cmd] the way git-notes(1), git-rev-parse(1),
    git-show-ref(1) and git-update-ref(1) document them for one notes ref. *)
Module Repo.
Import Effects.

(** The notes ref is absent, names an object that cannot be read as a notes
    tree, is in order (it names a commit of notes), or names the empty tree:
    git takes such a ref for a notes ref without notes when it reads, and
    refuses to add a note to it, since the ref does not name a commit. *)
Inductive RefState := NoRef | BrokenRef | GoodRef | TreeRef.

Record World := mkWorld {
  env : gmap string string;      (** [process.env] *)
  cwd : string;                  (** [process.cwd()] *)
  toplevel : option string;      (** the work tree, when inside one *)
  HEAD : option string;          (** the commit [HEAD] names, once there is one *)
  notes_ref : RefState;
  notes : gmap string string;    (** the note of each annotated commit *)
  blob_id : string -> string;    (** the name git gives the blob of a text *)
  fs : gmap string string;       (** the text files by their path *)
  console : list string          (** what [console.warn] printed *)
}.

Definition with_notes (w : World) (st : RefState) (n : gmap string string)
    : World :=
  {| env := env w; cwd := cwd w; toplevel := toplevel w; HEAD := HEAD w;
     notes_ref := st; notes := n; blob_id := blob_id w; fs := fs w; console := console w |}.

Definition with_fs (w : World) (f : gmap string string) : World :=
  {| env := env w; cwd := cwd w; toplevel := toplevel w; HEAD := HEAD w;
     notes_ref := notes_ref w; notes := notes w; blob_id := blob_id w; fs := f; console := console w |}.

Definition with_console (w : World) (c : list string) : World :=
  {| env := env w; cwd := cwd w; toplevel := toplevel w; HEAD := HEAD w;
     notes_ref := notes_ref w; notes := notes w; blob_id := blob_id w; fs := fs w; console := c |}.

Definition failed (status : Z) : ExecError :=
  {| err_status := Some status; err_code := None |}.

Definition line_of (s : string) : string := s ++ String Str.newline EmptyString.

Definition EMPTY_TREE : string := "4b825dc642cb6eb9a060e54bf8d69288fbee4904".

Definition BROKEN_MESSAGE : string :=
  "fatal: Failed to read notes tree referenced by refs/notes/agent-trace".

(** What git prints when it is to add a note to a ref that names the empty
    tree. *)
Definition TREE_MESSAGE : string :=
  (line_of ("error: Object " ++ EMPTY_TREE ++ " not a commit")
   ++ line_of "fatal: Failed to find/parse commit refs/notes/agent-trace")%string.

(** The notes in the order of their commits. *)
Fixpoint insert_by_commit (entry : string * string)
    (entries : list (string * string)) : list (string * string) :=
  match entries with
  | [] => [entry]
  | e :: rest =>
      if String.leb (fst entry) (fst e) then entry :: entries
      else e :: insert_by_commit entry rest
  end.

Definition by_commit (entries : list (string * string)) : list (string * string) :=
  fold_right insert_by_commit [] entries.

(** What [git notes list] prints: a line for every note, with the name of
    the blob of the note, then the commit. *)
Definition listing (blob : string -> string) (notes : gmap string string) : string :=
  fold_right
    (fun entry out => (line_of (blob (snd entry) ++ " " ++ fst entry) ++ out)%string)
    EmptyString
    (by_commit (map_to_list notes)).

(** The commit an argument names. *)
Definition resolve (w : World) (rev : string) : option string :=
  if String.eqb rev "HEAD" then HEAD w else Some rev.

(** [git <args>] run by [execFileSync]: the standard output, or the error of
    a run that exits with a status other than zero. *)
Definition git (args : list string) (w : World) : (ExecError + string) * World :=
  match args with
  | ["rev-parse"; "--show-toplevel"] =>
      match toplevel w with
      | Some dir => (inr (line_of dir), w)
      | None => (inl (failed 128), w)
      end
  | ["rev-parse"; "HEAD"] =>
      match HEAD w with
      | Some sha => (inr (line_of sha), w)
      | None => (inl (failed 128), w)
      end
  | ["show-ref"; "--verify"; "--quiet"; "refs/notes/agent-trace"] =>
      match notes_ref w with
      | NoRef => (inl (failed 1), w)
      | _ => (inr "", w)
      end
  | ["update-ref"; "-d"; "refs/notes/agent-trace"] =>
      (inr "", with_notes w NoRef ∅)
  | ["update-ref"; "refs/notes/agent-trace"; _] =>
      (* the sources pass the empty tree only *)
      (inr "", with_notes w TreeRef ∅)
  | ["mktree"] => (inr (line_of EMPTY_TREE), w)
  | ["notes"; "--ref"; "refs/notes/agent-trace"; "list"] =>
      match notes_ref w with
      | BrokenRef => (inl (failed 128), w)
      | GoodRef => (inr (listing (blob_id w) (notes w)), w)
      | _ => (inr "", w)
      end
  | ["notes"; "--ref"; "refs/notes/agent-trace"; "show"; rev] =>
      match notes_ref w with
      | BrokenRef => (inl (failed 128), w)
      | NoRef => (inl (failed 1), w)
      | GoodRef =>
          match resolve w rev ≫= (fun sha => notes w !! sha) with
          | Some blob => (inr blob, w)
          | None => (inl (failed 1), w)
          end
      | TreeRef =>
          match resolve w rev with
          | Some _ => (inl (failed 1), w)
          | None => (inl (failed 128), w)
          end
      end
  | ["notes"; "--ref"; "refs/notes/agent-trace"; "add"; "-m"; message; rev] =>
      match notes_ref w, resolve w rev with
      | BrokenRef, _ => (inl (failed 128), w)
      | TreeRef, _ => (inl (failed 128), w)
      | _, None => (inl (failed 128), w)
      | _, Some sha =>
          match notes w !! sha with
          | Some _ => (inl (failed 1), w)
          | None => (inr "", with_notes w GoodRef (<[sha := line_of message]> (notes w)))
          end
      end
  | ["notes"; "--ref"; "refs/notes/agent-trace"; "remove"; rev] =>
      match notes_ref w, resolve w rev with
      | BrokenRef, _ => (inl (failed 128), w)
      | _, None => (inl (failed 128), w)
      | TreeRef, Some _ => (inl (failed 1), w)
      | _, Some sha =>
          match notes w !! sha with
          | Some _ => (inr "", with_notes w (notes_ref w) (delete sha (notes w)))
          | None => (inl (failed 1), w)
          end
      end
  | _ => (inl (failed 129), w)
  end.

(** [git notes --ref <ref> add -f -F - <rev>] run by [spawnSync]. *)
Definition git_spawn (args : list string) (input : string) (w : World)
    : SpawnResult * World :=
  match args with
  | ["notes"; "--ref"; "refs/notes/agent-trace"; "add"; "-f"; "-F"; "-"; rev] =>
      match notes_ref w, resolve w rev with
      | BrokenRef, _ =>
          ({| sp_status := Some 128; sp_stdout := Some "";
              sp_stderr := Some BROKEN_MESSAGE |}, w)
      | _, None =>
          ({| sp_status := Some 128; sp_stdout := Some "";
              sp_stderr := Some "fatal: failed to resolve HEAD as a valid ref" |}, w)
      | TreeRef, Some _ =>
          ({| sp_status := Some 128; sp_stdout := Some "";
              sp_stderr := Some TREE_MESSAGE |}, w)
      | _, Some sha =>
          ({| sp_status := Some 0; sp_stdout := Some ""; sp_stderr := Some "" |},
           with_notes w GoodRef (<[sha := input]> (notes w)))
      end
  | _ => ({| sp_status := Some 129; sp_stdout := Some "";
             sp_stderr := Some "usage: git" |}, w)
  end.

Definition handler : Handler World :=
  fun R (c : Cmd R) (w : World) =>
    match c in Cmd R return R * World with
    | ExecFileSync args _ _ => git args w
    | SpawnSync args input _ => git_spawn args input w
    | GetEnv name => (env w !! name, w)
    | ProcessCwd => (cwd w, w)
    | ExistsSync p => (bool_decide (is_Some (fs w !! p)), w)
    | ReadFileSync p =>
        match fs w !! p with
        | Some text => (inr text, w)
        | None => (inl (FsError "ENOENT"), w)
        end
    | UnlinkSync p =>
        match fs w !! p with
        | Some _ => (inr tt, with_fs w (delete p (fs w)))
        | None => (inl (FsError "ENOENT"), w)
        end
    | ConsoleWarn message => (tt, with_console w (console w ++ [message]))
    end.

Definition exec {A} (p : Prog A) (w : World) : (Exn + A) * World :=
  run handler p w.

End Repo.

(* ===================================================================== *)
(** ** A JSON codec and string formats for closed examples *)
(* ===================================================================== *)

(** The programs above take [JSON.parse], [JSON.stringify] and the string
    formats of zod as parameters.  The closed examples below run them with
    this codec: compact JSON text with integer numbers, strings with the
    escapes for the quote, the backslash and the line feed. *)
Module RefJson.

Definition quote : ascii := ascii_of_nat 34.
Definition backslash : ascii := ascii_of_nat 92.

Fixpoint escape (s : string) : string :=
  match s with
  | EmptyString => EmptyString
  | String a rest =>
      if Ascii.eqb a quote then String backslash (String quote (escape rest))
      else if Ascii.eqb a backslash then String backslash (String backslash (escape rest))
      else if Ascii.eqb a Str.newline then String backslash (String "n"%char (escape rest))
      else String a (escape rest)
  end.

Definition print_string (s : string) : string :=
  String quote (escape s ++ String quote EmptyString).

Definition print_number (q : Q) : string :=
  Consolidate.show_Z (Qnum (Qred q) / Z.pos (Qden (Qred q))).

Fixpoint stringify (v : json) : string :=
  match v with
  | JNull => "null"
  | JBool true => "true"
  | JBool false => "false"
  | JNum q => print_number q
  | JStr s => print_string s
  | JArr items =>
      ("[" ++ (fix go (l : list json) : string :=
                 match l with
                 | [] => ""
                 | [x] => stringify x
                 | x :: rest => (stringify x ++ "," ++ go rest)%string
                 end) items ++ "]")%string
  | JObj members =>
      ("{" ++ (fix go (l : list (string * json)) : string :=
                 match l with
                 | [] => ""
                 | [(k, x)] => (print_string k ++ ":" ++ stringify x)%string
                 | (k, x) :: rest =>
                     (print_string k ++ ":" ++ stringify x ++ "," ++ go rest)%string
                 end) members ++ "}")%string
  end.

(** The text of a string after its opening quote. *)
Fixpoint string_body (s : string) : option (string * string) :=
  match s with
  | EmptyString => None
  | String a rest =>
      if Ascii.eqb a quote then Some (EmptyString, rest)
      else if Ascii.eqb a backslash then
        match rest with
        | String b rest' =>
            let c := if Ascii.eqb b "n"%char then Some Str.newline
                     else if Ascii.eqb b quote then Some quote
                     else if Ascii.eqb b backslash then Some backslash
                     else if Ascii.eqb b "/"%char then Some "/"%char
                     else None in
            c ← c; '(body, tl) ← string_body rest'; Some (String c body, tl)
        | EmptyString => None
        end
      else '(body, tl) ← string_body rest; Some (String a body, tl)
  end.

Definition number (s : string) : option (json * string) :=
  let '(neg, s') := match s with
                    | String "-"%char rest => (true, rest)
                    | _ => (false, s)
                    end in
  '(ds, tl) ← GitUtils.digits1 s';
  match tl with
  | String "."%char _ | String "e"%char _ | String "E"%char _ => None
  | _ =>
      let n := GitUtils.digits_value 0 ds in
      Some (JNum (inject_Z (if neg : bool then - n else n)), tl)
  end.

Fixpoint value (fuel : nat) (s : string) : option (json * string) :=
  match fuel with
  | O => None
  | S fuel =>
      let s := Str.trimStart s in
      match GitUtils.lit "null" s, GitUtils.lit "true" s, GitUtils.lit "false" s with
      | Some tl, _, _ => Some (JNull, tl)
      | _, Some tl, _ => Some (JBool true, tl)
      | _, _, Some tl => Some (JBool false, tl)
      | _, _, _ =>
          match s with
          | String "["%char rest =>
              match Str.trimStart rest with
              | String "]"%char tl => Some (JArr [], tl)
              | _ => '(items, tl) ← elements fuel rest; Some (JArr items, tl)
              end
          | String "{"%char rest =>
              match Str.trimStart rest with
              | String "}"%char tl => Some (JObj [], tl)
              | _ => '(ms, tl) ← members fuel rest; Some (JObj ms, tl)
              end
          | String a rest =>
              if Ascii.eqb a quote
              then '(body, tl) ← string_body rest; Some (JStr body, tl)
              else number s
          | EmptyString => None
          end
      end
  end
with elements (fuel : nat) (s : string) : option (list json * string) :=
  match fuel with
  | O => None
  | S fuel =>
      '(v, tl) ← value fuel s;
      match Str.trimStart tl with
      | String ","%char tl' => '(vs, tl'') ← elements fuel tl'; Some (v :: vs, tl'')
      | String "]"%char tl' => Some ([v], tl')
      | _ => None
      end
  end
with members (fuel : nat) (s : string) : option (list (string * json) * string) :=
  match fuel with
  | O => None
  | S fuel =>
      match Str.trimStart s with
      | String a rest =>
          if Ascii.eqb a quote then
            '(k, tl) ← string_body rest;
            match Str.trimStart tl with
            | String ":"%char tl' =>
                '(v, tl'') ← value fuel tl';
                match Str.trimStart tl'' with
                | String ","%char tl3 =>
                    '(ms, tl4) ← members fuel tl3; Some ((k, v) :: ms, tl4)
                | String "}"%char tl3 => Some ([(k, v)], tl3)
                | _ => None
                end
            | _ => None
            end
          else None
      | EmptyString => None
      end
  end.

Definition parse (text : string) : option json :=
  match value (S (String.length text)) text with
  | Some (v, tl) => if String.eqb (Str.trimStart tl) "" then Some v else None
  | None => None
  end.

(** The formats: a UUID is 8-4-4-4-12 hexadecimal digits; a date-time is
    [YYYY-MM-DDTHH:MM:SSZ]; a URL is a scheme, [://] and a rest. *)
Definition is_hex (a : ascii) : bool :=
  let n := nat_of_ascii a in
  (((48 <=? n) && (n <=? 57)) || ((97 <=? n) && (n <=? 102))
   || ((65 <=? n) && (n <=? 70)))%nat.

Fixpoint matches (shape : list (ascii -> bool)) (s : string) : bool :=
  match shape, s with
  | [], EmptyString => true
  | p :: shape', String a rest => p a && matches shape' rest
  | _, _ => false
  end.

Definition is_char (c : ascii) (a : ascii) : bool := Ascii.eqb a c.

Definition is_uuid : string -> bool :=
  matches (repeat is_hex 8 ++ [is_char "-"] ++ repeat is_hex 4 ++ [is_char "-"]
           ++ repeat is_hex 4 ++ [is_char "-"] ++ repeat is_hex 4
           ++ [is_char "-"] ++ repeat is_hex 12).

Definition is_datetime : string -> bool :=
  matches (repeat Str.is_digit 4 ++ [is_char "-"] ++ repeat Str.is_digit 2
           ++ [is_char "-"] ++ repeat Str.is_digit 2 ++ [is_char "T"]
           ++ repeat Str.is_digit 2 ++ [is_char ":"] ++ repeat Str.is_digit 2
           ++ [is_char ":"] ++ repeat Str.is_digit 2 ++ [is_char "Z"]).

Definition is_url (s : string) : bool :=
  negb (Str.startsWith s "://") && Str.includes s "://".

End RefJson.

(* ===================================================================== *)
(** ** Creating a record (lib/trace-store.ts) *)
(* ===================================================================== *)

Module TraceStore.
Import Effects.

(** [getToolInfo()] *)
Definition getToolInfo : Prog Tool :=
  cursor ← call (GetEnv "CURSOR_VERSION");
  match GitNotes.nonempty cursor with
  | Some v => Ret {| tool_name := "cursor"; tool_version := Some v |}
  | None =>
      claude ← call (GetEnv "CLAUDE_PROJECT_DIR");
      match GitNotes.nonempty claude with
      | Some _ => Ret {| tool_name := "claude-code"; tool_version := None |}
      | None => Ret {| tool_name := "unknown"; tool_version := None |}
      end
  end.

(** [getVcsInfo(cwd)]: [None] is [undefined]. *)
Definition getVcsInfo (cwd : string) : Prog (option Vcs) :=
  catch
    (stdout ← execFileSync ["rev-parse"; "HEAD"] None (Some cwd);
     Ret (Some {| vcs_type := git; revision := Str.trim stdout |}))
    (fun _ => Ret None).

(** The object literal [prefixes], in the order of [Object.entries]. *)
Definition prefixes : list (string * string) :=
  [ ("claude-", "anthropic"); ("gpt-", "openai"); ("o1", "openai");
    ("o3", "openai"); ("gemini-", "google") ].

(** The loop over the entries: the first prefix the model starts with
    gives [`${provider}/${model}`]. *)
Fixpoint withProvider (entries : list (string * string)) (model : string)
    : option string :=
  match entries with
  | [] => None
  | (prefix, provider) :: rest =>
      if Str.startsWith model prefix then Some (provider ++ "/" ++ model)%string
      else withProvider rest model
  end.

(** [normalizeModelId(model)] *)
Definition normalizeModelId (model : option string) : option string :=
  match model with
  | None => None
  | Some model =>
      if String.eqb model "" then None
      else if Str.includes model "/" then Some model
      else match withProvider prefixes model with
           | Some named => Some named
           | None => Some model
           end
  end.

(** [FileEdit] and [RangePosition] of lib/types.ts. *)
Record EditRange := mkEditRange {
  start_line_number : Z;
  end_line_number : Z;
  start_column : Z;
  end_column : Z
}.

Record FileEdit := mkFileEdit {
  old_string : string;
  new_string : string;
  edit_range : option EditRange
}.

Record RangePosition := mkPosition {
  pos_start_line : Z;
  pos_end_line : Z
}.

(** [s.indexOf(sub)]: [None] is [-1]. *)
Fixpoint indexOf (s sub : string) : option nat :=
  if String.prefix sub s then Some O
  else match s with
       | String _ rest => S <$> indexOf rest sub
       | EmptyString => None
       end.

(** [s.substring(0, n)] *)
Fixpoint substring_to (n : nat) (s : string) : string :=
  match n, s with
  | S n', String a rest => String a (substring_to n' rest)
  | _, _ => EmptyString
  end.

(** [s.split("\n").length] *)
Definition lineCount (s : string) : Z :=
  Z.of_nat (length (Str.split Str.newline s)).

(** The function handed to [map] in [computeRangePositions]. *)
Definition positionOf (fileContent : option string) (edit : FileEdit)
    : RangePosition :=
  match edit_range edit with
  | Some range =>
      {| pos_start_line := start_line_number range;
         pos_end_line := end_line_number range |}
  | None =>
      let lineCount := lineCount (new_string edit) in
      let fallback := {| pos_start_line := 1; pos_end_line := lineCount |} in
      match GitNotes.nonempty fileContent with
      | Some fileContent =>
          match indexOf fileContent (new_string edit) with
          | Some idx =>
              let startLine := TraceStore.lineCount (substring_to idx fileContent) in
              {| pos_start_line := startLine;
                 pos_end_line := startLine + lineCount - 1 |}
          | None => fallback
          end
      | None => fallback
      end
  end.

(** [computeRangePositions(edits, fileContent)] *)
Definition computeRangePositions (edits : list FileEdit)
    (fileContent : option string) : list RangePosition :=
  map (positionOf fileContent)
      (List.filter (fun e => negb (String.eqb (new_string e) "")) edits).

(** The options of [createTrace]. *)
Record TraceOptions := mkOptions {
  opt_model : option string;
  opt_rangePositions : option (list RangePosition);
  opt_transcript : option string;
  opt_metadata : option (list (string * json))
}.

(** [opts.rangePositions?.length ? opts.rangePositions.map((pos) => ({ ...pos }))
     : [{ start_line: 1, end_line: 1 }]] *)
Definition rangesOf (rangePositions : option (list RangePosition)) : list Range :=
  let of_position pos :=
    {| start_line := pos_start_line pos; end_line := pos_end_line pos;
       content_hash := None; range_contributor := None |} in
  match rangePositions with
  | Some (pos :: more) => map of_position (pos :: more)
  | _ => [ {| start_line := 1; end_line := 1;
              content_hash := None; range_contributor := None |} ]
  end.

(** [opts.transcript ? `file://${opts.transcript}` : undefined] *)
Definition conversationUrl (transcript : option string) : option string :=
  match GitNotes.nonempty transcript with
  | Some t => Some ("file://" ++ t)%string
  | None => None
  end.

(** The record [createTrace] returns, from the answers of the calls it
    makes: [relativePath] is [toRelativePath(filePath, root)], [uuid] is
    [crypto.randomUUID()] and [now] is [new Date().toISOString()]. *)
Definition traceOf (ty : ContributorType) (relativePath : string)
    (opts : TraceOptions) (uuid now : string) (vcsInfo : option Vcs)
    (toolInfo : Tool) : TraceRecord :=
  let conversation :=
    {| url := conversationUrl (opt_transcript opts);
       contributor := Some {| type := ty;
                              model_id := normalizeModelId (opt_model opts) |};
       ranges := rangesOf (opt_rangePositions opts);
       related := None |} in
  {| version := "1.0.0";
     id := uuid;
     timestamp := now;
     vcs := vcsInfo;
     tool := Some toolInfo;
     files := [ {| path := relativePath; conversations := [conversation] |} ];
     metadata := opt_metadata opts |}.

End TraceStore.

(* ===================================================================== *)
(** ** The queries of the notes store (lib/git-notes.ts) *)
(* ===================================================================== *)

Module NotesQueries.
Import Effects GitNotes.

(** The lines of a text git printed:
    [text.trim().split("\n").filter((line) => line.trim())]. *)
Definition outputLines (text : string) : list string :=
  List.filter Str.nonblank (Str.split Str.newline (Str.trim text)).

(** [/^[0-9a-f]{7,40}$/i.test(sha)] *)
Definition is_hex (a : ascii) : bool :=
  let n := nat_of_ascii a in
  (((48 <=? n) && (n <=? 57)) || ((97 <=? n) && (n <=? 102))
   || ((65 <=? n) && (n <=? 70)))%nat.

Definition is_sha (sha : string) : bool :=
  forallb is_hex (list_ascii_of_string sha)
  && (7 <=? String.length sha)%nat && (String.length sha <=? 40)%nat.

(** The text before the first white space. *)
Fixpoint untilSpace (s : string) : string :=
  match s with
  | String a rest => if Str.is_space a then EmptyString else String a (untilSpace rest)
  | EmptyString => EmptyString
  end.

(** [line.trim().split(/\s+/)[0]], with the white space of [Str.is_space]. *)
Definition firstField (line : string) : string := untilSpace (Str.trim line).

(** The function handed to [map] in [getCommitsWithTraces]: [None] is
    [null]. *)
Definition listedSha (line : string) : option string :=
  let sha := firstField line in
  if negb (String.eqb sha "") && is_sha sha then Some sha else None.

Definition listedCommits (output : string) : list string :=
  omap listedSha (outputLines output).

(** [error.status === 128 || error.code === 128 || error.status === 1] *)
Definition ref_missing (error : Exn) : bool :=
  match error with
  | ExecFailed e =>
      match err_status e with Some n => (n =? 128) | None => false end
      || match err_code e with Some (CodeNum n) => (n =? 128) | _ => false end
      || match err_status e with Some n => (n =? 1) | None => false end
  | _ => false
  end.

(** [getCommitsWithTraces(cwd)] *)
Definition getCommitsWithTraces (cwd : option string) : Prog (list string) :=
  catch
    (ensureNotesRef cwd;;
     output ← execFileSync (notes_args ["list"]) None cwd;
     if String.eqb output "" || String.eqb (Str.trim output) "" then Ret []
     else Ret (listedCommits output))
    (fun error =>
       if ref_missing error then Ret []
       else _ ← call (ConsoleWarn "Failed to list git notes"); Ret []).

(** [hasTracesInNotes(commitSha, cwd)] *)
Definition hasTracesInNotes (commitSha : string) (cwd : option string)
    : Prog bool :=
  catch
    (_ ← execFileSync (show_args commitSha) None cwd; Ret true)
    (fun error =>
       match error with
       | ExecFailed e =>
           if match err_status e with Some n => (n =? 128) | None => false end
              || match err_code e with Some (CodeNum n) => (n =? 128) | _ => false end
           then Ret false
           else Ret false
       | _ => Ret false
       end).

Section WithJson.

Variables is_uuid is_datetime is_url : string -> bool.
Variable JSON_parse : string -> option json.
Variable JSON_stringify : json -> string.

#[local] Abbreviation read :=
  (readTracesFromNotes is_uuid is_datetime is_url JSON_parse).

(** [appendTraceToNotes(commitSha, trace, cwd)] *)
Definition appendTraceToNotes (commitSha : string) (trace : TraceRecord)
    (cwd : option string) : Prog unit :=
  writeTracesToNotes is_uuid is_datetime is_url JSON_parse JSON_stringify
                     commitSha [trace] cwd.

(** [for (const commit of commits) { allTraces.push(...readTracesFromNotes(commit, cwd)) }] *)
Fixpoint readAll (commits : list string) (cwd : option string)
    (allTraces : list TraceRecord) : Prog (list TraceRecord) :=
  match commits with
  | [] => Ret allTraces
  | commit :: rest =>
      traces ← read commit cwd;
      readAll rest cwd (allTraces ++ traces)
  end.

(** [readTracesFromNotesRange(fromCommit, toCommit, cwd)]; the list of the
    commits is asked without [cwd]. *)
Definition readTracesFromNotesRange (fromCommit toCommit : string)
    (cwd : option string) : Prog (list TraceRecord) :=
  catch
    (stdout ← execFileSync ["rev-list"; (fromCommit ++ ".." ++ toCommit)%string]
                           None None;
     readAll (outputLines stdout) cwd [])
    (fun _ =>
       _ ← call (ConsoleWarn "Failed to read traces from range"); Ret []).

(** An entry of the result of [getCommitsWithTracesMetadata]. *)
Record CommitTraces := mkCommitTraces {
  ct_commit : string;
  traceCount : nat;
  ct_timestamp : option string
}.

(** The loop of [getCommitsWithTracesMetadata], with its [catch] that
    warns. *)
Fixpoint commitsMetadata (commits : list string) (cwd : option string)
    (result : list CommitTraces) : Prog (list CommitTraces) :=
  match commits with
  | [] => Ret result
  | commit :: rest =>
      result' ←
        catch
          (traces ← read commit cwd;
           if (0 <? length traces)%nat
           then Ret (result ++ [ {| ct_commit := commit;
                                    traceCount := length traces;
                                    ct_timestamp := timestamp <$> head traces |} ])
           else Ret result)
          (fun _ =>
             _ ← call (ConsoleWarn "Failed to read traces for commit"); Ret result);
      commitsMetadata rest cwd result'
  end.

(** [getCommitsWithTracesMetadata(cwd)] *)
Definition getCommitsWithTracesMetadata (cwd : option string)
    : Prog (list CommitTraces) :=
  commits ← getCommitsWithTraces cwd;
  commitsMetadata commits cwd [].

End WithJson.

End NotesQueries.

(* ===================================================================== *)
(** ** The hook script (hooks/trace-hook.ts) *)
(* ===================================================================== *)

Module TraceHook.

(** The members of the hook input that name a model. *)
Record HookInput := mkHookInput {
  input_model : option string;
  input_model_id : option string;
  input_model_name : option string;
  input_metadata : option (list (string * json))
}.

(** Calling [trim] on a value that is not a string throws a [TypeError]. *)
Inductive Thrown := TypeError.

(** [a || b] on strings that may be [undefined]. *)
Definition or_else (a b : option string) : option string :=
  match GitNotes.nonempty a with
  | Some _ => a
  | None => b
  end.

(** [a || b] on members of a parsed object. *)
Definition or_else_json (a b : option json) : option json :=
  match a with
  | Some v => if truthy v then a else b
  | None => b
  end.

(** [model && model.trim() !== ""] *)
Definition named (model : option string) : bool :=
  match GitNotes.nonempty model with
  | Some m => negb (String.eqb (Str.trim m) "")
  | None => false
  end.

(** [extractModel(input)] *)
Definition extractModel (input : HookInput) : Thrown + option string :=
  let model := or_else (or_else (input_model input) (input_model_id input))
                       (input_model_name input) in
  if named model then inr model
  else
    match input_metadata input with
    | Some metadata =>
        let metaModel := or_else_json (member "model" metadata)
                                      (member "model_id" metadata) in
        match metaModel with
        | Some v =>
            if truthy v then
              match v with
              | JStr s => if negb (String.eqb (Str.trim s) "") then inr (Some s)
                          else inr None
              | _ => inl TypeError
              end
            else inr None
        | None => inr None
        end
    | None => inr None
    end.

(** [getContributorType(input)] *)
Definition getContributorType (input : HookInput) : Thrown + ContributorType :=
  match extractModel input with
  | inl thrown => inl thrown
  | inr model =>
      match GitNotes.nonempty model with
      | None => inr human
      | Some m => if String.eqb (Str.trim m) "" then inr human else inr ai
      end
  end.

(** [model ? "ai" : "human"] of the session handlers. *)
Definition sessionContributorType (input : HookInput) : Thrown + ContributorType :=
  match extractModel input with
  | inl thrown => inl thrown
  | inr model =>
      match GitNotes.nonempty model with
      | None => inr human
      | Some _ => inr ai
      end
  end.

End TraceHook.

(* ===================================================================== *)
(** ** Programs that write files *)
(* ===================================================================== *)

(** [appendTrace] of lib/trace-store.ts and [installGitHook] of
    lib/git-hooks.ts also create a directory and write files.  Their
    programs are trees over the calls of [Effects.Cmd] and the three calls
    of [fs] below. *)
Module FsEffects.
Import Effects.

Inductive FsCmd : Type -> Type :=
| MkdirSync (p : string) : FsCmd (Exn + unit)         (** [{ recursive: true }] *)
| AppendFileSync (p data : string) : FsCmd (Exn + unit)
| WriteFileSync (p data : string) : FsCmd (Exn + unit).

Inductive Call : Type -> Type :=
| Base {R : Type} (c : Cmd R) : Call R
| Fs {R : Type} (c : FsCmd R) : Call R.

Inductive Script (A : Type) : Type :=
| Done (a : A)
| Raise (e : Exn)
| Ask {R : Type} (c : Call R) (k : R -> Script A).

Arguments Done {A} a.
Arguments Raise {A} e.
Arguments Ask {A R} c k.

Fixpoint bind {A B} (p : Script A) (f : A -> Script B) : Script B :=
  match p with
  | Done a => f a
  | Raise e => Raise e
  | Ask c k => Ask c (fun r => bind (k r) f)
  end.

(** [try { p } catch (error) { h error }] *)
Fixpoint catch {A} (p : Script A) (h : Exn -> Script A) : Script A :=
  match p with
  | Done a => Done a
  | Raise e => h e
  | Ask c k => Ask c (fun r => catch (k r) h)
  end.

#[global] Instance Script_ret : MRet Script := @Done.
#[global] Instance Script_bind : MBind Script := fun A B f p => bind p f.

(** A program of [Effects] as a script. *)
Fixpoint lift {A} (p : Prog A) : Script A :=
  match p with
  | Ret a => Done a
  | Throw e => Raise e
  | Vis c k => Ask (Base c) (fun r => lift (k r))
  end.

Definition ask {R} (c : Call R) : Script R := Ask c Done.

Definition existsSync (p : string) : Script bool := ask (Base (ExistsSync p)).

Definition fsCall (c : FsCmd (Exn + unit)) : Script unit :=
  r ← ask (Fs c);
  match r with inl e => Raise e | inr u => Done u end.

Definition mkdirSync (p : string) : Script unit := fsCall (MkdirSync p).
Definition appendFileSync (p data : string) : Script unit := fsCall (AppendFileSync p data).
Definition writeFileSync (p data : string) : Script unit := fsCall (WriteFileSync p data).

Definition Handler (W : Type) : Type := forall R, Call R -> W -> R * W.

Fixpoint run {W A} (h : Handler W) (p : Script A) (w : W) : (Exn + A) * W :=
  match p with
  | Done a => (inr a, w)
  | Raise e => (inl e, w)
  | Ask c k => let '(r, w') := h _ c w in run h (k r) w'
  end.

End FsEffects.

(** [appendTrace] and [readTraces] (lib/trace-store.ts). *)
Module TraceStoreIO.
Import Effects FsEffects.

Section WithJson.

Variables is_uuid is_datetime is_url : string -> bool.
Variable JSON_parse : string -> option json.
Variable JSON_stringify : json -> string.

(** [JSON.stringify(value)], on one line. *)
Variable JSON_stringify_line : json -> string.

Definition stagingLine (trace : TraceRecord) : string :=
  (JSON_stringify_line (Encode.of_TraceRecord trace)
   ++ String Str.newline EmptyString)%string.

(** [appendTrace(trace)] *)
Definition appendTrace (trace : TraceRecord) : Script unit :=
  root ← lift GitHooks.getWorkspaceRoot;
  lift (GitNotes.ensureNotesRef (Some root));;
  catch
    (stdout ← lift (execFileSync ["rev-parse"; "HEAD"] None (Some root));
     let commitSha := Str.trim stdout in
     lift (NotesQueries.appendTraceToNotes is_uuid is_datetime is_url JSON_parse
                                           JSON_stringify commitSha trace (Some root)))
    (fun _ =>
       let stagingPath := GitHooks.join root GitHooks.STAGING_PATH in
       let dir := GitHooks.join root ".agent-trace" in
       present ← existsSync dir;
       (if negb present then mkdirSync dir else Done tt);;
       appendFileSync stagingPath (stagingLine trace)).

(** The loop over the lines of the staging buffer in [readTraces], with its
    [catch] that warns. *)
Fixpoint readStagingLines (lines : list string) (allTraces : list TraceRecord)
    : Prog (list TraceRecord) :=
  match lines with
  | [] => Ret allTraces
  | line :: rest =>
      match JSON_parse line ≫= GitNotes.TraceRecordSchema is_uuid is_datetime is_url with
      | Some trace => readStagingLines rest (allTraces ++ [trace])
      | None =>
          _ ← call (ConsoleWarn "Failed to parse staging trace");
          readStagingLines rest allTraces
      end
  end.

(** [readTraces(root, commitSha)] *)
Definition readTraces (root commitSha : option string)
    : Script (list TraceRecord) :=
  workspaceRoot ← match GitNotes.nonempty root with
                  | Some r => Done r
                  | None => lift GitHooks.getWorkspaceRoot
                  end;
  match GitNotes.nonempty commitSha with
  | Some sha =>
      lift (GitNotes.readTracesFromNotes is_uuid is_datetime is_url JSON_parse
                                         sha (Some workspaceRoot))
  | None =>
      commits ← lift (NotesQueries.getCommitsWithTraces (Some workspaceRoot));
      allTraces ← lift (NotesQueries.readAll is_uuid is_datetime is_url JSON_parse
                                             commits (Some workspaceRoot) []);
      let stagingPath := GitHooks.join workspaceRoot GitHooks.STAGING_PATH in
      present ← existsSync stagingPath;
      if (present : bool) then
        content ← lift (readFileSync stagingPath);
        lift (readStagingLines (GitHooks.stagingLines content) allTraces)
      else Done allTraces
  end.

End WithJson.

End TraceStoreIO.

(** [installGitHook] (lib/git-hooks.ts). *)
Module GitHooksIO.
Import Effects FsEffects.

Definition line (s : string) : string := (s ++ String Str.newline EmptyString)%string.

(** The template literal [hookContent]. *)
Definition hookContent : string :=
  (line "#!/bin/sh"
   ++ line "# Agent Trace hook - attach staging traces to commit"
   ++ line "if [ -f .agent-trace/staging.jsonl ]; then"
   ++ line "  node_modules/.bin/agent-trace attach-staging 2>/dev/null || true"
   ++ line "fi")%string.

(** [installGitHook()]; the mode of the file is not part of the model. *)
Definition installGitHook : Script unit :=
  root ← lift GitHooks.getWorkspaceRoot;
  let hooksDir := GitHooks.join (GitHooks.join root ".git") "hooks" in
  let hookPath := GitHooks.join hooksDir "post-commit" in
  inRepository ← existsSync hooksDir;
  if negb inRepository then Raise (Error "Not in a git repository")
  else
    installed ← existsSync hookPath;
    if (installed : bool) then
      existing ← lift (readFileSync hookPath);
      if Str.includes existing "agent-trace" then Done tt
      else writeFileSync hookPath
             (existing ++ String Str.newline EmptyString ++ hookContent)%string
    else writeFileSync hookPath hookContent.

End GitHooksIO.

(** The model repository with its directories. *)
Module Disk.
Import Effects FsEffects.

Record World := mkDisk {
  repo : Repo.World;
  dirs : gset string             (** the directories by their path *)
}.

Definition with_repo (d : World) (w : Repo.World) : World :=
  {| repo := w; dirs := dirs d |}.

Definition write_file (d : World) (p text : string) : World :=
  with_repo d (Repo.with_fs (repo d) (<[p := text]> (Repo.fs (repo d)))).

(** A call of [Effects.Cmd] answered as on the repository. *)
Definition on_repo {R} (c : Cmd R) (d : World) : R * World :=
  let answer := Repo.handler R c (repo d) in (answer.1, with_repo d answer.2).

(** The calls of [Effects.Cmd] are answered as on the repository, but that
    a directory exists too; a file is written and a directory is made
    whatever there is around them. *)
Definition handler : Handler World :=
  fun R (c : Call R) (d : World) =>
    match c in Call R return R * World with
    | Base c =>
        match c in Cmd R return R * World -> R * World with
        | ExistsSync p =>
            fun _ => (bool_decide (is_Some (Repo.fs (repo d) !! p))
                      || bool_decide (p ∈ dirs d), d)
        | _ => fun answer => answer
        end (on_repo c d)
    | Fs c =>
        match c in FsCmd R return R * World with
        | MkdirSync p => (inr tt, {| repo := repo d; dirs := {[p]} ∪ dirs d |})
        | AppendFileSync p data =>
            (inr tt, write_file d p (default "" (Repo.fs (repo d) !! p) ++ data)%string)
        | WriteFileSync p data => (inr tt, write_file d p data)
        end
    end.

Definition exec {A} (p : Script A) (d : World) : (Exn + A) * World :=
  run handler p d.

End Disk.

(* ===================================================================== *)
(** ** Vocabulary of the statements *)
(* ===================================================================== *)

Module Spec.

(** The [(start_line, end_line)] pair of a range. *)
Definition linePair (r : Range) : Z * Z := (start_line r, end_line r).

(** Every range of a record: of every conversation of every file. *)
Definition all_ranges (t : TraceRecord) : list Range :=
  concat (map ranges (concat (map conversations (files t)))).

(** The bounds the range schema checks. *)
Definition range_checked (r : Range) : Prop := 1 <= start_line r /\ 1 <= end_line r.

(** The order of the two lines of a range. *)
Definition range_ordered (r : Range) : Prop := start_line r <= end_line r.

(** Every conversation and every file path of a list of records. *)
Definition all_conversations (traces : list TraceRecord) : list Conversation :=
  concat (map (fun t => concat (map conversations (files t))) traces).

Definition all_paths (traces : list TraceRecord) : list string :=
  concat (map (fun t => map path (files t)) traces).

(** The ranges of the conversations of one contributor type, of one model,
    and the records of one tool. *)
Definition typeAdd (ty : ContributorType) (c : Conversation) : nat :=
  if decide (Analyzer.contributorType c = ty) then length (ranges c) else 0%nat.

Definition rangesOfType (ty : ContributorType) (traces : list TraceRecord) : nat :=
  sum_list_with (typeAdd ty) (all_conversations traces).

Definition rangesOfModel (m : string) (traces : list TraceRecord) : nat :=
  sum_list_with (fun c => if decide (Analyzer.modelId c = Some m)
                          then length (ranges c) else 0%nat)
                (all_conversations traces).

Definition recordsOfTool (name : string) (traces : list TraceRecord) : nat :=
  sum_list_with (fun t => if decide (tool_name <$> tool t = Some name)
                          then 1%nat else 0%nat)
                traces.

(** The changes recorded for a path: those of the first entry that has it. *)
Definition changesAt (files : list GitUtils.FileChange) (p : string)
    : list GitUtils.Change :=
  match List.find (fun f => String.eqb (GitUtils.fc_path f) p) files with
  | Some f => GitUtils.changes f
  | None => []
  end.


(** [files'] is [files] with the change [c] recorded for the path [p] and
    nothing else changed in what is recorded for any path. *)
Definition records (files files' : list GitUtils.FileChange) (p : string)
    (c : GitUtils.Change) : Prop :=
  map GitUtils.fc_path files' = map GitUtils.fc_path files /\
  forall q, changesAt files' q
            = changesAt files q ++ (if decide (q = p) then [c] else []).




(** A counter of a [Map]: zero for a key that is not there. *)
Definition counted (m : gmap string nat) (k : string) : nat := default 0%nat (m !! k).

End Spec.

(** What the programs of the notes store see of a repository. *)
Module StoreSpec.
Import Effects GitNotes.

Section WithJson.

Variables is_uuid is_datetime is_url : string -> bool.
Variable JSON_parse : string -> option json.
Variable JSON_stringify : json -> string.

(** The JSON values of the records in the text of a note: none for an empty
    text and for a text that is not JSON. *)
Definition noteValues (blob : string) : list json :=
  if String.eqb (Str.trim blob) "" then []
  else match JSON_parse (Str.trim blob) with
       | Some parsed => asRecords parsed
       | None => []
       end.

(** The records a write finds on a commit: the values of its note that pass
    the schema. *)
Definition existingRecords (w : Repo.World) (sha : string) : list TraceRecord :=
  match Repo.notes_ref w, Repo.notes w !! sha with
  | Repo.GoodRef, Some blob =>
      omap (TraceRecordSchema is_uuid is_datetime is_url) (noteValues blob)
  | _, _ => []
  end.

(** The values of the note of a commit that fail the schema. *)
Definition invalidValues (w : Repo.World) (sha : string) : list json :=
  match Repo.notes_ref w, Repo.notes w !! sha with
  | Repo.GoodRef, Some blob =>
      List.filter
        (fun v => bool_decide (TraceRecordSchema is_uuid is_datetime is_url v = None))
        (noteValues blob)
  | _, _ => []
  end.

(** The text a write of [traces] puts in the note of a commit. *)
Definition noteAfterWrite (w : Repo.World) (sha : string) (traces : list TraceRecord)
    : string :=
  JSON_stringify (Encode.of_records (mergeWithExisting (existingRecords w sha) traces)).

(** The lines of the staging buffer that parse into a valid record, with
    the revision rewritten, and the lines that do not. *)
Definition stagedRecords (commitSha content : string) : list TraceRecord :=
  omap (GitHooks.parseStagingLine is_uuid is_datetime is_url JSON_parse commitSha)
       (GitHooks.stagingLines content).

Definition malformedLines (commitSha content : string) : list string :=
  List.filter
    (fun l => bool_decide
                (GitHooks.parseStagingLine is_uuid is_datetime is_url JSON_parse
                                           commitSha l = None))
    (GitHooks.stagingLines content).

End WithJson.

(** [getWorkspaceRoot()] on a world. *)
Definition workspaceRoot (w : Repo.World) : string :=
  match nonempty (Repo.env w !! "CURSOR_PROJECT_DIR") with
  | Some dir => dir
  | None =>
      match nonempty (Repo.env w !! "CLAUDE_PROJECT_DIR") with
      | Some dir => dir
      | None =>
          match Repo.toplevel w with
          | Some dir => Str.trim (Repo.line_of dir)
          | None => Repo.cwd w
          end
      end
  end.

Definition stagingPath (w : Repo.World) : string :=
  GitHooks.join (workspaceRoot w) GitHooks.STAGING_PATH.

(** The world after [console.warn] printed [messages]. *)
Definition warn (w : Repo.World) (messages : list string) : Repo.World :=
  Repo.with_console w (Repo.console w ++ messages).

Definition RECORD_WARNING : string := "Failed to parse trace record".
Definition STAGING_WARNING : string := "Failed to parse staging trace".

(** No record of the list has the conversation key of an earlier one. *)
Fixpoint distinctKeys (traces : list TraceRecord) : Prop :=
  match traces with
  | [] => True
  | t :: rest =>
      Forall (fun u => sameValueZero (Consolidate.conversationId t)
                                     (Consolidate.conversationId u) = false) rest
      /\ distinctKeys rest
  end.

(** The record merged from a group has the conversation key of the group. *)
Definition stableGroup (g : json * list TraceRecord) : Prop :=
  forall M, Consolidate.mergeGroup (snd g) = [M] -> Consolidate.conversationId M = fst g.

(** Consolidation of [traces] keeps the conversation keys: every record it
    gives has the key of the group it was merged from. *)
Definition keyStable (traces : list TraceRecord) : Prop :=
  Forall stableGroup (Consolidate.groupByConversation traces).

(** The records a first write of [[r]] consolidates. *)
Definition delivered (existing : list TraceRecord) (r : TraceRecord)
    : list TraceRecord :=
  existing ++ (if bool_decide (id r ∈ map id existing) then [] else [r]).

(** A record with a [vcs] names the revision [sha]. *)
Definition revisionIs (sha : string) (t : TraceRecord) : Prop :=
  forall v, vcs t = Some v -> revision v = sha.

End StoreSpec.


(** What the proofs below say of the intermediate values of the sources. *)
Module Invariants.
Import Consolidate Analyzer Report Spec StoreSpec.

Definition unsigned_part (i : Decimal.int) : uint :=
  match i with Pos d | Neg d => d end.

(** The ranges of [conv] are among those of [c], by their keys. *)
Definition rangesWithin (conv c : Conversation) : Prop :=
  forall r, r ∈ ranges conv -> rangeKey r ∈ map rangeKey (ranges c).

Definition firstMatch (entry : list Conversation) (conv : Conversation)
    : option Conversation :=
  List.find (fun c => sameContributor c conv) entry.

(** [conv] has been merged into [entry]. *)
Definition absorbedConv (entry : list Conversation) (conv : Conversation) : Prop :=
  exists c, firstMatch entry conv = Some c /\ rangesWithin conv c.

Definition entryOf (fileMap : list File) (p : string) : option File :=
  List.find (fun e => String.eqb (path e) p) fileMap.

(** [file] has been merged into [fileMap]. *)
Definition absorbedFile (fileMap : list File) (file : File) : Prop :=
  exists e, entryOf fileMap (path file) = Some e /\
            forall x, x ∈ conversations file -> absorbedConv (conversations e) x.

(** The files of every record of a group are absorbed in the merged files. *)
Definition mergeInto (fileMap : list File) (group : list TraceRecord) : list File :=
  fold_left (fun fileMap trace => fold_left mergeFile (files trace) fileMap)
            group fileMap.

(** No conversation of the entry has the contributor of an earlier one. *)
Fixpoint distinctContributors (entry : list Conversation) : Prop :=
  match entry with
  | [] => True
  | c :: rest =>
      Forall (fun d => sameContributor c d = false) rest /\ distinctContributors rest
  end.

Definition normalFiles (fileMap : list File) : Prop :=
  NoDup (map path fileMap) /\
  Forall (fun e => distinctContributors (conversations e)) fileMap.

Definition single (t : TraceRecord) : json * list TraceRecord :=
  (conversationId t, [t]).

Definition wellFormedGroup (g : json * list TraceRecord) : Prop :=
  exists b rest, snd g = b :: rest /\ conversationId b = fst g /\
                 Forall (fun t => sameValueZero (fst g) (conversationId t) = true) rest.

Fixpoint distinctGroupKeys (groups : list (json * list TraceRecord)) : Prop :=
  match groups with
  | [] => True
  | g :: rest =>
      Forall (fun h => sameValueZero (fst g) (fst h) = false) rest
      /\ distinctGroupKeys rest
  end.

Definition members (groups : list (json * list TraceRecord)) : list TraceRecord :=
  concat (map snd groups).

Definition stored (groups : list (json * list TraceRecord)) : list TraceRecord :=
  concat (map (fun g => mergeGroup (snd g)) groups).

Definition modelAdd (m : string) (c : Conversation) : nat :=
  if decide (m = "") then 0%nat
  else if decide (Analyzer.modelId c = Some m) then length (ranges c) else 0%nat.

Definition toolAdd (name : string) (t : TraceRecord) : nat :=
  if decide (name = "") then 0%nat
  else if decide (tool_name <$> tool t = Some name) then 1%nat else 0%nat.

(** [s'] is [s] with the ranges of the conversations [cs] counted. *)
Definition adds (s s' : ReportStats) (cs : list Conversation) : Prop :=
  totalTraces s' = totalTraces s /\ totalFiles s' = totalFiles s /\
  aiContributions s' = (aiContributions s + sum_list_with (typeAdd ai) cs)%nat /\
  humanContributions s' = (humanContributions s + sum_list_with (typeAdd human) cs)%nat /\
  mixedContributions s' = (mixedContributions s + sum_list_with (typeAdd mixed) cs)%nat /\
  (forall m, counted (models s') m
             = (counted (models s) m + sum_list_with (modelAdd m) cs)%nat).

Definition has_path (p : string) (trace : TraceRecord) : bool :=
  existsb (fun f => String.eqb (path f) p) (files trace).

(** What the loop body computes for a changed file. *)
Definition candidate (traces : list TraceRecord) (fileChange : GitUtils.FileChange)
    : list AttributedRange :=
  concat (map (conversationRanges fileChange)
              (conversationsFor (GitUtils.fc_path fileChange) traces)).

End Invariants.

(** Records for the closed examples. *)
Module Examples.

Definition range (s e : Z) : Range :=
  {| start_line := s; end_line := e; content_hash := None; range_contributor := None |}.

Definition by_ai (u : option string) (rs : list Range) : Conversation :=
  {| url := u;
     contributor := Some {| type := ai; model_id := Some "anthropic/claude-opus-4-5" |};
     ranges := rs; related := None |}.

Definition record (i ts : string) (fs : list File) : TraceRecord :=
  {| version := "1.0.0"; id := i; timestamp := ts; vcs := None;
     tool := Some {| tool_name := "cursor"; tool_version := None |};
     files := fs; metadata := None |}.

Definition session : option string := Some "file:///home/dev/.cursor/session-1.jsonl".

(** Two captures of one session; the second to arrive was recorded first. *)
Definition late : TraceRecord :=
  record "0b4f8a52-1c1e-4c0b-9d61-5a3b8e1f0a01" "2024-05-02T12:00:00Z"
         [ {| path := "src/a.ts"; conversations := [by_ai session [range 1 50]] |} ].

Definition early : TraceRecord :=
  record "7d9c2e10-3f4a-4b6c-8e2d-6c1a9f0b2c02" "2024-05-02T11:00:00Z"
         [ {| path := "src/a.ts"; conversations := [by_ai session [range 60 70]] |} ].

(** A stored conversation that lists one range twice, and a second capture
    of the same contributor for the same file. *)
Definition stored_twice : TraceRecord :=
  record "0b4f8a52-1c1e-4c0b-9d61-5a3b8e1f0a01" "2024-05-02T11:00:00Z"
         [ {| path := "src/a.ts";
              conversations := [by_ai session [range 1 5; range 1 5]] |} ].

Definition overlapping : TraceRecord :=
  record "7d9c2e10-3f4a-4b6c-8e2d-6c1a9f0b2c02" "2024-05-02T12:00:00Z"
         [ {| path := "src/a.ts";
              conversations := [by_ai session [range 1 5; range 7 9]] |} ].

(** A range whose last line comes before its first. *)
Definition backwards : json :=
  JObj [("start_line", JNum (inject_Z 5)); ("end_line", JNum (inject_Z 2))].

Definition backwards_record : json :=
  JObj [("version", JStr "1.0.0");
        ("id", JStr "0b4f8a52-1c1e-4c0b-9d61-5a3b8e1f0a01");
        ("timestamp", JStr "2024-05-02T11:00:00Z");
        ("files",
         JArr [JObj [("path", JStr "src/a.ts");
                     ("conversations",
                      JArr [JObj [("ranges", JArr [backwards])]])]])].

(** A capture whose conversation has no contributor. *)
Definition anonymous : TraceRecord :=
  record "0b4f8a52-1c1e-4c0b-9d61-5a3b8e1f0a01" "2024-05-02T11:00:00Z"
         [ {| path := "src/a.ts";
              conversations :=
                [ {| url := session; contributor := None;
                     ranges := [range 1 5; range 7 9]; related := None |} ] |} ].

(** A stored record that names a file without a conversation, and a capture
    that brings the conversation of that file as its second file. *)
Definition placeholder : TraceRecord :=
  record "0b4f8a52-1c1e-4c0b-9d61-5a3b8e1f0a01" "2024-05-02T11:00:00Z"
         [ {| path := "src/a.ts"; conversations := [] |} ].

Definition delta : TraceRecord :=
  record "7d9c2e10-3f4a-4b6c-8e2d-6c1a9f0b2c02" "2024-05-02T12:00:00Z"
         [ {| path := "README.md"; conversations := [] |};
           {| path := "src/a.ts"; conversations := [by_ai session [range 1 50]] |} ].

(** A capture of another session, with its [vcs]. *)
Definition other_session : TraceRecord :=
  {| version := "1.0.0"; id := "3c5e7a90-2b4d-4f6a-9c8e-1d3f5a7b9c03";
     timestamp := "2024-05-02T10:00:00Z";
     vcs := Some {| vcs_type := git; revision := "0000000" |};
     tool := Some {| tool_name := "claude-code"; tool_version := None |};
     files := [ {| path := "src/b.ts";
                   conversations :=
                     [by_ai (Some "file:///home/dev/.claude/session-2.jsonl")
                            [range 3 9]] |} ];
     metadata := None |}.

(** The reference codec at the parameters of the programs. *)
Definition Schema : json -> option TraceRecord :=
  Schema.TraceRecordSchema RefJson.is_uuid RefJson.is_datetime RefJson.is_url.

Definition read : string -> option string -> Effects.Prog (list TraceRecord) :=
  GitNotes.readTracesFromNotes RefJson.is_uuid RefJson.is_datetime RefJson.is_url
                               RefJson.parse.

Definition write : string -> list TraceRecord -> option string -> Effects.Prog unit :=
  GitNotes.writeTracesToNotes RefJson.is_uuid RefJson.is_datetime RefJson.is_url
                              RefJson.parse RefJson.stringify.

Definition attach : Effects.Prog unit :=
  GitHooks.attachStagingTraces RefJson.is_uuid RefJson.is_datetime RefJson.is_url
                               RefJson.parse RefJson.stringify.

Definition note_of (ts : list TraceRecord) : string :=
  RefJson.stringify (Encode.of_records ts).

Definition line_of_record (t : TraceRecord) : string :=
  RefJson.stringify (Encode.of_TraceRecord t).

Definition commit : string := "9fceb02d0ae598e95dc970b74767f19372d61af8".

(** The names of the blobs are not computed here: the note of [commit] is
    the only one the examples list, and its blob has this name. *)
Definition blob_id (text : string) : string := "b1b716105590454bfc4c0247f193a04088f39c7f".

(** A work tree at [/work] with one commit; the notes ref is in order. *)
Definition repository (notes : gmap string string) (fs : gmap string string)
    : Repo.World :=
  {| Repo.env := {[ "CURSOR_PROJECT_DIR" := "/work" ]};
     Repo.cwd := "/work";
     Repo.toplevel := Some "/work";
     Repo.HEAD := Some commit;
     Repo.notes_ref := Repo.GoodRef;
     Repo.notes := notes;
     Repo.blob_id := blob_id;
     Repo.fs := fs;
     Repo.console := [] |}.

Definition staging_file : string := "/work/.agent-trace/staging.jsonl".

(** The texts git prints for a commit that renames [src/old.ts] to
    [src/new.ts] and adds one line. *)
Definition lines (ls : list string) : string :=
  fold_right (fun l acc => l ++ String Str.newline acc)%string EmptyString ls.




(** The notes of a repository whose commit holds the records [ts]. *)
Definition held (ts : list TraceRecord) : gmap string string :=
  {[ commit := note_of ts ]}.

(** A git that fails every command with status 2. *)
Definition failing_git : Effects.Handler unit :=
  fun R (c : Effects.Cmd R) (w : unit) =>
    match c in Effects.Cmd R return R * unit with
    | Effects.ExecFileSync _ _ _ =>
        (inl {| Effects.err_status := Some 2; Effects.err_code := None |}, w)
    | Effects.SpawnSync _ _ _ =>
        ({| Effects.sp_status := Some 2; Effects.sp_stdout := None;
            Effects.sp_stderr := None |}, w)
    | Effects.GetEnv _ => (None, w)
    | Effects.ProcessCwd => ("/", w)
    | Effects.ExistsSync _ => (false, w)
    | Effects.ReadFileSync _ => (inl (Effects.FsError "ENOENT"), w)
    | Effects.UnlinkSync _ => (inl (Effects.FsError "ENOENT"), w)
    | Effects.ConsoleWarn _ => (tt, w)
    end.

(** The work tree before its first commit, without a notes ref, as a
    repository and as a disk with the directory of the hooks. *)
Definition unborn : Repo.World :=
  {| Repo.env := {[ "CURSOR_PROJECT_DIR" := "/work" ]};
     Repo.cwd := "/work";
     Repo.toplevel := Some "/work";
     Repo.HEAD := None;
     Repo.notes_ref := Repo.NoRef;
     Repo.notes := ∅;
     Repo.blob_id := blob_id;
     Repo.fs := ∅;
     Repo.console := [] |}.

Definition unborn_disk : Disk.World :=
  {| Disk.repo := unborn; Disk.dirs := {[ "/work/.git/hooks" ]} |}.

(** A directory that is no repository. *)
Definition plain_disk : Disk.World := {| Disk.repo := unborn; Disk.dirs := ∅ |}.

Definition append : TraceRecord -> FsEffects.Script unit :=
  TraceStoreIO.appendTrace RefJson.is_uuid RefJson.is_datetime RefJson.is_url
                           RefJson.parse RefJson.stringify RefJson.stringify.

(** A file of three lines and an edit that brings its second line. *)
Definition three_lines : string := lines ["const a = 1;"; "const b = 2;"; "const c = 3;"].

Definition second_line : TraceStore.FileEdit :=
  {| TraceStore.old_string := "";
     TraceStore.new_string := "const b = 2;";
     TraceStore.edit_range := None |}.

(** A hook input whose [model] is blank. *)
Definition blank_model : TraceHook.HookInput :=
  {| TraceHook.input_model := Some " ";
     TraceHook.input_model_id := Some "gpt-4o";
     TraceHook.input_model_name := None;
     TraceHook.input_metadata := None |}.

End Examples.

(* ===================================================================== *)
(** ** Vocabulary of the further statements *)
(* ===================================================================== *)

(** What a program can do under every handler. *)
Module Outcomes.
Import Effects.

(** The program ends without a thrown value, whatever the calls answer. *)
Definition neverThrows {A} (p : Prog A) : Prop :=
  forall W (h : Handler W) (w : W), exists a w', run h p w = (inr a, w').

(** Every value the program returns satisfies [P]. *)
Definition returnsOnly {A} (P : A -> Prop) (p : Prog A) : Prop :=
  forall W (h : Handler W) (w w' : W) (a : A), run h p w = (inr a, w') -> P a.

(** An entry of the list of the commits that have traces: its commit is 7
    to 40 hexadecimal digits, it counts one trace or more and it has a
    timestamp. *)
Definition listed (entry : NotesQueries.CommitTraces) : Prop :=
  NotesQueries.is_sha (NotesQueries.ct_commit entry) = true /\
  (1 <= NotesQueries.traceCount entry)%nat /\
  is_Some (NotesQueries.ct_timestamp entry).

End Outcomes.

(** The constraints of the schemas, on the record model. *)
Module Valid.

Section WithFormats.

Variables is_uuid is_datetime is_url : string -> bool.

Definition validContributor (c : Contributor) : Prop :=
  from_option (fun m => (String.length m <= 250)%nat) True (model_id c).

Definition validRange (r : Range) : Prop :=
  1 <= start_line r /\ 1 <= end_line r /\
  from_option validContributor True (range_contributor r).

Definition validRelated (r : RelatedResource) : Prop := is_url (related_url r) = true.

Definition validConversation (c : Conversation) : Prop :=
  from_option (fun u => is_url u = true) True (url c) /\
  from_option validContributor True (contributor c) /\
  Forall validRange (ranges c) /\
  from_option (Forall validRelated) True (related c).

Definition validFile (f : File) : Prop := Forall validConversation (conversations f).

Definition validRecord (t : TraceRecord) : Prop :=
  Schema.is_version (version t) = true /\
  is_uuid (id t) = true /\
  is_datetime (timestamp t) = true /\
  Forall validFile (files t).

End WithFormats.

End Valid.

(** What a list of records attributes: a line pair of a file to a
    contributor. *)
Module Attribution.

Definition attribution : Type :=
  string * option ContributorType * option string * (Z * Z).

Definition ofConversation (p : string) (c : Conversation) : list attribution :=
  map (fun r => (p, Consolidate.contributor_type c, Consolidate.contributor_model c,
                 Spec.linePair r))
      (ranges c).

Definition ofFile (f : File) : list attribution :=
  concat (map (ofConversation (path f)) (conversations f)).

Definition attributions (traces : list TraceRecord) : list attribution :=
  concat (map (fun t => concat (map ofFile (files t))) traces).

(** The files of the records of a group, in the order of the two loops. *)
Definition sourcesOf (group : list TraceRecord) : list File :=
  concat (map files group).

(** The conversation [conv] of the entry of the path [p] is a conversation
    of the sources with other ranges, and each of its ranges is a range of
    a conversation of the sources for that path and that contributor. *)
Definition fromSources (srcs : list File) (p : string) (conv : Conversation) : Prop :=
  (exists f c, f ∈ srcs /\ path f = p /\ c ∈ conversations f /\
               Consolidate.with_ranges c (ranges conv) = conv) /\
  (forall r, r ∈ ranges conv ->
     exists f c, f ∈ srcs /\ path f = p /\ c ∈ conversations f /\
                 Consolidate.sameContributor conv c = true /\ r ∈ ranges c).

Definition filesFrom (srcs : list File) (fileMap : list File) : Prop :=
  Forall (fun e => Forall (fromSources srcs (path e)) (conversations e)) fileMap.

(** The first records of the groups. *)
Definition bases (groups : list (json * list TraceRecord)) : list TraceRecord :=
  concat (map (fun g => match snd g with [] => [] | b :: _ => [b] end) groups).

(** The members of a record outside [files]. *)
Definition sameHeader (a b : TraceRecord) : Prop :=
  version a = version b /\ id a = id b /\ timestamp a = timestamp b /\
  vcs a = vcs b /\ tool a = tool b /\ metadata a = metadata b.

End Attribution.

Module RepairSpec.

(** The notes ref once [ensureNotesRef] has run.  A ref in order and a ref
    that names the empty tree are left as they are.  A ref that is missing
    or broken is made anew: in order, by a note added to [HEAD] and removed,
    when there is a commit at [HEAD]; bound to the empty tree when there is
    none, or when the note cannot be added. *)
Definition repairedRef (w : Repo.World) : Repo.RefState :=
  match Repo.notes_ref w with
  | Repo.GoodRef => Repo.GoodRef
  | Repo.TreeRef => Repo.TreeRef
  | Repo.BrokenRef =>
      match Repo.HEAD w with
      | Some _ => Repo.GoodRef
      | None => Repo.TreeRef
      end
  | Repo.NoRef =>
      match Repo.HEAD w with
      | Some sha => match Repo.notes w !! sha with
                    | None => Repo.GoodRef
                    | Some _ => Repo.TreeRef
                    end
      | None => Repo.TreeRef
      end
  end.

(** A write can store a note: the notes ref is in order, or
    [ensureNotesRef] puts it in order. *)
Definition writable (w : Repo.World) : Prop :=
  match Repo.notes_ref w with
  | Repo.GoodRef => True
  | Repo.TreeRef => False
  | Repo.BrokenRef => is_Some (Repo.HEAD w)
  | Repo.NoRef => exists sha, Repo.HEAD w = Some sha /\ Repo.notes w !! sha = None
  end.

(** The notes that are left once [ensureNotesRef] has run: those of a ref
    that is left as it is; none after a broken ref was deleted; those the
    world held without a ref, unless they keep the ref from being created
    with a note on [HEAD]. *)
Definition repairedNotes (w : Repo.World) : gmap string string :=
  match Repo.notes_ref w with
  | Repo.GoodRef => Repo.notes w
  | Repo.TreeRef => Repo.notes w
  | Repo.BrokenRef => ∅
  | Repo.NoRef =>
      match Repo.HEAD w with
      | Some sha => match Repo.notes w !! sha with
                    | None => Repo.notes w
                    | Some _ => ∅
                    end
      | None => ∅
      end
  end.

Definition repaired (w : Repo.World) : Repo.World :=
  Repo.with_notes w (repairedRef w) (repairedNotes w).

(** What a write throws when git refuses the note because the notes ref
    names the empty tree. *)
Definition blocked : Effects.Exn :=
  Effects.Error ("Failed to write git note: " ++ Str.trim Repo.TREE_MESSAGE).

End RepairSpec.

Module DiffSpec.
Import GitUtils.

(** A change the loop can record: on a line that is not negative, added or
    removed. *)
Definition recordable (c : Change) : Prop := 0 <= line c /\ change_type c <> modified.

(** What the loop leaves of an entry: its path and its two counts. *)
Definition entryHead (f : FileChange) : string * Z * Z :=
  (fc_path f, additions f, deletions f).

(** The decimal digits of a natural number. *)
Definition show_nat (n : nat) : string := NilZero.string_of_uint (Nat.to_uint n).

(** [,count] in a hunk header, when it is there. *)
Definition show_count (count : option nat) : string :=
  match count with
  | Some n => ("," ++ show_nat n)%string
  | None => ""
  end.

(** [@@ -old[,count] +new[,count] @@rest] *)
Definition hunkHeader (old : nat) (oldCount : option nat) (new : nat)
    (newCount : option nat) (rest : string) : string :=
  ("@@ -" ++ show_nat old ++ show_count oldCount ++ " +" ++ show_nat new
   ++ show_count newCount ++ " @@" ++ rest)%string.

(** The invariant of the loop over the lines of the unified diff. *)
Definition kept (files0 : list FileChange) (st : Cursor) : Prop :=
  map entryHead (files st) = map entryHead files0 /\
  0 <= lineNumber st /\
  Forall (fun f => Forall recordable (changes f)) (files st).

(** A text that goes on with something that is not a digit. *)
Definition stops (rest : string) : Prop :=
  match rest with
  | String a _ => Str.is_digit a = false
  | EmptyString => True
  end.

End DiffSpec.

Module NumstatSpec.
Import GitUtils DiffSpec.

(** A count of a numstat line: a number, or [-] for a binary file. *)
Definition show_stat (count : option nat) : string :=
  match count with
  | Some n => show_nat n
  | None => "-"
  end.

Definition stat_value (count : option nat) : Z :=
  match count with
  | Some n => Z.of_nat n
  | None => 0
  end.

(** [added<TAB>deleted<TAB>path] *)
Definition numstatText (added deleted : option nat) (p : string) : string :=
  (show_stat added ++ String tab (show_stat deleted ++ String tab p))%string.

End NumstatSpec.

Module MatcherSpec.
Import Analyzer.

(** A returned range holds a changed line of the file, or the file has no
    changed line. *)
Definition touched (fileChange : GitUtils.FileChange) (a : AttributedRange) : Prop :=
  GitUtils.changes fileChange = [] \/
  exists change, change ∈ GitUtils.changes fileChange /\
                 a_start_line a <= GitUtils.line change <= a_end_line a.

(** The model ids of the conversations recorded for a path, the empty one
    apart. *)
Definition recordedModel (p : string) (traces : list TraceRecord) (m : string) : Prop :=
  m <> "" /\ exists c, c ∈ conversationsFor p traces /\ modelId c = Some m.

End MatcherSpec.

Module ReportSpec.
Import Report.

(** The summary with other tool counters. *)
Definition set_tools (s : ReportStats) (tl : gmap string nat) : ReportStats :=
  {| totalTraces := totalTraces s; totalFiles := totalFiles s;
     aiContributions := aiContributions s;
     humanContributions := humanContributions s;
     mixedContributions := mixedContributions s;
     models := models s; tools := tl |}.

(** The tool counters after a record. *)
Definition toolsAfter (t : TraceRecord) (tl : gmap string nat) : gmap string nat :=
  match GitNotes.nonempty (tool_name <$> tool t) with
  | Some name => bump name 1 tl
  | None => tl
  end.

(** [countTrace] is the loop over the files, then the tool. *)
Definition bumpTool (t : TraceRecord) (acc : ReportStats * gset string)
    : ReportStats * gset string :=
  (set_tools acc.1 (toolsAfter t (tools acc.1)), acc.2).

End ReportSpec.

Module PositionSpec.

(** The number of line feeds of a text. *)
Fixpoint newlines (s : string) : Z :=
  match s with
  | String a rest => (if Ascii.eqb a Str.newline then 1 else 0) + newlines rest
  | EmptyString => 0
  end.

(** [sub] does not occur in [s] at an index below [n]. *)
Fixpoint absentBefore (n : nat) (s sub : string) : Prop :=
  match n with
  | O => True
  | S n' => String.prefix sub s = false /\
            match s with
            | String _ rest => absentBefore n' rest sub
            | EmptyString => True
            end
  end.

End PositionSpec.

Module HookSpec.
Import TraceHook.

(** The first of the three members that is not empty. *)
Definition firstNamed (input : HookInput) : option string :=
  match GitNotes.nonempty (input_model input) with
  | Some m => Some m
  | None =>
      match GitNotes.nonempty (input_model_id input) with
      | Some m => Some m
      | None => GitNotes.nonempty (input_model_name input)
      end
  end.

(** The input with its metadata alone. *)
Definition metadataOnly (input : HookInput) : HookInput :=
  {| input_model := None; input_model_id := None; input_model_name := None;
     input_metadata := input_metadata input |}.

End HookSpec.

Module OverrideSpec.

(** A range with its two lines only. *)
Definition bareRange (r : Range) : Range :=
  {| start_line := start_line r; end_line := end_line r;
     content_hash := None; range_contributor := None |}.

Definition bareConversation (c : Conversation) : Conversation :=
  {| url := url c; contributor := contributor c;
     ranges := map bareRange (ranges c); related := related c |}.

Definition bareFile (f : File) : File :=
  {| path := path f; conversations := map bareConversation (conversations f) |}.

(** The record without the content hashes and the contributor overrides of
    its ranges. *)
Definition bareRecord (t : TraceRecord) : TraceRecord :=
  {| version := version t; id := id t; timestamp := timestamp t; vcs := vcs t;
     tool := tool t; files := map bareFile (files t); metadata := metadata t |}.

End OverrideSpec.

Module FormatSpec.

(** A run of one decimal digit or more. *)
Definition numeral (s : string) : Prop :=
  s <> "" /\ Forall (fun a => Str.is_digit a = true) (list_ascii_of_string s).

End FormatSpec.

(** The disk: what the programs that write files ask and leave. *)
Module DiskSpec.
Import Effects.

(** The program asks for no [existsSync]. *)
Fixpoint quiet {A} (p : Prog A) : Prop :=
  match p with
  | Ret _ | Throw _ => True
  | Vis c k =>
      match c with ExistsSync _ => False | _ => True end /\ forall r, quiet (k r)
  end.

(** The repository once [sha] has been committed. *)
Definition committed (sha : string) (w : Repo.World) : Repo.World :=
  {| Repo.env := Repo.env w; Repo.cwd := Repo.cwd w; Repo.toplevel := Repo.toplevel w;
     Repo.HEAD := Some sha; Repo.notes_ref := Repo.notes_ref w;
     Repo.notes := Repo.notes w; Repo.blob_id := Repo.blob_id w; Repo.fs := Repo.fs w; Repo.console := Repo.console w |}.

(** The directory of the staging buffer. *)
Definition stagingDir (w : Repo.World) : string :=
  GitHooks.join (StoreSpec.workspaceRoot w) ".agent-trace".

(** The hook file of the repository. *)
Definition hooksDir (w : Repo.World) : string :=
  GitHooks.join (GitHooks.join (StoreSpec.workspaceRoot w) ".git") "hooks".

Definition hookPath (w : Repo.World) : string := GitHooks.join (hooksDir w) "post-commit".

(** [p] exists on the disk, as a file or as a directory. *)
Definition present (d : Disk.World) (p : string) : bool :=
  bool_decide (is_Some (Repo.fs (Disk.repo d) !! p)) || bool_decide (p ∈ Disk.dirs d).

(** The disk once [line] was appended to the staging buffer under [root],
    after its directory was made when it was not there. *)
Definition staged (root : string) (d : Disk.World) (line : string) : Disk.World :=
  let path := GitHooks.join root GitHooks.STAGING_PATH in
  let dir := GitHooks.join root ".agent-trace" in
  {| Disk.repo :=
       Repo.with_fs (Disk.repo d)
         (<[path := (default "" (Repo.fs (Disk.repo d) !! path) ++ line)%string]>
            (Repo.fs (Disk.repo d)));
     Disk.dirs := if present d dir then Disk.dirs d else {[dir]} ∪ Disk.dirs d |}.

End DiskSpec.

(* ===================================================================== *)
(** ** Range keys and the merge of two range lists *)
(* ===================================================================== *)

Module RangeKeys.
Import Consolidate Spec Invariants.

Lemma digits_sep_inj d d' s s' :
  (NilEmpty.string_of_uint d ++ String "-" s)%string
  = (NilEmpty.string_of_uint d' ++ String "-" s')%string ->
  d = d' /\ s = s'.
Proof.
  revert d'. induction d; intros d'; destruct d'; simpl; intros H;
    try discriminate H;
    try (injection H as H; apply IHd in H; destruct H; subst; tauto).
  injection H as ->. tauto.
Qed.

Lemma digits_head d t :
  d <> Nil ->
  exists c t', (NilEmpty.string_of_uint d ++ t)%string = String c t' /\ c <> "-"%char.
Proof.
  intros H. destruct d; try congruence; simpl; eexists _, _;
    (split; [reflexivity | discriminate]).
Qed.

Lemma int_sep_inj i j s s' :
  unsigned_part i <> Nil -> unsigned_part j <> Nil ->
  (NilZero.string_of_int i ++ String "-" s)%string
  = (NilZero.string_of_int j ++ String "-" s')%string ->
  i = j /\ s = s'.
Proof.
  assert (Hn : forall d, d <> Nil ->
             NilZero.string_of_uint d = NilEmpty.string_of_uint d).
  { intros d Hd. destruct d; [congruence | reflexivity ..]. }
  destruct i as [d|d], j as [e|e]; simpl; intros Hd He H;
    rewrite !Hn in H by assumption.
  - apply digits_sep_inj in H as [-> ->]. tauto.
  - destruct (digits_head d (String "-" s) Hd) as (c & t & E & Hc).
    rewrite E in H. injection H as H1 H2. congruence.
  - destruct (digits_head e (String "-" s') He) as (c & t & E & Hc).
    rewrite E in H. injection H as H1 H2. congruence.
  - injection H as H. apply digits_sep_inj in H as [-> ->]. tauto.
Qed.

Lemma to_int_nonnil z : unsigned_part (Z.to_int z) <> Nil.
Proof.
  destruct z; simpl; [discriminate | apply Unsigned.to_uint_nonnil ..].
Qed.

(** The key of the source is the pair of lines in another form. *)
Lemma rangeKey_inj r1 r2 : rangeKey r1 = rangeKey r2 <-> linePair r1 = linePair r2.
Proof.
  unfold rangeKey, linePair, show_Z. split.
  - intros H. apply int_sep_inj in H as [H1 H2]; try apply to_int_nonnil.
    apply DecimalZ.to_int_inj in H1.
    assert (H3 : (NilZero.string_of_int (Z.to_int (end_line r1)) ++ String "-" "")%string
               = (NilZero.string_of_int (Z.to_int (end_line r2)) ++ String "-" "")%string)
      by (by rewrite H2).
    apply int_sep_inj in H3 as [H3 _]; try apply to_int_nonnil.
    apply DecimalZ.to_int_inj in H3. congruence.
  - intros [= -> ->]. reflexivity.
Qed.

Lemma elem_keys_pairs (r : Range) (rs : list Range) :
  rangeKey r ∈ map rangeKey rs <-> linePair r ∈ map linePair rs.
Proof.
  rewrite !list_elem_of_In, !in_map_iff.
  split; intros (x & Hx & Hin); exists x; (split; [|done]); by apply rangeKey_inj.
Qed.

Lemma NoDup_keys_pairs (rs : list Range) :
  NoDup (map rangeKey rs) <-> NoDup (map linePair rs).
Proof.
  induction rs as [|r rs IH]; simpl; [split; constructor|].
  by rewrite !NoDup_cons, IH, elem_keys_pairs.
Qed.

(** The loop keeps the keys distinct, only appends, and ends with the keys
    of both lists. *)
Lemma pushNewRanges_spec incoming : forall existing (keys : gset string),
  (forall k, k ∈ keys <-> k ∈ map rangeKey existing) ->
  NoDup (map rangeKey existing) ->
  NoDup (map rangeKey (pushNewRanges existing keys incoming)) /\
  (exists extra, pushNewRanges existing keys incoming = existing ++ extra
                 /\ forall r, r ∈ extra -> r ∈ incoming) /\
  (forall r, r ∈ incoming ->
             rangeKey r ∈ map rangeKey (pushNewRanges existing keys incoming)).
Proof.
  induction incoming as [|r rest IH]; intros existing keys Hk Hnd; simpl.
  - split; [done|]. split; [exists []; split; [by rewrite app_nil_r|]|];
      intros r Hr; by apply elem_of_nil in Hr.
  - destruct (decide (rangeKey r ∈ keys)) as [Hin|Hnin].
    + destruct (IH existing keys Hk Hnd) as (H1 & (extra & H2 & H2') & H3).
      split; [done|]. split.
      * exists extra. split; [done|]. intros x Hx. right. by apply H2'.
      * intros x [->|Hx]%elem_of_cons; [|by apply H3].
        rewrite H2, map_app, elem_of_app. left. by apply Hk.
    + destruct (IH (existing ++ [r]) ({[rangeKey r]} ∪ keys))
        as (H1 & (extra & H2 & H2') & H3).
      * intros k. rewrite map_app, elem_of_app, elem_of_union, Hk. simpl.
        rewrite elem_of_singleton, list_elem_of_singleton. tauto.
      * rewrite map_app. apply NoDup_app. split; [done|]. split.
        -- intros k Hk1 Hk2. simpl in Hk2. apply list_elem_of_singleton in Hk2 as ->.
           apply Hnin, Hk, Hk1.
        -- simpl. apply NoDup_singleton.
      * split; [done|]. split.
        -- exists (r :: extra). split; [by rewrite H2, <- app_assoc|].
           intros x [->|Hx]%elem_of_cons; [left | right; by apply H2'].
        -- intros x [->|Hx]%elem_of_cons; [|by apply H3].
           rewrite H2, <- app_assoc, map_app, elem_of_app. right. simpl. left.
Qed.

Lemma mergeRanges_spec existing incoming :
  NoDup (map linePair existing) ->
  NoDup (map linePair (mergeRanges existing incoming)) /\
  (exists extra, mergeRanges existing incoming = existing ++ extra
                 /\ forall r, r ∈ extra -> r ∈ incoming) /\
  (forall r, r ∈ incoming ->
             linePair r ∈ map linePair (mergeRanges existing incoming)).
Proof.
  intros Hnd. unfold mergeRanges.
  destruct (pushNewRanges_spec incoming existing
              (list_to_set (map rangeKey existing))) as (H1 & H2 & H3).
  - intros k. by rewrite elem_of_list_to_set.
  - by apply NoDup_keys_pairs.
  - split; [by apply NoDup_keys_pairs|]. split; [done|].
    intros r Hr. by apply elem_keys_pairs, H3.
Qed.

End RangeKeys.

(* ===================================================================== *)
(** ** Merging files and conversations again *)
(* ===================================================================== *)

Module MergeFacts.
Import Consolidate Spec RangeKeys Invariants.

(** *** Contributors *)

#[local] Arguments sameContributor : simpl never.

Lemma sameContributor_refl c : sameContributor c c = true.
Proof. unfold sameContributor. by rewrite !bool_decide_true. Qed.

Lemma sameContributor_true c d :
  sameContributor c d = true <->
  contributor_type c = contributor_type d /\ contributor_model c = contributor_model d.
Proof.
  unfold sameContributor. rewrite andb_true_iff, !bool_decide_eq_true. done.
Qed.

Lemma sameContributor_congr c c' d d' :
  sameContributor c c' = true -> sameContributor d d' = true ->
  sameContributor c d = sameContributor c' d'.
Proof.
  intros [H1 H2]%sameContributor_true [H3 H4]%sameContributor_true.
  unfold sameContributor. by rewrite H1, H2, H3, H4.
Qed.

Lemma sameContributor_with_ranges c rs d :
  sameContributor (with_ranges c rs) d = sameContributor c d.
Proof. reflexivity. Qed.

Lemma with_ranges_id c : with_ranges c (ranges c) = c.
Proof. by destruct c. Qed.

(** *** Ranges *)

Lemma pushNewRanges_known incoming : forall existing (keys : gset string),
  (forall r, r ∈ incoming -> rangeKey r ∈ keys) ->
  pushNewRanges existing keys incoming = existing.
Proof.
  induction incoming as [|r rest IH]; intros existing keys Hk; simpl; [done|].
  rewrite decide_True by (apply Hk; left).
  apply IH. intros x Hx. apply Hk. by right.
Qed.

Lemma pushNewRanges_keys incoming : forall existing (keys : gset string),
  (forall k, k ∈ keys <-> k ∈ map rangeKey existing) ->
  (exists extra, pushNewRanges existing keys incoming = existing ++ extra) /\
  (forall r, r ∈ incoming ->
             rangeKey r ∈ map rangeKey (pushNewRanges existing keys incoming)).
Proof.
  induction incoming as [|r rest IH]; intros existing keys Hk; simpl.
  - split; [exists []; by rewrite app_nil_r|]. intros r Hr. by apply elem_of_nil in Hr.
  - destruct (decide (rangeKey r ∈ keys)) as [Hin|Hnin].
    + destruct (IH existing keys Hk) as ((extra & H2) & H3).
      split; [by exists extra|].
      intros x [->|Hx]%elem_of_cons; [|by apply H3].
      rewrite H2, map_app, elem_of_app. left. by apply Hk.
    + destruct (IH (existing ++ [r]) ({[rangeKey r]} ∪ keys)) as ((extra & H2) & H3).
      * intros k. rewrite map_app, elem_of_app, elem_of_union, Hk. simpl.
        rewrite elem_of_singleton, list_elem_of_singleton. tauto.
      * split; [exists (r :: extra); by rewrite H2, <- app_assoc|].
        intros x [->|Hx]%elem_of_cons; [|by apply H3].
        rewrite H2, <- app_assoc, map_app, elem_of_app. right. simpl. left.
Qed.

Lemma mergeRanges_within c conv :
  rangesWithin conv c -> mergeRanges (ranges c) (ranges conv) = ranges c.
Proof.
  intros H. apply pushNewRanges_known. intros r Hr.
  apply elem_of_list_to_set. by apply H.
Qed.

Lemma mergeRanges_grows existing incoming :
  (exists extra, mergeRanges existing incoming = existing ++ extra) /\
  (forall r, r ∈ incoming -> rangeKey r ∈ map rangeKey (mergeRanges existing incoming)).
Proof.
  apply pushNewRanges_keys. intros k. by rewrite elem_of_list_to_set.
Qed.

(** *** Conversations of a file entry *)

Lemma mergeConversation_absorbed entry conv :
  absorbedConv entry conv -> mergeConversation entry conv = entry.
Proof.
  intros (c & Hf & Hw). induction entry as [|x entry IH]; simpl in *; [done|].
  destruct (sameContributor x conv) eqn:E.
  - injection Hf as ->. by rewrite mergeRanges_within, with_ranges_id.
  - by rewrite IH.
Qed.

Lemma mergeConversation_absorbs entry conv :
  absorbedConv (mergeConversation entry conv) conv.
Proof.
  induction entry as [|x entry IH]; simpl.
  - exists conv. unfold firstMatch. simpl. rewrite sameContributor_refl.
    split; [done|]. intros r Hr. apply list_elem_of_In, in_map, list_elem_of_In, Hr.
  - destruct (sameContributor x conv) eqn:E.
    + eexists. unfold firstMatch. simpl.
      rewrite sameContributor_with_ranges, E. split; [done|].
      intros r Hr. simpl. by apply mergeRanges_grows.
    + destruct IH as (c & Hf & Hw). exists c. unfold firstMatch. simpl.
      rewrite E. done.
Qed.

Lemma mergeConversation_keeps entry conv x :
  absorbedConv entry x -> absorbedConv (mergeConversation entry conv) x.
Proof.
  intros (c & Hf & Hw). revert Hf. unfold absorbedConv, firstMatch.
  induction entry as [|y entry IH]; simpl; [done|].
  destruct (sameContributor y conv) eqn:E; simpl.
  - rewrite sameContributor_with_ranges. destruct (sameContributor y x) eqn:E'.
    + intros [= ->]. eexists. split; [done|].
      intros r Hr. simpl.
      destruct (mergeRanges_grows (ranges c) (ranges conv)) as [(extra & ->) _].
      rewrite map_app, elem_of_app. left. by apply Hw.
    + intros Hf. by exists c.
  - destruct (sameContributor y x) eqn:E'.
    + intros [= ->]. by exists c.
    + apply IH.
Qed.

Lemma fold_mergeConversation_keeps convs : forall entry x,
  absorbedConv entry x -> absorbedConv (fold_left mergeConversation convs entry) x.
Proof.
  induction convs as [|c convs IH]; intros entry x H; simpl; [done|].
  by apply IH, mergeConversation_keeps.
Qed.

Lemma fold_mergeConversation_absorbs convs : forall entry x,
  x ∈ convs -> absorbedConv (fold_left mergeConversation convs entry) x.
Proof.
  induction convs as [|c convs IH]; intros entry x Hx; simpl.
  - by apply elem_of_nil in Hx.
  - apply elem_of_cons in Hx as [->|Hx]; [|by apply IH].
    apply fold_mergeConversation_keeps, mergeConversation_absorbs.
Qed.

Lemma fold_mergeConversation_absorbed convs entry :
  (forall x, x ∈ convs -> absorbedConv entry x) ->
  fold_left mergeConversation convs entry = entry.
Proof.
  induction convs as [|c convs IH]; intros H; simpl; [done|].
  rewrite mergeConversation_absorbed by (apply H; left).
  apply IH. intros x Hx. apply H. by right.
Qed.

(** *** Entries of the file map *)

Lemma file_eta (e : File) : {| path := path e; conversations := conversations e |} = e.
Proof. by destruct e. Qed.

Lemma mergeFile_absorbed fileMap file :
  absorbedFile fileMap file -> mergeFile fileMap file = fileMap.
Proof.
  intros (e & Hf & Hw). unfold entryOf in Hf.
  induction fileMap as [|x fileMap IH]; simpl in *; [done|].
  destruct (String.eqb (path x) (path file)) eqn:E.
  - injection Hf as ->. by rewrite fold_mergeConversation_absorbed, file_eta.
  - by rewrite IH.
Qed.

Lemma mergeFile_absorbs fileMap file : absorbedFile (mergeFile fileMap file) file.
Proof.
  unfold absorbedFile, entryOf.
  induction fileMap as [|x fileMap IH]; simpl.
  - rewrite String.eqb_refl. eexists. split; [done|]. simpl.
    intros c Hc. by apply fold_mergeConversation_absorbs.
  - destruct (String.eqb (path x) (path file)) eqn:E; simpl; rewrite E.
    + eexists. split; [done|]. simpl.
      intros c Hc. by apply fold_mergeConversation_absorbs.
    + apply IH.
Qed.

Lemma mergeFile_keeps fileMap file g :
  absorbedFile fileMap g -> absorbedFile (mergeFile fileMap file) g.
Proof.
  unfold absorbedFile, entryOf. intros (e & Hf & Hw). revert Hf.
  induction fileMap as [|x fileMap IH]; simpl; [done|].
  destruct (String.eqb (path x) (path file)) eqn:E; simpl.
  - destruct (String.eqb (path x) (path g)) eqn:E'.
    + intros [= ->]. eexists. split; [done|]. simpl.
      intros c Hc. by apply fold_mergeConversation_keeps, Hw.
    + intros Hf. by exists e.
  - destruct (String.eqb (path x) (path g)) eqn:E'.
    + intros [= ->]. by exists e.
    + apply IH.
Qed.

Lemma fold_mergeFile_keeps fs : forall fileMap g,
  absorbedFile fileMap g -> absorbedFile (fold_left mergeFile fs fileMap) g.
Proof.
  induction fs as [|f fs IH]; intros fileMap g H; simpl; [done|].
  by apply IH, mergeFile_keeps.
Qed.

Lemma fold_mergeFile_absorbs fs : forall fileMap g,
  g ∈ fs -> absorbedFile (fold_left mergeFile fs fileMap) g.
Proof.
  induction fs as [|f fs IH]; intros fileMap g Hg; simpl.
  - by apply elem_of_nil in Hg.
  - apply elem_of_cons in Hg as [->|Hg]; [|by apply IH].
    apply fold_mergeFile_keeps, mergeFile_absorbs.
Qed.

Lemma fold_mergeFile_absorbed fs fileMap :
  (forall g, g ∈ fs -> absorbedFile fileMap g) ->
  fold_left mergeFile fs fileMap = fileMap.
Proof.
  induction fs as [|f fs IH]; intros H; simpl; [done|].
  rewrite mergeFile_absorbed by (apply H; left).
  apply IH. intros x Hx. apply H. by right.
Qed.

Lemma mergeInto_keeps group : forall fileMap g,
  absorbedFile fileMap g -> absorbedFile (mergeInto fileMap group) g.
Proof.
  induction group as [|t group IH]; intros fileMap g H; simpl; [done|].
  by apply IH, fold_mergeFile_keeps.
Qed.

Lemma mergeInto_absorbs group : forall fileMap t g,
  t ∈ group -> g ∈ files t -> absorbedFile (mergeInto fileMap group) g.
Proof.
  induction group as [|u group IH]; intros fileMap t g Ht Hg; simpl.
  - by apply elem_of_nil in Ht.
  - apply elem_of_cons in Ht as [->|Ht]; [|by eapply IH].
    by apply mergeInto_keeps, fold_mergeFile_absorbs.
Qed.

Lemma mergeFiles_absorbs group t g :
  t ∈ group -> g ∈ files t -> absorbedFile (mergeFiles group) g.
Proof. apply mergeInto_absorbs. Qed.


(** *** Merged files are in normal form *)

Lemma mergeConversation_Forall (P : Conversation -> Prop) entry conv :
  (forall c rs, P c -> P (with_ranges c rs)) ->
  Forall P entry -> P conv -> Forall P (mergeConversation entry conv).
Proof.
  intros HP. induction 1 as [|x entry Hx Hf IH]; intros Hc; simpl.
  - by constructor.
  - destruct (sameContributor x conv); constructor; auto.
Qed.

Lemma mergeConversation_distinct entry conv :
  distinctContributors entry -> distinctContributors (mergeConversation entry conv).
Proof.
  induction entry as [|x entry IH]; simpl; [done|].
  intros [Hx Hd]. destruct (sameContributor x conv) eqn:E; simpl.
  - done.
  - split; [|by apply IH]. by apply mergeConversation_Forall.
Qed.

Lemma fold_mergeConversation_distinct convs : forall entry,
  distinctContributors entry ->
  distinctContributors (fold_left mergeConversation convs entry).
Proof.
  induction convs as [|c convs IH]; intros entry H; simpl; [done|].
  by apply IH, mergeConversation_distinct.
Qed.

Lemma mergeConversation_fresh entry conv :
  Forall (fun x => sameContributor x conv = false) entry ->
  mergeConversation entry conv = entry ++ [conv].
Proof.
  induction 1 as [|x entry Hx _ IH]; simpl; [done|]. by rewrite Hx, IH.
Qed.

Lemma distinctContributors_snoc entry conv :
  distinctContributors (entry ++ [conv]) <->
  distinctContributors entry /\ Forall (fun x => sameContributor x conv = false) entry.
Proof.
  induction entry as [|x entry IH]; simpl.
  - split; [by intros _ | intros _; split; [constructor | done]].
  - rewrite IH, Forall_app, !Forall_cons, Forall_nil. naive_solver.
Qed.

Lemma fold_mergeConversation_fresh convs : forall entry,
  distinctContributors (entry ++ convs) ->
  fold_left mergeConversation convs entry = entry ++ convs.
Proof.
  induction convs as [|c convs IH]; intros entry H; simpl.
  - by rewrite app_nil_r.
  - replace (entry ++ c :: convs) with ((entry ++ [c]) ++ convs) in *
      by (by rewrite <- app_assoc).
    rewrite mergeConversation_fresh.
    + by apply IH.
    + assert (Hd : distinctContributors (entry ++ [c])).
      { clear IH. revert H. generalize (entry ++ [c]). intros l.
        induction l as [|x l IHl]; simpl; [done|].
        rewrite Forall_app. naive_solver. }
      by apply distinctContributors_snoc in Hd as [_ ?].
Qed.

Lemma mergeFile_paths fileMap file :
  map path (mergeFile fileMap file)
  = if bool_decide (path file ∈ map path fileMap) then map path fileMap
    else map path fileMap ++ [path file].
Proof.
  induction fileMap as [|x fileMap IH]; cbn [mergeFile map].
  - case_bool_decide as B; [by apply elem_of_nil in B | done].
  - destruct (String.eqb_spec (path x) (path file)) as [E|E]; cbn [map path].
    + rewrite bool_decide_true; [done|]. rewrite E. left.
    + rewrite IH. case_bool_decide as B.
      * rewrite bool_decide_true; [done|]. by right.
      * rewrite bool_decide_false; [done|].
        intros [?|?]%elem_of_cons; congruence.
Qed.

Lemma mergeFile_normal fileMap file :
  normalFiles fileMap -> normalFiles (mergeFile fileMap file).
Proof.
  intros [Hp He]. split.
  - rewrite mergeFile_paths. case_bool_decide; [done|].
    apply NoDup_app. split; [done|]. split; [|apply NoDup_singleton].
    intros p Hp1 ->%list_elem_of_singleton. done.
  - clear Hp. induction He as [|x fileMap Hx Hf IH]; simpl.
    + constructor; [|constructor]. simpl.
      by apply fold_mergeConversation_distinct.
    + destruct (String.eqb (path x) (path file)); constructor; try done.
      simpl. by apply fold_mergeConversation_distinct.
Qed.

Lemma fold_mergeFile_normal fs : forall fileMap,
  normalFiles fileMap -> normalFiles (fold_left mergeFile fs fileMap).
Proof.
  induction fs as [|f fs IH]; intros fileMap H; simpl; [done|].
  by apply IH, mergeFile_normal.
Qed.

Lemma mergeInto_normal group : forall fileMap,
  normalFiles fileMap -> normalFiles (mergeInto fileMap group).
Proof.
  induction group as [|t group IH]; intros fileMap H; simpl; [done|].
  by apply IH, fold_mergeFile_normal.
Qed.

Lemma mergeFiles_normal group : normalFiles (mergeFiles group).
Proof. apply mergeInto_normal. split; constructor. Qed.

Lemma mergeFile_fresh fileMap file :
  path file ∉ map path fileMap ->
  distinctContributors (conversations file) ->
  mergeFile fileMap file = fileMap ++ [file].
Proof.
  intros Hp Hd. induction fileMap as [|x fileMap IH]; simpl.
  - rewrite (fold_mergeConversation_fresh _ []) by done. simpl. by rewrite file_eta.
  - destruct (String.eqb_spec (path x) (path file)) as [E|E].
    + exfalso. apply Hp. rewrite <- E. left.
    + rewrite IH; [done|]. intros H. apply Hp. by right.
Qed.

(** Merging files that are in normal form into a map that has none of
    their paths appends them. *)
Lemma fold_mergeFile_fresh fs : forall fileMap,
  NoDup (map path (fileMap ++ fs)) ->
  Forall (fun e => distinctContributors (conversations e)) fs ->
  fold_left mergeFile fs fileMap = fileMap ++ fs.
Proof.
  induction fs as [|f fs IH]; intros fileMap Hp Hd; simpl.
  - by rewrite app_nil_r.
  - apply Forall_cons in Hd as [Hf Hd].
    replace (fileMap ++ f :: fs) with ((fileMap ++ [f]) ++ fs) in *
      by (by rewrite <- app_assoc).
    rewrite mergeFile_fresh; [by apply IH | | done].
    rewrite !map_app in Hp. apply NoDup_app in Hp as [Hp _].
    apply NoDup_app in Hp as (_ & Hp & _).
    intros H. apply (Hp _ H). left.
Qed.

(** Merging a record whose files are the merged files of a group, and then
    a member of the group, gives the merged files back. *)
Lemma mergeFiles_again (base : TraceRecord) (group : list TraceRecord)
    (member : TraceRecord) :
  files base = mergeFiles group -> member ∈ group ->
  mergeFiles [base; member] = files base.
Proof.
  intros Hb Hm. unfold mergeFiles at 1. simpl.
  destruct (mergeFiles_normal group) as [Hp Hd]. rewrite <- Hb in Hp, Hd.
  rewrite (fold_mergeFile_fresh (files base) []) by done. simpl.
  apply fold_mergeFile_absorbed. intros g Hg. rewrite Hb.
  by eapply mergeFiles_absorbs.
Qed.

End MergeFacts.

(* ===================================================================== *)
(** ** The groups of consolidation and a second write *)
(* ===================================================================== *)

Module GroupFacts.
Import Consolidate StoreSpec Invariants.

Lemma pushToGroup_fresh groups k t :
  Forall (fun g => sameValueZero (fst g) k = false) groups ->
  pushToGroup groups k t = groups ++ [(k, [t])].
Proof.
  induction 1 as [|[k' g] groups Hk _ IH]; simpl; [done|].
  simpl in Hk. by rewrite Hk, IH.
Qed.

Lemma distinctKeys_app l t :
  distinctKeys (l ++ [t]) <->
  distinctKeys l /\
  Forall (fun u => sameValueZero (conversationId u) (conversationId t) = false) l.
Proof.
  induction l as [|x l IH]; simpl.
  - split; [by intros _ | intros _; split; [constructor | done]].
  - rewrite IH, Forall_app, !Forall_cons, Forall_nil. naive_solver.
Qed.

Lemma groups_of_distinct l :
  distinctKeys l -> groupByConversation l = map single l.
Proof.
  unfold groupByConversation.
  induction l as [|t l IH] using rev_ind; intros Hd; [done|].
  apply distinctKeys_app in Hd as [Hd Hk].
  rewrite fold_left_app. simpl. rewrite IH by done.
  rewrite pushToGroup_fresh, map_app; [done|].
  by apply Forall_fmap.
Qed.

Lemma consolidate_as_groups l :
  consolidateTraces l = concat (map (fun g => mergeGroup (snd g)) (groupByConversation l)).
Proof.
  unfold consolidateTraces. destruct l as [|t [|u l]]; try reflexivity.
Qed.

Lemma consolidate_distinct l : distinctKeys l -> consolidateTraces l = l.
Proof.
  intros Hd. rewrite consolidate_as_groups, groups_of_distinct by done.
  induction l as [|t l IH]; simpl; [done|]. f_equal. apply IH. by destruct Hd.
Qed.

Lemma mergeWithExisting_known existing r :
  id r ∈ map id existing ->
  GitNotes.mergeWithExisting existing [r] = consolidateTraces existing.
Proof.
  intros Hin. unfold GitNotes.mergeWithExisting. simpl.
  rewrite bool_decide_false; [by rewrite app_nil_r|].
  intros Hn. apply Hn. by apply elem_of_list_to_set.
Qed.

Lemma mergeWithExisting_new existing r :
  id r ∉ map id existing ->
  GitNotes.mergeWithExisting existing [r] = consolidateTraces (existing ++ [r]).
Proof.
  intros Hin. unfold GitNotes.mergeWithExisting. simpl.
  rewrite bool_decide_true; [done|]. by rewrite elem_of_list_to_set.
Qed.

Lemma mergeWithExisting_empty traces :
  GitNotes.mergeWithExisting [] traces = consolidateTraces traces.
Proof.
  unfold GitNotes.mergeWithExisting. simpl. f_equal.
  induction traces as [|t ts IH]; simpl; [done|].
  rewrite bool_decide_true by set_solver. by rewrite IH.
Qed.

(** *** SameValueZero is symmetric and transitive *)

Lemma sameValueZero_sym a b : sameValueZero a b = sameValueZero b a.
Proof.
  destruct a, b; simpl; try reflexivity.
  - by destruct b, b0.
  - apply eq_true_iff_eq. rewrite !Qeq_bool_iff. split; intros H; by symmetry.
  - apply String.eqb_sym.
Qed.

Lemma sameValueZero_trans a b c :
  sameValueZero a b = true -> sameValueZero b c = true -> sameValueZero a c = true.
Proof.
  destruct a, b; simpl; try discriminate; destruct c; simpl; try discriminate; try done.
  - destruct b, b0, b1; simpl; try done.
  - rewrite !Qeq_bool_iff. intros H1 H2. by rewrite H1.
  - rewrite !String.eqb_eq. congruence.
Qed.

(** *** The groups of a list of records *)

Lemma pushToGroup_wellFormed groups t :
  Forall wellFormedGroup groups ->
  Forall wellFormedGroup (pushToGroup groups (conversationId t) t).
Proof.
  induction 1 as [|[k g] groups Hg Hf IH]; simpl.
  - constructor; [|constructor]. exists t, []. by repeat split.
  - destruct (sameValueZero k (conversationId t)) eqn:E; constructor; try done.
    destruct Hg as (b & rest & Hs & Hb & Hr). simpl in *. subst g.
    exists b, (rest ++ [t]). repeat split; try done.
    apply Forall_app. split; [done|]. by constructor.
Qed.

Lemma pushToGroup_keys groups k t :
  map fst (pushToGroup groups k t) = map fst groups \/
  (map fst (pushToGroup groups k t) = map fst groups ++ [k] /\
   Forall (fun h => sameValueZero (fst h) k = false) groups).
Proof.
  induction groups as [|[k' g] groups IH]; simpl.
  - right. split; [done | constructor].
  - destruct (sameValueZero k' k) eqn:E; simpl; [by left|].
    destruct IH as [IH|[IH1 IH2]]; [left; by rewrite IH|].
    right. split; [by rewrite IH1|]. by constructor.
Qed.

Lemma distinctGroupKeys_keys G G' :
  map fst G = map fst G' -> distinctGroupKeys G -> distinctGroupKeys G'.
Proof.
  revert G'. induction G as [|g G IH]; intros [|g' G']; simpl; try done.
  intros [= E1 E2] [H1 H2]. split; [|by apply IH].
  rewrite E1 in H1. clear -H1 E2. revert G' E2.
  induction H1 as [|h G Hh _ IHf]; intros [|h' G']; simpl; try done.
  intros [= E1 E2]. constructor; [by rewrite <- E1 | by apply IHf].
Qed.

Lemma distinctGroupKeys_snoc G g :
  distinctGroupKeys (G ++ [g]) <->
  distinctGroupKeys G /\ Forall (fun h => sameValueZero (fst h) (fst g) = false) G.
Proof.
  induction G as [|x G IH]; simpl.
  - split; [by intros _ | intros _; split; [constructor | done]].
  - rewrite IH, Forall_app, !Forall_cons, Forall_nil. naive_solver.
Qed.

Lemma pushToGroup_distinct groups k t :
  distinctGroupKeys groups -> distinctGroupKeys (pushToGroup groups k t).
Proof.
  intros Hd. destruct (pushToGroup_keys groups k t) as [E|[E Hf]].
  - by apply (distinctGroupKeys_keys groups).
  - apply (distinctGroupKeys_keys (groups ++ [(k, [t])])).
    + by rewrite map_app, E.
    + by apply distinctGroupKeys_snoc.
Qed.

Lemma pushToGroup_members groups k t u :
  u ∈ members (pushToGroup groups k t) <-> u = t \/ u ∈ members groups.
Proof.
  unfold members. induction groups as [|[k' g] groups IH]; simpl.
  - rewrite list_elem_of_singleton, elem_of_nil. tauto.
  - destruct (sameValueZero k' k); simpl.
    + rewrite !elem_of_app, list_elem_of_singleton. tauto.
    + rewrite !elem_of_app, IH. tauto.
Qed.

Lemma groups_invariant l :
  Forall wellFormedGroup (groupByConversation l) /\
  distinctGroupKeys (groupByConversation l) /\
  (forall t, t ∈ l -> t ∈ members (groupByConversation l)).
Proof.
  unfold groupByConversation.
  induction l as [|t l IH] using rev_ind; simpl.
  - split; [constructor|]. split; [done|]. intros t Ht. by apply elem_of_nil in Ht.
  - destruct IH as (H1 & H2 & H3). rewrite fold_left_app. simpl.
    split; [by apply pushToGroup_wellFormed|].
    split; [by apply pushToGroup_distinct|].
    intros u [Hu|Hu]%elem_of_app; apply pushToGroup_members.
    + right. by apply H3.
    + left. by apply list_elem_of_singleton in Hu.
Qed.

(** *** Writing a record again *)

Import MergeFacts.

Lemma trace_eta (M : TraceRecord) : consolidatedTrace M (files M) = M.
Proof. by destruct M. Qed.

Lemma mergeGroup_wellFormed g :
  wellFormedGroup g ->
  exists b rest M,
    snd g = b :: rest /\ mergeGroup (snd g) = [M] /\ id M = id b /\
    conversationId b = fst g /\
    Forall (fun t => sameValueZero (fst g) (conversationId t) = true) rest /\
    (rest <> [] -> files M = mergeFiles (snd g)).
Proof.
  intros (b & rest & Hs & Hb & Hr). rewrite Hs.
  destruct rest as [|x rest].
  - exists b, [], b. by repeat split.
  - exists b, (x :: rest), (consolidatedTrace b (mergeFiles (b :: x :: rest))).
    by repeat split.
Qed.

Lemma stored_cons g G M :
  mergeGroup (snd g) = [M] -> stored (g :: G) = M :: stored G.
Proof. intros H. unfold stored. simpl. by rewrite H. Qed.

Lemma stored_keys G :
  Forall wellFormedGroup G -> Forall stableGroup G ->
  Forall2 (fun g M => mergeGroup (snd g) = [M] /\ conversationId M = fst g) G (stored G).
Proof.
  induction 1 as [|g G Hg _ IH]; intros Hs.
  - constructor.
  - apply Forall_cons in Hs as [Hs1 Hs2].
    destruct (mergeGroup_wellFormed g Hg) as (b & rest & M & _ & HM & _).
    rewrite (stored_cons g G M HM). constructor; [|by apply IH].
    split; [done | by apply Hs1].
Qed.

Lemma stored_distinct G :
  Forall wellFormedGroup G -> Forall stableGroup G -> distinctGroupKeys G ->
  distinctKeys (stored G).
Proof.
  intros Hw Hs Hd. pose proof (stored_keys G Hw Hs) as H2. clear Hw Hs.
  induction H2 as [|g M G S [_ HM] H2 IH]; simpl; [done|].
  destruct Hd as [Hd1 Hd2]. split; [|by apply IH].
  rewrite HM. clear -Hd1 H2.
  induction H2 as [|h N G S [_ HN] H2 IH]; [constructor|].
  apply Forall_cons in Hd1 as [Hh Hd1].
  constructor; [by rewrite HN | by apply IH].
Qed.

Lemma groups_of_stored_single S :
  concat (map (fun g => mergeGroup (snd g)) (map single S)) = S.
Proof. induction S as [|M S IH]; simpl; [done|]. by rewrite IH. Qed.

(** A record of the list that is not stored under its own id is merged
    again into the record that absorbed it, which does not change. *)
Lemma stored_again G r :
  Forall wellFormedGroup G -> Forall stableGroup G -> distinctGroupKeys G ->
  r ∈ members G -> id r ∉ map id (stored G) ->
  concat (map (fun g => mergeGroup (snd g))
              (pushToGroup (map single (stored G)) (conversationId r) r))
  = stored G.
Proof.
  induction G as [|g G IH]; intros Hw Hs Hd Hr Hid.
  - by apply elem_of_nil in Hr.
  - apply Forall_cons in Hw as [Hg Hw]. apply Forall_cons in Hs as [Hsg Hs].
    destruct Hd as [Hdg Hd].
    destruct (mergeGroup_wellFormed g Hg) as (b & rest & M & Hsnd & HM & HidM & Hb & Hrest & Hfiles).
    rewrite (stored_cons g G M HM) in *.
    pose proof (Hsg M HM) as HkM.
    apply not_elem_of_cons in Hid as [Hid1 Hid2].
    unfold members in Hr. simpl in Hr. rewrite Hsnd in Hr.
    cbn [map single pushToGroup fst snd]. rewrite HkM.
    destruct (sameValueZero (fst g) (conversationId r)) eqn:E.
    + (* r joins the group of M *)
      cbn [map concat snd].
      rewrite groups_of_stored_single.
      assert (Hin : r ∈ rest).
      { apply elem_of_app in Hr as [[->|Hr]%elem_of_cons|Hr]; [congruence | done |].
        exfalso. apply list_elem_of_In, in_concat in Hr as (ms & Hms & Hr).
        apply in_map_iff in Hms as (h & <- & Hh).
        apply list_elem_of_In in Hh, Hr.
        rewrite Forall_forall in Hdg, Hw. specialize (Hdg h Hh).
        destruct (Hw h Hh) as (bh & resth & Hsh & Hbh & Hrh).
        rewrite Hsh in Hr. apply elem_of_cons in Hr as [->|Hr].
        - rewrite Hbh in E. congruence.
        - rewrite Forall_forall in Hrh. specialize (Hrh r Hr).
          rewrite (sameValueZero_sym (fst h)) in Hrh.
          pose proof (sameValueZero_trans _ _ _ E Hrh). congruence. }
      assert (Hne : rest <> []) by (intros ->; by apply elem_of_nil in Hin).
      replace (mergeGroup ([M] ++ [r]))
        with [consolidatedTrace M (mergeFiles [M; r])] by reflexivity.
      rewrite (mergeFiles_again M (snd g) r); [by rewrite trace_eta | by apply Hfiles |].
      rewrite Hsnd. by right.
    + (* r belongs to a later group *)
      cbn [map concat snd mergeGroup app]. f_equal. apply IH; try done.
      apply elem_of_app in Hr as [[->|Hr]%elem_of_cons|Hr]; [congruence | | done].
      rewrite Forall_forall in Hrest. rewrite (Hrest r Hr) in E. done.
Qed.

(** Writing again a record that took part in the consolidation of a stored
    set leaves the set as it is. *)
Lemma mergeWithExisting_again (traces : list TraceRecord) (r : TraceRecord) :
  r ∈ traces -> keyStable traces ->
  GitNotes.mergeWithExisting (consolidateTraces traces) [r] = consolidateTraces traces.
Proof.
  intros Hr Hs.
  destruct (groups_invariant traces) as (Hw & Hd & Hm).
  rewrite consolidate_as_groups. fold (stored (groupByConversation traces)).
  set (G := groupByConversation traces) in *.
  pose proof (stored_distinct G Hw Hs Hd) as Hdist.
  destruct (decide (id r ∈ map id (stored G))) as [Hin|Hnin].
  - rewrite mergeWithExisting_known by done. by apply consolidate_distinct.
  - rewrite mergeWithExisting_new by done.
    rewrite consolidate_as_groups. unfold groupByConversation at 1.
    rewrite fold_left_app. simpl.
    fold (groupByConversation (stored G)). rewrite groups_of_distinct by done.
    apply stored_again; try done. by apply Hm.
Qed.
End GroupFacts.

(* ===================================================================== *)
(** ** Consolidation: ranges, identity and timestamp *)
(* ===================================================================== *)

Module ConsolidateFacts.
Import Consolidate Spec RangeKeys.

Lemma mergeConversation_at (before rest : list Conversation) (c conv : Conversation) :
  Forall (fun x => sameContributor x conv = false) before ->
  sameContributor c conv = true ->
  mergeConversation (before ++ c :: rest) conv
  = before ++ with_ranges c (mergeRanges (ranges c) (ranges conv)) :: rest.
Proof.
  intros Hb Hc. induction Hb as [|x before Hx _ IH]; simpl.
  - by rewrite Hc.
  - by rewrite Hx, IH.
Qed.

(** C3 (amended).  When consolidation merges a conversation [conv] into the
    first conversation [c] of a file entry that has the same contributor type
    and model id, and the range list of [c] has no repeated
    [(start_line, end_line)] pair, the merged conversation takes the place of
    [c], its range list has no repeated pair, and its pairs are those of [c]
    and of [conv], whatever the two lists share. *)
Theorem range_dedup_on_merge (before rest : list Conversation) (c conv : Conversation) :
  Forall (fun x => sameContributor x conv = false) before ->
  sameContributor c conv = true ->
  NoDup (map linePair (ranges c)) ->
  exists merged,
    mergeConversation (before ++ c :: rest) conv = before ++ merged :: rest /\
    contributor merged = contributor c /\
    NoDup (map linePair (ranges merged)) /\
    (forall p, p ∈ map linePair (ranges merged) <->
               p ∈ map linePair (ranges c) \/ p ∈ map linePair (ranges conv)).
Proof.
  intros Hb Hc Hnd.
  exists (with_ranges c (mergeRanges (ranges c) (ranges conv))).
  split; [by apply mergeConversation_at|]. split; [reflexivity|]. simpl.
  destruct (mergeRanges_spec (ranges c) (ranges conv) Hnd)
    as (H1 & (extra & H2 & H2') & H3).
  split; [done|]. intros p. split.
  - rewrite H2, map_app, elem_of_app. intros [Hp|Hp]; [by left|right].
    apply list_elem_of_In, in_map_iff in Hp as (r & <- & Hr).
    apply list_elem_of_In, in_map_iff. exists r. split; [done|].
    by apply list_elem_of_In, H2', list_elem_of_In.
  - intros [Hp|Hp].
    + rewrite H2, map_app, elem_of_app. by left.
    + apply list_elem_of_In, in_map_iff in Hp as (r & <- & Hr).
      by apply H3, list_elem_of_In.
Qed.

Lemma range_dedup_on_merge_witness :
  let c := Examples.by_ai Examples.session [Examples.range 1 5; Examples.range 7 9] in
  let conv := Examples.by_ai None [Examples.range 7 9; Examples.range 10 12] in
  Forall (fun x => sameContributor x conv = false) [] /\
  sameContributor c conv = true /\
  NoDup (map linePair (ranges c)) /\
  exists merged,
    mergeConversation ([] ++ c :: []) conv = [] ++ merged :: [] /\
    contributor merged = contributor c /\
    NoDup (map linePair (ranges merged)) /\
    (forall p, p ∈ map linePair (ranges merged) <->
               p ∈ map linePair (ranges c) \/ p ∈ map linePair (ranges conv)).
Proof.
  intros c conv.
  assert (Hnd : NoDup (map linePair (ranges c))).
  { apply (bool_decide_unpack _). vm_compute. exact I. }
  split; [constructor|]. split; [reflexivity|]. split; [exact Hnd|].
  apply (range_dedup_on_merge [] [] c conv); [constructor | reflexivity | exact Hnd].
Defined.

(** C3, as stated, fails: a stored conversation that lists [1-5] twice is
    merged with a conversation of the same contributor, and the merged range
    list still has [1-5] twice. *)
Lemma range_dedup_counterexample :
  exists merged,
    consolidateTraces [Examples.stored_twice; Examples.overlapping] = [merged] /\
    map linePair (all_ranges merged) = [(1, 5); (1, 5); (7, 9)] /\
    ~ NoDup (map linePair (all_ranges merged)).
Proof.
  eexists. split; [vm_compute; reflexivity|]. split; [reflexivity|].
  intros H. apply (bool_decide_pack _) in H. vm_compute in H. exact H.
Qed.

(** The merged record of a group of two or more is the first record of the
    group with the merged files. *)
Lemma mergeGroup_base (baseTrace second : TraceRecord) (others : list TraceRecord) :
  mergeGroup (baseTrace :: second :: others)
  = [consolidatedTrace baseTrace (mergeFiles (baseTrace :: second :: others))].
Proof. reflexivity. Qed.

(** C2, at the failing input.  The note holds [late], stamped 12:00; the
    staged capture [early] of the same session, stamped 11:00, is written
    after it.  The two are one group and merge into one record under the id
    of the first; its timestamp is that of the first, 12:00, which is not the
    earliest of the group. *)
Theorem consolidation_keeps_first_timestamp :
  conversationId Examples.late = conversationId Examples.early /\
  exists merged,
    GitNotes.mergeWithExisting [Examples.late] [Examples.early] = [merged] /\
    id merged = id Examples.late /\
    timestamp merged = timestamp Examples.late /\
    String.ltb (timestamp Examples.early) (timestamp merged) = true.
Proof.
  split; [reflexivity|]. eexists. split; [vm_compute; reflexivity|].
  repeat split; reflexivity.
Qed.

End ConsolidateFacts.

(* ===================================================================== *)
(** ** The validator *)
(* ===================================================================== *)

Module SchemaFacts.
Import Schema Spec.

Section WithFormats.

Variables is_uuid is_datetime is_url : string -> bool.

Lemma z_int_min1_bound v z : z_int_min1 v = Some z -> 1 <= z.
Proof.
  destruct v; try discriminate. unfold z_int_min1.
  destruct (Pos.eqb (Qden (Qred q)) 1 && (1 <=? Qnum (Qred q))) eqn:E;
    [|discriminate].
  intros [= <-]. apply andb_prop in E as [_ E]. lia.
Qed.

Lemma Qred_inject_Z z : Qred (inject_Z z) = inject_Z z.
Proof.
  unfold Qred, inject_Z.
  pose proof (Z.ggcd_gcd z 1) as Hg.
  pose proof (Z.ggcd_correct_divisors z 1) as Hd.
  destruct (Z.ggcd z 1) as [g [a b]]. simpl in *.
  rewrite Z.gcd_1_r in Hg. subst g. destruct Hd as [Ha Hb].
  replace a with z by lia. replace b with 1 by lia. reflexivity.
Qed.

Lemma z_int_min1_of_Z z : 1 <= z -> z_int_min1 (Encode.of_Z z) = Some z.
Proof.
  intros Hz. unfold z_int_min1, Encode.of_Z.
  rewrite Qred_inject_Z. simpl.
  destruct (1 <=? z) eqn:E; [reflexivity | lia].
Qed.

Lemma z_array_Forall {A} (p : json -> option A) (P : A -> Prop) v l :
  (forall x y, p x = Some y -> P y) ->
  z_array p v = Some l -> Forall P l.
Proof.
  intros Hp. destruct v; simpl; try discriminate.
  intros H. apply mapM_Some_1 in H.
  induction H; constructor; eauto.
Qed.

Lemma RangeSchema_bounds v r : RangeSchema v = Some r -> range_checked r.
Proof.
  unfold RangeSchema, required. intros H. simplify_option_eq.
  split; eapply z_int_min1_bound; eauto.
Qed.

Lemma ConversationSchema_bounds v c :
  ConversationSchema is_url v = Some c -> Forall range_checked (ranges c).
Proof.
  unfold ConversationSchema, required. intros H. simplify_option_eq.
  eapply z_array_Forall; [apply RangeSchema_bounds | eassumption].
Qed.

Lemma FileSchema_bounds v f :
  FileSchema is_url v = Some f ->
  Forall range_checked (concat (map ranges (conversations f))).
Proof.
  unfold FileSchema, required. intros H. simplify_option_eq.
  apply Forall_concat, Forall_fmap.
  eapply z_array_Forall; [apply ConversationSchema_bounds | eassumption].
Qed.

Lemma TraceRecordSchema_files v t :
  TraceRecordSchema is_uuid is_datetime is_url v = Some t ->
  exists fv, z_array (FileSchema is_url) fv = Some (files t).
Proof.
  unfold TraceRecordSchema, required. intros H. simplify_option_eq. eauto.
Qed.

Lemma TraceRecordSchema_bounds v t :
  TraceRecordSchema is_uuid is_datetime is_url v = Some t ->
  Forall range_checked (all_ranges t).
Proof.
  intros H. apply TraceRecordSchema_files in H as [fv H]. unfold all_ranges.
  assert (Hfs : Forall (fun f => Forall range_checked
                                        (concat (map ranges (conversations f))))
                       (files t)).
  { eapply z_array_Forall; [apply FileSchema_bounds | eassumption]. }
  clear -Hfs. induction Hfs as [|f fs Hf _ IH]; simpl; [constructor|].
  rewrite map_app, concat_app. apply Forall_app. split; assumption.
Qed.

End WithFormats.

(** C6 (amended).  Validation succeeds only if every range of the candidate
    has [start_line >= 1] and [end_line >= 1]; the order of the two lines is
    not checked: the range schema accepts every pair of lines that are both
    at least 1, also when [end_line < start_line]. *)
Theorem validator_range_bounds :
  (forall is_uuid is_datetime is_url candidate t,
      TraceRecordSchema is_uuid is_datetime is_url candidate = Some t ->
      Forall range_checked (all_ranges t)) /\
  (forall s e, 1 <= s -> 1 <= e ->
      RangeSchema (Encode.of_Range (Examples.range s e)) = Some (Examples.range s e)).
Proof.
  split.
  - intros. by eapply TraceRecordSchema_bounds.
  - intros s e Hs He. unfold RangeSchema, Encode.of_Range, required.
    cbn -[z_int_min1 Encode.of_Z].
    rewrite (z_int_min1_of_Z s Hs). cbn -[z_int_min1 Encode.of_Z].
    rewrite (z_int_min1_of_Z e He). reflexivity.
Qed.

Lemma validator_range_bounds_witness :
  (exists t,
      TraceRecordSchema RefJson.is_uuid RefJson.is_datetime RefJson.is_url
                        Examples.backwards_record = Some t /\
      Forall range_checked (all_ranges t)) /\
  (1 <= 5 /\ 1 <= 2 /\
   RangeSchema (Encode.of_Range (Examples.range 5 2)) = Some (Examples.range 5 2)).
Proof.
  split.
  - eexists. split; [vm_compute; reflexivity|].
    apply (proj1 validator_range_bounds RefJson.is_uuid RefJson.is_datetime
                 RefJson.is_url Examples.backwards_record).
    vm_compute. reflexivity.
  - split; [lia|]. split; [lia|].
    apply (proj2 validator_range_bounds); lia.
Defined.

(** C6, as stated, fails: a record whose only range runs from line 5 to
    line 2 passes validation. *)
Lemma validator_accepts_backwards_range :
  ~ (forall candidate t,
        TraceRecordSchema RefJson.is_uuid RefJson.is_datetime RefJson.is_url
                          candidate = Some t ->
        Forall (fun r => 1 <= start_line r /\ range_ordered r) (all_ranges t)).
Proof.
  intros H.
  specialize (H Examples.backwards_record _ eq_refl).
  vm_compute in H. apply Forall_cons in H as [[_ H] _]. by apply H.
Qed.

End SchemaFacts.

(* ===================================================================== *)
(** ** Running programs *)
(* ===================================================================== *)

Module ProgFacts.
Import Effects.

Lemma run_bind {W A B} (h : Handler W) (p : Prog A) (f : A -> Prog B) (w : W) :
  run h (bind p f) w
  = match run h p w with
    | (inr a, w') => run h (f a) w'
    | (inl e, w') => (inl e, w')
    end.
Proof.
  revert w. induction p as [a|e|R c k IH]; intros w; simpl; try reflexivity.
  destruct (h R c w) as [r w']. apply IH.
Qed.

Lemma run_mbind {W A B} (h : Handler W) (p : Prog A) (f : A -> Prog B) (w : W) :
  run h (p ≫= f) w
  = match run h p w with
    | (inr a, w') => run h (f a) w'
    | (inl e, w') => (inl e, w')
    end.
Proof. apply run_bind. Qed.

Lemma run_catch {W A} (h : Handler W) (p : Prog A) (handle : Exn -> Prog A) (w : W) :
  run h (catch p handle) w
  = match run h p w with
    | (inr a, w') => (inr a, w')
    | (inl e, w') => run h (handle e) w'
    end.
Proof.
  revert w. induction p as [a|e|R c k IH]; intros w; simpl; try reflexivity.
  destruct (h R c w) as [r w']. apply IH.
Qed.

Lemma run_call {W R} (h : Handler W) (c : Cmd R) (w : W) :
  run h (call c) w = (inr (h R c w).1, (h R c w).2).
Proof. unfold call. simpl. by destruct (h R c w). Qed.

Lemma run_execFileSync {W} (h : Handler W) args input cwd (w : W) :
  run h (execFileSync args input cwd) w
  = match h _ (ExecFileSync args input cwd) w with
    | (inl e, w') => (inl (ExecFailed e), w')
    | (inr stdout, w') => (inr stdout, w')
    end.
Proof.
  unfold execFileSync. rewrite run_mbind, run_call.
  destruct (h _ (ExecFileSync args input cwd) w) as [[e|out] w']; reflexivity.
Qed.

End ProgFacts.

(* ===================================================================== *)
(** ** The notes store: reading and the empty write *)
(* ===================================================================== *)

Module NotesFacts.
Import Effects GitNotes ProgFacts.


Section WithJson.

Variables is_uuid is_datetime is_url : string -> bool.
Variable JSON_parse : string -> option json.
Variable JSON_stringify : json -> string.

#[local] Abbreviation Schema := (TraceRecordSchema is_uuid is_datetime is_url).
#[local] Abbreviation parseRecords := (parseRecords is_uuid is_datetime is_url).
#[local] Abbreviation read := (readTracesFromNotes is_uuid is_datetime is_url JSON_parse).
#[local] Abbreviation write :=
  (writeTracesToNotes is_uuid is_datetime is_url JSON_parse JSON_stringify).

(** The loop over the parsed records does not throw; it returns the records
    that pass the schema, in order. *)
Lemma run_parseRecords {W} (h : Handler W) (records : list json) (w : W) :
  exists w', run h (parseRecords records) w = (inr (omap Schema records), w').
Proof.
  revert w. induction records as [|record rest IH]; intros w;
    cbn [GitNotes.parseRecords omap list_omap].
  - by eexists.
  - destruct (Schema record) as [trace|] eqn:E.
    + rewrite run_mbind. destruct (IH w) as [w' ->]. by eexists.
    + rewrite run_mbind, run_call. apply IH.
Qed.


Lemma run_read_stdout {W} (h : Handler W) (w w1 : W) commitSha cwd stdout :
  h _ (ExecFileSync (show_args commitSha) None cwd) w = (inr stdout, w1) ->
  run h (read commitSha cwd) w
  = if String.eqb (Str.trim stdout) "" then (inr [], w1)
    else match JSON_parse (Str.trim stdout) with
         | None => (inl SyntaxError, w1)
         | Some parsed => run h (parseRecords (asRecords parsed)) w1
         end.
Proof.
  intros Hh. unfold readTracesFromNotes.
  rewrite run_catch, run_mbind, run_execFileSync, Hh.
  destruct (String.eqb (Str.trim stdout) ""); [reflexivity|].
  destruct (JSON_parse (Str.trim stdout)) as [parsed|]; [|reflexivity].
  by destruct (run_parseRecords h (asRecords parsed) w1) as [w' ->].
Qed.


(** C10.  A write of the empty list is the program that returns at once: it
    makes no call at all, so that on every world, under every handler, it
    ends without an error and leaves the world, its notes and its notes ref
    included, as it was. *)
Theorem write_empty_is_noop (commitSha : string) (cwd : option string) :
  write commitSha [] cwd = Ret tt /\
  (forall W (h : Handler W) (w : W), run h (write commitSha [] cwd) w = (inr tt, w)) /\
  (forall w : Repo.World,
      Repo.exec (write commitSha [] cwd) w = (inr tt, w)).
Proof. repeat split. Qed.

End WithJson.

End NotesFacts.

(* ===================================================================== *)
(** ** The report fold *)
(* ===================================================================== *)

Module ReportFacts.
Import Report Spec Invariants.

Lemma counted_bump m key n k :
  counted (bump key n m) k = (counted m k + if decide (key = k) then n else 0)%nat.
Proof.
  unfold counted, bump. destruct (decide (key = k)) as [->|Hne].
  - by rewrite lookup_insert_eq.
  - rewrite lookup_insert_ne by done. simpl. lia.
Qed.

Lemma nonempty_Some o s : GitNotes.nonempty o = Some s <-> o = Some s /\ s <> "".
Proof.
  unfold GitNotes.nonempty. destruct o as [x|]; [|naive_solver].
  destruct (String.eqb_spec x ""); naive_solver.
Qed.

(** What a key gains when [bump] is guarded by a truthiness test. *)
Lemma counted_guarded_bump (o : option string) (n : nat) (m : gmap string nat) k :
  counted (match GitNotes.nonempty o with
           | Some key => bump key n m
           | None => m
           end) k
  = (counted m k + if decide (k = "") then 0
                   else if decide (o = Some k) then n else 0)%nat.
Proof.
  destruct (GitNotes.nonempty o) as [x|] eqn:E.
  - apply nonempty_Some in E as [-> Hx]. rewrite counted_bump.
    destruct (decide (x = k)) as [->|Hne].
    + rewrite decide_False by done. by rewrite decide_True.
    + destruct (decide (k = "")); [done|]. rewrite decide_False; [done|congruence].
  - destruct (decide (k = "")) as [->|Hk]; [lia|].
    destruct (decide (o = Some k)) as [Hc|]; [|lia].
    exfalso. assert (GitNotes.nonempty o = Some k) by (by apply nonempty_Some).
    congruence.
Qed.

Lemma countConversation_spec (s : ReportStats) (c : Conversation) :
  let s' := countConversation s c in
  totalTraces s' = totalTraces s /\ totalFiles s' = totalFiles s /\
  aiContributions s' = (aiContributions s + typeAdd ai c)%nat /\
  humanContributions s' = (humanContributions s + typeAdd human c)%nat /\
  mixedContributions s' = (mixedContributions s + typeAdd mixed c)%nat /\
  (forall m, counted (models s') m = (counted (models s) m + modelAdd m c)%nat) /\
  tools s' = tools s.
Proof.
  unfold countConversation, typeAdd. simpl.
  repeat split; try (destruct (Analyzer.contributorType c); simpl; lia).
  intros m. apply counted_guarded_bump.
Qed.

Lemma adds_nil s : adds s s [].
Proof. unfold adds. simpl. repeat split; intros; lia. Qed.

Lemma adds_trans s1 s2 s3 cs ds :
  adds s1 s2 cs -> adds s2 s3 ds -> adds s1 s3 (cs ++ ds).
Proof.
  unfold adds. intros (A1 & A2 & A3 & A4 & A5 & A6) (B1 & B2 & B3 & B4 & B5 & B6).
  rewrite !sum_list_with_app.
  repeat split; try lia. intros m. rewrite sum_list_with_app, B6, A6. lia.
Qed.

Lemma fold_conversations cs : forall s,
  adds s (fold_left countConversation cs s) cs
  /\ tools (fold_left countConversation cs s) = tools s.
Proof.
  induction cs as [|c cs IH]; intros s; simpl.
  - split; [apply adds_nil | done].
  - destruct (IH (countConversation s c)) as [H1 H2].
    destruct (countConversation_spec s c) as (A1 & A2 & A3 & A4 & A5 & A6 & A7).
    split; [|congruence].
    apply (adds_trans s (countConversation s c) _ [c] cs); [|done].
    unfold adds. simpl. rewrite !Nat.add_0_r. repeat split; try done.
    intros m. rewrite A6. lia.
Qed.

Lemma fold_files fs : forall s (seen : gset string),
  adds s (fold_left countFile fs (s, seen)).1 (concat (map conversations fs))
  /\ tools (fold_left countFile fs (s, seen)).1 = tools s
  /\ (fold_left countFile fs (s, seen)).2 = list_to_set (map path fs) ∪ seen.
Proof.
  induction fs as [|f fs IH]; intros s seen; simpl.
  - split; [apply adds_nil|]. split; [done|]. set_solver.
  - change (countFile (s, seen) f)
      with (fold_left countConversation (conversations f) s, {[path f]} ∪ seen).
    destruct (IH (fold_left countConversation (conversations f) s) ({[path f]} ∪ seen))
      as (H1 & H2 & H3).
    destruct (fold_conversations (conversations f) s) as [C1 C2].
    split; [by eapply adds_trans|]. split; [congruence|].
    rewrite H3. set_solver.
Qed.

Lemma countTrace_spec (s : ReportStats) (seen : gset string) (t : TraceRecord) :
  adds s (countTrace (s, seen) t).1 (concat (map conversations (files t)))
  /\ (forall n, counted (tools (countTrace (s, seen) t).1) n
                = (counted (tools s) n + toolAdd n t)%nat)
  /\ (countTrace (s, seen) t).2 = list_to_set (map path (files t)) ∪ seen.
Proof.
  unfold countTrace.
  destruct (fold_files (files t) s seen) as (H1 & H2 & H3).
  destruct (fold_left countFile (files t) (s, seen)) as [s' seen']. simpl in *.
  split; [exact H1|]. split; [|done].
  intros n. rewrite <- H2. apply counted_guarded_bump.
Qed.

Lemma fold_traces ts : forall s (seen : gset string),
  adds s (fold_left countTrace ts (s, seen)).1 (all_conversations ts)
  /\ (forall n, counted (tools (fold_left countTrace ts (s, seen)).1) n
                = (counted (tools s) n + sum_list_with (toolAdd n) ts)%nat)
  /\ (fold_left countTrace ts (s, seen)).2 = list_to_set (all_paths ts) ∪ seen.
Proof.
  induction ts as [|t ts IH]; intros s seen; simpl.
  - split; [apply adds_nil|]. split; [intros; lia | set_solver].
  - destruct (countTrace_spec s seen t) as (A1 & A2 & A3).
    destruct (countTrace (s, seen) t) as [s1 seen1] eqn:E. simpl in *.
    destruct (IH s1 seen1) as (B1 & B2 & B3).
    split; [by eapply adds_trans|]. split.
    + intros n. rewrite B2, A2. lia.
    + rewrite B3, A3. unfold all_paths. simpl. rewrite list_to_set_app_L. set_solver.
Qed.

Lemma sum_guarded {A} (k : string) (f : A -> nat) (l : list A) :
  sum_list_with (fun x => if decide (k = "") then 0%nat else f x) l
  = if decide (k = "") then 0%nat else sum_list_with f l.
Proof.
  destruct (decide (k = "")); [|done].
  induction l; simpl; lia.
Qed.

(** C9 (amended).  The summary of a list of records:
    - [totalTraces] is the number of records and [totalFiles] the number of
      distinct file paths;
    - the counters of the types ai, human and mixed hold the ranges of the
      conversations of that type; a conversation of type unknown, or without
      a contributor, is added to none of them;
    - the counter of a model holds the ranges of the conversations with that
      model id, the empty model id has no counter;
    - the counter of a tool holds the number of records with that tool name,
      one per record whatever its files and ranges, the empty name has no
      counter. *)
Theorem report_counts (traces : list TraceRecord) :
  let stats := generateReport traces in
  totalTraces stats = length traces /\
  totalFiles stats = length (remove_dups (all_paths traces)) /\
  aiContributions stats = rangesOfType ai traces /\
  humanContributions stats = rangesOfType human traces /\
  mixedContributions stats = rangesOfType mixed traces /\
  (forall m, counted (models stats) m
             = if decide (m = "") then 0%nat else rangesOfModel m traces) /\
  (forall n, counted (tools stats) n
             = if decide (n = "") then 0%nat else recordsOfTool n traces).
Proof.
  unfold generateReport.
  pose (stats0 := {| totalTraces := length traces; totalFiles := 0;
                     aiContributions := 0; humanContributions := 0;
                     mixedContributions := 0; models := ∅; tools := ∅ |}).
  destruct (fold_traces traces stats0 ∅) as ((A1 & A2 & A3 & A4 & A5 & A6) & B & C).
  fold stats0.
  destruct (fold_left countTrace traces (stats0, ∅)) as [stats seen]. simpl in *.
  split; [done|]. split.
  - rewrite C, union_empty_r_L.
    rewrite <- (size_list_to_set (C := gset string) (remove_dups (all_paths traces)))
      by apply NoDup_remove_dups.
    f_equal. apply set_eq. intros x.
    by rewrite !elem_of_list_to_set, elem_of_remove_dups.
  - split; [done|]. split; [done|]. split; [done|]. split.
    + intros m. rewrite A6. unfold counted at 1. rewrite lookup_empty. simpl.
      unfold modelAdd. apply sum_guarded.
    + intros n. rewrite B. unfold counted at 1. rewrite lookup_empty. simpl.
      unfold toolAdd. apply sum_guarded.
Qed.

(** C9, as stated, fails: the two ranges of a conversation without a
    contributor, whose type is unknown, are added to no counter of a
    contributor type. *)
Lemma report_drops_unknown_type :
  let stats := generateReport [Examples.anonymous] in
  rangesOfType unknown [Examples.anonymous] = 2%nat /\
  aiContributions stats = 0%nat /\
  humanContributions stats = 0%nat /\
  mixedContributions stats = 0%nat.
Proof. repeat split. Qed.

End ReportFacts.

(* ===================================================================== *)
(** ** The cursor of the unified-diff loop *)
(* ===================================================================== *)

Module DiffFacts.
Import GitUtils Spec.












End DiffFacts.

(* ===================================================================== *)
(** ** The matcher is a filter *)
(* ===================================================================== *)

Module MatcherFacts.
Import Analyzer Spec Invariants.

(** A record without the path gives no conversation for it. *)
Lemma conversationsFor_filter p traces :
  conversationsFor p (List.filter (has_path p) traces) = conversationsFor p traces.
Proof.
  unfold conversationsFor. induction traces as [|t ts IH]; simpl; [done|].
  destruct (has_path p t) eqn:E; simpl; [by rewrite IH|].
  rewrite IH.
  assert (List.filter (fun f => String.eqb (path f) p) (files t) = []) as ->; [|done].
  unfold has_path in E. induction (files t) as [|f fs IHf]; simpl in *; [done|].
  apply orb_false_elim in E as [-> E]. by apply IHf.
Qed.

Lemma analyzeFile_unfold traces acc fc :
  analyzeFile traces acc fc
  = if (0 <? length (candidate traces fc))%nat
    then setAnalysis acc {| fa_path := GitUtils.fc_path fc;
                            fa_ranges := candidate traces fc;
                            fa_models :=
                              fold_left addModel
                                (conversationsFor (GitUtils.fc_path fc) traces) [] |}
    else acc.
Proof.
  unfold analyzeFile, candidate.
  change (fun trace => existsb (fun f => String.eqb (path f) (GitUtils.fc_path fc))
                               (files trace))
    with (has_path (GitUtils.fc_path fc)).
  rewrite conversationsFor_filter.
  destruct (List.filter (has_path (GitUtils.fc_path fc)) traces) as [|t ts] eqn:E;
    simpl; [|done].
  rewrite <- (conversationsFor_filter _ traces), E. reflexivity.
Qed.





Lemma elem_of_setAnalysis acc v fa :
  fa ∈ setAnalysis acc v -> fa ∈ acc \/ fa = v.
Proof.
  induction acc as [|x acc IH]; simpl.
  - intros ->%list_elem_of_singleton. by right.
  - destruct (String.eqb (fa_path x) (fa_path v)).
    + intros [->|H]%elem_of_cons; [by right | left; by right].
    + intros [->|H]%elem_of_cons; [left; by left|].
      destruct (IH H) as [?|?]; [left; by right | by right].
Qed.









End MatcherFacts.

(* ===================================================================== *)
(** ** The programs on the model repository *)
(* ===================================================================== *)

Module WorldFacts.
Import Effects GitNotes ProgFacts StoreSpec.

Ltac prog :=
  repeat (first [ rewrite run_mbind | rewrite run_bind | rewrite run_catch
                | rewrite run_call | rewrite run_execFileSync ]);
  cbn [Repo.handler Repo.git Repo.git_spawn fst snd run
       NOTES_REF notes_args show_args add_args app].

Lemma warn_nil w : warn w [] = w.
Proof. unfold warn, Repo.with_console. rewrite app_nil_r. by destruct w. Qed.

Lemma warn_warn w a b : warn (warn w a) b = warn w (a ++ b).
Proof. unfold warn, Repo.with_console. simpl. by rewrite app_assoc. Qed.

Lemma exec_getWorkspaceRoot w :
  Repo.exec GitHooks.getWorkspaceRoot w = (inr (workspaceRoot w), w).
Proof.
  unfold Repo.exec, GitHooks.getWorkspaceRoot, workspaceRoot.
  prog.
  destruct (nonempty (Repo.env w !! "CURSOR_PROJECT_DIR")); [done|].
  prog.
  destruct (nonempty (Repo.env w !! "CLAUDE_PROJECT_DIR")); [done|].
  prog.
  destruct (Repo.toplevel w); [done|]. by prog.
Qed.

(** On a notes ref that is in order, [ensureNotesRef] changes nothing. *)
Lemma exec_ensureNotesRef_good w cwd :
  Repo.notes_ref w = Repo.GoodRef ->
  Repo.exec (ensureNotesRef cwd) w = (inr tt, w).
Proof.
  intros Hg. unfold Repo.exec, ensureNotesRef, ignoring.
  prog. rewrite Hg. prog. rewrite Hg. prog. rewrite Hg. by prog.
Qed.

Section WithJson.

Variables is_uuid is_datetime is_url : string -> bool.
Variable JSON_parse : string -> option json.
Variable JSON_stringify : json -> string.

#[local] Abbreviation Schema := (TraceRecordSchema is_uuid is_datetime is_url).
#[local] Abbreviation parseRecords := (parseRecords is_uuid is_datetime is_url).
#[local] Abbreviation read := (readTracesFromNotes is_uuid is_datetime is_url JSON_parse).
#[local] Abbreviation write :=
  (writeTracesToNotes is_uuid is_datetime is_url JSON_parse JSON_stringify).
#[local] Abbreviation existingRecords :=
  (existingRecords is_uuid is_datetime is_url JSON_parse).
#[local] Abbreviation invalidValues :=
  (invalidValues is_uuid is_datetime is_url JSON_parse).
#[local] Abbreviation noteAfterWrite :=
  (noteAfterWrite is_uuid is_datetime is_url JSON_parse JSON_stringify).

Lemma exec_parseRecords (records : list json) (w : Repo.World) :
  Repo.exec (parseRecords records) w
  = (inr (omap Schema records),
     warn w (repeat RECORD_WARNING
               (length (List.filter (fun v => bool_decide (Schema v = None)) records)))).
Proof.
  unfold Repo.exec. revert w.
  induction records as [|record rest IH]; intros w;
    cbn [GitNotes.parseRecords omap list_omap List.filter].
  - simpl. by rewrite warn_nil.
  - destruct (Schema record) as [trace|] eqn:E.
    + rewrite run_mbind, IH. rewrite bool_decide_false by done. done.
    + rewrite run_mbind, run_call. cbn [Repo.handler fst snd]. rewrite IH.
      rewrite bool_decide_true by done. simpl. f_equal.
      unfold warn, Repo.with_console. simpl. by rewrite <- app_assoc.
Qed.

(** What a write reads first, on a repository whose notes ref is in order. *)
Lemma exec_read_for_write (w : Repo.World) (commitSha sha : string) cwd :
  Repo.notes_ref w = Repo.GoodRef ->
  Repo.resolve w commitSha = Some sha ->
  Repo.exec (catch (read commitSha cwd) (fun _ => Ret [])) w
  = (inr (existingRecords w sha),
     warn w (repeat RECORD_WARNING (length (invalidValues w sha)))).
Proof.
  intros Hg Hr. unfold Repo.exec, readTracesFromNotes, StoreSpec.existingRecords,
    StoreSpec.invalidValues, noteValues.
  rewrite Hg. prog. rewrite Hg, Hr. simpl.
  destruct (Repo.notes w !! sha) as [blob|]; simpl.
  - prog. destruct (String.eqb (Str.trim blob) ""); simpl.
    + by rewrite warn_nil.
    + destruct (JSON_parse (Str.trim blob)) as [parsed|]; simpl.
      * pose proof (exec_parseRecords (asRecords parsed) w) as E.
        unfold Repo.exec in E. rewrite E. done.
      * by rewrite warn_nil.
  - by rewrite warn_nil.
Qed.

(** A write of one record or more, on a repository whose notes ref is in
    order: the note of the commit becomes the text of the consolidated
    records. *)
Lemma exec_write_good (w : Repo.World) (commitSha sha : string)
    (traces : list TraceRecord) cwd :
  Repo.notes_ref w = Repo.GoodRef ->
  Repo.resolve w commitSha = Some sha ->
  traces <> [] ->
  Repo.exec (write commitSha traces cwd) w
  = (inr tt,
     Repo.with_notes
       (warn w (repeat RECORD_WARNING (length (invalidValues w sha))))
       Repo.GoodRef
       (<[sha := noteAfterWrite w sha traces]> (Repo.notes w))).
Proof.
  intros Hg Hr Hne. unfold writeTracesToNotes.
  destruct traces as [|t ts]; [done|]. cbn [length Nat.eqb].
  unfold Repo.exec. rewrite run_mbind.
  pose proof (exec_read_for_write w commitSha sha cwd Hg Hr) as E.
  unfold Repo.exec in E. rewrite E. clear E.
  set (w1 := warn w _).
  assert (Hg1 : Repo.notes_ref w1 = Repo.GoodRef) by done.
  rewrite run_mbind, run_catch.
  pose proof (exec_ensureNotesRef_good w1 cwd Hg1) as E.
  unfold Repo.exec in E. rewrite E. clear E.
  unfold spawnSync. rewrite run_mbind, run_call.
  cbn [Repo.handler Repo.git_spawn fst snd add_args notes_args NOTES_REF app].
  change (Repo.notes_ref w1) with (Repo.notes_ref w).
  change (Repo.resolve w1 commitSha) with (Repo.resolve w commitSha).
  rewrite Hg, Hr. reflexivity.
Qed.

End WithJson.

End WorldFacts.

(* ===================================================================== *)
(** ** Writing a record twice; draining the staging buffer *)
(* ===================================================================== *)

Module StoreFacts.
Import Effects GitNotes ProgFacts StoreSpec WorldFacts GroupFacts.

Lemma resolve_HEAD (w : Repo.World) (sha : string) :
  Repo.HEAD w = Some sha -> Repo.resolve w sha = Some sha.
Proof. intros H. unfold Repo.resolve. by destruct (String.eqb sha "HEAD"). Qed.

Section WithJson.

Variables is_uuid is_datetime is_url : string -> bool.
Variable JSON_parse : string -> option json.
Variable JSON_stringify : json -> string.

#[local] Abbreviation Schema := (TraceRecordSchema is_uuid is_datetime is_url).
#[local] Abbreviation write :=
  (writeTracesToNotes is_uuid is_datetime is_url JSON_parse JSON_stringify).
#[local] Abbreviation existingRecords :=
  (existingRecords is_uuid is_datetime is_url JSON_parse).
#[local] Abbreviation invalidValues :=
  (invalidValues is_uuid is_datetime is_url JSON_parse).
#[local] Abbreviation noteAfterWrite :=
  (noteAfterWrite is_uuid is_datetime is_url JSON_parse JSON_stringify).
#[local] Abbreviation noteValues := (noteValues JSON_parse).
#[local] Abbreviation parseStagingLine :=
  (GitHooks.parseStagingLine is_uuid is_datetime is_url JSON_parse).
#[local] Abbreviation parseStagingLines :=
  (GitHooks.parseStagingLines is_uuid is_datetime is_url JSON_parse).
#[local] Abbreviation stagedRecords :=
  (stagedRecords is_uuid is_datetime is_url JSON_parse).
#[local] Abbreviation malformedLines :=
  (malformedLines is_uuid is_datetime is_url JSON_parse).
#[local] Abbreviation attachStagingTraces :=
  (GitHooks.attachStagingTraces is_uuid is_datetime is_url JSON_parse JSON_stringify).

Lemma mergeWithExisting_delivered existing r :
  mergeWithExisting existing [r] = Consolidate.consolidateTraces (delivered existing r).
Proof.
  unfold delivered. case_bool_decide as H.
  - rewrite app_nil_r. by apply mergeWithExisting_known.
  - by apply mergeWithExisting_new.
Qed.

Lemma omap_encoded (ts : list TraceRecord) :
  Forall (fun t => Schema (Encode.of_TraceRecord t) = Some t) ts ->
  omap Schema (map Encode.of_TraceRecord ts) = ts /\
  List.filter (fun v => bool_decide (Schema v = None)) (map Encode.of_TraceRecord ts) = [].
Proof.
  induction 1 as [|t ts Ht _ [IH1 IH2]]; [done|]. cbn [map List.filter].
  assert (E : omap Schema (Encode.of_TraceRecord t :: map Encode.of_TraceRecord ts)
              = match Schema (Encode.of_TraceRecord t) with
                | Some y => y :: omap Schema (map Encode.of_TraceRecord ts)
                | None => omap Schema (map Encode.of_TraceRecord ts)
                end) by reflexivity.
  rewrite E, Ht, IH1. split; [done|].
  rewrite bool_decide_false by done. exact IH2.
Qed.

(** C1 (amended).  On a repository whose notes ref is in order, let [r] be a
    record that is new to the note of the commit (its id is not stored) or is
    one of the stored records.  When the consolidation of the first write
    keeps the conversation keys (each record it stores has the key of the
    group it was merged from) and the stored text reads back as the records
    written, writing [[r]] twice leaves the repository as writing it once
    does, and the stored set is that of the first write.  A second delivery
    whose id is stored is dropped before consolidation: what is written is
    the consolidation of the stored records alone. *)
Theorem write_twice_same (w : Repo.World) (commitSha sha : string)
    (r : TraceRecord) (cwd : option string) :
  let existing := existingRecords w sha in
  let first := mergeWithExisting existing [r] in
  Repo.notes_ref w = Repo.GoodRef ->
  Repo.resolve w commitSha = Some sha ->
  id r ∉ map id existing \/ r ∈ existing ->
  keyStable (delivered existing r) ->
  noteValues (JSON_stringify (Encode.of_records first)) = map Encode.of_TraceRecord first ->
  Forall (fun t => Schema (Encode.of_TraceRecord t) = Some t) first ->
  Repo.exec (write commitSha [r] cwd;; write commitSha [r] cwd) w
    = Repo.exec (write commitSha [r] cwd) w /\
  existingRecords (Repo.exec (write commitSha [r] cwd) w).2 sha = first /\
  (forall stored, id r ∈ map id stored ->
      mergeWithExisting stored [r] = Consolidate.consolidateTraces stored).
Proof.
  intros existing first Hg Hr Hnew Hstable Hjson Hvalid.
  assert (Hne : [r] <> []) by done.
  pose proof (exec_write_good is_uuid is_datetime is_url JSON_parse JSON_stringify
                w commitSha sha [r] cwd Hg Hr Hne) as E1.
  set (w1 := Repo.with_notes _ _ _) in E1.
  assert (Hnote : Repo.notes w1 !! sha = Some (JSON_stringify (Encode.of_records first))).
  { unfold w1. simpl. by rewrite lookup_insert_eq. }
  destruct (omap_encoded first Hvalid) as [Hback Hnone].
  assert (Hex1 : existingRecords w1 sha = first).
  { unfold StoreSpec.existingRecords. rewrite Hnote. simpl. by rewrite Hjson. }
  assert (Hinv1 : invalidValues w1 sha = []).
  { unfold StoreSpec.invalidValues. rewrite Hnote. simpl. by rewrite Hjson. }
  assert (Hagain : mergeWithExisting first [r] = first).
  { unfold first. rewrite (mergeWithExisting_delivered existing r).
    apply mergeWithExisting_again; [|done].
    unfold delivered. apply elem_of_app. case_bool_decide as Hid.
    - left. destruct Hnew as [Hnew|Hnew]; [done | done].
    - right. left. }
  split; [|split].
  - unfold Repo.exec in *. rewrite run_mbind, E1.
    pose proof (exec_write_good is_uuid is_datetime is_url JSON_parse JSON_stringify
                  w1 commitSha sha [r] cwd eq_refl Hr Hne) as E2.
    unfold Repo.exec in E2. rewrite E2. f_equal.
    unfold StoreSpec.noteAfterWrite. rewrite Hex1, Hinv1, Hagain. simpl.
    rewrite warn_nil. unfold w1 at 2. simpl. rewrite insert_insert_eq.
    reflexivity.
  - rewrite E1. exact Hex1.
  - intros stored Hin. by apply mergeWithExisting_known.
Qed.

Lemma exec_parseStagingLines (commitSha : string) (lines : list string)
    (w : Repo.World) :
  Repo.exec (parseStagingLines commitSha lines) w
  = (inr (omap (parseStagingLine commitSha) lines),
     warn w (repeat STAGING_WARNING
               (length (List.filter
                          (fun l => bool_decide (parseStagingLine commitSha l = None))
                          lines)))).
Proof.
  unfold Repo.exec. revert w.
  induction lines as [|l rest IH]; intros w;
    cbn [GitHooks.parseStagingLines omap list_omap List.filter].
  - simpl. by rewrite warn_nil.
  - destruct (parseStagingLine commitSha l) as [trace|] eqn:E.
    + rewrite run_mbind, IH. rewrite bool_decide_false by done. done.
    + rewrite run_mbind, run_call. cbn [Repo.handler fst snd]. rewrite IH.
      rewrite bool_decide_true by done. simpl. f_equal.
      unfold warn, Repo.with_console. simpl. by rewrite <- app_assoc.
Qed.

Lemma setRevision_revisionIs commitSha t :
  revisionIs commitSha (GitHooks.setRevision commitSha t).
Proof.
  unfold revisionIs, GitHooks.setRevision. destruct (vcs t) as [v|] eqn:E; simpl.
  - by intros v' [= <-].
  - by rewrite E.
Qed.

Lemma stagedRecords_revision commitSha content :
  Forall (revisionIs commitSha) (stagedRecords commitSha content).
Proof.
  unfold StoreSpec.stagedRecords. induction (GitHooks.stagingLines content) as [|l ls IH];
    simpl; [constructor|].
  destruct (parseStagingLine commitSha l) as [t|] eqn:E; [|done].
  constructor; [|done].
  unfold GitHooks.parseStagingLine in E.
  destruct (JSON_parse l) as [parsed|]; simpl in E; [|done].
  destruct (TraceRecordSchema _ _ _ parsed) as [t'|]; simpl in E; [|done].
  injection E as <-. apply setRevision_revisionIs.
Qed.

Lemma omap_filter_length {A B} (f : A -> option B) (l : list A) :
  (length (omap f l) + length (List.filter (fun x => bool_decide (f x = None)) l)
   = length l)%nat.
Proof.
  unfold omap. induction l as [|a l IH]; simpl; [done|].
  case_bool_decide as E.
  - rewrite E. simpl. lia.
  - destruct (f a) as [t|]; [|done]. simpl. lia.
Qed.

Lemma stagingLines_split commitSha content :
  (length (stagedRecords commitSha content) + length (malformedLines commitSha content)
   = length (GitHooks.stagingLines content))%nat.
Proof.
  apply omap_filter_length.
Qed.

(** C8 (amended).  On a repository with a commit at [HEAD], a notes ref in
    order and a staging buffer of which one line or more parses into a valid
    record, the drain ends without an error and
    - skips every malformed line with a warning: the valid records and the
      malformed lines are all the lines of the buffer that are not blank;
    - rewrites to the commit the revision of every valid record that has a
      [vcs];
    - hands exactly the valid records to the write of the notes store, which
      leaves in the note of the commit the consolidation of the records
      already there and the valid records: exactly the valid records when the
      note held none and their conversation keys are pairwise different;
      valid records that share a conversation key are merged into one;
    - deletes the buffer file. *)
Theorem staging_drain (w : Repo.World) (sha content : string) :
  let staged := stagedRecords sha content in
  let malformed := malformedLines sha content in
  Repo.fs w !! stagingPath w = Some content ->
  Repo.notes_ref w = Repo.GoodRef ->
  Repo.HEAD w = Some sha ->
  Str.trim (Repo.line_of sha) = sha ->
  staged <> [] ->
  Repo.exec attachStagingTraces w
  = (inr tt,
     Repo.with_fs
       (Repo.with_notes
          (warn w (repeat STAGING_WARNING (length malformed)
                   ++ repeat RECORD_WARNING (length (invalidValues w sha))))
          Repo.GoodRef
          (<[sha := noteAfterWrite w sha staged]> (Repo.notes w)))
       (delete (stagingPath w) (Repo.fs w))) /\
  (length staged + length malformed = length (GitHooks.stagingLines content))%nat /\
  Forall (revisionIs sha) staged /\
  (existingRecords w sha = [] -> distinctKeys staged ->
     noteAfterWrite w sha staged = JSON_stringify (Encode.of_records staged)).
Proof.
  intros staged malformed Hfs Hg Hhead Htrim Hne.
  split; [|split; [apply stagingLines_split | split; [apply stagedRecords_revision|]]].
  - unfold GitHooks.attachStagingTraces, Repo.exec.
    rewrite run_mbind.
    pose proof (exec_getWorkspaceRoot w) as E. unfold Repo.exec in E. rewrite E. clear E.
    fold (stagingPath w).
    rewrite run_mbind, run_call. cbn [Repo.handler fst snd]. rewrite Hfs.
    rewrite bool_decide_true by (by eexists). cbn [negb].
    rewrite run_mbind.
    pose proof (exec_ensureNotesRef_good w (Some (workspaceRoot w)) Hg) as E.
    unfold Repo.exec in E. rewrite E. clear E.
    rewrite run_mbind, run_call. cbn [Repo.handler Repo.git fst snd]. rewrite Hhead.
    cbn [fst snd]. rewrite Htrim. unfold readFileSync.
    rewrite !run_mbind, run_call. cbn [Repo.handler fst snd run]. rewrite Hfs.
    cbn [fst snd run].
    rewrite run_mbind.
    pose proof (exec_parseStagingLines sha (GitHooks.stagingLines content) w) as E.
    unfold Repo.exec in E. rewrite E. clear E.
    change (omap (parseStagingLine sha) (GitHooks.stagingLines content)) with staged.
    change (List.filter _ (GitHooks.stagingLines content)) with malformed.
    set (w1 := warn w _).
    destruct staged as [|t ts] eqn:Est; [done|]. cbn [length Nat.ltb Nat.leb].
    rewrite run_mbind.
    pose proof (exec_getWorkspaceRoot w1) as E. unfold Repo.exec in E. rewrite E. clear E.
    rewrite run_mbind.
    pose proof (exec_write_good is_uuid is_datetime is_url JSON_parse JSON_stringify
                  w1 sha sha (t :: ts) (Some (workspaceRoot w1)) Hg
                  (resolve_HEAD w1 sha Hhead)) as E.
    unfold Repo.exec in E. rewrite E by done. clear E.
    unfold unlinkSync. rewrite run_mbind, run_call. cbn [Repo.handler fst snd].
    change (Repo.fs (Repo.with_notes _ _ _)) with (Repo.fs w). rewrite Hfs.
    cbn [fst snd run]. f_equal. unfold w1. rewrite warn_warn. reflexivity.
  - intros Hex Hd. unfold StoreSpec.noteAfterWrite. rewrite Hex.
    rewrite mergeWithExisting_empty. by rewrite consolidate_distinct.
Qed.

End WithJson.

End StoreFacts.

(* ===================================================================== *)
(** ** Closed instances *)
(* ===================================================================== *)

Module Instances.
Import Effects StoreSpec.

(** C1, as stated, fails.  The note holds [placeholder], which names
    [src/a.ts] without a conversation.  The first write of [delta] merges it
    into [placeholder]: both have the key of records without a conversation.
    The merged record now begins with the conversation of [src/a.ts], so its
    key is the url of that conversation; the id of [delta] is gone from the
    note.  The second write of [delta] finds neither its id nor its key and
    stores it as a second record. *)
Lemma write_twice_counterexample :
  let w := Examples.repository (Examples.held [Examples.placeholder]) ∅ in
  let once := Examples.write Examples.commit [Examples.delta] None in
  let merged :=
    Consolidate.consolidatedTrace Examples.placeholder
      [ {| path := "src/a.ts";
           conversations := [Examples.by_ai Examples.session [Examples.range 1 50]] |};
        {| path := "README.md"; conversations := [] |} ] in
  Repo.exec (once;; Examples.read Examples.commit None) w
    = (inr [merged], (Repo.exec once w).2) /\
  Repo.exec (once;; once;; Examples.read Examples.commit None) w
    = (inr [merged; Examples.delta], (Repo.exec (once;; once) w).2) /\
  Repo.exec (once;; once) w <> Repo.exec once w.
Proof.
  split; [vm_compute; reflexivity|]. split; [vm_compute; reflexivity|].
  intros H. apply (f_equal (fun x => Repo.notes x.2 !! Examples.commit)) in H.
  vm_compute in H. discriminate H.
Qed.


(** The theorem on two writes at a note that holds [late] and a delivery of
    [early], which the first write merges into [late]. *)
Lemma write_twice_same_witness :
  let w := Examples.repository (Examples.held [Examples.late]) ∅ in
  let once := Examples.write Examples.commit [Examples.early] None in
  Repo.notes_ref w = Repo.GoodRef /\
  Repo.resolve w Examples.commit = Some Examples.commit /\
  Repo.exec (once;; once) w = Repo.exec once w /\
  existingRecords RefJson.is_uuid RefJson.is_datetime RefJson.is_url RefJson.parse
                  (Repo.exec once w).2 Examples.commit
  = GitNotes.mergeWithExisting [Examples.late] [Examples.early].
Proof.
  intros w once.
  assert (Hex : existingRecords RefJson.is_uuid RefJson.is_datetime RefJson.is_url
                                RefJson.parse w Examples.commit = [Examples.late])
    by (vm_compute; reflexivity).
  split; [reflexivity|]. split; [reflexivity|].
  destruct (StoreFacts.write_twice_same
              RefJson.is_uuid RefJson.is_datetime RefJson.is_url
              RefJson.parse RefJson.stringify
              w Examples.commit Examples.commit Examples.early None)
    as (H1 & H2 & _).
  - reflexivity.
  - reflexivity.
  - left. rewrite Hex. apply (bool_decide_unpack _). vm_compute. exact I.
  - rewrite Hex. unfold keyStable.
    replace (Consolidate.groupByConversation (StoreSpec.delivered [Examples.late] Examples.early))
      with [(JStr "file:///home/dev/.cursor/session-1.jsonl",
             [Examples.late; Examples.early])]
      by (vm_compute; reflexivity).
    constructor; [|constructor]. intros M HM. vm_compute in HM.
    injection HM as <-. reflexivity.
  - rewrite Hex. vm_compute. reflexivity.
  - rewrite Hex.
    replace (GitNotes.mergeWithExisting [Examples.late] [Examples.early])
      with [Consolidate.consolidatedTrace Examples.late
              (Consolidate.mergeFiles [Examples.late; Examples.early])]
      by (vm_compute; reflexivity).
    constructor; [|constructor]. vm_compute. reflexivity.
  - subst once. unfold Examples.write. split; [exact H1|]. rewrite H2. by rewrite Hex.
Defined.

(** C8, as stated, fails.  The buffer holds the two captures [late] and
    [early] of one session and a malformed line.  The drain ends without an
    error, warns once and deletes the buffer; the note of the commit then
    holds one record, the two merged, not two. *)
Lemma staging_drain_counterexample :
  let buffer := Examples.lines [ Examples.line_of_record Examples.late;
                                 "{not json";
                                 Examples.line_of_record Examples.early ] in
  let w := Examples.repository ∅ {[ Examples.staging_file := buffer ]} in
  let after := (Repo.exec Examples.attach w).2 in
  length (stagedRecords RefJson.is_uuid RefJson.is_datetime RefJson.is_url RefJson.parse
                        Examples.commit buffer) = 2%nat /\
  length (malformedLines RefJson.is_uuid RefJson.is_datetime RefJson.is_url RefJson.parse
                         Examples.commit buffer) = 1%nat /\
  (Repo.exec Examples.attach w).1 = inr tt /\
  Repo.fs after !! Examples.staging_file = None /\
  Repo.console after = [STAGING_WARNING] /\
  (Repo.exec (Examples.read Examples.commit None) after).1
  = inr [Consolidate.consolidatedTrace Examples.late
           (Consolidate.mergeFiles [Examples.late; Examples.early])].
Proof. vm_compute. repeat split. Qed.

(** The theorem on the drain at a buffer of two captures of different
    sessions, the first with a [vcs], and a malformed line. *)
Lemma staging_drain_witness :
  let buffer := Examples.lines [ Examples.line_of_record Examples.other_session;
                                 "{not json";
                                 Examples.line_of_record Examples.late ] in
  let w := Examples.repository ∅ {[ Examples.staging_file := buffer ]} in
  let staged := stagedRecords RefJson.is_uuid RefJson.is_datetime RefJson.is_url
                              RefJson.parse Examples.commit buffer in
  Repo.fs w !! stagingPath w = Some buffer /\
  Repo.notes_ref w = Repo.GoodRef /\
  Repo.HEAD w = Some Examples.commit /\
  Str.trim (Repo.line_of Examples.commit) = Examples.commit /\
  staged = [GitHooks.setRevision Examples.commit Examples.other_session; Examples.late] /\
  (Repo.exec Examples.attach w).1 = inr tt /\
  Repo.fs (Repo.exec Examples.attach w).2 !! Examples.staging_file = None /\
  Repo.notes (Repo.exec Examples.attach w).2 !! Examples.commit
  = Some (Examples.note_of staged) /\
  Forall (revisionIs Examples.commit) staged.
Proof.
  intros buffer w staged.
  assert (Hfs : Repo.fs w !! stagingPath w = Some buffer) by (vm_compute; reflexivity).
  assert (Htrim : Str.trim (Repo.line_of Examples.commit) = Examples.commit)
    by (vm_compute; reflexivity).
  assert (Hst : staged = [GitHooks.setRevision Examples.commit Examples.other_session;
                          Examples.late]) by (vm_compute; reflexivity).
  assert (Hne : staged <> []) by (rewrite Hst; discriminate).
  destruct (StoreFacts.staging_drain
              RefJson.is_uuid RefJson.is_datetime RefJson.is_url
              RefJson.parse RefJson.stringify
              w Examples.commit buffer Hfs eq_refl eq_refl Htrim Hne)
    as (H1 & H2 & H3 & H4).
  split; [exact Hfs|]. split; [reflexivity|]. split; [reflexivity|].
  split; [exact Htrim|]. split; [exact Hst|].
  unfold Examples.attach. rewrite H1. cbn [fst snd].
  split; [reflexivity|]. split; [|split; [|exact H3]].
  - cbn [Repo.fs Repo.with_fs]. apply lookup_delete_eq.
  - cbn [Repo.notes Repo.with_fs Repo.with_notes]. rewrite lookup_insert_eq.
    apply (f_equal Some). apply H4.
    + vm_compute. reflexivity.
    + fold staged. rewrite Hst. split; [|split; [constructor | exact I]].
      constructor; [|constructor]. vm_compute. reflexivity.
Defined.





End Instances.

(* ===================================================================== *)
(** ** Strings *)
(* ===================================================================== *)

Module StrFacts.

Lemma prefix_append (p rest : string) : String.prefix p (p ++ rest)%string = true.
Proof.
  induction p as [|a p IH]; simpl; [by destruct rest|].
  by destruct (ascii_dec a a).
Qed.

Lemma includes_here (sub rest : string) : Str.includes (sub ++ rest)%string sub = true.
Proof.
  pose proof (prefix_append sub rest) as H.
  destruct (sub ++ rest)%string; cbn [Str.includes]; by rewrite H.
Qed.

Lemma includes_after (before s sub : string) :
  Str.includes s sub = true -> Str.includes (before ++ s)%string sub = true.
Proof.
  intros H. induction before as [|a before IH]; [done|].
  change (String a before +:+ s) with (String a (before +:+ s)).
  cbn [Str.includes]. rewrite IH. apply orb_true_r.
Qed.

End StrFacts.

(* ===================================================================== *)
(** ** What the queries of the notes store return and throw *)
(* ===================================================================== *)

Module OutcomeFacts.
Import Effects ProgFacts Outcomes.

Lemma neverThrows_ret {A} (a : A) : neverThrows (Ret a).
Proof. intros W h w. by exists a, w. Qed.

Lemma neverThrows_call {R} (c : Cmd R) : neverThrows (call c).
Proof. intros W h w. rewrite run_call. by eexists _, _. Qed.

Lemma neverThrows_bind {A B} (p : Prog A) (f : A -> Prog B) :
  neverThrows p -> (forall a, neverThrows (f a)) -> neverThrows (p ≫= f).
Proof.
  intros Hp Hf W h w. rewrite run_mbind.
  destruct (Hp W h w) as (a & w' & ->). apply Hf.
Qed.

Lemma neverThrows_catch {A} (p : Prog A) (handle : Exn -> Prog A) :
  (forall e, neverThrows (handle e)) -> neverThrows (catch p handle).
Proof.
  intros Hh W h w. rewrite run_catch.
  destruct (run h p w) as [[e|a] w']; [apply Hh | by eexists _, _].
Qed.

Lemma returnsOnly_ret {A} (P : A -> Prop) (a : A) : P a -> returnsOnly P (Ret a).
Proof. intros Ha W h w w' a' [= <- <-]. exact Ha. Qed.

Lemma returnsOnly_throw {A} (P : A -> Prop) e : returnsOnly P (Throw e).
Proof. intros W h w w' a' [=]. Qed.

Lemma returnsOnly_bind {A B} (P : A -> Prop) (Q : B -> Prop) (p : Prog A)
    (f : A -> Prog B) :
  returnsOnly P p -> (forall a, P a -> returnsOnly Q (f a)) ->
  returnsOnly Q (p ≫= f).
Proof.
  intros Hp Hf W h w w' b. rewrite run_mbind.
  destruct (run h p w) as [[e|a] w1] eqn:E; [done|].
  apply Hf. by eapply Hp.
Qed.

Lemma returnsOnly_catch {A} (P : A -> Prop) (p : Prog A) (handle : Exn -> Prog A) :
  returnsOnly P p -> (forall e, returnsOnly P (handle e)) ->
  returnsOnly P (catch p handle).
Proof.
  intros Hp Hh W h w w' a. rewrite run_catch.
  destruct (run h p w) as [[e|a1] w1] eqn:E.
  - apply Hh.
  - intros [= <- <-]. by eapply Hp.
Qed.

Lemma returnsOnly_weaken {A} (P Q : A -> Prop) (p : Prog A) :
  (forall a, P a -> Q a) -> returnsOnly P p -> returnsOnly Q p.
Proof. intros HPQ Hp W h w w' a E. apply HPQ. by eapply Hp. Qed.

Lemma returnsOnly_any {A} (p : Prog A) : returnsOnly (fun _ => True) p.
Proof. by intros W h w w' a _. Qed.

End OutcomeFacts.

Module QueryFacts.
Import Effects GitNotes NotesQueries ProgFacts Outcomes OutcomeFacts.

Section WithJson.

Variables is_uuid is_datetime is_url : string -> bool.
Variable JSON_parse : string -> option json.

#[local] Abbreviation read := (readTracesFromNotes is_uuid is_datetime is_url JSON_parse).
#[local] Abbreviation readTracesFromNotesRange :=
  (readTracesFromNotesRange is_uuid is_datetime is_url JSON_parse).
#[local] Abbreviation commitsMetadata :=
  (commitsMetadata is_uuid is_datetime is_url JSON_parse).
#[local] Abbreviation getCommitsWithTracesMetadata :=
  (getCommitsWithTracesMetadata is_uuid is_datetime is_url JSON_parse).

Lemma neverThrows_getCommitsWithTraces cwd : neverThrows (getCommitsWithTraces cwd).
Proof.
  apply neverThrows_catch. intros e. destruct (ref_missing e).
  - apply neverThrows_ret.
  - apply neverThrows_bind; [apply neverThrows_call|].
    intros _. apply neverThrows_ret.
Qed.

Lemma neverThrows_commitsMetadata commits cwd : forall result,
  neverThrows (commitsMetadata commits cwd result).
Proof.
  induction commits as [|commit rest IH]; intros result;
    cbn [NotesQueries.commitsMetadata].
  - apply neverThrows_ret.
  - apply neverThrows_bind; [|intros r; apply IH].
    apply neverThrows_catch. intros _.
    apply neverThrows_bind; [apply neverThrows_call|].
    intros _. apply neverThrows_ret.
Qed.

(** The queries of the notes store never throw. *)
Theorem notes_queries_never_throw :
  (forall commitSha cwd, neverThrows (hasTracesInNotes commitSha cwd)) /\
  (forall cwd, neverThrows (getCommitsWithTraces cwd)) /\
  (forall cwd, neverThrows (getCommitsWithTracesMetadata cwd)) /\
  (forall fromCommit toCommit cwd,
      neverThrows (readTracesFromNotesRange fromCommit toCommit cwd)).
Proof.
  split; [|split; [|split]].
  - intros commitSha cwd. apply neverThrows_catch. intros e.
    destruct e as [e| | |]; try apply neverThrows_ret.
    destruct (_ || _); apply neverThrows_ret.
  - apply neverThrows_getCommitsWithTraces.
  - intros cwd. apply neverThrows_bind; [apply neverThrows_getCommitsWithTraces|].
    intros commits. apply neverThrows_commitsMetadata.
  - intros fromCommit toCommit cwd. apply neverThrows_catch. intros _.
    apply neverThrows_bind; [apply neverThrows_call|].
    intros _. apply neverThrows_ret.
Qed.

End WithJson.
End QueryFacts.

Module ListingFacts.
Import Effects GitNotes NotesQueries ProgFacts Outcomes OutcomeFacts.

Lemma listedCommits_sha output : Forall (fun sha => is_sha sha = true) (listedCommits output).
Proof.
  unfold listedCommits. induction (outputLines output) as [|line lines IH];
    [constructor|].
  change (omap listedSha (line :: lines))
    with (match listedSha line with
          | Some sha => sha :: omap listedSha lines
          | None => omap listedSha lines
          end).
  destruct (listedSha line) as [sha|] eqn:E; [|done].
  constructor; [|done]. unfold listedSha in E.
  destruct (negb _ && is_sha (firstField line)) eqn:E1; [|done].
  injection E as <-. by apply andb_true_iff in E1 as [_ ?].
Qed.

Lemma returnsOnly_getCommitsWithTraces cwd :
  returnsOnly (Forall (fun sha => is_sha sha = true)) (getCommitsWithTraces cwd).
Proof.
  apply returnsOnly_catch.
  - apply (returnsOnly_bind (fun _ => True)); [apply returnsOnly_any|].
    intros _ _. apply (returnsOnly_bind (fun _ => True)); [apply returnsOnly_any|].
    intros output _. destruct (_ || _); apply returnsOnly_ret;
      [constructor | apply listedCommits_sha].
  - intros e. destruct (ref_missing e); [by apply returnsOnly_ret|].
    apply (returnsOnly_bind (fun _ => True)); [apply returnsOnly_any|].
    intros _ _. by apply returnsOnly_ret.
Qed.

Section WithJson.

Variables is_uuid is_datetime is_url : string -> bool.
Variable JSON_parse : string -> option json.
Variable JSON_stringify : json -> string.

#[local] Abbreviation commitsMetadata :=
  (commitsMetadata is_uuid is_datetime is_url JSON_parse).
#[local] Abbreviation getCommitsWithTracesMetadata :=
  (getCommitsWithTracesMetadata is_uuid is_datetime is_url JSON_parse).
#[local] Abbreviation write :=
  (writeTracesToNotes is_uuid is_datetime is_url JSON_parse JSON_stringify).

Lemma returnsOnly_commitsMetadata commits cwd : forall result,
  Forall (fun sha => is_sha sha = true) commits ->
  Forall listed result ->
  returnsOnly (Forall listed) (commitsMetadata commits cwd result).
Proof.
  induction commits as [|commit rest IH]; intros result Hc Hr;
    cbn [NotesQueries.commitsMetadata].
  - by apply returnsOnly_ret.
  - apply Forall_cons in Hc as [Hsha Hc].
    apply (returnsOnly_bind (Forall listed)); [|intros r Hr'; by apply IH].
    apply returnsOnly_catch.
    + apply (returnsOnly_bind (fun _ => True)); [apply returnsOnly_any|].
      intros traces _. destruct traces as [|t ts]; cbn [length Nat.ltb Nat.leb].
      * by apply returnsOnly_ret.
      * apply returnsOnly_ret. apply Forall_app. split; [done|].
        constructor; [|constructor]. repeat split; simpl; [done|lia|by eexists].
    + intros _. apply (returnsOnly_bind (fun _ => True)); [apply returnsOnly_any|].
      intros _ _. by apply returnsOnly_ret.
Qed.

(** Whatever git answers, every commit [getCommitsWithTraces] lists is 7 to
    40 hexadecimal digits, and every entry of
    [getCommitsWithTracesMetadata] is such a commit with one trace or more
    and the timestamp of its first trace. *)
Theorem listed_commits_are_shas (cwd : option string) :
  returnsOnly (Forall (fun sha => is_sha sha = true)) (getCommitsWithTraces cwd) /\
  returnsOnly (Forall listed) (getCommitsWithTracesMetadata cwd).
Proof.
  split; [apply returnsOnly_getCommitsWithTraces|].
  apply (returnsOnly_bind (Forall (fun sha => is_sha sha = true)));
    [apply returnsOnly_getCommitsWithTraces|].
  intros commits Hc. by apply returnsOnly_commitsMetadata.
Qed.

(** A write whose [git notes add] never succeeds throws. *)
Theorem write_fails_loudly {W} (h : Handler W) (w : W) (commitSha : string)
    (traces : list TraceRecord) (cwd : option string) :
  traces <> [] ->
  (forall args input cwd' w0, status_ok (h _ (SpawnSync args input cwd') w0).1 = false) ->
  exists message w',
    run h (write commitSha traces cwd) w = (inl (Error message), w') /\
    Str.startsWith message "Failed to write git note: " = true.
Proof.
  intros Hne Hfail. unfold writeTracesToNotes.
  destruct traces as [|t ts]; [done|]. cbn [length Nat.eqb].
  rewrite run_mbind, run_catch.
  destruct (run h (readTracesFromNotes _ _ _ _ commitSha cwd) w) as [[e|existing] w1];
    cbn [run].
  all: rewrite run_mbind, run_catch.
  all: match goal with
       | |- context [run ?hh (ensureNotesRef ?c) ?w1] =>
           destruct (run hh (ensureNotesRef c) w1) as [[e1|[]] w2]
       end.
  all: try (unfold ignoring; rewrite run_catch;
            match goal with
            | |- context [run ?hh (@mbind ?M ?I ?A ?B ?f ?p) ?w2] =>
                destruct (run hh (@mbind M I A B f p) w2) as [[e2|[]] w3]
            end; cbn [run]).
  all: unfold spawnSync; rewrite run_mbind, run_call; cbn [fst snd].
  all: rewrite Hfail.
  all: rewrite run_mbind.
  all: match goal with
       | |- context [Str.includes ?m ?s] => destruct (Str.includes m s)
       end.
  all: try (rewrite run_catch, run_mbind, run_execFileSync;
            match goal with
            | |- context [?hh _ (ExecFileSync ?a ?i ?c) ?w0] =>
                destruct (hh _ (ExecFileSync a i c) w0) as [[e3|out] w4]
            end; cbn [run];
            try (rewrite run_mbind;
                 match goal with
                 | |- context [run ?hh (ensureNotesRef ?c) ?w0] =>
                     destruct (run hh (ensureNotesRef c) w0) as [[e4|[]] w5]
                 end; cbn [run];
                 try (rewrite run_mbind, run_call; cbn [fst snd run]; rewrite Hfail))).
  all: cbn [run]; eexists _, _; split; [reflexivity|].
  all: unfold Str.startsWith; apply (StrFacts.prefix_append "Failed to write git note: ").
Qed.

End WithJson.
End ListingFacts.

(* ===================================================================== *)
(** ** The constraints of the schemas *)
(* ===================================================================== *)

Module ValidFacts.
Import Schema Valid SchemaFacts.

Lemma optional_inv {A} (p : json -> option A) m o :
  optional p m = Some o ->
  (m = None /\ o = None) \/ (exists v a, m = Some v /\ p v = Some a /\ o = Some a).
Proof.
  destruct m as [v|]; simpl.
  - destruct (p v) as [a|] eqn:E; [|done]. intros [= <-]. right. by exists v, a.
  - intros [= <-]. by left.
Qed.

Lemma optional_valid {A} (p : json -> option A) (P : A -> Prop) m o :
  (forall v a, p v = Some a -> P a) ->
  optional p m = Some o -> from_option P True o.
Proof.
  intros Hp H. apply optional_inv in H as [[_ ->]|(v & a & _ & H & ->)]; simpl; eauto.
Qed.

Lemma mapM_encoded {A} (p : json -> option A) (enc : A -> json) (l : list A) :
  Forall (fun a => p (enc a) = Some a) l -> mapM p (map enc l) = Some l.
Proof.
  intros H. apply mapM_Some. induction H; simpl; constructor; auto.
Qed.

Lemma z_string_max250_length v s :
  z_string_max250 v = Some s -> (String.length s <= 250)%nat.
Proof.
  unfold z_string_max250. destruct (z_string v) as [s'|]; simpl; [|done].
  destruct (String.length s' <=? 250)%nat eqn:E; [|done].
  intros [= <-]. by apply Nat.leb_le.
Qed.

Lemma ContributorSchema_valid v c : ContributorSchema v = Some c -> validContributor c.
Proof.
  unfold ContributorSchema, required, validContributor.
  intros H. simplify_option_eq. simpl.
  eapply optional_valid; [apply z_string_max250_length | eassumption].
Qed.

Lemma ContributorSchema_encoded c :
  validContributor c -> ContributorSchema (Encode.of_Contributor c) = Some c.
Proof.
  destruct c as [ty [m|]]; unfold validContributor; simpl; intros H.
  - unfold ContributorSchema, required, optional, z_string_max250. simpl.
    apply Nat.leb_le in H. destruct ty; simpl; by rewrite H.
  - by destruct ty.
Qed.

Section WithFormats.

Variables is_uuid is_datetime is_url : string -> bool.

#[local] Abbreviation Schema := (TraceRecordSchema is_uuid is_datetime is_url).
#[local] Abbreviation validRecord := (validRecord is_uuid is_datetime is_url).
#[local] Abbreviation validConversation := (validConversation is_url).
#[local] Abbreviation validFile := (validFile is_url).
#[local] Abbreviation validRelated := (validRelated is_url).

Lemma z_string_url_valid v s : z_string_url is_url v = Some s -> is_url s = true.
Proof.
  unfold z_string_url. destruct (z_string v) as [s'|]; simpl; [|done].
  destruct (is_url s') eqn:E; [|done]. by intros [= <-].
Qed.

Lemma RangeSchema_valid v r : RangeSchema v = Some r -> validRange r.
Proof.
  unfold RangeSchema, required, validRange. intros H. simplify_option_eq. simpl.
  split; [by eapply z_int_min1_bound|]. split; [by eapply z_int_min1_bound|].
  eapply optional_valid; [apply ContributorSchema_valid | eassumption].
Qed.

Lemma RelatedResourceSchema_valid v r :
  RelatedResourceSchema is_url v = Some r -> validRelated r.
Proof.
  unfold RelatedResourceSchema, required, Valid.validRelated. intros H.
  simplify_option_eq. simpl. by eapply z_string_url_valid.
Qed.

Lemma ConversationSchema_valid v c :
  ConversationSchema is_url v = Some c -> validConversation c.
Proof.
  unfold ConversationSchema, required, Valid.validConversation. intros H.
  simplify_option_eq. simpl. repeat split.
  - eapply optional_valid; [apply z_string_url_valid | eassumption].
  - eapply optional_valid; [apply ContributorSchema_valid | eassumption].
  - eapply z_array_Forall; [apply RangeSchema_valid | eassumption].
  - eapply optional_valid; [|eassumption]. intros v' a Ha.
    eapply z_array_Forall; [apply RelatedResourceSchema_valid | eassumption].
Qed.

Lemma FileSchema_valid v f : FileSchema is_url v = Some f -> validFile f.
Proof.
  unfold FileSchema, required, Valid.validFile. intros H. simplify_option_eq. simpl.
  eapply z_array_Forall; [apply ConversationSchema_valid | eassumption].
Qed.

Lemma z_checked_valid (check : string -> bool) v s :
  (s' ← z_string v; if check s' then Some s' else None) = Some s -> check s = true.
Proof.
  destruct (z_string v) as [s'|]; simpl; [|done].
  destruct (check s') eqn:E; [|done]. by intros [= <-].
Qed.

Lemma TraceRecordSchema_valid v t : Schema v = Some t -> validRecord t.
Proof.
  unfold TraceRecordSchema, required, Valid.validRecord.
  intros H. simplify_option_eq. simpl. repeat split.
  - by eapply (z_checked_valid is_version).
  - by eapply (z_checked_valid is_uuid).
  - by eapply (z_checked_valid is_datetime).
  - eapply z_array_Forall; [apply FileSchema_valid | eassumption].
Qed.

Lemma RangeSchema_encoded r : validRange r -> RangeSchema (Encode.of_Range r) = Some r.
Proof.
  destruct r as [s e h c]. unfold validRange. simpl. intros (Hs & He & Hc).
  unfold RangeSchema, Encode.of_Range, required. cbn -[z_int_min1 Encode.of_Z].
  rewrite (z_int_min1_of_Z s Hs). cbn -[z_int_min1 Encode.of_Z].
  rewrite (z_int_min1_of_Z e He).
  destruct h as [h|], c as [c|]; simpl in Hc |- *;
    rewrite ?(ContributorSchema_encoded c Hc); reflexivity.
Qed.

Lemma RelatedResourceSchema_encoded r :
  validRelated r -> RelatedResourceSchema is_url (Encode.of_Related r) = Some r.
Proof.
  destruct r as [ty u]. unfold Valid.validRelated. simpl. intros H.
  unfold RelatedResourceSchema, required, z_string_url. simpl. by rewrite H.
Qed.

Lemma ConversationSchema_encoded c :
  validConversation c -> ConversationSchema is_url (Encode.of_Conversation c) = Some c.
Proof.
  destruct c as [u c rs rel]. unfold Valid.validConversation. simpl.
  intros (Hu & Hc & Hrs & Hrel).
  assert (Ers : mapM RangeSchema (map Encode.of_Range rs) = Some rs).
  { apply mapM_encoded. eapply Forall_impl; [exact Hrs|]. apply RangeSchema_encoded. }
  unfold ConversationSchema, Encode.of_Conversation, required, optional, z_string_url.
  destruct u as [u|], c as [c|], rel as [rel|]; simpl in Hu, Hc, Hrel |- *;
    rewrite ?Hu; simpl; rewrite ?(ContributorSchema_encoded c Hc); simpl;
    rewrite Ers; simpl;
    try (rewrite (mapM_encoded (RelatedResourceSchema is_url) Encode.of_Related rel)
          by (eapply Forall_impl; [exact Hrel|]; apply RelatedResourceSchema_encoded));
    reflexivity.
Qed.

Lemma FileSchema_encoded f :
  validFile f -> FileSchema is_url (Encode.of_File f) = Some f.
Proof.
  destruct f as [p cs]. unfold Valid.validFile. simpl. intros H.
  unfold FileSchema, required. simpl.
  rewrite (mapM_encoded (ConversationSchema is_url) Encode.of_Conversation cs)
    by (eapply Forall_impl; [exact H|]; apply ConversationSchema_encoded).
  reflexivity.
Qed.

Lemma VcsSchema_encoded v : VcsSchema (Encode.of_Vcs v) = Some v.
Proof. by destruct v as [[] rev]. Qed.

Lemma ToolSchema_encoded t : ToolSchema (Encode.of_Tool t) = Some t.
Proof. by destruct t as [name [ver|]]. Qed.

Lemma TraceRecordSchema_encoded t :
  validRecord t -> Schema (Encode.of_TraceRecord t) = Some t.
Proof.
  destruct t as [ver i ts vc tl fs md]. unfold Valid.validRecord. simpl.
  intros (Hver & Hi & Hts & Hfs).
  assert (Efs : mapM (FileSchema is_url) (map Encode.of_File fs) = Some fs).
  { apply mapM_encoded. eapply Forall_impl; [exact Hfs|]. apply FileSchema_encoded. }
  unfold TraceRecordSchema, Encode.of_TraceRecord, required, optional,
    z_version, z_uuid, z_datetime, z_record.
  destruct vc as [vc|], tl as [tl|], md as [md|]; simpl;
    rewrite Hver, Hi, Hts; simpl;
    rewrite ?VcsSchema_encoded, ?ToolSchema_encoded; simpl;
    rewrite ?VcsSchema_encoded, ?ToolSchema_encoded; simpl;
    rewrite Efs; reflexivity.
Qed.

End WithFormats.
End ValidFacts.

(* ===================================================================== *)
(** ** What consolidation keeps *)
(* ===================================================================== *)

Module OriginFacts.
Import Consolidate Spec RangeKeys Invariants MergeFacts GroupFacts Attribution.

#[local] Arguments sameContributor : simpl never.

Lemma elem_of_concat {A} (x : A) (ls : list (list A)) :
  x ∈ concat ls <-> exists l, l ∈ ls /\ x ∈ l.
Proof.
  rewrite list_elem_of_In, in_concat. split; intros (l & H1 & H2); exists l;
    by rewrite ?list_elem_of_In in *.
Qed.

Lemma elem_of_concat_map {A B} (f : A -> list B) (y : B) (l : list A) :
  y ∈ concat (map f l) <-> exists x, x ∈ l /\ y ∈ f x.
Proof.
  rewrite elem_of_concat. split.
  - intros (ys & H & Hy). apply list_elem_of_fmap in H as (x & -> & Hx). by exists x.
  - intros (x & Hx & Hy). exists (f x). split; [|done].
    apply list_elem_of_fmap. by exists x.
Qed.

Lemma elem_of_attributions a traces :
  a ∈ attributions traces <->
  exists t f c r, t ∈ traces /\ f ∈ files t /\ c ∈ conversations f /\ r ∈ ranges c /\
                  a = (path f, contributor_type c, contributor_model c, linePair r).
Proof.
  unfold attributions, ofFile, ofConversation. rewrite elem_of_concat_map. split.
  - intros (t & Ht & H). apply elem_of_concat_map in H as (f & Hf & H).
    apply elem_of_concat_map in H as (c & Hc & H).
    apply list_elem_of_fmap in H as (r & -> & Hr). by exists t, f, c, r.
  - intros (t & f & c & r & Ht & Hf & Hc & Hr & ->). exists t. split; [done|].
    apply elem_of_concat_map. exists f. split; [done|].
    apply elem_of_concat_map. exists c. split; [done|].
    apply list_elem_of_fmap. by exists r.
Qed.

(** *** Where the merged files come from *)

Lemma pushNewRanges_elem incoming : forall existing (keys : gset string) r,
  r ∈ pushNewRanges existing keys incoming -> r ∈ existing \/ r ∈ incoming.
Proof.
  induction incoming as [|x rest IH]; intros existing keys r; simpl; [by left|].
  destruct (decide (rangeKey x ∈ keys)); intros H; apply IH in H.
  - destruct H; [by left | right; by right].
  - destruct H as [H|H]; [|right; by right].
    apply elem_of_app in H as [H|H]; [by left|].
    apply list_elem_of_singleton in H as ->. right. left.
Qed.

Lemma fromSources_self srcs f conv :
  f ∈ srcs -> conv ∈ conversations f -> fromSources srcs (path f) conv.
Proof.
  intros Hf Hc. split.
  - exists f, conv. by rewrite with_ranges_id.
  - intros r Hr. exists f, conv. by rewrite sameContributor_refl.
Qed.

Lemma sameContributor_trans a b c :
  sameContributor a b = true -> sameContributor b c = true ->
  sameContributor a c = true.
Proof.
  rewrite !sameContributor_true. intros [-> ->] [-> ->]. done.
Qed.

Lemma mergeConversation_from srcs p entry conv :
  Forall (fromSources srcs p) entry -> fromSources srcs p conv ->
  Forall (fromSources srcs p) (mergeConversation entry conv).
Proof.
  intros He Hc. induction He as [|x entry Hx He IH]; simpl.
  - by constructor.
  - destruct (sameContributor x conv) eqn:E; constructor; try done.
    destruct Hx as [(f & c & Hf & Hp & Hin & Hx1) Hx2]. split.
    + exists f, c. split; [done|]. split; [done|]. split; [done|].
      rewrite <- Hx1. reflexivity.
    + simpl. intros r Hr. apply pushNewRanges_elem in Hr as [Hr|Hr].
      * destruct (Hx2 r Hr) as (f' & c' & ? & ? & ? & ? & ?).
        exists f', c'. by rewrite sameContributor_with_ranges.
      * destruct Hc as [_ Hc2]. destruct (Hc2 r Hr) as (f' & c' & ? & ? & ? & ? & ?).
        exists f', c'. rewrite sameContributor_with_ranges.
        repeat split; try done. by eapply sameContributor_trans.
Qed.

Lemma fold_mergeConversation_from srcs p convs : forall entry,
  Forall (fromSources srcs p) entry -> Forall (fromSources srcs p) convs ->
  Forall (fromSources srcs p) (fold_left mergeConversation convs entry).
Proof.
  induction convs as [|c convs IH]; intros entry He Hc; simpl; [done|].
  apply Forall_cons in Hc as [Hc Hcs]. apply IH; [|done].
  by apply mergeConversation_from.
Qed.

Lemma fromSources_file srcs f :
  f ∈ srcs -> Forall (fromSources srcs (path f)) (conversations f).
Proof.
  intros Hf. apply Forall_forall. intros c Hc. by apply fromSources_self.
Qed.

Lemma mergeFile_from srcs fileMap file :
  file ∈ srcs -> filesFrom srcs fileMap -> filesFrom srcs (mergeFile fileMap file).
Proof.
  intros Hf H. induction H as [|x fileMap Hx H IH]; simpl.
  - constructor; [|constructor]. simpl.
    apply fold_mergeConversation_from; [constructor | by apply fromSources_file].
  - destruct (String.eqb_spec (path x) (path file)) as [E|E];
      constructor; try done. simpl.
    apply fold_mergeConversation_from; [done|]. rewrite E.
    by apply fromSources_file.
Qed.

Lemma fold_mergeFile_from srcs fs : forall fileMap,
  (forall f, f ∈ fs -> f ∈ srcs) -> filesFrom srcs fileMap ->
  filesFrom srcs (fold_left mergeFile fs fileMap).
Proof.
  induction fs as [|f fs IH]; intros fileMap Hfs H; simpl; [done|].
  apply IH; [intros g Hg; apply Hfs; by right|].
  apply mergeFile_from; [apply Hfs; left | done].
Qed.

Lemma mergeInto_from srcs group : forall fileMap,
  (forall t f, t ∈ group -> f ∈ files t -> f ∈ srcs) -> filesFrom srcs fileMap ->
  filesFrom srcs (mergeInto fileMap group).
Proof.
  induction group as [|t group IH]; intros fileMap Hg H; simpl; [done|].
  apply IH; [intros u f Hu; apply Hg; by right|].
  apply fold_mergeFile_from; [|done]. intros f Hf. eapply Hg; [left | done].
Qed.

Lemma mergeFiles_from group : filesFrom (sourcesOf group) (mergeFiles group).
Proof.
  apply mergeInto_from; [|constructor]. intros t f Ht Hf.
  apply elem_of_concat_map. by exists t.
Qed.

Lemma files_from_self t : filesFrom (sourcesOf [t]) (files t).
Proof.
  apply Forall_forall. intros f Hf. apply fromSources_file.
  apply elem_of_concat_map. exists t. split; [left | done].
Qed.

(** *** The groups *)

Lemma members_of_groups l t : t ∈ members (groupByConversation l) <-> t ∈ l.
Proof.
  unfold groupByConversation. induction l as [|u l IH] using rev_ind; simpl.
  - unfold members. simpl. done.
  - rewrite fold_left_app. simpl. rewrite pushToGroup_members, IH, elem_of_app,
      list_elem_of_singleton. tauto.
Qed.

Lemma elem_of_members groups t :
  t ∈ members groups <-> exists g, g ∈ groups /\ t ∈ snd g.
Proof. unfold members. apply elem_of_concat_map. Qed.

(** Every record of the result is the only record of its group, or the
    merge of a group of two records or more. *)
Lemma consolidated_origin l M :
  M ∈ consolidateTraces l ->
  exists base group,
    (forall t, t ∈ group -> t ∈ l) /\ base ∈ group /\ sameHeader M base /\
    filesFrom (sourcesOf group) (files M).
Proof.
  rewrite consolidate_as_groups. intros (g & Hg & HM)%elem_of_concat_map.
  assert (Hsub : forall t, t ∈ snd g -> t ∈ l).
  { intros t Ht. apply members_of_groups, elem_of_members. by exists g. }
  destruct (snd g) as [|base [|second rest]] eqn:E; simpl in HM.
  - by apply elem_of_nil in HM.
  - apply list_elem_of_singleton in HM as ->. exists base, [base].
    split; [done|]. split; [left|]. split; [done|]. apply files_from_self.
  - apply list_elem_of_singleton in HM as ->. exists base, (base :: second :: rest).
    split; [done|]. split; [left|]. split; [done|]. apply mergeFiles_from.
Qed.

End OriginFacts.

Module ConsolidationFacts.
Import Consolidate Spec RangeKeys Invariants MergeFacts GroupFacts Attribution OriginFacts.

#[local] Arguments sameContributor : simpl never.

Lemma find_elem {A} (f : A -> bool) (l : list A) (x : A) :
  List.find f l = Some x -> x ∈ l /\ f x = true.
Proof.
  intros H. apply find_some in H as [H1 H2]. by apply list_elem_of_In in H1.
Qed.

Lemma merged_attribution group t f c r :
  t ∈ group -> f ∈ files t -> c ∈ conversations f -> r ∈ ranges c ->
  exists e c' r', e ∈ mergeFiles group /\ c' ∈ conversations e /\ r' ∈ ranges c' /\
    (path e, contributor_type c', contributor_model c', linePair r')
    = (path f, contributor_type c, contributor_model c, linePair r).
Proof.
  intros Ht Hf Hc Hr.
  destruct (mergeFiles_absorbs group t f Ht Hf) as (e & He & Habs).
  apply find_elem in He as [He Hp]. apply String.eqb_eq in Hp.
  destruct (Habs c Hc) as (c' & Hc' & Hw).
  apply find_elem in Hc' as [Hc' Hs]. apply sameContributor_true in Hs as [Hs1 Hs2].
  specialize (Hw r Hr). apply list_elem_of_fmap in Hw as (r' & Hk & Hr').
  exists e, c', r'. repeat split; try done.
  symmetry in Hk. apply rangeKey_inj in Hk. by rewrite Hp, Hs1, Hs2, Hk.
Qed.

(** An attribution of a consolidated record is one of a record given. *)
Lemma attribution_of_source (traces : list TraceRecord) (a : attribution) :
  a ∈ attributions (consolidateTraces traces) -> a ∈ attributions traces.
Proof.
  rewrite !elem_of_attributions.
  intros (M & e & conv & r & HM & He & Hconv & Hr & ->).
  destruct (consolidated_origin traces M HM) as (base & group & Hsub & _ & _ & Hfrom).
  unfold filesFrom in Hfrom. rewrite Forall_forall in Hfrom.
  specialize (Hfrom e He). rewrite Forall_forall in Hfrom.
  destruct (Hfrom conv Hconv) as [_ Hranges].
  destruct (Hranges r Hr) as (f & c & Hf & Hp & Hc & Hs & Hrc).
  apply elem_of_concat_map in Hf as (t & Ht & Hf).
  apply sameContributor_true in Hs as [Hs1 Hs2].
  exists t, f, c, r. repeat split; try done; [by apply Hsub|].
  by rewrite Hp, Hs1, Hs2.
Qed.

(** An attribution of a record given is one of a consolidated record. *)
Lemma attribution_survives (traces : list TraceRecord) (a : attribution) :
  a ∈ attributions traces -> a ∈ attributions (consolidateTraces traces).
Proof.
  rewrite !elem_of_attributions.
  intros (t & f & c & r & Ht & Hf & Hc & Hr & ->).
  apply members_of_groups, elem_of_members in Ht as (g & Hg & Ht).
  destruct (snd g) as [|base [|second rest]] eqn:E.
  - by apply elem_of_nil in Ht.
  - apply list_elem_of_singleton in Ht as ->.
    exists base, f, c, r. repeat split; try done.
    rewrite consolidate_as_groups. apply elem_of_concat_map. exists g.
    split; [done|]. rewrite E. left.
  - destruct (merged_attribution (base :: second :: rest) t f c r Ht Hf Hc Hr)
      as (e & c' & r' & He & Hc' & Hr' & Heq).
    exists (consolidatedTrace base (mergeFiles (base :: second :: rest))), e, c', r'.
    repeat split; try done.
    rewrite consolidate_as_groups. apply elem_of_concat_map. exists g.
    split; [done|]. rewrite E. left.
Qed.

(** Consolidation attributes the same line pairs of the same files to the
    same contributors as the records it is given: none is lost, none is
    made up. *)
Theorem consolidation_keeps_attributions (traces : list TraceRecord)
    (a : attribution) :
  a ∈ attributions (consolidateTraces traces) <-> a ∈ attributions traces.
Proof. split; [apply attribution_of_source | apply attribution_survives]. Qed.

(** *** The records of the result *)

Lemma pushToGroup_perm groups k t :
  members (pushToGroup groups k t) ≡ₚ members groups ++ [t].
Proof.
  unfold members. induction groups as [|[k' g] groups IH]; simpl; [done|].
  destruct (sameValueZero k' k); simpl.
  - rewrite <- !app_assoc. apply Permutation_app_head. apply Permutation_app_comm.
  - rewrite IH. by rewrite app_assoc.
Qed.

Lemma members_perm l : members (groupByConversation l) ≡ₚ l.
Proof.
  unfold groupByConversation. induction l as [|t l IH] using rev_ind; [done|].
  rewrite fold_left_app. simpl. by rewrite pushToGroup_perm, IH.
Qed.

Lemma bases_sublist groups : bases groups `sublist_of` members groups.
Proof.
  unfold bases, members. induction groups as [|[k g] groups IH]; simpl; [done|].
  apply sublist_app; [|done]. destruct g as [|b g]; simpl.
  - apply sublist_nil_l.
  - apply sublist_skip, sublist_nil_l.
Qed.

Lemma stored_headers groups :
  Forall2 sameHeader (stored groups) (bases groups).
Proof.
  unfold stored, bases. induction groups as [|[k g] groups IH]; simpl; [constructor|].
  apply Forall2_app; [|done]. destruct g as [|b [|c g]]; simpl;
    repeat constructor.
Qed.

Lemma sameHeader_ids out ins : Forall2 sameHeader out ins -> map id out = map id ins.
Proof.
  induction 1 as [|M b out ins (_ & Hid & _) _ IH]; simpl; [done|]. by rewrite Hid, IH.
Qed.

(** Consolidation gives no more records than it is given; every record it
    gives has the version, id, timestamp, vcs, tool and metadata of one of
    them; ids that are pairwise different stay so; and a record that is not
    one of those given names every path once and, under a path, every
    contributor once. *)
Theorem consolidation_shape (traces : list TraceRecord) :
  let result := consolidateTraces traces in
  (length result <= length traces)%nat /\
  (traces <> [] -> result <> []) /\
  (forall M, M ∈ result -> exists t, t ∈ traces /\ sameHeader M t) /\
  (NoDup (map id traces) -> NoDup (map id result)) /\
  (forall M, M ∈ result -> M ∈ traces \/ normalFiles (files M)).
Proof.
  intros result. unfold result. rewrite consolidate_as_groups.
  fold (stored (groupByConversation traces)).
  pose proof (stored_headers (groupByConversation traces)) as Hh.
  pose proof (bases_sublist (groupByConversation traces)) as Hb.
  pose proof (members_perm traces) as Hperm.
  split; [|split; [|split; [|split]]].
  - rewrite (Forall2_length _ _ _ Hh), <- (Permutation_length Hperm).
    by apply sublist_length.
  - intros Hne Hnil. destruct traces as [|t l]; [done|].
    assert (Ht : t ∈ members (groupByConversation (t :: l)))
      by (apply members_of_groups; left).
    apply elem_of_members in Ht as (g & Hg & Ht).
    assert (Hin : forall M, M ∈ mergeGroup (snd g) ->
                            M ∈ stored (groupByConversation (t :: l))).
    { intros M HM. apply elem_of_concat_map. by exists g. }
    rewrite Hnil in Hin. destruct (snd g) as [|b [|c rest]]; simpl in *.
    + by apply elem_of_nil in Ht.
    + specialize (Hin b). apply elem_of_nil in Hin; [done | left].
    + specialize (Hin (consolidatedTrace b (mergeFiles (b :: c :: rest)))).
      apply elem_of_nil in Hin; [done | left].
  - intros M HM. apply list_elem_of_lookup in HM as [i Hi].
    destruct (Forall2_lookup_l _ _ _ _ _ Hh Hi) as (b & Hbi & Hsame).
    exists b. split; [|done]. apply members_of_groups.
    eapply elem_of_sublist; [|exact Hb]. by eapply list_elem_of_lookup_2.
  - intros Hnd. rewrite (sameHeader_ids _ _ Hh).
    eapply sublist_NoDup; [|apply fmap_sublist; exact Hb].
    eapply NoDup_Permutation_proper; [|exact Hnd]. by apply fmap_Permutation.
  - intros M (g & Hg & HM)%elem_of_concat_map.
    destruct (snd g) as [|b [|c rest]] eqn:E; simpl in HM.
    + by apply elem_of_nil in HM.
    + apply list_elem_of_singleton in HM as ->. left.
      apply members_of_groups, elem_of_members. exists g. rewrite E. split; [done|left].
    + apply list_elem_of_singleton in HM as ->. right. apply mergeFiles_normal.
Qed.

End ConsolidationFacts.

Module ValidMergeFacts.
Import Consolidate Spec Invariants Attribution OriginFacts Valid.

Section WithFormats.

Variables is_uuid is_datetime is_url : string -> bool.

#[local] Abbreviation validRecord := (validRecord is_uuid is_datetime is_url).
#[local] Abbreviation validConversation := (validConversation is_url).
#[local] Abbreviation validFile := (validFile is_url).

Lemma fromSources_valid srcs p conv :
  Forall validFile srcs -> fromSources srcs p conv -> validConversation conv.
Proof.
  intros Hsrcs [(f & c & Hf & _ & Hc & Heq) Hr].
  rewrite Forall_forall in Hsrcs.
  assert (Hvc : validConversation c).
  { specialize (Hsrcs f Hf). unfold Valid.validFile in Hsrcs.
    rewrite Forall_forall in Hsrcs. by apply Hsrcs. }
  destruct Hvc as (Hu & Hco & _ & Hrel). rewrite <- Heq.
  repeat split; try done. simpl. apply Forall_forall. intros r Hin.
  destruct (Hr r Hin) as (f' & c' & Hf' & _ & Hc' & _ & Hrc).
  specialize (Hsrcs f' Hf'). unfold Valid.validFile in Hsrcs.
  rewrite Forall_forall in Hsrcs. destruct (Hsrcs c' Hc') as (_ & _ & Hrs & _).
  rewrite Forall_forall in Hrs. by apply Hrs.
Qed.

(** A consolidated record of valid records is valid. *)
Lemma consolidated_valid (traces : list TraceRecord) (M : TraceRecord) :
  Forall validRecord traces -> M ∈ consolidateTraces traces -> validRecord M.
Proof.
  intros Hv HM.
  destruct (consolidated_origin traces M HM)
    as (base & group & Hsub & Hbase & (Hver & Hid & Hts & _) & Hfrom).
  rewrite Forall_forall in Hv.
  destruct (Hv base (Hsub base Hbase)) as (Bver & Bid & Bts & _).
  unfold Valid.validRecord. rewrite Hver, Hid, Hts.
  split; [done|]. split; [done|]. split; [done|].
  assert (Hsrcs : Forall validFile (sourcesOf group)).
  { apply Forall_forall. intros f (t & Ht & Hf)%elem_of_concat_map.
    destruct (Hv t (Hsub t Ht)) as (_ & _ & _ & Hfs).
    rewrite Forall_forall in Hfs. by apply Hfs. }
  eapply Forall_impl; [exact Hfrom|]. intros e He. unfold Valid.validFile.
  eapply Forall_impl; [exact He|]. intros conv. by apply fromSources_valid.
Qed.

(** Consolidation of records that satisfy the constraints of the schema
    gives records that satisfy them. *)
Theorem consolidation_keeps_valid (traces : list TraceRecord) :
  Forall validRecord traces -> Forall validRecord (consolidateTraces traces).
Proof. intros Hv. apply Forall_forall. intros M. by apply consolidated_valid. Qed.

End WithFormats.
End ValidMergeFacts.
(* ===================================================================== *)
(** ** The notes store on the model repository, whatever its notes ref *)
(* ===================================================================== *)

Module RepairFacts.
Import Effects GitNotes ProgFacts StoreSpec WorldFacts RepairSpec.

Ltac world :=
  cbn [Repo.resolve Repo.with_notes Repo.notes_ref Repo.notes Repo.HEAD Repo.env
       Repo.cwd Repo.toplevel Repo.fs Repo.console Repo.blob_id
       String.eqb Ascii.eqb Bool.eqb].

Ltac steps := repeat (progress (prog; world)).

Lemma with_notes_same w : Repo.with_notes w (Repo.notes_ref w) (Repo.notes w) = w.
Proof. by destruct w. Qed.

Lemma repairedRef_cases w :
  repairedRef w = Repo.GoodRef \/ repairedRef w = Repo.TreeRef.
Proof.
  unfold repairedRef. destruct (Repo.notes_ref w); auto.
  - destruct (Repo.HEAD w) as [sha|]; auto. destruct (Repo.notes w !! sha); auto.
  - destruct (Repo.HEAD w); auto.
Qed.

Lemma writable_repaired w : writable w <-> repairedRef w = Repo.GoodRef.
Proof.
  unfold writable, repairedRef. destruct (Repo.notes_ref w).
  - destruct (Repo.HEAD w) as [sha|].
    + destruct (Repo.notes w !! sha) eqn:E; split; try done.
      * intros (head & [= <-] & Hn). congruence.
      * intros _. by exists sha.
    + split; [by intros (head & ? & _) | done].
  - destruct (Repo.HEAD w); split; first [done | by intros [? ?] | by eexists].
  - done.
  - done.
Qed.

Lemma not_writable_repaired w : ~ writable w -> repairedRef w = Repo.TreeRef.
Proof.
  intros H. destruct (repairedRef_cases w) as [E|E]; [|done].
  by apply writable_repaired in E.
Qed.

Lemma exec_ensureNotesRef w cwd :
  Repo.exec (ensureNotesRef cwd) w = (inr tt, repaired w).
Proof.
  unfold repaired, repairedRef, repairedNotes.
  destruct (Repo.notes_ref w) eqn:Hg.
  - (* no ref *)
    unfold Repo.exec, ensureNotesRef, ignoring.
    steps. rewrite Hg. steps. rewrite Hg. steps.
    destruct (Repo.HEAD w) as [sha|] eqn:Hh.
    + steps. rewrite Hg, Hh.
      destruct (Repo.notes w !! sha) eqn:Hn.
      * by steps.
      * steps. rewrite Hh, lookup_insert_eq. steps.
        by rewrite delete_insert_eq, delete_id.
    + by steps.
  - (* broken ref *)
    unfold Repo.exec, ensureNotesRef, ignoring.
    steps. rewrite Hg. steps. rewrite Hg. steps.
    destruct (Repo.HEAD w) as [sha|] eqn:Hh.
    + steps. rewrite Hh, lookup_empty. steps. rewrite Hh, lookup_insert_eq. steps.
      by rewrite delete_insert_eq, delete_empty.
    + by steps.
  - (* a ref in order *)
    rewrite <- Hg, with_notes_same. by apply exec_ensureNotesRef_good.
  - (* a ref that names the empty tree *)
    rewrite <- Hg, with_notes_same.
    unfold Repo.exec, ensureNotesRef, ignoring.
    steps. rewrite Hg. steps. rewrite Hg. steps. rewrite Hg. by steps.
Qed.

Lemma repaired_again w : repaired (repaired w) = repaired w.
Proof.
  assert (Hr : repairedRef (repaired w) = Repo.notes_ref (repaired w)).
  { unfold repairedRef at 1. destruct (repairedRef_cases w) as [E|E];
      unfold repaired; cbn [Repo.notes_ref Repo.with_notes]; by rewrite E. }
  assert (Hn : repairedNotes (repaired w) = Repo.notes (repaired w)).
  { unfold repairedNotes at 1. destruct (repairedRef_cases w) as [E|E];
      unfold repaired; cbn [Repo.notes_ref Repo.with_notes]; by rewrite E. }
  unfold repaired at 1. rewrite Hr, Hn. apply with_notes_same.
Qed.

End RepairFacts.

Module WriteFacts.
Import Effects GitNotes ProgFacts StoreSpec WorldFacts RepairSpec RepairFacts.

(** What [ensureNotesRef] leaves, on the model repository.  It does not
    throw.  A notes ref that is in order, and one that names the empty
    tree, are left as they are.  Otherwise the ref is made anew: in order
    when there is a commit at [HEAD] to which a note can be added, and bound
    to the empty tree when there is none, so that without a commit at
    [HEAD] a ref that is not in order ends bound to the empty tree.  It
    touches the notes ref and its notes only, makes up no note, and a second
    run changes nothing. *)
Theorem ensureNotesRef_outcome (w : Repo.World) (cwd : option string) :
  let w' := (Repo.exec (ensureNotesRef cwd) w).2 in
  (Repo.exec (ensureNotesRef cwd) w).1 = inr tt /\
  (Repo.notes_ref w = Repo.GoodRef \/ Repo.notes_ref w = Repo.TreeRef -> w' = w) /\
  (writable w -> Repo.notes_ref w' = Repo.GoodRef) /\
  (~ writable w -> Repo.notes_ref w' = Repo.TreeRef) /\
  (Repo.HEAD w = None -> Repo.notes_ref w <> Repo.GoodRef ->
     Repo.notes_ref w' = Repo.TreeRef) /\
  (forall sha note, Repo.notes w' !! sha = Some note -> Repo.notes w !! sha = Some note) /\
  (Repo.env w', Repo.cwd w', Repo.toplevel w', Repo.HEAD w', Repo.fs w', Repo.console w')
  = (Repo.env w, Repo.cwd w, Repo.toplevel w, Repo.HEAD w, Repo.fs w, Repo.console w) /\
  Repo.exec (ensureNotesRef cwd;; ensureNotesRef cwd) w = Repo.exec (ensureNotesRef cwd) w.
Proof.
  rewrite exec_ensureNotesRef. cbn [fst snd].
  split; [done|]. split; [|split; [|split; [|split; [|split; [|split; [done|]]]]]].
  - intros Hg. unfold repaired, repairedRef, repairedNotes.
    destruct Hg as [Hg|Hg]; rewrite Hg, <- Hg; apply with_notes_same.
  - intros Hw. by apply writable_repaired.
  - intros Hw. by apply not_writable_repaired.
  - intros Hh Hg. apply not_writable_repaired. unfold writable. rewrite Hh.
    destruct (Repo.notes_ref w);
      first [done | by intros (head & ? & _) | by intros [? ?] | by intros []].
  - unfold repaired, repairedNotes. simpl. intros sha note.
    destruct (Repo.notes_ref w); [|by rewrite lookup_empty|done|done].
    destruct (Repo.HEAD w) as [head|]; [|by rewrite lookup_empty].
    destruct (Repo.notes w !! head); [by rewrite lookup_empty | done].
  - unfold Repo.exec. rewrite run_mbind.
    pose proof (exec_ensureNotesRef w cwd) as E. unfold Repo.exec in E. rewrite E.
    pose proof (exec_ensureNotesRef (repaired w) cwd) as E'. unfold Repo.exec in E'.
    by rewrite E', repaired_again.
Qed.

Section WithJson.

Variables is_uuid is_datetime is_url : string -> bool.
Variable JSON_parse : string -> option json.
Variable JSON_stringify : json -> string.

#[local] Abbreviation read := (readTracesFromNotes is_uuid is_datetime is_url JSON_parse).
#[local] Abbreviation write :=
  (writeTracesToNotes is_uuid is_datetime is_url JSON_parse JSON_stringify).
#[local] Abbreviation existingRecords :=
  (existingRecords is_uuid is_datetime is_url JSON_parse).
#[local] Abbreviation invalidValues :=
  (invalidValues is_uuid is_datetime is_url JSON_parse).
#[local] Abbreviation noteAfterWrite :=
  (noteAfterWrite is_uuid is_datetime is_url JSON_parse JSON_stringify).

Lemma exec_read_missing (w : Repo.World) (commitSha : string) cwd :
  Repo.notes_ref w <> Repo.GoodRef ->
  Repo.exec (read commitSha cwd) w = (inr [], w).
Proof.
  intros Hg. unfold Repo.exec, readTracesFromNotes. steps.
  destruct (Repo.notes_ref w); try done; try (by steps).
  destruct (Repo.resolve w commitSha); by steps.
Qed.

Lemma existing_missing (w : Repo.World) (sha : string) :
  Repo.notes_ref w <> Repo.GoodRef ->
  existingRecords w sha = [] /\ invalidValues w sha = [].
Proof.
  intros Hg. unfold StoreSpec.existingRecords, StoreSpec.invalidValues.
  by destruct (Repo.notes_ref w).
Qed.

(** A write of one record or more on a model repository in which the commit
    resolves and the notes ref can be put in order. *)
Lemma exec_write (w : Repo.World) (commitSha sha : string)
    (traces : list TraceRecord) cwd :
  writable w ->
  Repo.resolve w commitSha = Some sha ->
  traces <> [] ->
  Repo.exec (write commitSha traces cwd) w
  = (inr tt,
     Repo.with_notes
       (warn w (repeat RECORD_WARNING (length (invalidValues w sha))))
       Repo.GoodRef
       (<[sha := noteAfterWrite w sha traces]> (repairedNotes w))).
Proof.
  intros Hw Hr Hne.
  assert (Repo.notes_ref w = Repo.GoodRef \/ Repo.notes_ref w <> Repo.GoodRef)
    as [Hg|Hg] by (destruct (Repo.notes_ref w); auto).
  - rewrite (exec_write_good _ _ _ _ _ w commitSha sha traces cwd Hg Hr Hne).
    unfold repairedNotes. by rewrite Hg.
  - unfold writeTracesToNotes. destruct traces as [|t ts]; [done|].
    cbn [length Nat.eqb]. unfold Repo.exec. rewrite run_mbind, run_catch.
    pose proof (exec_read_missing w commitSha cwd Hg) as E. unfold Repo.exec in E.
    rewrite E. clear E.
    destruct (existing_missing w sha Hg) as [Hex Hinv].
    rewrite Hinv. simpl repeat. rewrite warn_nil.
    rewrite run_mbind, run_catch.
    pose proof (exec_ensureNotesRef w cwd) as E. unfold Repo.exec in E.
    rewrite E. clear E.
    unfold spawnSync. rewrite run_mbind, run_call.
    cbn [Repo.handler Repo.git_spawn fst snd add_args notes_args NOTES_REF app].
    unfold repaired. world. apply writable_repaired in Hw. rewrite Hw.
    change (Repo.resolve (Repo.with_notes w Repo.GoodRef (repairedNotes w)) commitSha)
      with (Repo.resolve w commitSha).
    rewrite Hr. cbn [status_ok sp_status run fst snd].
    unfold StoreSpec.noteAfterWrite. rewrite Hex. reflexivity.
Qed.

Lemma spawn_blocked (w : Repo.World) (commitSha sha content : string) cwd :
  Repo.notes_ref w = Repo.TreeRef ->
  Repo.resolve w commitSha = Some sha ->
  Repo.handler _ (SpawnSync (add_args commitSha) content cwd) w
  = ({| sp_status := Some 128; sp_stdout := Some "";
        sp_stderr := Some Repo.TREE_MESSAGE |}, w).
Proof.
  intros Hg Hr.
  cbn [Repo.handler Repo.git_spawn add_args notes_args NOTES_REF app].
  by rewrite Hg, Hr.
Qed.

(** A write of one record or more on a model repository whose notes ref
    names, or ends up naming, the empty tree: git refuses the note and the
    write throws. *)
Lemma exec_write_blocked (w : Repo.World) (commitSha sha : string)
    (traces : list TraceRecord) cwd :
  ~ writable w ->
  Repo.resolve w commitSha = Some sha ->
  traces <> [] ->
  Repo.exec (write commitSha traces cwd) w = (inl blocked, repaired w).
Proof.
  intros Hw Hr Hne.
  assert (Hg : Repo.notes_ref w <> Repo.GoodRef).
  { intros Hg. apply Hw. unfold writable. by rewrite Hg. }
  unfold writeTracesToNotes. destruct traces as [|t ts]; [done|].
  cbn [length Nat.eqb]. unfold Repo.exec. rewrite run_mbind, run_catch.
  pose proof (exec_read_missing w commitSha cwd Hg) as E. unfold Repo.exec in E.
  rewrite E. clear E.
  rewrite run_mbind, run_catch.
  pose proof (exec_ensureNotesRef w cwd) as E. unfold Repo.exec in E.
  rewrite E. clear E.
  unfold spawnSync. rewrite run_mbind, run_call.
  rewrite (spawn_blocked (repaired w) commitSha sha _ cwd);
    [|exact (not_writable_repaired w Hw) | exact Hr].
  cbn [fst snd status_ok sp_status].
  assert (Hmsg : errorMsg_of {| sp_status := Some 128; sp_stdout := Some "";
                                sp_stderr := Some Repo.TREE_MESSAGE |}
                 = Repo.TREE_MESSAGE) by (vm_compute; reflexivity).
  assert (Hinc : Str.includes Repo.TREE_MESSAGE "Failed to read notes tree" = false)
    by (vm_compute; reflexivity).
  rewrite Hmsg, run_mbind, Hinc. reflexivity.
Qed.

End WithJson.
End WriteFacts.
Module RoundTripFacts.
Import Effects GitNotes NotesQueries ProgFacts StoreSpec WorldFacts StoreFacts RepairSpec
       RepairFacts WriteFacts Valid ValidFacts ValidMergeFacts.

Section WithJson.

Variables is_uuid is_datetime is_url : string -> bool.
Variable JSON_parse : string -> option json.
Variable JSON_stringify : json -> string.

#[local] Abbreviation Schema := (TraceRecordSchema is_uuid is_datetime is_url).
#[local] Abbreviation validRecord := (validRecord is_uuid is_datetime is_url).
#[local] Abbreviation read := (readTracesFromNotes is_uuid is_datetime is_url JSON_parse).
#[local] Abbreviation write :=
  (writeTracesToNotes is_uuid is_datetime is_url JSON_parse JSON_stringify).
#[local] Abbreviation existingRecords :=
  (existingRecords is_uuid is_datetime is_url JSON_parse).

Lemma existingRecords_valid w sha : Forall validRecord (existingRecords w sha).
Proof.
  unfold StoreSpec.existingRecords.
  destruct (Repo.notes_ref w); try constructor.
  destruct (Repo.notes w !! sha) as [blob|]; [|constructor].
  induction (noteValues JSON_parse blob) as [|v vs IH]; [constructor|].
  change (omap Schema (v :: vs))
    with (match Schema v with Some t => t :: omap Schema vs | None => omap Schema vs end).
  destruct (Schema v) as [t|] eqn:E; [|done].
  constructor; [|done]. by eapply TraceRecordSchema_valid.
Qed.

Lemma mergeWithExisting_valid existing traces :
  Forall validRecord existing -> Forall validRecord traces ->
  Forall validRecord (mergeWithExisting existing traces).
Proof.
  intros He Ht. unfold mergeWithExisting. apply Forall_forall. intros M.
  apply consolidated_valid. apply Forall_app. split; [done|].
  rewrite Forall_forall in Ht. apply Forall_forall. intros t Hin.
  apply list_elem_of_In, filter_In in Hin as [Hin _]. by apply Ht, list_elem_of_In.
Qed.

(** What a write stores, a read returns.  On a model repository whose notes
    ref is in order, or is put in order by [ensureNotesRef] (the ref is
    missing or broken and there is a commit at [HEAD]), a write of one
    record or more that satisfy the constraints of the schema to a commit
    that resolves ends without an error; when the text written is not blank
    and parses back to the value written, a read of the commit then returns
    the consolidation of the records that were stored and the records
    written, every one of which satisfies the constraints of the schema,
    and [hasTracesInNotes] answers [true]. *)
Theorem write_then_read (w : Repo.World) (commitSha sha : string)
    (traces : list TraceRecord) (cwd : option string) :
  let stored := mergeWithExisting (existingRecords w sha) traces in
  let text := JSON_stringify (Encode.of_records stored) in
  writable w ->
  Repo.resolve w commitSha = Some sha ->
  traces <> [] ->
  Forall validRecord traces ->
  Str.trim text <> "" ->
  JSON_parse (Str.trim text) = Some (Encode.of_records stored) ->
  (Repo.exec (write commitSha traces cwd) w).1 = inr tt /\
  (Repo.exec (write commitSha traces cwd;; read commitSha cwd) w).1 = inr stored /\
  (Repo.exec (write commitSha traces cwd;; hasTracesInNotes commitSha cwd) w).1
  = inr true /\
  Forall validRecord stored.
Proof.
  intros stored text Hw Hr Hne Hv Hblank Hparse.
  pose proof (exec_write is_uuid is_datetime is_url JSON_parse JSON_stringify
                w commitSha sha traces cwd Hw Hr Hne) as E.
  set (w1 := Repo.with_notes _ _ _) in E.
  assert (Hvalid : Forall validRecord stored)
    by (apply mergeWithExisting_valid; [apply existingRecords_valid | done]).
  assert (Hshow : Repo.handler _ (ExecFileSync (show_args commitSha) None cwd) w1
                  = (inr text, w1)).
  { cbn [Repo.handler Repo.git show_args notes_args NOTES_REF app].
    change (Repo.notes_ref w1) with Repo.GoodRef. cbv iota.
    change (Repo.resolve w1 commitSha) with (Repo.resolve w commitSha).
    rewrite Hr. cbn [mbind option_bind]. unfold w1 at 1. cbn [Repo.notes Repo.with_notes].
    by rewrite lookup_insert_eq. }
  split; [by rewrite E|]. split; [|split; [|done]].
  - unfold Repo.exec in *. rewrite run_mbind, E.
    rewrite (NotesFacts.run_read_stdout is_uuid is_datetime is_url JSON_parse
               Repo.handler w1 w1 commitSha cwd text Hshow).
    apply String.eqb_neq in Hblank. rewrite Hblank, Hparse.
    cbn [asRecords Encode.of_records].
    pose proof (exec_parseRecords is_uuid is_datetime is_url
                  (map Encode.of_TraceRecord stored) w1) as Ep.
    unfold Repo.exec in Ep. rewrite Ep. cbn [fst].
    assert (Hback : Forall (fun t => Schema (Encode.of_TraceRecord t) = Some t) stored).
    { eapply Forall_impl; [exact Hvalid|]. apply TraceRecordSchema_encoded. }
    by destruct (omap_encoded is_uuid is_datetime is_url stored Hback) as [-> _].
  - unfold Repo.exec in *. rewrite run_mbind, E. unfold hasTracesInNotes.
    by rewrite run_catch, run_mbind, run_execFileSync, Hshow.
Qed.

End WithJson.
End RoundTripFacts.

Module StagingFacts.
Import Effects GitNotes ProgFacts StoreSpec WorldFacts StoreFacts RepairSpec RepairFacts.

Section WithJson.

Variables is_uuid is_datetime is_url : string -> bool.
Variable JSON_parse : string -> option json.
Variable JSON_stringify : json -> string.

#[local] Abbreviation stagedRecords :=
  (stagedRecords is_uuid is_datetime is_url JSON_parse).
#[local] Abbreviation malformedLines :=
  (malformedLines is_uuid is_datetime is_url JSON_parse).
#[local] Abbreviation attachStagingTraces :=
  (GitHooks.attachStagingTraces is_uuid is_datetime is_url JSON_parse JSON_stringify).

(** The staging buffer is deleted after a write only.  On the model
    repository the drain ends without an error and
    - changes nothing when there is no buffer file;
    - with a buffer file and no commit at [HEAD], does what
      [ensureNotesRef] does and keeps the file;
    - with a buffer file of which no line parses into a valid record, does
      what [ensureNotesRef] does, warns once for every line that is not
      blank, writes no note and keeps the file. *)
Theorem staging_kept_without_write (w : Repo.World) :
  let ensured := (Repo.exec (ensureNotesRef (Some (workspaceRoot w))) w).2 in
  (Repo.fs w !! stagingPath w = None ->
     Repo.exec attachStagingTraces w = (inr tt, w)) /\
  (forall content,
     Repo.fs w !! stagingPath w = Some content ->
     Repo.HEAD w = None ->
     Repo.exec attachStagingTraces w = (inr tt, ensured) /\
     Repo.fs ensured !! stagingPath w = Some content) /\
  (forall content sha,
     Repo.fs w !! stagingPath w = Some content ->
     Repo.HEAD w = Some sha ->
     stagedRecords (Str.trim (Repo.line_of sha)) content = [] ->
     let lines := GitHooks.stagingLines content in
     Repo.exec attachStagingTraces w
     = (inr tt, warn ensured (repeat STAGING_WARNING (length lines))) /\
     Repo.fs (Repo.exec attachStagingTraces w).2 !! stagingPath w = Some content /\
     Repo.notes (Repo.exec attachStagingTraces w).2 = Repo.notes ensured).
Proof.
  intros ensured. unfold ensured. clear ensured. rewrite exec_ensureNotesRef.
  cbn [snd]. split; [|split].
  - intros Hfs. unfold GitHooks.attachStagingTraces, Repo.exec. rewrite run_mbind.
    pose proof (exec_getWorkspaceRoot w) as E. unfold Repo.exec in E. rewrite E. clear E.
    fold (stagingPath w). rewrite run_mbind, run_call. cbn [Repo.handler fst snd].
    rewrite Hfs. rewrite bool_decide_false by (by intros [? ?]). reflexivity.
  - intros content Hfs Hhead. split; [|done].
    unfold GitHooks.attachStagingTraces, Repo.exec. rewrite run_mbind.
    pose proof (exec_getWorkspaceRoot w) as E. unfold Repo.exec in E. rewrite E. clear E.
    fold (stagingPath w). rewrite run_mbind, run_call. cbn [Repo.handler fst snd].
    rewrite Hfs. rewrite bool_decide_true by (by eexists). cbn [negb].
    rewrite run_mbind.
    pose proof (exec_ensureNotesRef w (Some (workspaceRoot w))) as E.
    unfold Repo.exec in E. rewrite E. clear E.
    rewrite run_mbind, run_call. cbn [Repo.handler Repo.git fst snd].
    change (Repo.HEAD (repaired w)) with (Repo.HEAD w). by rewrite Hhead.
  - intros content sha Hfs Hhead Hnone. set (lines := GitHooks.stagingLines content).
    assert (E0 : Repo.exec attachStagingTraces w
                 = (inr tt, warn (repaired w) (repeat STAGING_WARNING (length lines)))).
    { unfold GitHooks.attachStagingTraces, Repo.exec. rewrite run_mbind.
      pose proof (exec_getWorkspaceRoot w) as E. unfold Repo.exec in E. rewrite E. clear E.
      fold (stagingPath w). rewrite run_mbind, run_call. cbn [Repo.handler fst snd].
      rewrite Hfs. rewrite bool_decide_true by (by eexists). cbn [negb].
      rewrite run_mbind.
      pose proof (exec_ensureNotesRef w (Some (workspaceRoot w))) as E.
      unfold Repo.exec in E. rewrite E. clear E.
      rewrite run_mbind, run_call. cbn [Repo.handler Repo.git fst snd].
      change (Repo.HEAD (repaired w)) with (Repo.HEAD w). rewrite Hhead.
      cbn [fst snd]. unfold readFileSync.
      rewrite !run_mbind, run_call. cbn [Repo.handler fst snd run].
      change (Repo.fs (repaired w)) with (Repo.fs w). rewrite Hfs. cbn [fst snd run].
      rewrite run_mbind.
      pose proof (exec_parseStagingLines is_uuid is_datetime is_url JSON_parse
                    (Str.trim (Repo.line_of sha)) (GitHooks.stagingLines content)
                    (repaired w)) as E.
      unfold Repo.exec in E. rewrite E. clear E.
      change (omap _ (GitHooks.stagingLines content))
        with (stagedRecords (Str.trim (Repo.line_of sha)) content).
      rewrite Hnone. cbn [length Nat.ltb Nat.leb run].
      pose proof (stagingLines_split is_uuid is_datetime is_url JSON_parse
                    (Str.trim (Repo.line_of sha)) content) as Hlen.
      rewrite Hnone in Hlen. simpl in Hlen. unfold StoreSpec.malformedLines in Hlen.
      fold lines in Hlen. fold lines. by rewrite Hlen. }
    split; [done|]. rewrite E0. by split.
Qed.

End WithJson.
End StagingFacts.


(* ===================================================================== *)
(** ** The files of a commit (analyze/git-utils.ts) *)
(* ===================================================================== *)

Module DiffLoopFacts.
Import GitUtils Spec DiffSpec.

Lemma span_digits_digits s : forall ds tl,
  span_digits s = (ds, tl) ->
  Forall (fun a => Str.is_digit a = true) (list_ascii_of_string ds).
Proof.
  induction s as [|a s IH]; simpl; intros ds tl.
  - intros [= <- <-]. constructor.
  - destruct (Str.is_digit a) eqn:E.
    + destruct (span_digits s) as [ds' tl'] eqn:E'. intros [= <- <-]. simpl.
      constructor; [done|]. by eapply IH.
    + intros [= <- <-]. constructor.
Qed.

Lemma digits1_digits s ds tl :
  digits1 s = Some (ds, tl) ->
  Forall (fun a => Str.is_digit a = true) (list_ascii_of_string ds).
Proof.
  unfold digits1. destruct (span_digits s) as [ds' tl'] eqn:E.
  destruct ds'; [done|]. intros [= <- <-]. by eapply span_digits_digits.
Qed.

Lemma digit_value_nonneg a : Str.is_digit a = true -> 0 <= digit_value a.
Proof.
  unfold Str.is_digit, digit_value. intros [H1 H2]%andb_prop.
  apply Nat.leb_le in H1. lia.
Qed.

Lemma digits_value_nonneg ds : forall acc,
  0 <= acc -> Forall (fun a => Str.is_digit a = true) (list_ascii_of_string ds) ->
  0 <= digits_value acc ds.
Proof.
  induction ds as [|a ds IH]; simpl; intros acc Hacc H; [done|].
  apply Forall_cons in H as [Ha H]. apply IH; [|done].
  pose proof (digit_value_nonneg a Ha). lia.
Qed.

Lemma hunk_at_digits s start :
  hunk_at s = Some start ->
  Forall (fun a => Str.is_digit a = true) (list_ascii_of_string start).
Proof.
  unfold hunk_at. intros H.
  destruct (lit "@@ -" s) as [s1|]; [|done]. cbn [mbind option_bind] in H.
  destruct (digits1 s1) as [[d1 s2]|]; [|done]. cbn [mbind option_bind] in H.
  destruct (lit " +" (opt_count s2)) as [s3|]; [|done]. cbn [mbind option_bind] in H.
  destruct (digits1 s3) as [[st s4]|] eqn:E; [|done]. cbn [mbind option_bind] in H.
  destruct (lit " @@" (opt_count s4)); [|done]. cbn [mbind option_bind] in H.
  injection H as <-. by eapply digits1_digits.
Qed.

Lemma hunk_match_digits s : forall start,
  hunk_match s = Some start ->
  Forall (fun a => Str.is_digit a = true) (list_ascii_of_string start).
Proof.
  induction s as [|a s IH]; intros start; cbn [hunk_match].
  - destruct (hunk_at "") eqn:E; [|done]. intros [= <-]. by eapply hunk_at_digits.
  - destruct (hunk_at (String a s)) eqn:E; [|apply IH].
    intros [= <-]. by eapply hunk_at_digits.
Qed.

Lemma pushChange_kept fs p c fs' :
  pushChange fs p c = Some fs' -> recordable c ->
  Forall (fun f => Forall recordable (changes f)) fs ->
  map entryHead fs' = map entryHead fs /\
  Forall (fun f => Forall recordable (changes f)) fs'.
Proof.
  revert fs'. induction fs as [|f fs IH]; intros fs'; simpl; [done|].
  intros H Hc Hf. apply Forall_cons in Hf as [Hf Hfs].
  destruct (String.eqb (fc_path f) p).
  - injection H as <-. split; [done|]. constructor; [|done]. simpl.
    apply Forall_app. split; [done|]. by constructor.
  - destruct (pushChange fs p c) as [fs1|] eqn:E; [|done]. injection H as <-.
    destruct (IH fs1 eq_refl Hc Hfs) as [H1 H2]. split.
    + simpl. by rewrite H1.
    + by constructor.
Qed.

Lemma step_kept files0 st line : kept files0 st -> kept files0 (step st line).
Proof.
  intros (Hh & Hl & Hc). unfold step.
  destruct (_ || _).
  { destruct (_ && _); [|done]. by split. }
  destruct (Str.startsWith line "@@").
  { destruct (hunk_match line) as [start|] eqn:E; [|done].
    split; [done|]. split; [|done]. simpl.
    apply digits_value_nonneg; [done|]. by eapply hunk_match_digits. }
  destruct (_ && _).
  { destruct (pushChange _ _ _) as [fs'|] eqn:E; [|done].
    apply pushChange_kept in E as [E1 E2]; [|split; simpl; [done|done]|done].
    split; [simpl; congruence|]. split; [simpl; lia | done]. }
  destruct (_ && _).
  { destruct (pushChange _ _ _) as [fs'|] eqn:E; [|done].
    apply pushChange_kept in E as [E1 E2]; [|split; simpl; [done|done]|done].
    split; [simpl; congruence|]. split; [done | done]. }
  destruct (_ && _); [|done].
  split; [done|]. split; [simpl; lia | done].
Qed.

Lemma fold_step_kept files0 lines : forall st,
  kept files0 st -> kept files0 (fold_left step lines st).
Proof.
  induction lines as [|l lines IH]; intros st H; simpl; [done|].
  by apply IH, step_kept.
Qed.

Lemma numstatFiles_fresh numstat :
  Forall (fun f => fc_path f <> "" /\ fc_path f <> "/dev/null" /\ changes f = [])
         (numstatFiles numstat).
Proof.
  unfold numstatFiles. apply Forall_concat, Forall_fmap, Forall_forall.
  intros l _. unfold compose, numstatLine.
  destruct (Str.split tab l) as [|a [|d [|p more]]]; try constructor.
  cbv zeta. set (path := join_tab (p :: more)).
  destruct (String.eqb_spec path ""); [constructor|].
  destruct (String.eqb_spec path "/dev/null"); [constructor|].
  by repeat constructor.
Qed.

(** The files of a commit.  The loop over the unified diff leaves the
    entries read from the numstat text as they are, path and counts, in
    their order; it only adds changes, each on a line that is not negative
    and of type added or removed, never modified; no entry has an empty
    path or the path [/dev/null]. *)
Theorem commit_files_shape (numstat detailedDiff : string) :
  let result := commitFiles numstat detailedDiff in
  map entryHead result = map entryHead (numstatFiles numstat) /\
  Forall (fun f => fc_path f <> "" /\ fc_path f <> "/dev/null") result /\
  Forall (fun f => Forall recordable (changes f)) result.
Proof.
  intros result. unfold result, commitFiles, parseDetailedDiff.
  pose proof (numstatFiles_fresh numstat) as Hfresh.
  destruct (fold_step_kept (numstatFiles numstat) (Str.split Str.newline detailedDiff)
              {| files := numstatFiles numstat; currentFile := ""; lineNumber := 0 |})
    as (Hh & _ & Hc).
  { split; [done|]. split; [done|]. simpl.
    eapply Forall_impl; [exact Hfresh|]. intros f (_ & _ & ->). constructor. }
  split; [done|]. split; [|done].
  assert (Hp : map fc_path (files (fold_left step (Str.split Str.newline detailedDiff)
                 {| files := numstatFiles numstat; currentFile := ""; lineNumber := 0 |}))
               = map fc_path (numstatFiles numstat)).
  { apply (f_equal (map (fun h : string * Z * Z => h.1.1))) in Hh.
    by rewrite !map_map in Hh. }
  apply Forall_forall. intros f Hf.
  assert (Hin : fc_path f ∈ map fc_path (numstatFiles numstat)).
  { rewrite <- Hp. apply list_elem_of_fmap. by exists f. }
  apply list_elem_of_fmap in Hin as (g & Hg & Hin).
  rewrite Forall_forall in Hfresh. destruct (Hfresh g Hin) as (H1 & H2 & _).
  by rewrite Hg.
Qed.

End DiffLoopFacts.

Module DecimalFacts.
Import GitUtils DiffSpec.

Lemma string_of_uint_digits d :
  Forall (fun a => Str.is_digit a = true)
         (list_ascii_of_string (NilEmpty.string_of_uint d)).
Proof. induction d; simpl; constructor; done. Qed.

Lemma to_uint_nonnil n : Nat.to_uint n <> Nil.
Proof.
  rewrite <- (DecimalNat.Unsigned.of_to n) at 1. rewrite DecimalNat.Unsigned.to_of.
  unfold unorm. by destruct (nzhead (Nat.to_uint n)).
Qed.

Lemma show_nat_unfold n : show_nat n = NilEmpty.string_of_uint (Nat.to_uint n).
Proof.
  unfold show_nat, NilZero.string_of_uint.
  pose proof (to_uint_nonnil n) as H. by destruct (Nat.to_uint n).
Qed.

Lemma show_nat_nonempty n : show_nat n <> "".
Proof.
  rewrite show_nat_unfold.
  pose proof (to_uint_nonnil n) as H. by destruct (Nat.to_uint n).
Qed.

Lemma show_nat_digits n :
  Forall (fun a => Str.is_digit a = true) (list_ascii_of_string (show_nat n)).
Proof. rewrite show_nat_unfold. apply string_of_uint_digits. Qed.

Lemma span_digits_app ds rest :
  Forall (fun a => Str.is_digit a = true) (list_ascii_of_string ds) -> stops rest ->
  span_digits (ds ++ rest)%string = (ds, rest).
Proof.
  intros Hd Hr. induction ds as [|a ds IH]; simpl in *.
  - destruct rest as [|b rest]; [done|]. simpl in *. by rewrite Hr.
  - apply Forall_cons in Hd as [Ha Hd]. by rewrite Ha, IH.
Qed.

Lemma digits1_show n rest :
  stops rest -> digits1 (show_nat n ++ rest)%string = Some (show_nat n, rest).
Proof.
  intros Hr. unfold digits1. rewrite span_digits_app by (done || apply show_nat_digits).
  pose proof (show_nat_nonempty n). by destruct (show_nat n).
Qed.

Lemma digits_value_uint d : forall acc : nat,
  digits_value (Z.of_nat acc) (NilEmpty.string_of_uint d)
  = Z.of_nat (Nat.of_uint_acc d acc).
Proof.
  induction d; intros acc;
    cbn [NilEmpty.string_of_uint digits_value Nat.of_uint_acc]; [done|..];
    rewrite <- IHd, Nat.tail_mul_spec; f_equal;
    match goal with
    | |- context [digit_value ?c] =>
        let v := eval vm_compute in (digit_value c) in change (digit_value c) with v
    end; lia.
Qed.

Lemma digits_value_show n : digits_value 0 (show_nat n) = Z.of_nat n.
Proof.
  rewrite show_nat_unfold. change 0 with (Z.of_nat 0).
  rewrite (digits_value_uint (Nat.to_uint n) 0).
  fold (Nat.of_uint (Nat.to_uint n)). by rewrite DecimalNat.Unsigned.of_to.
Qed.

Lemma lit_append p rest : lit p (p ++ rest)%string = Some rest.
Proof.
  unfold lit. rewrite StrFacts.prefix_append. f_equal.
  induction p as [|a p IH]; simpl; [done | exact IH].
Qed.

Lemma opt_count_show count rest :
  stops rest -> (forall tl, rest <> String "," tl) ->
  opt_count (show_count count ++ rest)%string = rest.
Proof.
  intros Hr Hc. destruct count as [n|].
  - change (show_count (Some n) ++ rest)%string
      with (String "," (show_nat n ++ rest)%string).
    cbn [opt_count]. by rewrite digits1_show.
  - change (show_count None ++ rest)%string with rest.
    unfold opt_count. destruct rest as [|a rest]; [done|].
    destruct (Ascii.eqb_spec a ","%char) as [->|Hne]; [by destruct (Hc rest)|].
    destruct a as [[] [] [] [] [] [] [] []]; try done.
Qed.

End DecimalFacts.

Module HunkFacts.
Import GitUtils DiffSpec DecimalFacts.

Lemma stops_count count rest : stops rest -> stops (show_count count ++ rest)%string.
Proof. destruct count; [done|]. by change (show_count None ++ rest)%string with rest. Qed.

Lemma hunk_at_header old oldCount new newCount rest :
  hunk_at (hunkHeader old oldCount new newCount rest) = Some (show_nat new).
Proof.
  unfold hunk_at, hunkHeader. rewrite lit_append. cbn [mbind option_bind].
  rewrite digits1_show by (by apply stops_count). cbn [mbind option_bind].
  rewrite opt_count_show by done. rewrite lit_append. cbn [mbind option_bind].
  rewrite digits1_show by (by apply stops_count). cbn [mbind option_bind].
  rewrite opt_count_show by done. by rewrite lit_append.
Qed.

(** A hunk header puts the cursor on the first line of the hunk in the new
    file, whether or not it gives the two counts and whatever follows the
    closing [@@]; it changes neither the current file nor what is
    recorded. *)
Theorem hunk_header_sets_cursor (st : Cursor) (old new : nat)
    (oldCount newCount : option nat) (rest : string) :
  step st (hunkHeader old oldCount new newCount rest)
  = {| files := files st; currentFile := currentFile st;
       lineNumber := Z.of_nat new |}.
Proof.
  assert (Hm : hunk_match (hunkHeader old oldCount new newCount rest)
               = Some (show_nat new)).
  { pose proof (hunk_at_header old oldCount new newCount rest) as H.
    destruct (hunkHeader old oldCount new newCount rest); cbn [hunk_match];
      by rewrite H. }
  unfold step. rewrite Hm, digits_value_show. reflexivity.
Qed.

End HunkFacts.

Module NumstatFacts.
Import GitUtils DiffSpec DecimalFacts NumstatSpec.

Lemma split_nonempty sep s : Str.split sep s <> [].
Proof.
  destruct s as [|a s]; simpl; [done|].
  destruct (Ascii.eqb a sep); [done|]. by destruct (Str.split sep s).
Qed.

Lemma split_before sep x rest :
  Forall (fun a => Ascii.eqb a sep = false) (list_ascii_of_string x) ->
  Str.split sep (x ++ String sep rest)%string = x :: Str.split sep rest.
Proof.
  intros H. induction x as [|a x IH]; simpl in *.
  - by rewrite Ascii.eqb_refl.
  - apply Forall_cons in H as [Ha H]. by rewrite Ha, IH.
Qed.

Lemma join_split p : join_tab (Str.split tab p) = p.
Proof.
  induction p as [|a p IH]; simpl; [done|].
  pose proof (split_nonempty tab p) as Hne.
  destruct (Ascii.eqb_spec a tab) as [->|Hn].
  - destruct (Str.split tab p) as [|q qs]; [done|].
    change (join_tab ("" :: q :: qs)) with (String tab (join_tab (q :: qs))).
    by rewrite IH.
  - destruct (Str.split tab p) as [|q [|r qs]]; [done|..].
    + simpl in *. by rewrite IH.
    + change (join_tab (String a q :: r :: qs))
        with (String a (q ++ String tab (join_tab (r :: qs)))%string).
      by rewrite <- IH.
Qed.

Lemma digit_not_tab a : Str.is_digit a = true -> Ascii.eqb a tab = false.
Proof. destruct a as [[] [] [] [] [] [] [] []]; done. Qed.

Lemma show_stat_no_tab count :
  Forall (fun a => Ascii.eqb a tab = false) (list_ascii_of_string (show_stat count)).
Proof.
  destruct count as [n|]; simpl; [|by repeat constructor].
  eapply Forall_impl; [apply show_nat_digits|]. apply digit_not_tab.
Qed.

Lemma app_empty_r (s : string) : (s ++ "")%string = s.
Proof.
  induction s as [|a s IH]; [done|].
  change (String a s ++ "")%string with (String a (s ++ "")%string). by rewrite IH.
Qed.

Lemma parseInt_digits a s :
  Str.is_digit a = true ->
  Forall (fun b => Str.is_digit b = true) (list_ascii_of_string s) ->
  parseInt (String a s) = Some (digits_value 0 (String a s)).
Proof.
  intros Ha Hs.
  assert (Hd : digits1 (String a s) = Some (String a s, "")).
  { unfold digits1. rewrite <- (app_empty_r (String a s)) at 1.
    rewrite span_digits_app; [done| |done]. simpl. by constructor. }
  unfold parseInt.
  destruct a as [[] [] [] [] [] [] [] []]; try done;
    match goal with
    | |- context [Str.trimStart ?x] => change (Str.trimStart x) with x
    end; cbv beta iota; by rewrite Hd.
Qed.

Lemma parseInt_or_0_stat count : parseInt_or_0 (show_stat count) = stat_value count.
Proof.
  destruct count as [n|]; simpl; [|done].
  unfold parseInt_or_0. pose proof (show_nat_digits n) as Hd.
  pose proof (show_nat_nonempty n) as Hne. rewrite <- (digits_value_show n).
  destruct (show_nat n) as [|a s]; [done|]. simpl in Hd.
  apply Forall_cons in Hd as [Ha Hs]. by rewrite parseInt_digits.
Qed.

(** A line of the numstat text gives one entry with the two counts and the
    path, which is all that follows the second tab, tabs included; the
    counts of a binary file, printed as [-], are read as zero; a line whose
    path is empty or [/dev/null] gives no entry. *)
Theorem numstat_line_entry (added deleted : option nat) (p : string) :
  numstatLine (numstatText added deleted p)
  = if decide (p = "" \/ p = "/dev/null") then []
    else [ {| fc_path := p; additions := stat_value added;
              deletions := stat_value deleted; changes := [] |} ].
Proof.
  unfold numstatLine, numstatText.
  rewrite split_before by apply show_stat_no_tab.
  rewrite split_before by apply show_stat_no_tab.
  pose proof (split_nonempty tab p) as Hne. pose proof (join_split p) as Hj.
  destruct (Str.split tab p) as [|q more]; [done|]. cbv zeta. rewrite Hj.
  rewrite !parseInt_or_0_stat.
  destruct (String.eqb_spec p ""); [by rewrite decide_True by auto|].
  destruct (String.eqb_spec p "/dev/null"); [by rewrite decide_True by auto|].
  rewrite decide_False by (intros [?|?]; done). reflexivity.
Qed.

End NumstatFacts.

(* ===================================================================== *)
(** ** The analysis of a commit and the report *)
(* ===================================================================== *)

Module AnalysisFacts.
Import Analyzer Spec Invariants MatcherFacts MatcherSpec OriginFacts.

Lemma setAnalysis_paths acc v :
  map fa_path (setAnalysis acc v)
  = if bool_decide (fa_path v ∈ map fa_path acc) then map fa_path acc
    else map fa_path acc ++ [fa_path v].
Proof.
  induction acc as [|x acc IH]; cbn [setAnalysis map].
  - case_bool_decide as B; [by apply elem_of_nil in B | done].
  - destruct (String.eqb_spec (fa_path x) (fa_path v)) as [E|E]; cbn [map].
    + rewrite bool_decide_true; [by rewrite E|]. rewrite E. left.
    + rewrite IH. case_bool_decide as B.
      * rewrite bool_decide_true; [done|]. by right.
      * rewrite bool_decide_false; [done|].
        intros [?|?]%elem_of_cons; congruence.
Qed.

Lemma setAnalysis_NoDup acc v :
  NoDup (map fa_path acc) -> NoDup (map fa_path (setAnalysis acc v)).
Proof.
  intros H. rewrite setAnalysis_paths. case_bool_decide; [done|].
  apply NoDup_app. split; [done|]. split; [|apply NoDup_singleton].
  intros p Hp ->%list_elem_of_singleton. done.
Qed.

Lemma analyzeFiles_NoDup traces commitFiles : forall acc,
  NoDup (map fa_path acc) ->
  NoDup (map fa_path (fold_left (analyzeFile traces) commitFiles acc)).
Proof.
  induction commitFiles as [|fc fcs IH]; intros acc H; simpl; [done|].
  apply IH. rewrite analyzeFile_unfold.
  destruct (0 <? length (candidate traces fc))%nat; [|done].
  by apply setAnalysis_NoDup.
Qed.

Lemma analyzeFiles_computed traces commitFiles : forall acc fa,
  fa ∈ fold_left (analyzeFile traces) commitFiles acc ->
  fa ∈ acc \/
  exists fc, fc ∈ commitFiles /\ candidate traces fc <> [] /\
             fa = {| fa_path := GitUtils.fc_path fc;
                     fa_ranges := candidate traces fc;
                     fa_models :=
                       fold_left addModel
                                 (conversationsFor (GitUtils.fc_path fc) traces) [] |}.
Proof.
  induction commitFiles as [|fc fcs IH]; intros acc fa; simpl; [by left|].
  intros H. apply IH in H as [H|(fc' & H1 & H2 & H3)].
  - rewrite analyzeFile_unfold in H.
    destruct (candidate traces fc) as [|a l] eqn:E; [by left|]. simpl in H.
    apply elem_of_setAnalysis in H as [H| ->]; [by left|].
    right. exists fc. rewrite E. split; [left | done].
  - right. exists fc'. split; [by right | done].
Qed.

Lemma addModel_spec models c m :
  m ∈ addModel models c <-> m ∈ models \/ (m <> "" /\ modelId c = Some m).
Proof.
  unfold addModel. destruct (modelId c) as [x|]; [|naive_solver].
  destruct (String.eqb_spec x ""); [naive_solver|].
  case_bool_decide; [naive_solver|].
  rewrite elem_of_app, list_elem_of_singleton. naive_solver.
Qed.

Lemma addModel_NoDup models c : NoDup models -> NoDup (addModel models c).
Proof.
  intros H. unfold addModel. destruct (modelId c) as [x|]; [|done].
  destruct (String.eqb x ""); [done|]. case_bool_decide; [done|].
  apply NoDup_app. split; [done|]. split; [|apply NoDup_singleton].
  intros y Hy ->%list_elem_of_singleton. done.
Qed.

Lemma fold_addModel convs : forall models,
  NoDup models ->
  NoDup (fold_left addModel convs models) /\
  forall m, m ∈ fold_left addModel convs models <->
            m ∈ models \/ (m <> "" /\ exists c, c ∈ convs /\ modelId c = Some m).
Proof.
  induction convs as [|c convs IH]; intros models H; simpl.
  - split; [done|]. intros m. split; [by left|].
    intros [?|(_ & c & Hc & _)]; [done | by apply elem_of_nil in Hc].
  - destruct (IH (addModel models c) (addModel_NoDup models c H)) as [H1 H2].
    split; [done|]. intros m. rewrite H2, addModel_spec. split.
    + intros [[?|[? ?]]|(? & c' & ? & ?)]; [by left| |].
      * right. split; [done|]. exists c. split; [left | done].
      * right. split; [done|]. exists c'. split; [by right | done].
    + intros [?|(? & c' & [->|?]%elem_of_cons & ?)]; [by left; left| |].
      * left. by right.
      * right. split; [done|]. by exists c'.
Qed.

Lemma conversationRanges_touched fc c :
  Forall (touched fc) (conversationRanges fc c).
Proof.
  unfold conversationRanges. apply Forall_fmap, Forall_forall. intros r Hr.
  apply list_elem_of_In, filter_In in Hr as [_ Hr]. unfold retained in Hr.
  apply orb_true_iff in Hr as [Hr|Hr].
  - right. unfold overlaps in Hr. apply existsb_exists in Hr as (change & Hin & Hc).
    exists change. split; [by apply list_elem_of_In|]. simpl. lia.
  - left. apply Nat.eqb_eq in Hr. by destruct (GitUtils.changes fc).
Qed.

Lemma candidate_touched traces fc : Forall (touched fc) (candidate traces fc).
Proof.
  unfold candidate. apply Forall_concat, Forall_fmap, Forall_forall.
  intros c _. apply conversationRanges_touched.
Qed.

Lemma candidate_traced traces fc :
  candidate traces fc <> [] ->
  exists t f, t ∈ traces /\ f ∈ files t /\ path f = GitUtils.fc_path fc.
Proof.
  unfold candidate, conversationsFor. intros Hne.
  destruct (concat (map _ traces)) as [|c cs] eqn:E; [done|].
  assert (Hc : c ∈ concat (map (fun trace =>
                 concat (map conversations
                             (List.filter (fun f => String.eqb (path f) (GitUtils.fc_path fc))
                                          (files trace)))) traces))
    by (rewrite E; left).
  apply elem_of_concat_map in Hc as (t & Ht & Hc).
  apply elem_of_concat_map in Hc as (f & Hf & _).
  apply list_elem_of_In, filter_In in Hf as [Hf Hp].
  exists t, f. split; [done|]. split; [by apply list_elem_of_In|].
  by apply String.eqb_eq.
Qed.

(** The analysis of a commit names every path once.  Each of its entries
    is for a changed file of the commit that a record of the commit names;
    it has one range or more, each of which holds a changed line of the
    file unless the file has no changed line; its models are pairwise
    different and are the model ids, the empty one apart, of the
    conversations recorded for the path. *)
Theorem analysis_shape (traces : list TraceRecord)
    (commitFiles : list GitUtils.FileChange) :
  let result := analyzeFiles traces commitFiles in
  NoDup (map fa_path result) /\
  forall fa, fa ∈ result ->
    fa_ranges fa <> [] /\
    (exists fc, fc ∈ commitFiles /\ GitUtils.fc_path fc = fa_path fa /\
                Forall (touched fc) (fa_ranges fa)) /\
    (exists t f, t ∈ traces /\ f ∈ files t /\ path f = fa_path fa) /\
    NoDup (fa_models fa) /\
    (forall m, m ∈ fa_models fa <-> recordedModel (fa_path fa) traces m).
Proof.
  intros result. split; [apply analyzeFiles_NoDup; constructor|].
  intros fa Hfa. apply analyzeFiles_computed in Hfa as [Hfa|(fc & Hfc & Hne & ->)];
    [by apply elem_of_nil in Hfa|]. cbn [fa_path fa_ranges fa_models].
  destruct (fold_addModel (conversationsFor (GitUtils.fc_path fc) traces) [])
    as [Hnd Hm]; [constructor|].
  split; [done|]. split; [|split; [|split; [done|]]].
  - exists fc. split; [done|]. split; [done|]. apply candidate_touched.
  - by apply candidate_traced.
  - intros m. rewrite Hm. unfold recordedModel. split; [|by right].
    intros [H|H]; [by apply elem_of_nil in H | done].
Qed.

End AnalysisFacts.

Module ReportSumFacts.
Import Report Spec Invariants ReportFacts ReportSpec.

Lemma generateReport_counters (traces : list TraceRecord) :
  let stats := generateReport traces in
  totalTraces stats = length traces /\
  totalFiles stats = size (list_to_set (all_paths traces) : gset string) /\
  aiContributions stats = sum_list_with (typeAdd ai) (all_conversations traces) /\
  humanContributions stats = sum_list_with (typeAdd human) (all_conversations traces) /\
  mixedContributions stats = sum_list_with (typeAdd mixed) (all_conversations traces) /\
  (forall m, counted (models stats) m
             = sum_list_with (modelAdd m) (all_conversations traces)) /\
  (forall n, counted (tools stats) n = sum_list_with (toolAdd n) traces).
Proof.
  unfold generateReport.
  pose (stats0 := {| totalTraces := length traces; totalFiles := 0;
                     aiContributions := 0; humanContributions := 0;
                     mixedContributions := 0; models := ∅; tools := ∅ |}).
  destruct (fold_traces traces stats0 ∅) as ((A1 & A2 & A3 & A4 & A5 & A6) & B & C).
  fold stats0.
  destruct (fold_left countTrace traces (stats0, ∅)) as [stats seen]. simpl in *.
  split; [done|]. split; [by rewrite C, union_empty_r_L|].
  split; [done|]. split; [done|]. split; [done|]. split.
  - intros m. rewrite A6. unfold counted at 1. by rewrite lookup_empty.
  - intros n. rewrite B. unfold counted at 1. by rewrite lookup_empty.
Qed.

Lemma all_conversations_app a b :
  all_conversations (a ++ b) = all_conversations a ++ all_conversations b.
Proof. unfold all_conversations. by rewrite map_app, concat_app. Qed.

Lemma all_paths_app a b : all_paths (a ++ b) = all_paths a ++ all_paths b.
Proof. unfold all_paths. by rewrite map_app, concat_app. Qed.

(** The report of two lists of records put together is the sum of their
    reports, counter by counter; the number of files is that of the
    distinct paths of both, between the larger of the two numbers and their
    sum. *)
Theorem report_of_append (a b : list TraceRecord) :
  let sa := generateReport a in
  let sb := generateReport b in
  let s := generateReport (a ++ b) in
  totalTraces s = (totalTraces sa + totalTraces sb)%nat /\
  aiContributions s = (aiContributions sa + aiContributions sb)%nat /\
  humanContributions s = (humanContributions sa + humanContributions sb)%nat /\
  mixedContributions s = (mixedContributions sa + mixedContributions sb)%nat /\
  (forall m, counted (models s) m = (counted (models sa) m + counted (models sb) m)%nat) /\
  (forall n, counted (tools s) n = (counted (tools sa) n + counted (tools sb) n)%nat) /\
  (totalFiles sa <= totalFiles s)%nat /\ (totalFiles sb <= totalFiles s)%nat /\
  (totalFiles s <= totalFiles sa + totalFiles sb)%nat.
Proof.
  intros sa sb s.
  destruct (generateReport_counters a) as (A1 & A2 & A3 & A4 & A5 & A6 & A7).
  destruct (generateReport_counters b) as (B1 & B2 & B3 & B4 & B5 & B6 & B7).
  destruct (generateReport_counters (a ++ b)) as (C1 & C2 & C3 & C4 & C5 & C6 & C7).
  fold sa in A1, A2, A3, A4, A5, A6, A7. fold sb in B1, B2, B3, B4, B5, B6, B7.
  fold s in C1, C2, C3, C4, C5, C6, C7.
  rewrite all_conversations_app, !sum_list_with_app in *.
  split; [rewrite C1, A1, B1; apply length_app|].
  split; [lia|]. split; [lia|]. split; [lia|]. split.
  { intros m. rewrite C6, A6, B6, sum_list_with_app. done. }
  split.
  { intros n. rewrite C7, A7, B7, sum_list_with_app. done. }
  rewrite C2, A2, B2, all_paths_app, list_to_set_app_L.
  split; [apply subseteq_size; set_solver|].
  split; [apply subseteq_size; set_solver|].
  rewrite size_union_alt.
  assert ((list_to_set (all_paths b) ∖ list_to_set (all_paths a) : gset string)
          ⊆ list_to_set (all_paths b)) as Hsub by set_solver.
  apply subseteq_size in Hsub. lia.
Qed.

(** *** The order of the records *)

Lemma bump_comm k1 n1 k2 n2 (m : gmap string nat) :
  bump k1 n1 (bump k2 n2 m) = bump k2 n2 (bump k1 n1 m).
Proof.
  unfold bump. destruct (decide (k1 = k2)) as [->|Hne].
  - rewrite !lookup_insert_eq, !insert_insert_eq. simpl. f_equal. lia.
  - rewrite !lookup_insert_ne by done. by apply insert_insert_ne.
Qed.

Lemma countConversation_comm s c d :
  countConversation (countConversation s c) d
  = countConversation (countConversation s d) c.
Proof.
  unfold countConversation. cbn [totalTraces totalFiles aiContributions
    humanContributions mixedContributions models tools].
  f_equal.
  - destruct (Analyzer.contributorType c), (Analyzer.contributorType d); lia.
  - destruct (Analyzer.contributorType c), (Analyzer.contributorType d); lia.
  - destruct (Analyzer.contributorType c), (Analyzer.contributorType d); lia.
  - destruct (GitNotes.nonempty (Analyzer.modelId c)),
             (GitNotes.nonempty (Analyzer.modelId d)); try done.
    apply bump_comm.
Qed.

Lemma fold_comm {A B} (f : A -> B -> A) :
  (forall s x y, f (f s x) y = f (f s y) x) ->
  forall xs ys s, fold_left f xs (fold_left f ys s) = fold_left f ys (fold_left f xs s).
Proof.
  intros Hf.
  assert (H1 : forall ys s x, f (fold_left f ys s) x = fold_left f ys (f s x)).
  { induction ys as [|y ys IH]; intros s x; simpl; [done|]. by rewrite IH, Hf. }
  induction xs as [|x xs IH]; intros ys s; simpl; [done|].
  by rewrite H1, IH.
Qed.

Lemma fold_perm {A B} (f : A -> B -> A) :
  (forall s x y, f (f s x) y = f (f s y) x) ->
  forall xs ys, xs ≡ₚ ys -> forall s, fold_left f xs s = fold_left f ys s.
Proof.
  intros Hf xs ys H. induction H; intros s; simpl; try done.
  - by rewrite Hf.
  - by rewrite IHPermutation1.
Qed.

Lemma countFile_comm acc f g :
  countFile (countFile acc f) g = countFile (countFile acc g) f.
Proof.
  unfold countFile. cbn [fst snd]. f_equal.
  - apply fold_comm. apply countConversation_comm.
  - set_solver.
Qed.

Lemma countTrace_unfold acc t :
  countTrace acc t = bumpTool t (fold_left countFile (files t) acc).
Proof.
  unfold countTrace, bumpTool. by destruct (fold_left countFile (files t) acc).
Qed.

Lemma fold_set_tools cs : forall s tl,
  fold_left countConversation cs (set_tools s tl)
  = set_tools (fold_left countConversation cs s) tl.
Proof.
  induction cs as [|c cs IH]; intros s tl; simpl; [done|].
  change (countConversation (set_tools s tl) c)
    with (set_tools (countConversation s c) tl).
  apply IH.
Qed.

Lemma bumpTool_countFile t acc f :
  countFile (bumpTool t acc) f = bumpTool t (countFile acc f).
Proof.
  destruct acc as [s seen]. unfold countFile, bumpTool. cbn [fst snd].
  rewrite fold_set_tools.
  by destruct (fold_conversations (conversations f) s) as [_ ->].
Qed.

Lemma bumpTool_fold t fs : forall acc,
  fold_left countFile fs (bumpTool t acc) = bumpTool t (fold_left countFile fs acc).
Proof.
  induction fs as [|f fs IH]; intros acc; simpl; [done|].
  by rewrite bumpTool_countFile, IH.
Qed.

Lemma bumpTool_comm t u acc : bumpTool t (bumpTool u acc) = bumpTool u (bumpTool t acc).
Proof.
  unfold bumpTool, set_tools, toolsAfter. cbn [fst snd tools]. f_equal. f_equal.
  destruct (GitNotes.nonempty (tool_name <$> tool t)),
           (GitNotes.nonempty (tool_name <$> tool u)); try done.
  apply bump_comm.
Qed.

Lemma countTrace_comm acc t u :
  countTrace (countTrace acc t) u = countTrace (countTrace acc u) t.
Proof.
  rewrite !countTrace_unfold, !bumpTool_fold, bumpTool_comm. f_equal. f_equal.
  apply fold_comm, countFile_comm.
Qed.

(** The report does not depend on the order of the records. *)
Theorem report_ignores_order (traces traces' : list TraceRecord) :
  traces ≡ₚ traces' -> generateReport traces = generateReport traces'.
Proof.
  intros H. unfold generateReport. rewrite (Permutation_length H).
  by rewrite (fold_perm countTrace countTrace_comm traces traces' H).
Qed.

End ReportSumFacts.

(* ===================================================================== *)
(** ** Creating a record; the hook input *)
(* ===================================================================== *)

Module TraceStoreFacts.
Import TraceStore Spec PositionSpec StrFacts Valid ValidFacts.

Lemma withProvider_slash entries model named :
  withProvider entries model = Some named ->
  exists prefix provider, (prefix, provider) ∈ entries /\
                          named = (provider ++ "/" ++ model)%string.
Proof.
  induction entries as [|[prefix provider] rest IH]; [done|]. simpl.
  destruct (Str.startsWith model prefix).
  - intros [= <-]. exists prefix, provider. split; [left | done].
  - intros H. destruct (IH H) as (p & q & Hin & ->). exists p, q. split; [by right | done].
Qed.

(** Normalising a model id twice is normalising it once.  The result is
    undefined for no model and for the empty one only; it is the model
    itself, or the model after the name of a provider and a slash. *)
Theorem normalizeModelId_idempotent :
  (forall model, normalizeModelId (normalizeModelId model) = normalizeModelId model) /\
  (forall model, normalizeModelId model = None <-> model = None \/ model = Some "") /\
  (forall model named, normalizeModelId (Some model) = Some named ->
     named = model \/
     exists provider, provider ∈ ["anthropic"; "openai"; "google"] /\
                      named = (provider ++ "/" ++ model)%string).
Proof.
  split; [|split].
  - intros [model|]; [|done]. cbn [normalizeModelId].
    destruct (String.eqb model "") eqn:E0; [done|].
    destruct (Str.includes model "/") eqn:E1.
    + cbn [normalizeModelId]. by rewrite E0, E1.
    + destruct (withProvider prefixes model) as [named|] eqn:E2.
      * apply withProvider_slash in E2 as (prefix & provider & _ & ->).
        cbn [normalizeModelId].
        assert (Str.includes (provider ++ "/" ++ model)%string "/" = true) as ->.
        { apply includes_after. apply (includes_here "/" model). }
        destruct (String.eqb (provider ++ "/" ++ model)%string "") eqn:E3; [|done].
        apply String.eqb_eq in E3. by destruct provider.
      * cbn [normalizeModelId]. by rewrite E0, E1, E2.
  - intros [model|]; cbn [normalizeModelId]; [|naive_solver].
    destruct (String.eqb_spec model "") as [->|Hne]; [naive_solver|].
    destruct (Str.includes model "/"); [naive_solver|].
    destruct (withProvider prefixes model); naive_solver.
  - intros model named. cbn [normalizeModelId].
    destruct (String.eqb model ""); [done|].
    destruct (Str.includes model "/"); [intros [= <-]; by left|].
    destruct (withProvider prefixes model) as [r|] eqn:E; [|intros [= <-]; by left].
    intros [= <-]. right.
    apply withProvider_slash in E as (prefix & provider & Hin & ->).
    exists provider. split; [|done]. unfold prefixes in Hin.
    repeat (apply elem_of_cons in Hin as [[= _ <-]|Hin]; [set_solver|]).
    by apply elem_of_nil in Hin.
Qed.

End TraceStoreFacts.

Module PositionFacts.
Import TraceStore Spec PositionSpec StrFacts Valid ValidFacts TraceStoreFacts.

Lemma split_length sep s :
  length (Str.split sep s)
  = S (length (List.filter (fun a => Ascii.eqb a sep) (list_ascii_of_string s))).
Proof.
  induction s as [|a s IH]; simpl; [done|].
  destruct (Ascii.eqb a sep); simpl; [by rewrite IH|].
  destruct (Str.split sep s) as [|piece pieces]; simpl in *; [done | done].
Qed.

Lemma lineCount_newlines s : lineCount s = 1 + newlines s.
Proof.
  unfold lineCount. rewrite split_length.
  induction s as [|a s IH]; simpl; [done|].
  destruct (Ascii.eqb a Str.newline); simpl length; lia.
Qed.

Lemma newlines_nonneg s : 0 <= newlines s.
Proof. induction s as [|a s IH]; simpl; [done|]. destruct (Ascii.eqb _ _); lia. Qed.

Lemma positionOf_bounds content edit :
  edit_range edit = None ->
  let p := positionOf content edit in
  1 <= pos_start_line p /\ pos_start_line p <= pos_end_line p /\
  pos_end_line p - pos_start_line p = newlines (new_string edit).
Proof.
  intros Hr. unfold positionOf. rewrite Hr.
  pose proof (newlines_nonneg (new_string edit)) as Hn.
  destruct (GitNotes.nonempty content) as [text|]; simpl.
  - destruct (indexOf text (new_string edit)) as [idx|]; simpl.
    + rewrite !lineCount_newlines.
      pose proof (newlines_nonneg (substring_to idx text)). lia.
    + rewrite lineCount_newlines. lia.
  - rewrite lineCount_newlines. lia.
Qed.

Lemma indexOf_first before : forall rest sub,
  String.prefix sub rest = true ->
  absentBefore (String.length before) (before ++ rest)%string sub ->
  indexOf (before ++ rest)%string sub = Some (String.length before).
Proof.
  induction before as [|a before IH]; intros rest sub Hp Ha.
  - change ("" ++ rest)%string with rest. destruct rest; cbn [indexOf]; by rewrite Hp.
  - change (String a before ++ rest)%string with (String a (before ++ rest)%string) in *.
    cbn [absentBefore String.length] in Ha. destruct Ha as [Hn Ha].
    cbn [indexOf String.length]. rewrite Hn.
    by rewrite (IH rest sub Hp Ha).
Qed.

Lemma substring_to_app before rest :
  substring_to (String.length before) (before ++ rest)%string = before.
Proof.
  induction before as [|a before IH].
  - change ("" ++ rest)%string with rest. by destruct rest.
  - change (String a before ++ rest)%string with (String a (before ++ rest)%string).
    simpl. by rewrite IH.
Qed.

(** The lines of an edit that comes without the range of the editor.  The
    range starts at line 1 or later and does not end before it starts; it
    spans the lines of the new text.  When the new text occurs in the
    content of the file, the range starts on the line of its first
    occurrence: one more than the line feeds that come before it. *)
Theorem computed_position (fileContent : option string) (edit : FileEdit) :
  edit_range edit = None ->
  let p := positionOf fileContent edit in
  (1 <= pos_start_line p /\ pos_start_line p <= pos_end_line p /\
   pos_end_line p - pos_start_line p = newlines (new_string edit)) /\
  (forall before after,
     fileContent = Some (before ++ new_string edit ++ after)%string ->
     new_string edit <> "" ->
     absentBefore (String.length before) (before ++ new_string edit ++ after)%string
                  (new_string edit) ->
     pos_start_line p = 1 + newlines before) /\
  (fileContent = None \/ fileContent = Some "" -> pos_start_line p = 1).
Proof.
  intros Hr p. split; [by apply positionOf_bounds|]. split.
  - intros before after -> Hne Habs. unfold p, positionOf. rewrite Hr.
    assert (Hc : GitNotes.nonempty (Some (before ++ new_string edit ++ after)%string)
                 = Some (before ++ new_string edit ++ after)%string).
    { unfold GitNotes.nonempty.
      destruct (String.eqb_spec (before ++ new_string edit ++ after)%string "") as [E|E];
        [|done].
      destruct before; [|done]. change ("" ++ ?x)%string with x in E.
      destruct (new_string edit); done. }
    rewrite Hc. rewrite indexOf_first; [|apply prefix_append | done].
    simpl. by rewrite substring_to_app, lineCount_newlines.
  - intros [->| ->]; unfold p, positionOf; rewrite Hr; done.
Qed.

End PositionFacts.

Module CreatedFacts.
Import TraceStore Spec PositionSpec StrFacts Valid ValidFacts TraceStoreFacts PositionFacts.

Lemma length_append (a b : string) :
  String.length (a ++ b)%string = (String.length a + String.length b)%nat.
Proof.
  induction a as [|c a IH]; [done|].
  change (String c a ++ b)%string with (String c (a ++ b)%string). simpl. by rewrite IH.
Qed.

Lemma normalizeModelId_length model :
  from_option (fun m => (String.length m <= 240)%nat) True model ->
  from_option (fun m => (String.length m <= 250)%nat) True (normalizeModelId model).
Proof.
  destruct model as [model|]; [|done]. cbn [from_option normalizeModelId]. intros H.
  destruct (String.eqb model ""); [done|].
  destruct (Str.includes model "/"); [simpl; lia|].
  destruct (withProvider prefixes model) as [named|] eqn:E; [|simpl; lia].
  apply withProvider_slash in E as (prefix & provider & Hin & ->). simpl.
  rewrite !length_append. unfold prefixes in Hin.
  repeat (apply elem_of_cons in Hin as [[= _ ->]|Hin]; [simpl; lia|]).
  by apply elem_of_nil in Hin.
Qed.

Lemma rangesOf_computed edits content :
  Forall (fun e => edit_range e = None) edits ->
  Forall (fun r => validRange r /\ range_ordered r)
         (rangesOf (Some (computeRangePositions edits content))).
Proof.
  intros He.
  assert (Hp : Forall (fun p => 1 <= pos_start_line p /\ pos_start_line p <= pos_end_line p)
                      (computeRangePositions edits content)).
  { unfold computeRangePositions. apply Forall_fmap, Forall_forall. intros e Hin.
    apply list_elem_of_In, filter_In in Hin as [Hin _]. apply list_elem_of_In in Hin.
    rewrite Forall_forall in He.
    destruct (positionOf_bounds content e (He e Hin)) as (H1 & H2 & _). done. }
  unfold rangesOf. destruct (computeRangePositions edits content) as [|p ps].
  - constructor; [|constructor]. unfold validRange, range_ordered. simpl. lia.
  - apply Forall_fmap. eapply Forall_impl; [exact Hp|].
    intros q [H1 H2]. unfold validRange, range_ordered. simpl. lia.
Qed.

Section WithFormats.

Variables is_uuid is_datetime is_url : string -> bool.

#[local] Abbreviation Schema := (Schema.TraceRecordSchema is_uuid is_datetime is_url).

(** A record created for edits that come without the range of the editor
    passes the schema, and each of its ranges ends on its first line or
    later, when the id is a UUID, the timestamp a date-time, the transcript
    path gives a URL and the model id has 240 characters or fewer. *)
Theorem created_trace_validates (edits : list FileEdit) (fileContent : option string)
    (ty : ContributorType) (relativePath : string) (model transcript : option string)
    (metadata : option (list (string * json))) (uuid now : string)
    (vcsInfo : option Vcs) (toolInfo : Tool) :
  let opts := {| opt_model := model;
                 opt_rangePositions := Some (computeRangePositions edits fileContent);
                 opt_transcript := transcript;
                 opt_metadata := metadata |} in
  let trace := traceOf ty relativePath opts uuid now vcsInfo toolInfo in
  Forall (fun e => edit_range e = None) edits ->
  is_uuid uuid = true ->
  is_datetime now = true ->
  from_option (fun t => t = "" \/ is_url ("file://" ++ t)%string = true) True transcript ->
  from_option (fun m => (String.length m <= 240)%nat) True model ->
  Schema (Encode.of_TraceRecord trace) = Some trace /\
  Forall range_checked (all_ranges trace) /\
  Forall range_ordered (all_ranges trace).
Proof.
  intros opts trace He Hid Hts Hurl Hmodel.
  pose proof (rangesOf_computed edits fileContent He) as Hr.
  assert (Hall : all_ranges trace = rangesOf (Some (computeRangePositions edits fileContent))).
  { unfold all_ranges, trace, traceOf. simpl. by rewrite !app_nil_r. }
  split; [|split].
  - apply TraceRecordSchema_encoded. unfold validRecord, trace, traceOf. simpl.
    split; [done|]. split; [done|]. split; [done|].
    constructor; [|constructor]. unfold validFile. simpl.
    constructor; [|constructor]. unfold validConversation. simpl.
    split; [|split; [|split; [|done]]].
    + unfold conversationUrl, GitNotes.nonempty. destruct transcript as [t|]; [|done].
      destruct (String.eqb_spec t ""); [done|]. simpl. simpl in Hurl. by destruct Hurl.
    + unfold validContributor. simpl. by apply normalizeModelId_length.
    + eapply Forall_impl; [exact Hr|]. by intros r [? _].
  - rewrite Hall. eapply Forall_impl; [exact Hr|]. intros r [(? & ? & _) _]. by split.
  - rewrite Hall. eapply Forall_impl; [exact Hr|]. by intros r [_ ?].
Qed.

End WithFormats.
End CreatedFacts.

Module HookFacts.
Import TraceHook HookSpec.

Lemma nonempty_inv o s : GitNotes.nonempty o = Some s -> o = Some s /\ s <> "".
Proof.
  unfold GitNotes.nonempty. destruct o as [x|]; [|done].
  destruct (String.eqb_spec x ""); [done|]. by intros [= ->].
Qed.

Lemma nonempty_of s : s <> "" -> GitNotes.nonempty (Some s) = Some s.
Proof. intros H. unfold GitNotes.nonempty. by destruct (String.eqb_spec s ""). Qed.

Lemma or_else_nonempty a b c :
  GitNotes.nonempty (or_else (or_else a b) c)
  = match GitNotes.nonempty a with
    | Some m => Some m
    | None => match GitNotes.nonempty b with
              | Some m => Some m
              | None => GitNotes.nonempty c
              end
    end.
Proof.
  unfold or_else. destruct (GitNotes.nonempty a) as [m|] eqn:Ea.
  - by rewrite Ea.
  - by destruct (GitNotes.nonempty b) as [m|] eqn:Eb.
Qed.

Lemma extractModel_named input m :
  extractModel input = inr (Some m) -> m <> "" /\ Str.trim m <> "".
Proof.
  unfold extractModel, named.
  destruct (GitNotes.nonempty (or_else _ _)) as [x|] eqn:E.
  - destruct (String.eqb_spec (Str.trim x) "") as [Ht|Ht]; cbn [negb].
    + destruct (input_metadata input) as [md|]; [|done].
      destruct (or_else_json _ _) as [v|]; [|done].
      destruct (truthy v) eqn:Hv; [|done].
      destruct v; try done.
      destruct (String.eqb_spec (Str.trim s) ""); [done|]. cbn [negb].
      intros [= <-]. split; [|done]. intros ->. done.
    + intros [= H]. apply nonempty_inv in E as [E Hx]. rewrite H in E.
      injection E as <-. done.
  - destruct (input_metadata input) as [md|]; [|done].
    destruct (or_else_json _ _) as [v|]; [|done].
    destruct (truthy v) eqn:Hv; [|done].
    destruct v; try done.
    destruct (String.eqb_spec (Str.trim s) ""); [done|]. cbn [negb].
    intros [= <-]. split; [|done]. intros ->. done.
Qed.

(** A record is attributed to an AI exactly when a model is extracted from
    the hook input, and to a human otherwise; the test of the session
    handlers gives the same type.  The model extracted is never blank. *)
Theorem contributor_follows_model (input : HookInput) :
  match extractModel input with
  | inr (Some m) =>
      Str.trim m <> "" /\ getContributorType input = inr ai /\
      sessionContributorType input = inr ai
  | inr None =>
      getContributorType input = inr human /\ sessionContributorType input = inr human
  | inl thrown =>
      getContributorType input = inl thrown /\ sessionContributorType input = inl thrown
  end.
Proof.
  unfold getContributorType, sessionContributorType.
  destruct (extractModel input) as [thrown|[m|]] eqn:E; [done| |done].
  apply extractModel_named in E as [Hm Ht].
  rewrite (nonempty_of m Hm). by destruct (String.eqb_spec (Str.trim m) "").
Qed.

(** The model is the first of [model], [model_id] and [model_name] that is
    not empty, when it is not blank.  When that member is blank the other
    two are not looked at: the model is then the one the metadata gives, as
    if none of the three were there. *)
Theorem extractModel_precedence (input : HookInput) :
  (forall m, firstNamed input = Some m -> Str.trim m <> "" ->
             extractModel input = inr (Some m)) /\
  (forall m, firstNamed input = Some m -> Str.trim m = "" ->
             extractModel input = extractModel (metadataOnly input)) /\
  (firstNamed input = None -> extractModel input = extractModel (metadataOnly input)).
Proof.
  unfold firstNamed. pose proof (or_else_nonempty (input_model input)
    (input_model_id input) (input_model_name input)) as Hn.
  set (chosen := or_else (or_else (input_model input) (input_model_id input))
                         (input_model_name input)) in *.
  assert (Hmeta : extractModel (metadataOnly input)
                  = match input_metadata input with
                    | Some metadata =>
                        match or_else_json (member "model" metadata)
                                           (member "model_id" metadata) with
                        | Some v =>
                            if truthy v then
                              match v with
                              | JStr s => if negb (String.eqb (Str.trim s) "")
                                          then inr (Some s) else inr None
                              | _ => inl TypeError
                              end
                            else inr None
                        | None => inr None
                        end
                    | None => inr None
                    end) by reflexivity.
  rewrite Hmeta. clear Hmeta. rewrite <- Hn. clear Hn.
  unfold extractModel. fold chosen. unfold named.
  split; [|split].
  - intros m Hc Ht. rewrite Hc. apply String.eqb_neq in Ht. rewrite Ht. cbn [negb].
    apply nonempty_inv in Hc as [-> _]. done.
  - intros m Hc Ht. rewrite Hc. apply String.eqb_eq in Ht. by rewrite Ht.
  - intros Hc. by rewrite Hc.
Qed.

End HookFacts.

(* ===================================================================== *)
(** ** The schema again; what the analysis ignores; reading a range *)
(* ===================================================================== *)

Module SchemaRoundTrip.
Import Schema Valid ValidFacts.

Section WithFormats.

Variables is_uuid is_datetime is_url : string -> bool.

#[local] Abbreviation Schema := (TraceRecordSchema is_uuid is_datetime is_url).
#[local] Abbreviation validRecord := (validRecord is_uuid is_datetime is_url).

(** Validation accepts a candidate only when the record it gives
    satisfies every constraint of the schema: the formats of the version,
    the id, the timestamp and the URLs, the length of the model ids and the
    bounds of the lines.  A record that satisfies them, written as JSON,
    validates to itself; so a record that was validated validates again,
    unchanged. *)
Theorem validation_round_trip :
  (forall candidate t, Schema candidate = Some t -> validRecord t) /\
  (forall t, validRecord t -> Schema (Encode.of_TraceRecord t) = Some t) /\
  (forall candidate t, Schema candidate = Some t ->
     Schema (Encode.of_TraceRecord t) = Some t).
Proof.
  split; [apply TraceRecordSchema_valid|]. split; [apply TraceRecordSchema_encoded|].
  intros candidate t H. by eapply TraceRecordSchema_encoded, TraceRecordSchema_valid.
Qed.

End WithFormats.
End SchemaRoundTrip.

Module OverrideFacts.
Import Consolidate Analyzer Report Spec Invariants MatcherFacts OverrideSpec Attribution
       OriginFacts ConsolidationFacts.

Lemma conversationRanges_bare fc c :
  conversationRanges fc (bareConversation c) = conversationRanges fc c.
Proof.
  unfold conversationRanges, bareConversation. simpl.
  change (contributorType {| url := url c; contributor := contributor c;
                             ranges := map bareRange (ranges c); related := related c |})
    with (contributorType c).
  change (modelId {| url := url c; contributor := contributor c;
                     ranges := map bareRange (ranges c); related := related c |})
    with (modelId c).
  induction (ranges c) as [|r rs IH]; simpl; [done|].
  change (retained fc (bareRange r)) with (retained fc r).
  destruct (retained fc r); simpl; by rewrite IH.
Qed.

Lemma conversationsFor_bare p traces :
  conversationsFor p (map bareRecord traces)
  = map bareConversation (conversationsFor p traces).
Proof.
  unfold conversationsFor. induction traces as [|t ts IH]; simpl; [done|].
  rewrite map_app, IH. f_equal. clear IH.
  induction (files t) as [|f fs IHf]; simpl; [done|].
  destruct (String.eqb (path f) p); simpl; [|done]. by rewrite map_app, IHf.
Qed.

Lemma candidate_bare traces fc :
  candidate (map bareRecord traces) fc = candidate traces fc.
Proof.
  unfold candidate. rewrite conversationsFor_bare.
  induction (conversationsFor (GitUtils.fc_path fc) traces) as [|c cs IH]; simpl; [done|].
  by rewrite conversationRanges_bare, IH.
Qed.

Lemma addModel_bare models c : addModel models (bareConversation c) = addModel models c.
Proof. reflexivity. Qed.

Lemma fold_addModel_bare cs : forall models,
  fold_left addModel (map bareConversation cs) models = fold_left addModel cs models.
Proof. induction cs as [|c cs IH]; intros models; simpl; [done|]. by rewrite IH. Qed.

Lemma countConversation_bare s c :
  countConversation s (bareConversation c) = countConversation s c.
Proof.
  unfold countConversation, bareConversation. simpl. rewrite length_map. reflexivity.
Qed.

Lemma countFile_bare acc f : countFile acc (bareFile f) = countFile acc f.
Proof.
  unfold countFile, bareFile. simpl. f_equal. generalize acc.1.
  induction (conversations f) as [|c cs IH]; intros s; simpl; [done|].
  by rewrite countConversation_bare, IH.
Qed.

Lemma countTrace_bare acc t : countTrace acc (bareRecord t) = countTrace acc t.
Proof.
  unfold countTrace, bareRecord. simpl.
  assert (fold_left countFile (map bareFile (files t)) acc
          = fold_left countFile (files t) acc) as ->; [|done].
  revert acc. induction (files t) as [|f fs IH]; intros acc; simpl; [done|].
  by rewrite countFile_bare, IH.
Qed.

(** The analysis of a commit and the report do not look at the content
    hash of a range, nor at a contributor given for one range: without them
    the results are the same. *)
Theorem range_overrides_are_ignored (traces : list TraceRecord)
    (commitFiles : list GitUtils.FileChange) :
  analyzeFiles (map bareRecord traces) commitFiles = analyzeFiles traces commitFiles /\
  generateReport (map bareRecord traces) = generateReport traces.
Proof.
  split.
  - unfold analyzeFiles. generalize (@nil FileAnalysis).
    induction commitFiles as [|fc fcs IH]; intros acc; simpl; [done|].
    rewrite !analyzeFile_unfold, candidate_bare, conversationsFor_bare,
      fold_addModel_bare. apply IH.
  - unfold generateReport. rewrite length_map.
    assert (forall acc, fold_left countTrace (map bareRecord traces) acc
                        = fold_left countTrace traces acc) as ->; [|done].
    induction traces as [|t ts IH]; intros acc; simpl; [done|].
    by rewrite countTrace_bare, IH.
Qed.

(** The records handed to [JSON.stringify] attribute what the records found
    on the commit attributed, and what the records written under an id that
    is not found attribute; nothing else. *)
Lemma mergeWithExisting_attributions (existing traces : list TraceRecord)
    (a : attribution) :
  a ∈ attributions (GitNotes.mergeWithExisting existing traces) <->
  a ∈ attributions existing \/
  a ∈ attributions (List.filter (fun t => bool_decide (id t ∉ map id existing)) traces).
Proof.
  unfold GitNotes.mergeWithExisting.
  rewrite (conj (attribution_of_source _ a) (attribution_survives _ a)
           : _ <-> _).
  unfold attributions at 1. rewrite map_app, concat_app, elem_of_app.
  assert (List.filter (fun t => bool_decide
            (id t ∉ (list_to_set (map id existing) : gset string))) traces
          = List.filter (fun t => bool_decide (id t ∉ map id existing)) traces) as ->; [|done].
  induction traces as [|t ts IH]; simpl; [done|]. rewrite IH.
  assert (bool_decide (id t ∉ (list_to_set (map id existing) : gset string))
          = bool_decide (id t ∉ map id existing)) as ->; [|done].
  apply bool_decide_ext. by rewrite elem_of_list_to_set.
Qed.

End OverrideFacts.

Module WriteAttributionFacts.
Import Effects GitNotes ProgFacts StoreSpec WorldFacts RepairSpec RepairFacts WriteFacts
       Attribution OverrideFacts.

Section WithJson.

Variables is_uuid is_datetime is_url : string -> bool.
Variable JSON_parse : string -> option json.
Variable JSON_stringify : json -> string.

#[local] Abbreviation read := (readTracesFromNotes is_uuid is_datetime is_url JSON_parse).
#[local] Abbreviation write :=
  (writeTracesToNotes is_uuid is_datetime is_url JSON_parse JSON_stringify).
#[local] Abbreviation existingRecords :=
  (existingRecords is_uuid is_datetime is_url JSON_parse).

(** The records a write takes as stored are those a read of the commit
    returns, and none when that read throws. *)
Lemma found_existing (w : Repo.World) (commitSha sha : string) cwd :
  Repo.resolve w commitSha = Some sha ->
  match (Repo.exec (read commitSha cwd) w).1 with
  | inr found => found
  | inl _ => []
  end = existingRecords w sha.
Proof.
  intros Hr.
  assert (Repo.notes_ref w = Repo.GoodRef \/ Repo.notes_ref w <> Repo.GoodRef)
    as [Hg|Hg] by (destruct (Repo.notes_ref w); auto).
  - pose proof (exec_read_for_write is_uuid is_datetime is_url JSON_parse
                  w commitSha sha cwd Hg Hr) as E.
    unfold Repo.exec in *. rewrite run_catch in E.
    destruct (run Repo.handler (read commitSha cwd) w) as [[e|found] w1];
      cbn [run fst] in *; congruence.
  - rewrite (exec_read_missing is_uuid is_datetime is_url JSON_parse w commitSha cwd Hg).
    cbn [fst]. symmetry.
    apply (existing_missing is_uuid is_datetime is_url JSON_parse w sha Hg).
Qed.

(** What a write keeps of a note.  On a model repository on which a note
    can be written, a write of one record or more to a commit that resolves
    ends without an error and leaves as the note of the commit the text of
    records that attribute what the records attributed that a read of the
    commit returned before, and what the records written under an id that
    is not among theirs attribute; nothing else.  What the note held beside
    the records the read returned is overwritten: records that fail the
    schema, and all of a note that is not JSON, on which the read throws. *)
Theorem write_keeps_attributions (w : Repo.World) (commitSha sha : string)
    (traces : list TraceRecord) (cwd : option string) :
  let found := match (Repo.exec (read commitSha cwd) w).1 with
               | inr found => found
               | inl _ => []
               end in
  let after := Repo.exec (write commitSha traces cwd) w in
  writable w ->
  Repo.resolve w commitSha = Some sha ->
  traces <> [] ->
  after.1 = inr tt /\
  exists stored,
    Repo.notes after.2 !! sha = Some (JSON_stringify (Encode.of_records stored)) /\
    forall a,
      a ∈ attributions stored <->
      a ∈ attributions found \/
      a ∈ attributions (List.filter (fun t => bool_decide (id t ∉ map id found)) traces).
Proof.
  intros found after Hw Hr Hne. unfold after, found. clear after found.
  rewrite (found_existing w commitSha sha cwd Hr).
  rewrite (exec_write is_uuid is_datetime is_url JSON_parse JSON_stringify
             w commitSha sha traces cwd Hw Hr Hne).
  cbn [fst snd Repo.notes Repo.with_notes]. split; [done|].
  exists (mergeWithExisting (existingRecords w sha) traces). split.
  - by rewrite lookup_insert_eq.
  - intros a. apply mergeWithExisting_attributions.
Qed.

End WithJson.
End WriteAttributionFacts.

Module RangeReadFacts.
Import Effects GitNotes NotesQueries ProgFacts.

Section WithJson.

Variables is_uuid is_datetime is_url : string -> bool.
Variable JSON_parse : string -> option json.

#[local] Abbreviation read := (readTracesFromNotes is_uuid is_datetime is_url JSON_parse).
#[local] Abbreviation readAll := (readAll is_uuid is_datetime is_url JSON_parse).
#[local] Abbreviation readTracesFromNotesRange :=
  (readTracesFromNotesRange is_uuid is_datetime is_url JSON_parse).

Lemma run_readAll_app {W} (h : Handler W) (xs ys : list string) cwd : forall acc w,
  run h (readAll (xs ++ ys) cwd acc) w
  = match run h (readAll xs cwd acc) w with
    | (inr acc', w') => run h (readAll ys cwd acc') w'
    | (inl e, w') => (inl e, w')
    end.
Proof.
  induction xs as [|x xs IH]; intros acc w; [done|].
  cbn [app NotesQueries.readAll]. rewrite !run_mbind.
  destruct (run h (read x cwd) w) as [[e|traces] w1]; [done|]. apply IH.
Qed.

(** A read of a range of commits returns the records of all its commits
    or none.  When the list of the commits cannot be had, or the read of
    one commit throws, it warns and returns the empty list: the records
    read from the commits before that one are dropped. *)
Theorem range_read_is_all_or_nothing {W} (h : Handler W) (w w1 : W)
    (fromCommit toCommit : string) (cwd : option string) :
  (forall e,
     h _ (ExecFileSync ["rev-list"; (fromCommit ++ ".." ++ toCommit)%string] None None) w
     = (inl e, w1) ->
     run h (readTracesFromNotesRange fromCommit toCommit cwd) w
     = (inr [], (h _ (ConsoleWarn "Failed to read traces from range") w1).2)) /\
  (forall stdout before commit after found w2 e w3,
     h _ (ExecFileSync ["rev-list"; (fromCommit ++ ".." ++ toCommit)%string] None None) w
     = (inr stdout, w1) ->
     outputLines stdout = before ++ commit :: after ->
     run h (readAll before cwd []) w1 = (inr found, w2) ->
     run h (read commit cwd) w2 = (inl e, w3) ->
     run h (readTracesFromNotesRange fromCommit toCommit cwd) w
     = (inr [], (h _ (ConsoleWarn "Failed to read traces from range") w3).2)) /\
  (forall stdout found w2,
     h _ (ExecFileSync ["rev-list"; (fromCommit ++ ".." ++ toCommit)%string] None None) w
     = (inr stdout, w1) ->
     run h (readAll (outputLines stdout) cwd []) w1 = (inr found, w2) ->
     run h (readTracesFromNotesRange fromCommit toCommit cwd) w = (inr found, w2)).
Proof.
  split; [|split].
  - intros e He. unfold NotesQueries.readTracesFromNotesRange.
    rewrite run_catch, run_mbind, run_execFileSync, He.
    rewrite run_mbind, run_call. reflexivity.
  - intros stdout before commit after found w2 e w3 Hl Hsplit Hbefore Hthrow.
    unfold NotesQueries.readTracesFromNotesRange.
    rewrite run_catch, run_mbind, run_execFileSync, Hl, Hsplit.
    rewrite run_readAll_app, Hbefore. cbn [NotesQueries.readAll].
    rewrite run_mbind, Hthrow. rewrite run_mbind, run_call. reflexivity.
  - intros stdout found w2 Hl Hall. unfold NotesQueries.readTracesFromNotesRange.
    by rewrite run_catch, run_mbind, run_execFileSync, Hl, Hall.
Qed.

End WithJson.
End RangeReadFacts.

Module VersionFacts.
Import Schema FormatSpec DiffSpec.

Lemma skip_digits_app ds rest :
  Forall (fun a => Str.is_digit a = true) (list_ascii_of_string ds) -> stops rest ->
  skip_digits (ds ++ rest)%string = rest.
Proof.
  intros Hd Hr. induction ds as [|a ds IH].
  - change ("" ++ rest)%string with rest. destruct rest as [|b rest]; [done|].
    simpl in *. by rewrite Hr.
  - change (String a ds ++ rest)%string with (String a (ds ++ rest)%string).
    simpl in *. apply Forall_cons in Hd as [Ha Hd]. by rewrite Ha, IH.
Qed.

Lemma skip_digits_inv s :
  exists ds, Forall (fun a => Str.is_digit a = true) (list_ascii_of_string ds) /\
             s = (ds ++ skip_digits s)%string /\ stops (skip_digits s).
Proof.
  induction s as [|a s (ds & Hd & Hs & Hstop)].
  - by exists "".
  - simpl. destruct (Str.is_digit a) eqn:Ha.
    + exists (String a ds). split; [by constructor|]. split; [|done].
      change (String a ds ++ skip_digits s)%string
        with (String a (ds ++ skip_digits s)%string). by rewrite <- Hs.
    + exists "". split; [constructor|]. split; [done|]. simpl. done.
Qed.

Lemma digits_app ds rest :
  numeral ds -> stops rest -> digits (ds ++ rest)%string = Some rest.
Proof.
  intros [Hne Hd] Hr. destruct ds as [|a ds]; [done|].
  change (String a ds ++ rest)%string with (String a (ds ++ rest)%string).
  simpl in *. apply Forall_cons in Hd as [Ha Hd]. by rewrite Ha, skip_digits_app.
Qed.

Lemma digits_inv s rest :
  digits s = Some rest -> exists ds, numeral ds /\ s = (ds ++ rest)%string /\ stops rest.
Proof.
  destruct s as [|a s]; [done|]. simpl. destruct (Str.is_digit a) eqn:Ha; [|done].
  intros [= <-]. destruct (skip_digits_inv s) as (ds & Hd & Hs & Hstop).
  exists (String a ds). split; [split; [done | by constructor]|]. split; [|done].
  change (String a ds ++ skip_digits s)%string
    with (String a (ds ++ skip_digits s)%string). by rewrite <- Hs.
Qed.

Lemma dot_inv s rest : dot s = Some rest -> s = String "." rest.
Proof.
  destruct s as [|a s]; [done|]. simpl.
  destruct a as [[] [] [] [] [] [] [] []]; try done. by intros [= ->].
Qed.

(** The version of a record passes the schema exactly when it is three
    runs of decimal digits, none of them empty, with a dot between them. *)
Theorem version_format (s : string) :
  is_version s = true <->
  exists major minor patch,
    numeral major /\ numeral minor /\ numeral patch /\
    s = (major ++ "." ++ minor ++ "." ++ patch)%string.
Proof.
  unfold is_version. split.
  - destruct (digits s) as [r1|] eqn:E1; [|done]. cbn [mbind option_bind].
    destruct (dot r1) as [r2|] eqn:E2; [|done]. cbn [mbind option_bind].
    destruct (digits r2) as [r3|] eqn:E3; [|done]. cbn [mbind option_bind].
    destruct (dot r3) as [r4|] eqn:E4; [|done]. cbn [mbind option_bind].
    destruct (digits r4) as [r5|] eqn:E5; [|done].
    destruct r5; [|done]. intros _.
    apply digits_inv in E1 as (major & H1 & -> & _).
    apply dot_inv in E2 as ->.
    apply digits_inv in E3 as (minor & H3 & -> & _).
    apply dot_inv in E4 as ->.
    apply digits_inv in E5 as (patch & H5 & -> & _).
    exists major, minor, patch. repeat split; try done; try apply H1; try apply H3;
      try apply H5.
    assert (patch ++ "" = patch)%string as ->; [|done].
    clear. induction patch as [|a p IH]; [done|].
    change (String a p ++ "")%string with (String a (p ++ "")%string). by rewrite IH.
  - intros (major & minor & patch & H1 & H2 & H3 & ->).
    rewrite (digits_app major) by done. cbn [mbind option_bind dot].
    change (("." ++ minor ++ "." ++ patch)%string)
      with (String "." (minor ++ "." ++ patch)%string). cbn [dot mbind option_bind].
    rewrite (digits_app minor) by done. cbn [mbind option_bind].
    change (("." ++ patch)%string) with (String "." patch). cbn [dot mbind option_bind].
    assert (digits patch = Some "") as ->; [|done].
    assert (patch = patch ++ "")%string as E.
    { clear. induction patch as [|a p IH]; [done|].
      change (String a p ++ "")%string with (String a (p ++ "")%string).
      by rewrite <- IH. }
    rewrite E at 1. by apply digits_app.
Qed.

End VersionFacts.


(* ===================================================================== *)
(** ** The programs that write files, on the disk *)
(* ===================================================================== *)

Module ScriptFacts.
Import Effects FsEffects DiskSpec.

Lemma script_bind {W A B} (h : Handler W) (p : Script A) (f : A -> Script B) (w : W) :
  run h (bind p f) w
  = match run h p w with
    | (inr a, w') => run h (f a) w'
    | (inl e, w') => (inl e, w')
    end.
Proof.
  revert w. induction p as [a|e|R c k IH]; intros w; simpl; try reflexivity.
  destruct (h R c w) as [r w']. apply IH.
Qed.

Lemma script_mbind {W A B} (h : Handler W) (p : Script A) (f : A -> Script B) (w : W) :
  run h (p ≫= f) w
  = match run h p w with
    | (inr a, w') => run h (f a) w'
    | (inl e, w') => (inl e, w')
    end.
Proof. apply script_bind. Qed.

Lemma script_catch {W A} (h : Handler W) (p : Script A) (handle : Exn -> Script A) (w : W) :
  run h (catch p handle) w
  = match run h p w with
    | (inr a, w') => (inr a, w')
    | (inl e, w') => run h (handle e) w'
    end.
Proof.
  revert w. induction p as [a|e|R c k IH]; intros w; simpl; try reflexivity.
  destruct (h R c w) as [r w']. apply IH.
Qed.

Lemma run_ask {W R} (h : Handler W) (c : Call R) (w : W) :
  run h (ask c) w = (inr (h R c w).1, (h R c w).2).
Proof. unfold ask. simpl. by destruct (h R c w). Qed.

Lemma run_fsCall {W} (h : Handler W) (c : FsCmd (Exn + unit)) (w : W) :
  run h (fsCall c) w
  = match h _ (Fs c) w with
    | (inl e, w') => (inl e, w')
    | (inr u, w') => (inr u, w')
    end.
Proof.
  unfold fsCall. rewrite script_mbind, run_ask.
  destruct (h _ (Fs c) w) as [[e|u] w']; reflexivity.
Qed.

(** *** Programs of [Effects] on the disk *)

Lemma quiet_bind {A B} (p : Prog A) (f : A -> Prog B) :
  quiet p -> (forall a, quiet (f a)) -> quiet (p ≫= f).
Proof.
  intros Hp Hf. change (quiet (Effects.bind p f)).
  induction p as [a|e|R c k IH]; simpl in *; [apply Hf | done |].
  destruct Hp as [Hc Hk]. split; [done|]. intros r. apply IH, Hk.
Qed.

Lemma quiet_catch {A} (p : Prog A) (handle : Exn -> Prog A) :
  quiet p -> (forall e, quiet (handle e)) -> quiet (Effects.catch p handle).
Proof.
  intros Hp Hh. induction p as [a|e|R c k IH]; simpl in *; [done | apply Hh |].
  destruct Hp as [Hc Hk]. split; [done|]. intros r. apply IH, Hk.
Qed.

Lemma quiet_execFileSync args input cwd : quiet (execFileSync args input cwd).
Proof.
  unfold execFileSync. apply quiet_bind; [by split|]. by intros [e|out].
Qed.

Lemma quiet_getWorkspaceRoot : quiet GitHooks.getWorkspaceRoot.
Proof.
  unfold GitHooks.getWorkspaceRoot. apply quiet_bind; [by split|]. intros cursor.
  destruct (GitNotes.nonempty cursor); [done|].
  apply quiet_bind; [by split|]. intros claude.
  destruct (GitNotes.nonempty claude); [done|].
  apply quiet_catch; [|by split].
  apply quiet_bind; [apply quiet_execFileSync | done].
Qed.

Lemma quiet_exec_unit args input cwd :
  quiet (_ ← execFileSync args input cwd; Ret tt).
Proof. apply quiet_bind; [apply quiet_execFileSync | done]. Qed.

Lemma quiet_ensureNotesRef cwd : quiet (GitNotes.ensureNotesRef cwd).
Proof.
  unfold GitNotes.ensureNotesRef, ignoring.
  apply quiet_bind; [|intros _].
  - apply quiet_catch; [|done].
    apply quiet_bind; [apply quiet_execFileSync|]. intros _.
    apply quiet_catch; [apply quiet_exec_unit|]. intros _.
    apply quiet_catch; [apply quiet_exec_unit | done].
  - apply quiet_catch; [apply quiet_exec_unit|]. intros _.
    apply quiet_catch.
    + apply quiet_bind; [apply quiet_execFileSync|]. intros _.
      apply quiet_bind; [apply quiet_execFileSync|]. intros _.
      apply quiet_exec_unit.
    + intros _. apply quiet_bind; [apply quiet_execFileSync|]. intros tree.
      destruct (negb _); [apply quiet_exec_unit | done].
Qed.

Section WithJson.

Variables is_uuid is_datetime is_url : string -> bool.
Variable JSON_parse : string -> option json.
Variable JSON_stringify : json -> string.

Lemma quiet_parseRecords records :
  quiet (GitNotes.parseRecords is_uuid is_datetime is_url records).
Proof.
  induction records as [|v vs IH]; cbn [GitNotes.parseRecords]; [done|].
  destruct (GitNotes.TraceRecordSchema _ _ _ v).
  - apply quiet_bind; [done | by intros].
  - apply quiet_bind; [by split | by intros].
Qed.

Lemma quiet_read commitSha cwd :
  quiet (GitNotes.readTracesFromNotes is_uuid is_datetime is_url JSON_parse commitSha cwd).
Proof.
  unfold GitNotes.readTracesFromNotes. apply quiet_catch.
  - apply quiet_bind; [apply quiet_execFileSync|]. intros out.
    destruct (String.eqb _ _); [done|].
    destruct (JSON_parse _); [apply quiet_parseRecords | done].
  - intros e. by destruct (GitNotes.note_not_found e).
Qed.

Lemma quiet_write commitSha traces cwd :
  quiet (GitNotes.writeTracesToNotes is_uuid is_datetime is_url JSON_parse JSON_stringify
                                     commitSha traces cwd).
Proof.
  unfold GitNotes.writeTracesToNotes. destruct (length traces =? 0)%nat; [done|].
  apply quiet_bind; [apply quiet_catch; [apply quiet_read | done]|]. intros existing.
  apply quiet_bind.
  { apply quiet_catch; [apply quiet_ensureNotesRef|]. intros _.
    apply quiet_catch; [|done].
    apply quiet_bind; [apply quiet_execFileSync|]. intros _. apply quiet_ensureNotesRef. }
  intros _. apply quiet_bind; [by split|]. intros proc.
  destruct (GitNotes.status_ok proc); [done|].
  apply quiet_bind.
  { destruct (Str.includes _ _); [|done].
    apply quiet_catch; [|done].
    apply quiet_bind; [apply quiet_execFileSync|]. intros _.
    apply quiet_bind; [apply quiet_ensureNotesRef|]. intros _.
    apply quiet_bind; [by split | done]. }
  intros ok. by destruct ok.
Qed.

End WithJson.

(** A program that asks for no [existsSync] runs on the disk as on its
    repository. *)
Lemma exec_lift_quiet {A} (p : Prog A) (d : Disk.World) :
  quiet p ->
  Disk.exec (lift p) d
  = ((Repo.exec p (Disk.repo d)).1, Disk.with_repo d (Repo.exec p (Disk.repo d)).2).
Proof.
  unfold Disk.exec, Repo.exec. revert d.
  induction p as [a|e|R c k IH]; intros d Hq;
    cbn [lift run Effects.run quiet fst snd] in *.
  - by destruct d.
  - by destruct d.
  - destruct Hq as [Hc Hk].
    assert (E : Disk.handler R (Base c) d = Disk.on_repo c d) by (by destruct c).
    rewrite E. unfold Disk.on_repo.
    destruct (Repo.handler R c (Disk.repo d)) as [r w']. cbn [fst snd].
    rewrite (IH r (Disk.with_repo d w') (Hk r)). reflexivity.
Qed.

End ScriptFacts.

Module AppendFacts.
Import Effects FsEffects DiskSpec ScriptFacts StoreSpec WorldFacts StoreFacts RepairSpec
       RepairFacts WriteFacts.

Section WithJson.

Variables is_uuid is_datetime is_url : string -> bool.
Variable JSON_parse : string -> option json.
Variable JSON_stringify : json -> string.
Variable JSON_stringify_line : json -> string.

#[local] Abbreviation appendTrace :=
  (TraceStoreIO.appendTrace is_uuid is_datetime is_url JSON_parse JSON_stringify
                            JSON_stringify_line).
#[local] Abbreviation stagingLine := (TraceStoreIO.stagingLine JSON_stringify_line).
#[local] Abbreviation write :=
  (GitNotes.writeTracesToNotes is_uuid is_datetime is_url JSON_parse JSON_stringify).
#[local] Abbreviation noteAfterWrite :=
  (noteAfterWrite is_uuid is_datetime is_url JSON_parse JSON_stringify).
#[local] Abbreviation invalidValues :=
  (invalidValues is_uuid is_datetime is_url JSON_parse).

Lemma exec_rev_parse_HEAD (w : Repo.World) cwd :
  Repo.exec (execFileSync ["rev-parse"; "HEAD"] None cwd) w
  = match Repo.HEAD w with
    | Some sha => (inr (Repo.line_of sha), w)
    | None => (inl (ExecFailed (Repo.failed 128)), w)
    end.
Proof.
  unfold Repo.exec. rewrite ProgFacts.run_execFileSync.
  cbn [Repo.handler Repo.git]. by destruct (Repo.HEAD w).
Qed.

(** The [catch] of [appendTrace]: the record goes to the staging buffer. *)
Lemma exec_stage (root : string) (d : Disk.World) (trace : TraceRecord) :
  Disk.exec
    (present ← existsSync (GitHooks.join root ".agent-trace");
     (if negb present then mkdirSync (GitHooks.join root ".agent-trace") else Done tt);;
     appendFileSync (GitHooks.join root GitHooks.STAGING_PATH) (stagingLine trace)) d
  = (inr tt, staged root d (stagingLine trace)).
Proof.
  unfold Disk.exec, staged. cbv zeta.
  rewrite script_mbind. unfold existsSync. rewrite run_ask.
  cbn [Disk.handler fst snd].
  change (bool_decide (is_Some (Repo.fs (Disk.repo d) !! GitHooks.join root ".agent-trace"))
          || bool_decide (GitHooks.join root ".agent-trace" ∈ Disk.dirs d))
    with (present d (GitHooks.join root ".agent-trace")).
  rewrite script_mbind.
  destruct (present d (GitHooks.join root ".agent-trace")) eqn:Hp; cbn [negb].
  - cbn [run]. unfold appendFileSync. rewrite run_fsCall.
    cbn [Disk.handler fst snd]. by destruct d.
  - unfold mkdirSync. rewrite run_fsCall. cbn [Disk.handler fst snd].
    unfold appendFileSync. by rewrite run_fsCall.
Qed.

(** [appendTrace] up to its [try]. *)
Lemma exec_appendTrace (d : Disk.World) (trace : TraceRecord) :
  let w := Disk.repo d in
  let d1 := Disk.with_repo d (repaired w) in
  Disk.exec (appendTrace trace) d
  = match Repo.HEAD w with
    | Some head =>
        match Repo.exec (write (Str.trim (Repo.line_of head)) [trace]
                               (Some (workspaceRoot w))) (repaired w) with
        | (inr u, w') => (inr u, Disk.with_repo d w')
        | (inl _, w') => (inr tt, staged (workspaceRoot w) (Disk.with_repo d w') (stagingLine trace))
        end
    | None => (inr tt, staged (workspaceRoot w) d1 (stagingLine trace))
    end.
Proof.
  intros w d1. unfold TraceStoreIO.appendTrace, Disk.exec.
  rewrite script_mbind.
  pose proof (exec_lift_quiet _ d quiet_getWorkspaceRoot) as E.
  unfold Disk.exec in E. rewrite E, exec_getWorkspaceRoot. clear E. cbn [fst snd].
  fold w. assert (Disk.with_repo d w = d) as -> by (by destruct d).
  rewrite script_mbind.
  pose proof (exec_lift_quiet _ d (quiet_ensureNotesRef (Some (workspaceRoot w)))) as E.
  unfold Disk.exec in E. rewrite E. fold w. rewrite exec_ensureNotesRef. clear E.
  cbn [fst snd]. fold d1. rewrite script_catch, script_mbind.
  pose proof (exec_lift_quiet _ d1
                (quiet_execFileSync ["rev-parse"; "HEAD"] None (Some (workspaceRoot w)))) as E.
  unfold Disk.exec in E. rewrite E. clear E.
  change (Disk.repo d1) with (repaired w). rewrite exec_rev_parse_HEAD.
  change (Repo.HEAD (repaired w)) with (Repo.HEAD w).
  destruct (Repo.HEAD w) as [head|] eqn:Hhead; cbn [fst snd].
  - assert (Disk.with_repo d1 (repaired w) = d1) as -> by reflexivity.
    unfold NotesQueries.appendTraceToNotes.
    pose proof (exec_lift_quiet _ d1
                  (quiet_write is_uuid is_datetime is_url JSON_parse JSON_stringify
                     (Str.trim (Repo.line_of head)) [trace] (Some (workspaceRoot w)))) as E.
    unfold Disk.exec in E. rewrite E. clear E.
    change (Disk.repo d1) with (repaired w).
    destruct (Repo.exec _ (repaired w)) as [[e|[]] w'] eqn:Ew; cbn [fst snd].
    + change (Disk.with_repo d1 w') with (Disk.with_repo d w').
      apply (exec_stage (workspaceRoot w) (Disk.with_repo d w') trace).
    + reflexivity.
  - assert (Disk.with_repo d1 (repaired w) = d1) as -> by reflexivity.
    apply (exec_stage (workspaceRoot w) d1 trace).
Qed.

(** [appendTrace] on the model disk.  It ends without an error.  With a
    commit at [HEAD] and a notes ref that is in order, or that
    [ensureNotesRef] puts in order, the record goes to the note of that
    commit, by the write of the notes store, and no file is touched.  With
    a commit at [HEAD] and a notes ref that names the empty tree, git
    refuses the note, the write throws, and the record becomes the new last
    line of the staging buffer.  Without a commit at [HEAD] the record
    becomes the new last line of the staging buffer, whose directory is
    made when it is not there, no note is written, and a notes ref that was
    not in order is left bound to the empty tree. *)
Theorem appendTrace_stores (d : Disk.World) (trace : TraceRecord) :
  let w := Disk.repo d in
  let d' := (Disk.exec (appendTrace trace) d).2 in
  let buffer :=
    <[stagingPath w := (default "" (Repo.fs w !! stagingPath w)
                        ++ stagingLine trace)%string]> (Repo.fs w) in
  (Disk.exec (appendTrace trace) d).1 = inr tt /\
  (forall sha,
     Repo.HEAD w = Some sha -> Str.trim (Repo.line_of sha) = sha -> writable w ->
     Repo.notes (Disk.repo d') !! sha = Some (noteAfterWrite (repaired w) sha [trace]) /\
     Repo.fs (Disk.repo d') = Repo.fs w /\ Disk.dirs d' = Disk.dirs d) /\
  (forall sha,
     Repo.HEAD w = Some sha -> Str.trim (Repo.line_of sha) = sha -> ~ writable w ->
     Repo.fs (Disk.repo d') = buffer /\
     Repo.notes_ref (Disk.repo d') = Repo.TreeRef /\
     Repo.notes (Disk.repo d') = repairedNotes w /\
     Disk.dirs d' = if present d (stagingDir w) then Disk.dirs d
                    else {[stagingDir w]} ∪ Disk.dirs d) /\
  (Repo.HEAD w = None ->
     Repo.fs (Disk.repo d') = buffer /\
     Repo.notes (Disk.repo d') = repairedNotes w /\
     (Repo.notes_ref w <> Repo.GoodRef ->
        Repo.notes_ref (Disk.repo d') = Repo.TreeRef) /\
     Disk.dirs d' = if present d (stagingDir w) then Disk.dirs d
                    else {[stagingDir w]} ∪ Disk.dirs d).
Proof.
  intros w d' buffer. unfold d', buffer. clear d' buffer.
  rewrite (exec_appendTrace d trace). fold w.
  split; [|split; [|split]].
  - destruct (Repo.HEAD w) as [head|]; [|done].
    by destruct (Repo.exec _ (repaired w)) as [[e|[]] w'].
  - intros sha Hhead Htrim Hw. rewrite Hhead, Htrim.
    assert (Hw1 : writable (repaired w)).
    { apply writable_repaired in Hw. unfold writable, repaired.
      cbn [Repo.notes_ref Repo.with_notes]. by rewrite Hw. }
    rewrite (exec_write is_uuid is_datetime is_url JSON_parse JSON_stringify
               (repaired w) sha sha [trace] _ Hw1)
      by (done || by apply resolve_HEAD).
    cbn [fst snd Disk.repo Disk.with_repo Repo.notes Repo.with_notes Repo.fs Disk.dirs].
    split; [by rewrite lookup_insert_eq|]. split; reflexivity.
  - intros sha Hhead Htrim Hw. rewrite Hhead, Htrim.
    assert (Hw1 : ~ writable (repaired w)).
    { apply not_writable_repaired in Hw. unfold writable, repaired.
      cbn [Repo.notes_ref Repo.with_notes]. rewrite Hw. by intros []. }
    rewrite (exec_write_blocked is_uuid is_datetime is_url JSON_parse JSON_stringify
               (repaired w) sha sha [trace] _ Hw1)
      by (done || by apply resolve_HEAD).
    rewrite repaired_again.
    cbn [fst snd staged Disk.repo Disk.with_repo Repo.notes Repo.notes_ref Repo.with_notes
         Repo.with_fs Repo.fs repaired].
    split; [done|]. split; [by apply not_writable_repaired|]. done.
  - intros Hhead. rewrite Hhead.
    cbn [fst snd staged Disk.repo Disk.with_repo Repo.notes Repo.notes_ref Repo.with_notes
         Repo.with_fs Repo.fs repaired Disk.dirs].
    split; [done|]. split; [done|]. split; [|done].
    intros Hg. apply not_writable_repaired. unfold writable. rewrite Hhead.
    destruct (Repo.notes_ref w);
      first [done | by intros (head & ? & _) | by intros [? ?] | by intros []].
Qed.

End WithJson.
End AppendFacts.

Module DrainFacts.
Import Effects FsEffects DiskSpec ScriptFacts StoreSpec WorldFacts StoreFacts RepairSpec
       RepairFacts WriteFacts Valid ValidFacts AppendFacts.

Lemma run_lift_bind {W A B} (h : Handler W) (p : Prog A) (f : A -> Prog B) (w : W) :
  run h (lift (p ≫= f)) w
  = match run h (lift p) w with
    | (inr a, w') => run h (lift (f a)) w'
    | (inl e, w') => (inl e, w')
    end.
Proof.
  change (p ≫= f) with (Effects.bind p f). revert w.
  induction p as [a|e|R c k IH]; intros w; simpl; [done | done |].
  destruct (h R (Base c) w) as [r w']. apply IH.
Qed.

Lemma quiet_readFileSync p : quiet (readFileSync p).
Proof. unfold readFileSync. apply quiet_bind; [by split|]. by intros [e|s]. Qed.

Lemma quiet_unlinkSync p : quiet (unlinkSync p).
Proof. unfold unlinkSync. apply quiet_bind; [by split|]. by intros [e|s]. Qed.

Section WithJson.

Variables is_uuid is_datetime is_url : string -> bool.
Variable JSON_parse : string -> option json.
Variable JSON_stringify : json -> string.
Variable JSON_stringify_line : json -> string.

#[local] Abbreviation Schema := (GitNotes.TraceRecordSchema is_uuid is_datetime is_url).
#[local] Abbreviation validRecord := (validRecord is_uuid is_datetime is_url).
#[local] Abbreviation appendTrace :=
  (TraceStoreIO.appendTrace is_uuid is_datetime is_url JSON_parse JSON_stringify
                            JSON_stringify_line).
#[local] Abbreviation stagingLine := (TraceStoreIO.stagingLine JSON_stringify_line).
#[local] Abbreviation attachStagingTraces :=
  (GitHooks.attachStagingTraces is_uuid is_datetime is_url JSON_parse JSON_stringify).
#[local] Abbreviation stagedRecords :=
  (stagedRecords is_uuid is_datetime is_url JSON_parse).
#[local] Abbreviation malformedLines :=
  (malformedLines is_uuid is_datetime is_url JSON_parse).
#[local] Abbreviation noteAfterWrite :=
  (noteAfterWrite is_uuid is_datetime is_url JSON_parse JSON_stringify).
#[local] Abbreviation invalidValues :=
  (invalidValues is_uuid is_datetime is_url JSON_parse).
#[local] Abbreviation read :=
  (GitNotes.readTracesFromNotes is_uuid is_datetime is_url JSON_parse).

Lemma quiet_parseStagingLines sha lines :
  quiet (GitHooks.parseStagingLines is_uuid is_datetime is_url JSON_parse sha lines).
Proof.
  induction lines as [|l ls IH]; cbn [GitHooks.parseStagingLines]; [done|].
  destruct (GitHooks.parseStagingLine _ _ _ _ sha l).
  - apply quiet_bind; [done | by intros].
  - apply quiet_bind; [by split | by intros].
Qed.

Lemma repaired_warn w messages : repaired (warn w messages) = warn (repaired w) messages.
Proof. reflexivity. Qed.

Lemma repairedNotes_again w : repairedNotes (repaired w) = repairedNotes w.
Proof. exact (f_equal Repo.notes (repaired_again w)). Qed.

(** The drain on a repository with a buffer of which a line parses, when a
    note can be written. *)
Lemma exec_attach_drains (w : Repo.World) (sha content : string) :
  let staged := stagedRecords sha content in
  writable w ->
  Repo.fs w !! stagingPath w = Some content ->
  Repo.HEAD w = Some sha ->
  Str.trim (Repo.line_of sha) = sha ->
  staged <> [] ->
  Repo.exec attachStagingTraces w
  = (inr tt,
     Repo.with_fs
       (Repo.with_notes
          (warn (repaired w)
                (repeat STAGING_WARNING (length (malformedLines sha content))
                 ++ repeat RECORD_WARNING (length (invalidValues (repaired w) sha))))
          Repo.GoodRef
          (<[sha := noteAfterWrite (repaired w) sha staged]> (repairedNotes w)))
       (delete (stagingPath w) (Repo.fs w))).
Proof.
  intros staged Hw Hfs Hhead Htrim Hne.
  unfold GitHooks.attachStagingTraces, Repo.exec.
  rewrite ProgFacts.run_mbind.
  pose proof (exec_getWorkspaceRoot w) as E. unfold Repo.exec in E. rewrite E. clear E.
  fold (stagingPath w).
  rewrite ProgFacts.run_mbind, ProgFacts.run_call. cbn [Repo.handler fst snd]. rewrite Hfs.
  rewrite bool_decide_true by (by eexists). cbn [negb].
  rewrite ProgFacts.run_mbind.
  pose proof (exec_ensureNotesRef w (Some (workspaceRoot w))) as E.
  unfold Repo.exec in E. rewrite E. clear E.
  rewrite ProgFacts.run_mbind, ProgFacts.run_call. cbn [Repo.handler Repo.git fst snd].
  change (Repo.HEAD (repaired w)) with (Repo.HEAD w). rewrite Hhead.
  cbn [fst snd]. rewrite Htrim. unfold readFileSync.
  rewrite !ProgFacts.run_mbind, ProgFacts.run_call. cbn [Repo.handler fst snd Effects.run].
  change (Repo.fs (repaired w)) with (Repo.fs w). rewrite Hfs. cbn [fst snd Effects.run].
  rewrite ProgFacts.run_mbind.
  pose proof (exec_parseStagingLines is_uuid is_datetime is_url JSON_parse
                sha (GitHooks.stagingLines content) (repaired w)) as E.
  unfold Repo.exec in E. rewrite E. clear E.
  change (omap _ (GitHooks.stagingLines content)) with staged.
  change (List.filter _ (GitHooks.stagingLines content)) with (malformedLines sha content).
  set (w1 := warn (repaired w) _).
  destruct staged as [|t ts] eqn:Est; [done|]. cbn [length Nat.ltb Nat.leb].
  rewrite ProgFacts.run_mbind.
  pose proof (exec_getWorkspaceRoot w1) as E. unfold Repo.exec in E. rewrite E. clear E.
  rewrite ProgFacts.run_mbind.
  assert (Hr : Repo.resolve w1 sha = Some sha) by (by apply resolve_HEAD).
  assert (Hw1 : writable w1).
  { apply writable_repaired in Hw. unfold writable, w1, warn, repaired.
    cbn [Repo.notes_ref Repo.with_notes Repo.with_console]. by rewrite Hw. }
  pose proof (exec_write is_uuid is_datetime is_url JSON_parse JSON_stringify
                w1 sha sha (t :: ts) (Some (workspaceRoot w1)) Hw1 Hr) as E.
  unfold Repo.exec in E. rewrite E by done. clear E.
  unfold unlinkSync. rewrite ProgFacts.run_mbind, ProgFacts.run_call.
  cbn [Repo.handler fst snd].
  change (Repo.fs (Repo.with_notes _ _ _)) with (Repo.fs w). rewrite Hfs.
  cbn [fst snd Effects.run]. f_equal. unfold w1. rewrite warn_warn.
  change (repairedNotes (warn (repaired w) _)) with (repairedNotes (repaired w)).
  by rewrite repairedNotes_again.
Qed.

(** The drain on a repository with a buffer of which a line parses, when
    the notes ref names, or ends up naming, the empty tree: the write
    throws and the buffer is kept. *)
Lemma exec_attach_blocked (w : Repo.World) (sha content : string) :
  ~ writable w ->
  Repo.fs w !! stagingPath w = Some content ->
  Repo.HEAD w = Some sha ->
  Str.trim (Repo.line_of sha) = sha ->
  stagedRecords sha content <> [] ->
  Repo.exec attachStagingTraces w
  = (inl blocked,
     warn (repaired w) (repeat STAGING_WARNING (length (malformedLines sha content)))).
Proof.
  intros Hw Hfs Hhead Htrim Hne.
  unfold GitHooks.attachStagingTraces, Repo.exec.
  rewrite ProgFacts.run_mbind.
  pose proof (exec_getWorkspaceRoot w) as E. unfold Repo.exec in E. rewrite E. clear E.
  fold (stagingPath w).
  rewrite ProgFacts.run_mbind, ProgFacts.run_call. cbn [Repo.handler fst snd]. rewrite Hfs.
  rewrite bool_decide_true by (by eexists). cbn [negb].
  rewrite ProgFacts.run_mbind.
  pose proof (exec_ensureNotesRef w (Some (workspaceRoot w))) as E.
  unfold Repo.exec in E. rewrite E. clear E.
  rewrite ProgFacts.run_mbind, ProgFacts.run_call. cbn [Repo.handler Repo.git fst snd].
  change (Repo.HEAD (repaired w)) with (Repo.HEAD w). rewrite Hhead.
  cbn [fst snd]. rewrite Htrim. unfold readFileSync.
  rewrite !ProgFacts.run_mbind, ProgFacts.run_call. cbn [Repo.handler fst snd Effects.run].
  change (Repo.fs (repaired w)) with (Repo.fs w). rewrite Hfs. cbn [fst snd Effects.run].
  rewrite ProgFacts.run_mbind.
  pose proof (exec_parseStagingLines is_uuid is_datetime is_url JSON_parse
                sha (GitHooks.stagingLines content) (repaired w)) as E.
  unfold Repo.exec in E. rewrite E. clear E.
  change (omap _ (GitHooks.stagingLines content)) with (stagedRecords sha content).
  change (List.filter _ (GitHooks.stagingLines content)) with (malformedLines sha content).
  set (w1 := warn (repaired w) _).
  destruct (stagedRecords sha content) as [|t ts] eqn:Est; [done|].
  cbn [length Nat.ltb Nat.leb].
  rewrite ProgFacts.run_mbind.
  pose proof (exec_getWorkspaceRoot w1) as E. unfold Repo.exec in E. rewrite E. clear E.
  rewrite ProgFacts.run_mbind.
  assert (Hr : Repo.resolve w1 sha = Some sha) by (by apply resolve_HEAD).
  assert (Hw1 : ~ writable w1).
  { apply not_writable_repaired in Hw. unfold writable, w1, warn, repaired.
    cbn [Repo.notes_ref Repo.with_notes Repo.with_console]. rewrite Hw. by intros []. }
  pose proof (exec_write_blocked is_uuid is_datetime is_url JSON_parse JSON_stringify
                w1 sha sha (t :: ts) (Some (workspaceRoot w1)) Hw1 Hr) as E.
  unfold Repo.exec in E. rewrite E by done. clear E.
  unfold w1. by rewrite repaired_warn, repaired_again.
Qed.

(** On a disk where the buffer is a file, the drain runs as on the
    repository. *)
Lemma exec_lift_attach (d : Disk.World) (content : string) :
  Repo.fs (Disk.repo d) !! stagingPath (Disk.repo d) = Some content ->
  Disk.exec (lift attachStagingTraces) d
  = ((Repo.exec attachStagingTraces (Disk.repo d)).1,
     Disk.with_repo d (Repo.exec attachStagingTraces (Disk.repo d)).2).
Proof.
  intros Hfs. set (w := Disk.repo d) in *.
  unfold GitHooks.attachStagingTraces, Disk.exec, Repo.exec.
  rewrite run_lift_bind, ProgFacts.run_mbind.
  pose proof (exec_lift_quiet _ d quiet_getWorkspaceRoot) as E.
  unfold Disk.exec, Repo.exec in E. rewrite E. clear E. fold w.
  pose proof (exec_getWorkspaceRoot w) as E. unfold Repo.exec in E. rewrite E. clear E.
  cbn [fst snd]. assert (Disk.with_repo d w = d) as -> by (by destruct d).
  fold (stagingPath w).
  rewrite run_lift_bind, ProgFacts.run_mbind, ProgFacts.run_call.
  cbn [lift call run Disk.handler Repo.handler fst snd]. fold w. rewrite Hfs.
  rewrite bool_decide_true by (by eexists). cbn [orb negb fst snd].
  match goal with
  | |- run Disk.handler (lift ?p) d = _ =>
      assert (Hq : quiet p); [|pose proof (exec_lift_quiet p d Hq) as E]
  end.
  { apply quiet_bind; [apply quiet_ensureNotesRef|]. intros _.
    apply quiet_bind; [by split|]. intros [e|out]; [done|].
    apply quiet_bind; [apply quiet_readFileSync|]. intros text.
    apply quiet_bind; [apply quiet_parseStagingLines|]. intros traces.
    destruct (0 <? length traces)%nat; [|done].
    apply quiet_bind; [apply quiet_getWorkspaceRoot|]. intros root.
    apply quiet_bind; [apply quiet_write|]. intros _. apply quiet_unlinkSync. }
  unfold Disk.exec, Repo.exec in E. rewrite E. reflexivity.
Qed.

End WithJson.
End DrainFacts.

Module BufferFacts.
Import Effects FsEffects DiskSpec ScriptFacts StoreSpec WorldFacts StoreFacts RepairSpec
       RepairFacts WriteFacts Valid ValidFacts AppendFacts DrainFacts.

Section WithJson.

Variables is_uuid is_datetime is_url : string -> bool.
Variable JSON_parse : string -> option json.
Variable JSON_stringify : json -> string.
Variable JSON_stringify_line : json -> string.

#[local] Abbreviation validRecord := (validRecord is_uuid is_datetime is_url).
#[local] Abbreviation appendTrace :=
  (TraceStoreIO.appendTrace is_uuid is_datetime is_url JSON_parse JSON_stringify
                            JSON_stringify_line).
#[local] Abbreviation stagingLine := (TraceStoreIO.stagingLine JSON_stringify_line).
#[local] Abbreviation attachStagingTraces :=
  (GitHooks.attachStagingTraces is_uuid is_datetime is_url JSON_parse JSON_stringify).
#[local] Abbreviation stagedRecords :=
  (stagedRecords is_uuid is_datetime is_url JSON_parse).
#[local] Abbreviation read :=
  (GitNotes.readTracesFromNotes is_uuid is_datetime is_url JSON_parse).

(** A record staged before the first commit does not reach that commit by
    the drain.  On a repository without a commit, whose notes ref is not in
    order, and without a staging buffer, [appendTrace] stages the record
    and leaves the notes ref bound to the empty tree.  Once [sha] is
    committed, [attachStagingTraces] finds the record in the buffer, git
    refuses the note, and the drain throws "Failed to write git note: ...":
    the buffer is kept with the record, the notes ref still names the empty
    tree, and a read of the commit returns no record.  The record is valid
    for the schema and its line is read back as it, so that the drain has a
    record to write. *)
Theorem staged_record_is_stuck (d : Disk.World) (trace : TraceRecord)
    (sha text : string) :
  let w := Disk.repo d in
  let staged := (Disk.exec (appendTrace trace) d).2 in
  let drained :=
    Disk.exec (lift attachStagingTraces)
              (Disk.with_repo staged (committed sha (Disk.repo staged))) in
  Repo.HEAD w = None ->
  Repo.notes_ref w <> Repo.GoodRef ->
  Repo.fs w !! stagingPath w = None ->
  Str.trim (Repo.line_of sha) = sha ->
  validRecord trace ->
  GitHooks.stagingLines (stagingLine trace) = [text] ->
  JSON_parse text = Some (Encode.of_TraceRecord trace) ->
  drained.1 = inl blocked /\
  Repo.fs (Disk.repo drained.2) !! stagingPath w = Some (stagingLine trace) /\
  Repo.notes_ref (Disk.repo drained.2) = Repo.TreeRef /\
  (Repo.exec (read sha None) (Disk.repo drained.2)).1 = inr [].
Proof.
  intros w staged drained Hhead Hg Hfs Htrim Hvalid Hline Hparse.
  unfold drained, staged. clear drained staged.
  rewrite (exec_appendTrace is_uuid is_datetime is_url JSON_parse JSON_stringify
             JSON_stringify_line d trace).
  fold w. rewrite Hhead. cbn [snd]. unfold DiskSpec.staged.
  cbn [Disk.repo Disk.with_repo]. change (Repo.fs (repaired w)) with (Repo.fs w).
  fold (stagingPath w). rewrite Hfs. cbn [default].
  change ("" ++ stagingLine trace)%string with (stagingLine trace).
  set (w1 := committed sha _). set (d1 := Disk.with_repo _ w1).
  assert (Hpath : stagingPath w1 = stagingPath w) by reflexivity.
  assert (Hfs1 : Repo.fs w1 !! stagingPath w1 = Some (stagingLine trace)).
  { rewrite Hpath. unfold w1. cbn [committed Repo.fs Repo.with_fs].
    by rewrite lookup_insert_eq. }
  assert (Hstaged : stagedRecords sha (stagingLine trace)
                    = [GitHooks.setRevision sha trace]).
  { unfold StoreSpec.stagedRecords. rewrite Hline. cbn [omap list_omap].
    unfold GitHooks.parseStagingLine. rewrite Hparse. cbn [mbind option_bind].
    unfold GitNotes.TraceRecordSchema.
    by rewrite (TraceRecordSchema_encoded is_uuid is_datetime is_url trace Hvalid). }
  assert (Htree : repairedRef w = Repo.TreeRef).
  { apply not_writable_repaired. unfold writable. rewrite Hhead.
    destruct (Repo.notes_ref w);
      first [done | by intros (head & ? & _) | by intros [? ?] | by intros []]. }
  assert (Hw1 : ~ writable w1).
  { unfold writable, w1. cbn [committed Repo.notes_ref Repo.with_fs repaired Repo.with_notes].
    rewrite Htree. by intros []. }
  rewrite (exec_lift_attach is_uuid is_datetime is_url JSON_parse JSON_stringify d1
             (stagingLine trace) Hfs1).
  change (Disk.repo d1) with w1.
  rewrite (exec_attach_blocked is_uuid is_datetime is_url JSON_parse JSON_stringify
             w1 sha (stagingLine trace) Hw1 Hfs1 eq_refl Htrim)
    by (by rewrite Hstaged).
  cbn [fst snd Disk.repo Disk.with_repo].
  assert (Hr1 : repairedRef w1 = Repo.TreeRef) by (by apply not_writable_repaired).
  split; [done|]. split; [|split].
  - rewrite <- Hpath. exact Hfs1.
  - cbn [warn Repo.with_console Repo.notes_ref repaired Repo.with_notes]. exact Hr1.
  - rewrite (exec_read_missing is_uuid is_datetime is_url JSON_parse); [done|].
    cbn [warn Repo.with_console Repo.notes_ref repaired Repo.with_notes]. by rewrite Hr1.
Qed.

End WithJson.
End BufferFacts.

Module HookInstallFacts.
Import Effects FsEffects DiskSpec ScriptFacts StoreSpec WorldFacts StrFacts.

#[local] Abbreviation installGitHook := GitHooksIO.installGitHook.

Lemma hookContent_marked : Str.includes GitHooksIO.hookContent "agent-trace" = true.
Proof. vm_compute. reflexivity. Qed.

Lemma exec_lift_readFileSync (d : Disk.World) (p : string) :
  Disk.exec (lift (readFileSync p)) d
  = match Repo.fs (Disk.repo d) !! p with
    | Some text => (inr text, d)
    | None => (inl (FsError "ENOENT"), d)
    end.
Proof.
  unfold Disk.exec, readFileSync.
  cbn [lift mbind Prog_bind Effects.bind call run Disk.handler Disk.on_repo Repo.handler].
  destruct d as [w dirs]. cbn [Disk.repo].
  by destruct (Repo.fs w !! p).
Qed.

Lemma prefix_refl (s : string) : String.prefix s s = true.
Proof. induction s as [|a s IH]; simpl; [done|]. by destruct (ascii_dec a a). Qed.

(** What a run of [installGitHook] does, by what is on the disk. *)
Lemma exec_installGitHook (d : Disk.World) :
  let w := Disk.repo d in
  Disk.exec installGitHook d
  = if negb (present d (hooksDir w)) then (inl (Error "Not in a git repository"), d)
    else if present d (hookPath w) then
      match Repo.fs w !! hookPath w with
      | Some existing =>
          if Str.includes existing "agent-trace" then (inr tt, d)
          else (inr tt,
                Disk.write_file d (hookPath w)
                  (existing ++ String Str.newline EmptyString
                   ++ GitHooksIO.hookContent)%string)
      | None => (inl (FsError "ENOENT"), d)
      end
    else (inr tt, Disk.write_file d (hookPath w) GitHooksIO.hookContent).
Proof.
  intros w. unfold GitHooksIO.installGitHook, Disk.exec.
  rewrite script_mbind.
  pose proof (exec_lift_quiet _ d quiet_getWorkspaceRoot) as E.
  unfold Disk.exec in E. rewrite E, exec_getWorkspaceRoot. clear E. cbn [fst snd].
  fold w. assert (Disk.with_repo d w = d) as -> by (by destruct d).
  fold (hooksDir w). fold (hookPath w).
  rewrite script_mbind. unfold existsSync. rewrite run_ask. cbn [Disk.handler fst snd].
  fold w. change (bool_decide _ || bool_decide _) with (present d (hooksDir w)).
  destruct (present d (hooksDir w)); cbn [negb]; [|done].
  rewrite script_mbind, run_ask. cbn [Disk.handler fst snd].
  fold w. change (bool_decide _ || bool_decide _) with (present d (hookPath w)).
  destruct (present d (hookPath w)).
  - rewrite script_mbind.
    pose proof (exec_lift_readFileSync d (hookPath w)) as E. unfold Disk.exec in E.
    rewrite E. clear E. fold w.
    destruct (Repo.fs w !! hookPath w) as [existing|]; [|done].
    destruct (Str.includes existing "agent-trace"); [done|].
    unfold writeFileSync. by rewrite run_fsCall.
  - unfold writeFileSync. by rewrite run_fsCall.
Qed.

Lemma present_write_file d p text q :
  present d q = true -> present (Disk.write_file d p text) q = true.
Proof.
  unfold present, Disk.write_file. cbn [Disk.repo Disk.with_repo Disk.dirs Repo.fs Repo.with_fs].
  intros [H|H]%orb_true_iff; apply orb_true_iff; [left|by right].
  apply bool_decide_eq_true. apply bool_decide_eq_true in H.
  apply lookup_insert_is_Some. destruct (decide (p = q)); auto.
Qed.

(** [installGitHook] outside a repository, and run twice.  Without the
    directory [.git/hooks] under the workspace root it throws "Not in a git
    repository" and writes nothing.  A run that ends without an error
    leaves a hook file that mentions agent-trace and begins with the text
    the file had before, touches no other file, and a second run then
    changes nothing. *)
Theorem installGitHook_once (d : Disk.World) :
  let w := Disk.repo d in
  let first := Disk.exec installGitHook d in
  (present d (hooksDir w) = false ->
   first = (inl (Error "Not in a git repository"), d)) /\
  (first.1 = inr tt ->
   (exists text,
      Repo.fs (Disk.repo first.2) !! hookPath w = Some text /\
      Str.includes text "agent-trace" = true /\
      String.prefix (default "" (Repo.fs w !! hookPath w)) text = true) /\
   (forall p, p <> hookPath w ->
      Repo.fs (Disk.repo first.2) !! p = Repo.fs w !! p) /\
   Disk.exec installGitHook first.2 = (inr tt, first.2)).
Proof.
  intros w first. unfold first. clear first. rewrite (exec_installGitHook d). fold w.
  split.
  { by intros ->. }
  destruct (present d (hooksDir w)) eqn:Hdir; cbn [negb fst snd]; [|done].
  destruct (present d (hookPath w)) eqn:Hhook.
  - destruct (Repo.fs w !! hookPath w) as [existing|] eqn:Hfs; [|done].
    destruct (Str.includes existing "agent-trace") eqn:Hin; cbn [fst snd]; intros _.
    + split; [|split; [done|]].
      * exists existing. split; [exact Hfs|]. split; [done|]. apply prefix_refl.
      * rewrite (exec_installGitHook d). fold w. by rewrite Hdir, Hhook, Hfs, Hin.
    + set (text := (existing ++ _)%string).
      assert (Hmark : Str.includes text "agent-trace" = true).
      { apply includes_after.
        apply (includes_after (String Str.newline EmptyString)), hookContent_marked. }
      assert (Hnew : Repo.fs (Disk.repo (Disk.write_file d (hookPath w) text)) !! hookPath w
                     = Some text).
      { cbn [Disk.write_file Disk.repo Disk.with_repo Repo.fs Repo.with_fs].
        by rewrite lookup_insert_eq. }
      split; [|split].
      * exists text. split; [done|]. split; [done|]. cbn [default]. apply prefix_append.
      * intros p Hp. cbn [Disk.write_file Disk.repo Disk.with_repo Repo.fs Repo.with_fs].
        by rewrite lookup_insert_ne.
      * rewrite (exec_installGitHook (Disk.write_file d (hookPath w) text)).
        change (Disk.repo (Disk.write_file d (hookPath w) text))
          with (Repo.with_fs w (<[hookPath w := text]> (Repo.fs w))) in *.
        change (hooksDir (Repo.with_fs w _)) with (hooksDir w).
        change (hookPath (Repo.with_fs w _)) with (hookPath w) in *.
        rewrite (present_write_file d _ _ _ Hdir), (present_write_file d _ _ _ Hhook).
        cbn [negb]. by rewrite Hnew, Hmark.
  - cbn [fst snd]. intros _.
    assert (Hfs : Repo.fs w !! hookPath w = None).
    { unfold present in Hhook. apply orb_false_iff in Hhook as [H _].
      apply bool_decide_eq_false in H. by apply eq_None_not_Some. }
    set (text := GitHooksIO.hookContent).
    assert (Hnew : Repo.fs (Disk.repo (Disk.write_file d (hookPath w) text)) !! hookPath w
                   = Some text).
    { cbn [Disk.write_file Disk.repo Disk.with_repo Repo.fs Repo.with_fs].
      by rewrite lookup_insert_eq. }
    split; [|split].
    + exists text. split; [done|]. split; [apply hookContent_marked|]. by rewrite Hfs.
    + intros p Hp. cbn [Disk.write_file Disk.repo Disk.with_repo Repo.fs Repo.with_fs].
      by rewrite lookup_insert_ne.
    + rewrite (exec_installGitHook (Disk.write_file d (hookPath w) text)).
      change (Disk.repo (Disk.write_file d (hookPath w) text))
        with (Repo.with_fs w (<[hookPath w := text]> (Repo.fs w))) in *.
      change (hooksDir (Repo.with_fs w _)) with (hooksDir w).
      change (hookPath (Repo.with_fs w _)) with (hookPath w) in *.
      rewrite (present_write_file d _ _ _ Hdir). cbn [negb].
      assert (present (Disk.write_file d (hookPath w) text) (hookPath w) = true) as ->.
      { unfold present. apply orb_true_iff. left. apply bool_decide_eq_true.
        cbn [Disk.write_file Disk.repo Disk.with_repo Repo.fs Repo.with_fs].
        rewrite lookup_insert_eq. by eexists. }
      rewrite Hnew. unfold text. by rewrite hookContent_marked.
Qed.

End HookInstallFacts.

Module ReadBackFacts.
Import Effects FsEffects DiskSpec ScriptFacts StoreSpec WorldFacts StoreFacts RepairSpec
       RepairFacts WriteFacts Valid ValidFacts AppendFacts DrainFacts BufferFacts.

Lemma quiet_getCommitsWithTraces cwd : quiet (NotesQueries.getCommitsWithTraces cwd).
Proof.
  unfold NotesQueries.getCommitsWithTraces. apply quiet_catch.
  - apply quiet_bind; [apply quiet_ensureNotesRef|]. intros _.
    apply quiet_bind; [apply quiet_execFileSync|]. intros output.
    by destruct (_ || _).
  - intros e. destruct (NotesQueries.ref_missing e); [done|].
    apply quiet_bind; [by split | by intros].
Qed.

Lemma listing_empty blob : Repo.listing blob ∅ = "".
Proof. unfold Repo.listing. by rewrite map_to_list_empty. Qed.

Lemma repairedNotes_empty w : Repo.notes w = ∅ -> repairedNotes w = ∅.
Proof.
  intros Hn. unfold repairedNotes. rewrite Hn.
  destruct (Repo.notes_ref w); try done. by destruct (Repo.HEAD w).
Qed.

(** On a model repository without notes the list of the notes prints
    nothing. *)
Lemma exec_getCommitsWithTraces (w : Repo.World) cwd :
  Repo.notes w = ∅ ->
  Repo.exec (NotesQueries.getCommitsWithTraces cwd) w = (inr [], repaired w).
Proof.
  intros Hn. unfold NotesQueries.getCommitsWithTraces, Repo.exec.
  rewrite ProgFacts.run_catch, ProgFacts.run_mbind.
  pose proof (exec_ensureNotesRef w cwd) as E. unfold Repo.exec in E. rewrite E. clear E.
  rewrite ProgFacts.run_mbind, ProgFacts.run_execFileSync.
  cbn [Repo.handler Repo.git GitNotes.notes_args GitNotes.NOTES_REF app].
  change (Repo.notes_ref (repaired w)) with (repairedRef w).
  change (Repo.notes (repaired w)) with (repairedNotes w).
  rewrite (repairedNotes_empty w Hn), listing_empty.
  by destruct (repairedRef_cases w) as [-> | ->].
Qed.

Section WithJson.

Variables is_uuid is_datetime is_url : string -> bool.
Variable JSON_parse : string -> option json.
Variable JSON_stringify : json -> string.
Variable JSON_stringify_line : json -> string.

#[local] Abbreviation validRecord := (validRecord is_uuid is_datetime is_url).
#[local] Abbreviation appendTrace :=
  (TraceStoreIO.appendTrace is_uuid is_datetime is_url JSON_parse JSON_stringify
                            JSON_stringify_line).
#[local] Abbreviation stagingLine := (TraceStoreIO.stagingLine JSON_stringify_line).
#[local] Abbreviation readTraces :=
  (TraceStoreIO.readTraces is_uuid is_datetime is_url JSON_parse).

(** A record staged before the first commit is read back.  On a repository
    without a commit, without a note and without a staging buffer,
    [readTraces] without a commit returns, after [appendTrace], that record
    alone, when the record is valid for the schema and the line
    [JSON.stringify(trace)] is read back as it. *)
Theorem staged_record_is_read (d : Disk.World) (trace : TraceRecord) (text : string) :
  let w := Disk.repo d in
  Repo.HEAD w = None ->
  Repo.notes w = ∅ ->
  Repo.fs w !! stagingPath w = None ->
  validRecord trace ->
  GitHooks.stagingLines (stagingLine trace) = [text] ->
  JSON_parse text = Some (Encode.of_TraceRecord trace) ->
  (Disk.exec (appendTrace trace;; readTraces None None) d).1 = inr [trace].
Proof.
  intros w Hhead Hnotes Hfs Hvalid Hline Hparse.
  unfold Disk.exec. rewrite script_mbind.
  pose proof (exec_appendTrace is_uuid is_datetime is_url JSON_parse JSON_stringify
                JSON_stringify_line d trace) as E.
  unfold Disk.exec in E. rewrite E. clear E. fold w. rewrite Hhead.
  unfold staged. cbn [Disk.repo Disk.with_repo].
  change (Repo.fs (repaired w)) with (Repo.fs w). fold (stagingPath w).
  rewrite Hfs. cbn [default]. change ("" ++ stagingLine trace)%string with (stagingLine trace).
  set (w1 := Repo.with_fs _ _). set (d1 := Disk.mkDisk w1 _).
  assert (Hn1 : Repo.notes w1 = ∅) by (by apply repairedNotes_empty).
  assert (Hpath : stagingPath w1 = stagingPath w) by reflexivity.
  unfold TraceStoreIO.readTraces. cbn [GitNotes.nonempty].
  rewrite script_mbind.
  pose proof (exec_lift_quiet _ d1 quiet_getWorkspaceRoot) as E.
  unfold Disk.exec in E. rewrite E, exec_getWorkspaceRoot. clear E. cbn [fst snd].
  change (Disk.repo d1) with w1. assert (Disk.with_repo d1 w1 = d1) as -> by reflexivity.
  rewrite script_mbind.
  pose proof (exec_lift_quiet _ d1
                (quiet_getCommitsWithTraces (Some (workspaceRoot w1)))) as E.
  unfold Disk.exec in E. rewrite E, (exec_getCommitsWithTraces w1 _ Hn1). clear E.
  cbn [fst snd].
  change (Disk.repo d1) with w1.
  set (d2 := Disk.with_repo d1 (repaired w1)).
  rewrite script_mbind. cbn [NotesQueries.readAll lift run].
  rewrite script_mbind. unfold existsSync. rewrite run_ask. cbn [Disk.handler fst snd].
  fold (stagingPath w1). rewrite Hpath.
  assert (Hfile : Repo.fs (Disk.repo d2) !! stagingPath w = Some (stagingLine trace)).
  { cbn [d2 Disk.with_repo Disk.repo repaired Repo.with_notes Repo.fs].
    unfold w1. cbn [Repo.with_fs Repo.fs]. by rewrite lookup_insert_eq. }
  rewrite Hfile. rewrite bool_decide_true by (by eexists). cbn [orb].
  rewrite script_mbind.
  pose proof (exec_lift_quiet _ d2 (quiet_readFileSync (stagingPath w))) as E.
  unfold Disk.exec in E. rewrite E. clear E.
  unfold Repo.exec, readFileSync at 1.
  rewrite ProgFacts.run_mbind, ProgFacts.run_call. cbn [Repo.handler fst snd].
  rewrite Hfile. cbn [Effects.run fst snd].
  rewrite Hline. cbn [TraceStoreIO.readStagingLines]. rewrite Hparse.
  cbn [mbind option_bind]. unfold GitNotes.TraceRecordSchema.
  rewrite (TraceRecordSchema_encoded is_uuid is_datetime is_url trace Hvalid).
  reflexivity.
Qed.

End WithJson.
End ReadBackFacts.

(* ===================================================================== *)
(** ** The further theorems at closed inputs *)
(* ===================================================================== *)

Module MoreInstances.
Import Effects.

#[local] Abbreviation validRecord :=
  (Valid.validRecord RefJson.is_uuid RefJson.is_datetime RefJson.is_url).

Lemma late_valid : validRecord Examples.late.
Proof.
  split; [vm_compute; reflexivity|]. split; [vm_compute; reflexivity|].
  split; [vm_compute; reflexivity|].
  repeat constructor; vm_compute; try reflexivity; discriminate.
Qed.

Lemma early_valid : validRecord Examples.early.
Proof.
  split; [vm_compute; reflexivity|]. split; [vm_compute; reflexivity|].
  split; [vm_compute; reflexivity|].
  repeat constructor; vm_compute; try reflexivity; discriminate.
Qed.

(** A git that fails every command makes the write of a record throw. *)
Lemma write_fails_loudly_witness :
  exists message w',
    run Examples.failing_git (Examples.write Examples.commit [Examples.late] None) tt
    = (inl (Error message), w') /\
    Str.startsWith message "Failed to write git note: " = true.
Proof.
  apply (ListingFacts.write_fails_loudly RefJson.is_uuid RefJson.is_datetime RefJson.is_url
           RefJson.parse RefJson.stringify Examples.failing_git tt Examples.commit
           [Examples.late] None).
  - discriminate.
  - reflexivity.
Defined.

(** The two captures of one session are valid, and so is their
    consolidation. *)
Lemma consolidation_keeps_valid_witness :
  Forall validRecord [Examples.late; Examples.early] /\
  Forall validRecord (Consolidate.consolidateTraces [Examples.late; Examples.early]).
Proof.
  assert (H : Forall validRecord [Examples.late; Examples.early]).
  { constructor; [apply late_valid|]. constructor; [apply early_valid | constructor]. }
  split; [exact H|].
  exact (ValidMergeFacts.consolidation_keeps_valid RefJson.is_uuid RefJson.is_datetime
           RefJson.is_url [Examples.late; Examples.early] H).
Defined.

(** A record written to the commit of a repository that has no notes ref
    yet is read back. *)
Lemma write_then_read_witness :
  let w := Repo.with_notes (Examples.repository ∅ ∅) Repo.NoRef ∅ in
  RepairSpec.writable w /\
  Repo.resolve w "HEAD" = Some Examples.commit /\
  (Repo.exec (Examples.write "HEAD" [Examples.late] None) w).1 = inr tt /\
  (Repo.exec (Examples.write "HEAD" [Examples.late] None;;
              Examples.read "HEAD" None) w).1 = inr [Examples.late] /\
  (Repo.exec (Examples.write "HEAD" [Examples.late] None;;
              NotesQueries.hasTracesInNotes "HEAD" None) w).1 = inr true.
Proof.
  intros w.
  assert (Hw : RepairSpec.writable w) by (exists Examples.commit; split; reflexivity).
  split; [exact Hw|]. split; [reflexivity|].
  assert (Hv : Forall validRecord [Examples.late])
    by (constructor; [apply late_valid | constructor]).
  destruct (RoundTripFacts.write_then_read RefJson.is_uuid RefJson.is_datetime
              RefJson.is_url RefJson.parse RefJson.stringify
              w "HEAD" Examples.commit [Examples.late] None)
    as (H1 & H2 & H3 & _).
  - exact Hw.
  - reflexivity.
  - discriminate.
  - exact Hv.
  - vm_compute. discriminate.
  - vm_compute. reflexivity.
  - split; [exact H1|]. split; [exact H2 | exact H3].
Defined.

(** Two records in the two orders give one report. *)
Lemma report_ignores_order_witness :
  [Examples.late; Examples.other_session] ≡ₚ [Examples.other_session; Examples.late] /\
  Report.generateReport [Examples.late; Examples.other_session]
  = Report.generateReport [Examples.other_session; Examples.late].
Proof.
  assert (H : [Examples.late; Examples.other_session]
              ≡ₚ [Examples.other_session; Examples.late]) by apply perm_swap.
  split; [exact H|].
  exact (ReportSumFacts.report_ignores_order _ _ H).
Defined.

(** The second line of a file of three lines is found on line 2. *)
Lemma computed_position_witness :
  let p := TraceStore.positionOf (Some Examples.three_lines) Examples.second_line in
  TraceStore.edit_range Examples.second_line = None /\
  TraceStore.pos_start_line p = 2.
Proof.
  intros p. split; [reflexivity|].
  destruct (PositionFacts.computed_position (Some Examples.three_lines)
              Examples.second_line eq_refl) as (_ & Hstart & _).
  apply (Hstart (Examples.lines ["const a = 1;"]) (Examples.lines [""; "const c = 3;"])).
  - vm_compute. reflexivity.
  - discriminate.
  - vm_compute. repeat split.
Defined.

(** A record created for that edit in a Cursor session passes the
    schema. *)
Lemma created_trace_validates_witness :
  let opts :=
    {| TraceStore.opt_model := Some "claude-opus-4-5";
       TraceStore.opt_rangePositions :=
         Some (TraceStore.computeRangePositions [Examples.second_line]
                                                (Some Examples.three_lines));
       TraceStore.opt_transcript := Some "/home/dev/.cursor/session-1.jsonl";
       TraceStore.opt_metadata := None |} in
  let trace :=
    TraceStore.traceOf ai "src/a.ts" opts "0b4f8a52-1c1e-4c0b-9d61-5a3b8e1f0a01"
                       "2024-05-02T12:00:00Z" None
                       {| tool_name := "cursor"; tool_version := Some "1.2.3" |} in
  RefJson.is_uuid "0b4f8a52-1c1e-4c0b-9d61-5a3b8e1f0a01" = true /\
  RefJson.is_datetime "2024-05-02T12:00:00Z" = true /\
  Examples.Schema (Encode.of_TraceRecord trace) = Some trace /\
  Forall Spec.range_ordered (Spec.all_ranges trace).
Proof.
  intros opts trace.
  assert (Hid : RefJson.is_uuid "0b4f8a52-1c1e-4c0b-9d61-5a3b8e1f0a01" = true)
    by (vm_compute; reflexivity).
  assert (Hts : RefJson.is_datetime "2024-05-02T12:00:00Z" = true)
    by (vm_compute; reflexivity).
  split; [exact Hid|]. split; [exact Hts|].
  destruct (CreatedFacts.created_trace_validates RefJson.is_uuid RefJson.is_datetime
              RefJson.is_url [Examples.second_line] (Some Examples.three_lines) ai
              "src/a.ts" (Some "claude-opus-4-5")
              (Some "/home/dev/.cursor/session-1.jsonl") None
              "0b4f8a52-1c1e-4c0b-9d61-5a3b8e1f0a01" "2024-05-02T12:00:00Z" None
              {| tool_name := "cursor"; tool_version := Some "1.2.3" |})
    as (H1 & _ & H3).
  - constructor; [reflexivity | constructor].
  - exact Hid.
  - exact Hts.
  - right. vm_compute. reflexivity.
  - vm_compute. lia.
  - split; [exact H1 | exact H3].
Defined.

(** A record staged before the first commit stays in the buffer: the drain
    after the commit throws. *)
Lemma staged_record_is_stuck_witness :
  let staged := (Disk.exec (Examples.append Examples.late) Examples.unborn_disk).2 in
  let drained :=
    Disk.exec (FsEffects.lift Examples.attach)
      (Disk.with_repo staged (DiskSpec.committed Examples.commit (Disk.repo staged))) in
  Repo.HEAD Examples.unborn = None /\
  Repo.notes_ref Examples.unborn <> Repo.GoodRef /\
  Repo.fs Examples.unborn !! Examples.staging_file = None /\
  drained.1 = inl RepairSpec.blocked /\
  Repo.fs (Disk.repo drained.2) !! Examples.staging_file
  = Some (Examples.line_of_record Examples.late ++ String Str.newline "")%string /\
  (Repo.exec (Examples.read Examples.commit None) (Disk.repo drained.2)).1 = inr [].
Proof.
  intros staged drained.
  assert (Hg : Repo.notes_ref Examples.unborn <> Repo.GoodRef) by discriminate.
  split; [reflexivity|]. split; [exact Hg|]. split; [reflexivity|].
  destruct (BufferFacts.staged_record_is_stuck RefJson.is_uuid RefJson.is_datetime
              RefJson.is_url RefJson.parse RefJson.stringify RefJson.stringify
              Examples.unborn_disk Examples.late Examples.commit
              (Examples.line_of_record Examples.late))
    as (H1 & H2 & _ & H4).
  - reflexivity.
  - exact Hg.
  - reflexivity.
  - vm_compute. reflexivity.
  - apply late_valid.
  - vm_compute. reflexivity.
  - vm_compute. reflexivity.
  - split; [exact H1|]. split; [exact H2 | exact H4].
Defined.

(** The consolidation of the two captures: one record, with the id of the
    first. *)
Lemma consolidation_shape_witness :
  let traces := [Examples.late; Examples.early] in
  traces <> [] /\ NoDup (map id traces) /\
  Consolidate.consolidateTraces traces <> [] /\
  NoDup (map id (Consolidate.consolidateTraces traces)).
Proof.
  intros traces.
  assert (Hne : traces <> []) by discriminate.
  assert (Hnd : NoDup (map id traces)).
  { apply NoDup_cons. split; [|apply NoDup_singleton].
    intros H. apply list_elem_of_singleton in H. discriminate. }
  destruct (ConsolidationFacts.consolidation_shape traces) as (_ & H1 & _ & H2 & _).
  split; [exact Hne|]. split; [exact Hnd|]. split; [exact (H1 Hne) | exact (H2 Hnd)].
Defined.

(** Before the first commit [ensureNotesRef] binds a missing notes ref to
    the empty tree; with a commit it puts it in order. *)
Lemma ensureNotesRef_outcome_witness :
  let fresh := Repo.with_notes (Examples.repository ∅ ∅) Repo.NoRef ∅ in
  Repo.HEAD Examples.unborn = None /\
  Repo.notes_ref Examples.unborn <> Repo.GoodRef /\
  Repo.notes_ref (Repo.exec (GitNotes.ensureNotesRef None) Examples.unborn).2
  = Repo.TreeRef /\
  RepairSpec.writable fresh /\
  Repo.notes_ref (Repo.exec (GitNotes.ensureNotesRef None) fresh).2 = Repo.GoodRef.
Proof.
  intros fresh.
  assert (Hg : Repo.notes_ref Examples.unborn <> Repo.GoodRef) by discriminate.
  assert (Hw : RepairSpec.writable fresh) by (exists Examples.commit; split; reflexivity).
  split; [reflexivity|]. split; [exact Hg|]. split; [|split; [exact Hw|]].
  - destruct (WriteFacts.ensureNotesRef_outcome Examples.unborn None)
      as (_ & _ & _ & _ & H & _).
    exact (H eq_refl Hg).
  - destruct (WriteFacts.ensureNotesRef_outcome fresh None) as (_ & _ & H & _).
    exact (H Hw).
Defined.

(** Without a buffer the drain does nothing; a buffer without a line that
    parses is kept. *)
Lemma staging_kept_without_write_witness :
  let w := Examples.repository ∅ ∅ in
  let garbage := Examples.repository ∅ {[ Examples.staging_file := "{not json" ]} in
  Repo.fs w !! Examples.staging_file = None /\
  Repo.exec Examples.attach w = (inr tt, w) /\
  Repo.fs garbage !! Examples.staging_file = Some "{not json" /\
  Repo.fs (Repo.exec Examples.attach garbage).2 !! Examples.staging_file
  = Some "{not json".
Proof.
  intros w garbage. split; [reflexivity|].
  destruct (StagingFacts.staging_kept_without_write RefJson.is_uuid RefJson.is_datetime
              RefJson.is_url RefJson.parse RefJson.stringify w) as (H1 & _).
  split; [exact (H1 eq_refl)|].
  assert (Hfs : Repo.fs garbage !! Examples.staging_file = Some "{not json")
    by (vm_compute; reflexivity).
  split; [exact Hfs|].
  destruct (StagingFacts.staging_kept_without_write RefJson.is_uuid RefJson.is_datetime
              RefJson.is_url RefJson.parse RefJson.stringify garbage) as (_ & _ & H3).
  destruct (H3 "{not json" Examples.commit Hfs eq_refl) as (_ & H & _).
  - vm_compute. reflexivity.
  - exact H.
Defined.

(** The analysis of a commit that adds line 3 of [src/a.ts], for the record
    [late]. *)
Lemma analysis_shape_witness :
  let file := {| GitUtils.fc_path := "src/a.ts"; GitUtils.additions := 1;
                 GitUtils.deletions := 0;
                 GitUtils.changes := [ {| GitUtils.line := 3;
                                          GitUtils.change_type := GitUtils.added |} ] |} in
  let entry :=
    {| Analyzer.fa_path := "src/a.ts";
       Analyzer.fa_ranges :=
         [ {| Analyzer.a_start_line := 1; Analyzer.a_end_line := 50;
              Analyzer.a_type := ai;
              Analyzer.a_model_id := Some "anthropic/claude-opus-4-5" |} ];
       Analyzer.fa_models := ["anthropic/claude-opus-4-5"] |} in
  entry ∈ Analyzer.analyzeFiles [Examples.late] [file] /\
  (exists fc, fc ∈ [file] /\ GitUtils.fc_path fc = "src/a.ts" /\
              Forall (MatcherSpec.touched fc) (Analyzer.fa_ranges entry)) /\
  MatcherSpec.recordedModel "src/a.ts" [Examples.late] "anthropic/claude-opus-4-5".
Proof.
  intros file entry.
  assert (Hin : entry ∈ Analyzer.analyzeFiles [Examples.late] [file])
    by (vm_compute; left).
  destruct (AnalysisFacts.analysis_shape [Examples.late] [file]) as [_ Hall].
  destruct (Hall entry Hin) as (_ & H2 & _ & _ & H5).
  split; [exact Hin|]. split; [exact H2|].
  apply (H5 "anthropic/claude-opus-4-5"). left.
Defined.

(** A model of Anthropic gets the name of its provider. *)
Lemma normalizeModelId_idempotent_witness :
  TraceStore.normalizeModelId (Some "claude-opus-4-5") = Some "anthropic/claude-opus-4-5" /\
  ("anthropic/claude-opus-4-5" = "claude-opus-4-5" \/
   exists provider, provider ∈ ["anthropic"; "openai"; "google"] /\
                    "anthropic/claude-opus-4-5" = (provider ++ "/" ++ "claude-opus-4-5")%string).
Proof.
  split; [reflexivity|].
  destruct TraceStoreFacts.normalizeModelId_idempotent as (_ & _ & H).
  exact (H "claude-opus-4-5" "anthropic/claude-opus-4-5" eq_refl).
Defined.

(** A blank [model] hides the [model_id] of the input. *)
Lemma extractModel_precedence_witness :
  HookSpec.firstNamed Examples.blank_model = Some " " /\
  Str.trim " " = "" /\
  TraceHook.extractModel Examples.blank_model
  = TraceHook.extractModel (HookSpec.metadataOnly Examples.blank_model).
Proof.
  split; [reflexivity|]. split; [reflexivity|].
  destruct (HookFacts.extractModel_precedence Examples.blank_model) as (_ & H & _).
  exact (H " " eq_refl eq_refl).
Defined.

(** The record [late], written as JSON, validates to itself. *)
Lemma validation_round_trip_witness :
  validRecord Examples.late /\
  Examples.Schema (Encode.of_TraceRecord Examples.late) = Some Examples.late.
Proof.
  split; [apply late_valid|].
  destruct (SchemaRoundTrip.validation_round_trip RefJson.is_uuid RefJson.is_datetime
              RefJson.is_url) as (_ & H & _).
  exact (H Examples.late late_valid).
Defined.

(** With a git that fails, the read of a range returns no record. *)
Lemma range_read_is_all_or_nothing_witness :
  Examples.failing_git _ (ExecFileSync ["rev-list"; "HEAD~2..HEAD"] None None) tt
  = (inl {| err_status := Some 2; err_code := None |}, tt) /\
  run Examples.failing_git
      (NotesQueries.readTracesFromNotesRange RefJson.is_uuid RefJson.is_datetime
         RefJson.is_url RefJson.parse "HEAD~2" "HEAD" None) tt
  = (inr [], tt).
Proof.
  split; [reflexivity|].
  destruct (RangeReadFacts.range_read_is_all_or_nothing RefJson.is_uuid RefJson.is_datetime
              RefJson.is_url RefJson.parse Examples.failing_git tt tt "HEAD~2" "HEAD" None)
    as (H & _).
  exact (H {| err_status := Some 2; err_code := None |} eq_refl).
Defined.

(** Before the first commit a record goes to the staging buffer and the
    notes ref is left bound to the empty tree; with a commit and such a ref
    the record goes to the buffer too. *)
Lemma appendTrace_stores_witness :
  let d' := (Disk.exec (Examples.append Examples.late) Examples.unborn_disk).2 in
  let bound := Repo.with_notes (Examples.repository ∅ ∅) Repo.TreeRef ∅ in
  let later :=
    (Disk.exec (Examples.append Examples.late)
               {| Disk.repo := bound; Disk.dirs := ∅ |}).2 in
  Repo.HEAD Examples.unborn = None /\
  Repo.notes_ref Examples.unborn <> Repo.GoodRef /\
  Repo.fs (Disk.repo d')
  = {[ Examples.staging_file :=
         (Examples.line_of_record Examples.late ++ String Str.newline "")%string ]} /\
  Repo.notes (Disk.repo d') = ∅ /\
  Repo.notes_ref (Disk.repo d') = Repo.TreeRef /\
  Disk.dirs d' = {[ "/work/.agent-trace" ]} ∪ {[ "/work/.git/hooks" ]} /\
  Repo.HEAD bound = Some Examples.commit /\
  ~ RepairSpec.writable bound /\
  Repo.fs (Disk.repo later)
  = {[ Examples.staging_file :=
         (Examples.line_of_record Examples.late ++ String Str.newline "")%string ]} /\
  Repo.notes (Disk.repo later) = ∅.
Proof.
  intros d' bound later.
  assert (Hg : Repo.notes_ref Examples.unborn <> Repo.GoodRef) by discriminate.
  assert (Hw : ~ RepairSpec.writable bound) by (intros []).
  split; [reflexivity|]. split; [exact Hg|].
  destruct (AppendFacts.appendTrace_stores RefJson.is_uuid RefJson.is_datetime
              RefJson.is_url RefJson.parse RefJson.stringify RefJson.stringify
              Examples.unborn_disk Examples.late) as (_ & _ & _ & H).
  destruct (H eq_refl) as (H1 & H2 & H3 & H4).
  split; [exact H1|]. split; [exact H2|]. split; [exact (H3 Hg)|]. split; [exact H4|].
  split; [reflexivity|]. split; [exact Hw|].
  destruct (AppendFacts.appendTrace_stores RefJson.is_uuid RefJson.is_datetime
              RefJson.is_url RefJson.parse RefJson.stringify RefJson.stringify
              {| Disk.repo := bound; Disk.dirs := ∅ |} Examples.late) as (_ & _ & H' & _).
  destruct (H' Examples.commit eq_refl) as (K1 & _ & K3 & _).
  - vm_compute. reflexivity.
  - exact Hw.
  - split; [exact K1 | exact K3].
Defined.

(** In a repository without a hook the hook is written, and a second run
    changes nothing; outside a repository the installation throws. *)
Lemma installGitHook_once_witness :
  let first := Disk.exec GitHooksIO.installGitHook Examples.unborn_disk in
  first.1 = inr tt /\
  Disk.exec GitHooksIO.installGitHook first.2 = (inr tt, first.2) /\
  DiskSpec.present Examples.plain_disk (DiskSpec.hooksDir Examples.unborn) = false /\
  Disk.exec GitHooksIO.installGitHook Examples.plain_disk
  = (inl (Error "Not in a git repository"), Examples.plain_disk).
Proof.
  intros first.
  assert (H1 : first.1 = inr tt) by (vm_compute; reflexivity).
  split; [exact H1|].
  destruct (HookInstallFacts.installGitHook_once Examples.unborn_disk) as (_ & H).
  destruct (H H1) as (_ & _ & H2).
  split; [exact H2|].
  assert (Hp : DiskSpec.present Examples.plain_disk (DiskSpec.hooksDir Examples.unborn)
               = false) by (vm_compute; reflexivity).
  split; [exact Hp|].
  destruct (HookInstallFacts.installGitHook_once Examples.plain_disk) as (H0 & _).
  exact (H0 Hp).
Defined.

(** A record staged before the first commit is read back. *)
Lemma staged_record_is_read_witness :
  Repo.HEAD Examples.unborn = None /\
  Repo.notes Examples.unborn = ∅ /\
  (Disk.exec (Examples.append Examples.late;;
              TraceStoreIO.readTraces RefJson.is_uuid RefJson.is_datetime RefJson.is_url
                                      RefJson.parse None None)
             Examples.unborn_disk).1
  = inr [Examples.late].
Proof.
  split; [reflexivity|]. split; [reflexivity|].
  apply (ReadBackFacts.staged_record_is_read RefJson.is_uuid RefJson.is_datetime
           RefJson.is_url RefJson.parse RefJson.stringify RefJson.stringify
           Examples.unborn_disk Examples.late (Examples.line_of_record Examples.late)).
  - reflexivity.
  - reflexivity.
  - reflexivity.
  - apply late_valid.
  - vm_compute. reflexivity.
  - vm_compute. reflexivity.
Defined.

(** A write to a commit whose note is not JSON: the note is overwritten by
    the record written. *)
Lemma write_keeps_attributions_witness :
  let w := Examples.repository {[ Examples.commit := "{not json" ]} ∅ in
  let after := Repo.exec (Examples.write Examples.commit [Examples.late] None) w in
  RepairSpec.writable w /\
  (Repo.exec (Examples.read Examples.commit None) w).1 = inl SyntaxError /\
  after.1 = inr tt /\
  exists stored,
    Repo.notes after.2 !! Examples.commit = Some (Examples.note_of stored) /\
    forall a, a ∈ Attribution.attributions stored <->
              a ∈ Attribution.attributions [] \/
              a ∈ Attribution.attributions [Examples.late].
Proof.
  intros w after. split; [exact I|]. split; [vm_compute; reflexivity|].
  apply (WriteAttributionFacts.write_keeps_attributions RefJson.is_uuid RefJson.is_datetime
           RefJson.is_url RefJson.parse RefJson.stringify
           w Examples.commit Examples.commit [Examples.late] None).
  - exact I.
  - reflexivity.
  - discriminate.
Defined.

End MoreInstances.
